(** * The h2 tool chain: virtual machine, lexer and assembler of h2.c

    A shallow embedding of [src/h2.c]: the simulator [h2_run], the number
    scanner and lexer, and the code generator ([generate], [generate_jump],
    [generate_literal], [assemble], [code]) with its symbol table and its
    two peephole rewrites.

    Conventions.  A [uint16_t] is a [Z] in [0, 65536); every C assignment that
    truncates is written with [u16].  The core memory is a [list Z] indexed by
    cell; an access outside the array is undefined in C and is the outcome
    [Undefined] here.  The header [h2.h] is not among the sources: its
    constants are the fields of the record [header], and the parts of the
    instruction layout that the code fixes by use are written out. *)

From stdpp Require Import base list strings numbers.
From Stdlib Require Import ZArith Lia Ascii.

Local Open Scope Z_scope.

(** ** Machine integers *)

Definition u16 (x : Z) : Z := x mod 65536.
Definition u32 (x : Z) : Z := x mod 4294967296.

(** [(int16_t)x] for a 16-bit [x]. *)
Definition s16 (x : Z) : Z := if x <? 32768 then x else x - 65536.

(** [-(b)] stored in a [uint16_t]: all ones or zero. *)
Definition flag (b : bool) : Z := if b then 65535 else 0.

(** [~x] stored in a [uint16_t]. *)
Definition not16 (x : Z) : Z := u16 (Z.lnot x).

(** ** Failure *)

(** What the messages of [syntax_error] and [assembly_error] say. *)
Inductive message :=
| comment_terminated_by_EOF
| string_terminated_by_EOF
| identifier_too_large
| invalid_character
| nested_definitions_are_not_allowed
| use_of_semicolon_not_terminating_word_definition
| redefinition_of_symbol
| undefined_symbol
| cannot_branch_to_call
| invalid_jump_address
| symbol_not_found
| string_is_too_large
| is_not_a_symbol
| dictionary_overflow
| doVar_not_defined
| not_a_defined_procedure
| not_a_constant_or_a_defined_procedure
| can_only_call_or_push_literal
| cannot_modify_word_bits
| nested_word_definition
| built_in_words_already_defined.

(** The ways a call can fail to come back: [ethrow] through the jump buffer,
    [fatal] (which exits), a failed [assert], and behaviour that C leaves
    undefined. *)
Inductive failure :=
| Thrown (m : message)
| Fatal
| Assertion
| UndefinedBehaviour.

Inductive result (A : Type) :=
| Ok (x : A)
| Fail (f : failure).
Arguments Ok {A} x.
Arguments Fail {A} f.

Definition rbind {A B} (k : A -> result B) (r : result A) : result B :=
  match r with
  | Ok x => k x
  | Fail f => Fail f
  end.

#[global] Instance result_bind : MBind result := @rbind.
#[global] Instance result_ret : MRet result := @Ok.

(** [assert(b)] *)
Definition assert (b : bool) : result unit :=
  if b then Ok tt else Fail Assertion.

(** An access that C leaves undefined when the value is not there. *)
Definition defined {A} (o : option A) : result A :=
  match o with
  | Some x => Ok x
  | None => Fail UndefinedBehaviour
  end.

(** ** The constants of h2.h *)

(** Modelled from the spec: the header h2.h, which declares these constants,
    is missing.  The spec names [MAX_PROGRAM], [START_ADDR],
    [VARIABLE_STACK_START], [RETURN_STACK_START] and the length
    [MAX_MEMORY/2] of the core without giving their values; it gives the
    width of the ALU field and the place of the R->PC flag in a way that the
    22 cases of the switch of [h2_run] do not fit (a field of four bits at
    bit 8 selects 16 codes), so these two are constants of the header as
    well.  The instruction words of the mnemonic table
    [X_MACRO_INSTRUCTIONS] are those the table lists; the six that the
    assembler names and the spec does not describe are fields too. *)
Record header := {
  MAX_PROGRAM : Z;
  START_ADDR : Z;
  VARIABLE_STACK_START : Z;
  RETURN_STACK_START : Z;
  CORE_CELLS : Z;               (* MAX_MEMORY/2, the length of [core] *)
  ALU_OP_LENGTH : Z;            (* width of the ALU field, which starts at bit 8 *)
  R_TO_PC_BIT_INDEX : Z;
  CODE_FROMR : Z;
  CODE_LOAD : Z;
  CODE_T_N1 : Z;
  CODE_TOR : Z;
  CODE_RAT : Z;
  CODE_RDROP : Z;
  (* name, compile flag and instruction word of each mnemonic, from
     LEX_DUP to LEX_RDROP *)
  X_MACRO_INSTRUCTIONS : list (string * bool * Z)
}.

(** The 22 ALU operations, in the order of the switch of [h2_run]. *)
Inductive alu_code_e :=
| ALU_OP_T | ALU_OP_N | ALU_OP_T_PLUS_N | ALU_OP_T_AND_N | ALU_OP_T_OR_N
| ALU_OP_T_XOR_N | ALU_OP_T_INVERT | ALU_OP_T_EQUAL_N | ALU_OP_N_LESS_T
| ALU_OP_N_RSHIFT_T | ALU_OP_T_DECREMENT | ALU_OP_R | ALU_OP_T_LOAD
| ALU_OP_N_LSHIFT_T | ALU_OP_DEPTH | ALU_OP_N_ULESS_T | ALU_OP_RDEPTH
| ALU_OP_T_EQUAL_0 | ALU_OP_TX | ALU_OP_RX | ALU_OP_SAVE | ALU_OP_BYE.

Definition alu_codes : list alu_code_e :=
  [ ALU_OP_T; ALU_OP_N; ALU_OP_T_PLUS_N; ALU_OP_T_AND_N; ALU_OP_T_OR_N;
    ALU_OP_T_XOR_N; ALU_OP_T_INVERT; ALU_OP_T_EQUAL_N; ALU_OP_N_LESS_T;
    ALU_OP_N_RSHIFT_T; ALU_OP_T_DECREMENT; ALU_OP_R; ALU_OP_T_LOAD;
    ALU_OP_N_LSHIFT_T; ALU_OP_DEPTH; ALU_OP_N_ULESS_T; ALU_OP_RDEPTH;
    ALU_OP_T_EQUAL_0; ALU_OP_TX; ALU_OP_RX; ALU_OP_SAVE; ALU_OP_BYE ].

(** Modelled from the spec: the values of the enumeration [alu_code_e] of
    h2.h, numbered from 0 in the order in which the spec lists the
    operations. *)
Definition alu_code_value (c : alu_code_e) : Z :=
  match c with
  | ALU_OP_T => 0 | ALU_OP_N => 1 | ALU_OP_T_PLUS_N => 2 | ALU_OP_T_AND_N => 3
  | ALU_OP_T_OR_N => 4 | ALU_OP_T_XOR_N => 5 | ALU_OP_T_INVERT => 6
  | ALU_OP_T_EQUAL_N => 7 | ALU_OP_N_LESS_T => 8 | ALU_OP_N_RSHIFT_T => 9
  | ALU_OP_T_DECREMENT => 10 | ALU_OP_R => 11 | ALU_OP_T_LOAD => 12
  | ALU_OP_N_LSHIFT_T => 13 | ALU_OP_DEPTH => 14 | ALU_OP_N_ULESS_T => 15
  | ALU_OP_RDEPTH => 16 | ALU_OP_T_EQUAL_0 => 17 | ALU_OP_TX => 18
  | ALU_OP_RX => 19 | ALU_OP_SAVE => 20 | ALU_OP_BYE => 21
  end.

(** The case of the switch that a value of the ALU field selects, if any. *)
Definition alu_code_of (v : Z) : option alu_code_e :=
  if (0 <=? v) && (v <? 22) then alu_codes !! Z.to_nat v else None.

(** ** Instruction words *)

(** Modelled from the spec: the opcode bases, predicates, field decoders and
    composers of h2.h, as section 3 and section 4.1 of the spec give them. *)
Definition OP_BRANCH : Z := 0x0000.
Definition OP_0BRANCH : Z := 0x2000.
Definition OP_CALL : Z := 0x4000.
Definition OP_ALU_OP : Z := 0x6000.
Definition OP_LITERAL : Z := 0x8000.

Definition IS_LITERAL (i : Z) : bool := Z.land i 0x8000 =? 0x8000.
Definition IS_BRANCH (i : Z) : bool := Z.land i 0xE000 =? 0x0000.
Definition IS_0BRANCH (i : Z) : bool := Z.land i 0xE000 =? 0x2000.
Definition IS_CALL (i : Z) : bool := Z.land i 0xE000 =? 0x4000.
Definition IS_ALU_OP (i : Z) : bool := Z.land i 0xE000 =? 0x6000.

Definition DELTA_0 : Z := 0.
Definition DELTA_1 : Z := 1.
Definition DELTA_N2 : Z := 2.
Definition DELTA_N1 : Z := 3.

Definition MK_DSTACK (d : Z) : Z := Z.shiftl d 0.
Definition MK_RSTACK (d : Z) : Z := Z.shiftl d 2.
Definition MK_CODE (c : Z) : Z := Z.shiftl c 8.

Definition DSTACK (i : Z) : Z := Z.land i 0x3.
Definition RSTACK (i : Z) : Z := Z.land (Z.shiftr i 2) 0x3.

Definition T_TO_N : Z := 0x80.
Definition T_TO_R : Z := 0x40.
Definition N_TO_ADDR_T : Z := 0x20.

Section Header.

Context (hd : header).

Definition R_TO_PC : Z := Z.shiftl 1 (R_TO_PC_BIT_INDEX hd).

Definition ALU_OP (i : Z) : Z :=
  Z.land (Z.shiftr i 8) (Z.ones (ALU_OP_LENGTH hd)).

(** Modelled from the spec: [CODE_EXIT] and [CODE_INVERT] of the mnemonic
    table: the return is the ALU word that keeps T, sets R->PC and pops the
    return stack; the inversion is the ALU word that computes [~T]. *)
Definition CODE_EXIT : Z :=
  Z.lor (Z.lor (Z.lor OP_ALU_OP (MK_CODE (alu_code_value ALU_OP_T))) R_TO_PC)
        (MK_RSTACK DELTA_N1).

Definition CODE_INVERT : Z :=
  Z.lor OP_ALU_OP (MK_CODE (alu_code_value ALU_OP_T_INVERT)).

(** ** The lexer *)

Definition MAX_ID_LENGTH : Z := 256.

Definition char_code (c : ascii) : Z := Z.of_N (N_of_ascii c).

Definition isdigit (c : ascii) : bool :=
  (48 <=? char_code c) && (char_code c <=? 57).
Definition isxdigit (c : ascii) : bool :=
  isdigit c
  || ((97 <=? char_code c) && (char_code c <=? 102))
  || ((65 <=? char_code c) && (char_code c <=? 70)).
Definition isgraph (c : ascii) : bool :=
  (33 <=? char_code c) && (char_code c <=? 126).
Definition isspace (c : ascii) : bool :=
  (char_code c =? 32) || ((9 <=? char_code c) && (char_code c <=? 13)).
Definition tolower (c : Z) : Z :=
  if (65 <=? c) && (c <=? 90) then c + 32 else c.

(** The instruction tokens run from [LEX_DUP] to [LEX_RDROP]; the [k]-th
    entry of the mnemonic table gives [LEX_INSTRUCTION k]. *)
Inductive token_e :=
| LEX_LITERAL | LEX_IDENTIFIER | LEX_LABEL | LEX_STRING
| LEX_CONSTANT | LEX_CALL | LEX_BRANCH | LEX_0BRANCH | LEX_BEGIN | LEX_WHILE
| LEX_REPEAT | LEX_AGAIN | LEX_UNTIL | LEX_FOR | LEX_AFT | LEX_NEXT | LEX_IF
| LEX_ELSE | LEX_THEN | LEX_DEFINE | LEX_ENDDEFINE | LEX_CHAR | LEX_VARIABLE
| LEX_LOCATION | LEX_IMMEDIATE | LEX_HIDDEN | LEX_INLINE | LEX_QUOTE
| LEX_PWD | LEX_SET | LEX_PC | LEX_MODE | LEX_ALLOCATE | LEX_BUILT_IN
| LEX_INSTRUCTION (k : nat)
| LEX_ERROR
| LEX_EOI.

(** The union [p] of a token. *)
Inductive token_p :=
| p_none
| p_id (id : string)
| p_number (number : Z).

Record token_t := {
  tok_p : token_p;
  tok_line : Z;
  tok_type : token_e
}.

Definition named_tokens : list (string * token_e) :=
  [ ("constant", LEX_CONSTANT); ("call", LEX_CALL); ("branch", LEX_BRANCH);
    ("0branch", LEX_0BRANCH); ("begin", LEX_BEGIN); ("while", LEX_WHILE);
    ("repeat", LEX_REPEAT); ("again", LEX_AGAIN); ("until", LEX_UNTIL);
    ("for", LEX_FOR); ("aft", LEX_AFT); ("next", LEX_NEXT); ("if", LEX_IF);
    ("else", LEX_ELSE); ("then", LEX_THEN); (":", LEX_DEFINE);
    (";", LEX_ENDDEFINE); ("[char]", LEX_CHAR); ("variable", LEX_VARIABLE);
    ("location", LEX_LOCATION); ("immediate", LEX_IMMEDIATE);
    ("hidden", LEX_HIDDEN); ("inline", LEX_INLINE); ("'", LEX_QUOTE);
    (".pwd", LEX_PWD); (".set", LEX_SET); (".pc", LEX_PC); (".mode", LEX_MODE);
    (".allocate", LEX_ALLOCATE); (".built-in", LEX_BUILT_IN) ]%string.

(** The table [keywords] from [LEX_CONSTANT] on. *)
Definition keywords : list (string * token_e) :=
  named_tokens
  ++ imap (fun k e => (e.1.1, LEX_INSTRUCTION k)) (X_MACRO_INSTRUCTIONS hd).

(** The scan [for(sym = LEX_CONSTANT; ...; sym++)]: the first keyword equal
    to the word. *)
Fixpoint keyword_lookup (ks : list (string * token_e)) (id : string)
    : option token_e :=
  match ks with
  | [] => None
  | (k, sym) :: ks' => if String.eqb k id then Some sym else keyword_lookup ks' id
  end.

Definition map_char_to_number (c : ascii) : result Z :=
  let c := char_code c in
  if (48 <=? c) && (c <=? 57) then Ok (u16 (c - 48))
  else
    let c := tolower c in
    if (97 <=? c) && (c <=? 122) then Ok (u16 (c + 10 - 97))
    else Fail Fatal.

Definition numeric (c : ascii) (base : Z) : bool :=
  if base =? 10 then isdigit c else isxdigit c.

(** The loop [out = out * base + map_char_to_number(s[i])] on a
    [uint32_t]. *)
Fixpoint accumulate (base : Z) (s : list ascii) (out : Z) : result Z :=
  match s with
  | [] => Ok out
  | c :: s' =>
      d ← map_char_to_number c;
      accumulate base s' (u32 (out * base + d))
  end.

(** [number(s, o, length)]: [Ok None] is the return value 0, [Ok (Some o)]
    the return value 1 with [*o] set.  [s] is the buffer up to its
    terminator, which is [length] characters long at the only call. *)
Definition number (s : list ascii) : result (option Z) :=
  match s with
  | [] => Ok None
  | c0 :: s0 =>
      let after_sign :=
        if char_code c0 =? 45 (* '-' *) then
          match s0 with [] => None | _ => Some (true, s0) end
        else Some (false, s) in
      match after_sign with
      | None => Ok None
      | Some (negate, s1) =>
          let after_base :=
            match s1 with
            | c1 :: s2 =>
                if char_code c1 =? 36 (* '$' *) then
                  match s2 with [] => None | _ => Some (16, s2) end
                else Some (10, s1)
            | [] => Some (10, s1)
            end in
          match after_base with
          | None => Ok None
          | Some (base, digits) =>
              if forallb (fun c => numeric c base) digits then
                out ← accumulate base digits 0;
                Ok (Some (u16 (if negate then u32 (out * u32 (-1)) else out)))
              else Ok None
          end
      end
  end.

Record lexer_t := {
  l_input : list ascii;       (* what [fgetc] has still to deliver *)
  l_line : Z;
  l_token : option token_t;
  l_accepted : option token_t;
  l_in_definition : bool
}.

(** [for(; '\n' != (ch = next_char(l));)] of the backslash comment: what
    follows the end of the line, or [None] at the end of the input. *)
Fixpoint skip_line (s : list ascii) : option (list ascii) :=
  match s with
  | [] => None
  | c :: s' => if char_code c =? 10 then Some s' else skip_line s'
  end.

(** [for(; ')' != (ch = next_char(l));)] of the parenthesised comment. *)
Fixpoint skip_paren (s : list ascii) (line : Z) : option (list ascii * Z) :=
  match s with
  | [] => None
  | c :: s' =>
      if char_code c =? 41 then Some (s', line)
      else skip_paren s' (if char_code c =? 10 then u32 (line + 1) else line)
  end.

(** [duplicate(str)] copies with [strlen] and [strcpy]: the copy ends
    before the first NUL byte of the buffer. *)
Fixpoint duplicate (str : list ascii) : list ascii :=
  match str with
  | [] => []
  | c :: str' => if char_code c =? 0 then [] else c :: duplicate str'
  end.

(** The loop of the string case: the characters up to the closing quote. *)
Fixpoint scan_string (s : list ascii) (i : Z) (id : list ascii)
    : result (list ascii * list ascii) :=
  match s with
  | [] => Fail (Thrown string_terminated_by_EOF)
  | c :: s' =>
      if char_code c =? 34 then Ok (id, s')
      else if MAX_ID_LENGTH - 1 <=? i then Fail (Thrown identifier_too_large)
      else scan_string s' (i + 1) (id ++ [c])
  end.

(** [while(isgraph(ch))]: the word, and the input from the character that
    ended it (which [unget_char] gives back). *)
Fixpoint scan_graph (s : list ascii) (i : Z) (id : list ascii)
    : result (list ascii * list ascii) :=
  match s with
  | [] => Ok (id, [])
  | c :: s' =>
      if isgraph c then
        if MAX_ID_LENGTH - 1 <=? i then Fail (Thrown identifier_too_large)
        else scan_graph s' (i + 1) (id ++ [c])
      else Ok (id, s)
  end.

(** [l->id[i - 1]] *)
Definition last_char (id : list ascii) : option ascii :=
  id !! (length id - 1)%nat.

(** What follows the label [graph] once the word is in the buffer. *)
Definition classify (l : lexer_t) (line0 : Z) (id : list ascii)
    (rest : list ascii) (line : Z) : result lexer_t :=
  let finish ty pl indef :=
    Ok {| l_input := rest; l_line := line;
          l_token := Some {| tok_p := pl; tok_line := line0; tok_type := ty |};
          l_accepted := l_accepted l; l_in_definition := indef |} in
  lit ← number id;
    match lit with
    | Some n => finish LEX_LITERAL (p_number n) (l_in_definition l)
    | None =>
        match keyword_lookup keywords (String.string_of_list_ascii id) with
        | None =>
            if (1 <? Z.of_nat (length id))
               && (match last_char id with
                   | Some c => char_code c =? 58
                   | None => false end)
            then finish LEX_LABEL
                   (p_id (String.string_of_list_ascii (removelast id)))
                   (l_in_definition l)
            else finish LEX_IDENTIFIER (p_id (String.string_of_list_ascii id))
                   (l_in_definition l)
        | Some sym =>
            match sym with
            | LEX_DEFINE =>
                if l_in_definition l
                then Fail (Thrown nested_definitions_are_not_allowed)
                else finish sym p_none true
            | LEX_ENDDEFINE =>
                if l_in_definition l
                then finish sym p_none false
                else Fail (Thrown use_of_semicolon_not_terminating_word_definition)
            | _ => finish sym p_none (l_in_definition l)
            end
        end
    end.

(** The switch of [lexer] from the label [again]; [s] is the input with the
    character [ch] at its head, and [turns] counts the jumps back to
    [again]. *)
Fixpoint lexer_again (turns : nat) (l : lexer_t) (line0 : Z)
    (s : list ascii) (line : Z) : result lexer_t :=
  match s with
  | [] =>
      Ok {| l_input := []; l_line := line;
            l_token := Some {| tok_p := p_none; tok_line := line0; tok_type := LEX_EOI |};
            l_accepted := l_accepted l; l_in_definition := l_in_definition l |}
  | ch :: s' =>
      let c := char_code ch in
      let again s2 line2 :=
        match turns with
        | O => Fail UndefinedBehaviour
        | S turns' => lexer_again turns' l line0 s2 line2
        end in
      if c =? 10 then again s' (u32 (line + 1))
      else if (c =? 32) || (c =? 9) || (c =? 13) || (c =? 11) then again s' line
      else if c =? 92 (* backslash *) then
        match skip_line s' with
        | None => Fail (Thrown comment_terminated_by_EOF)
        | Some s2 => again s2 (u32 (line + 1))
        end
      else if c =? 40 (* ( *) then
        match s' with
        | c1 :: s2 =>
            if isspace c1 then
              match skip_paren s2 line with
              | None => Fail (Thrown comment_terminated_by_EOF)
              | Some (s3, line3) => again s3 line3
              end
            else Fail UndefinedBehaviour  (* [goto graph] with [i] not set *)
        | [] => Fail UndefinedBehaviour
        end
      else if c =? 34 (* double quote *) then
        '(id, rest) ← scan_string s' 0 [];
        Ok {| l_input := rest; l_line := line;
              l_token := Some {| tok_p := p_id (String.string_of_list_ascii
                                                  (duplicate id));
                                 tok_line := line0; tok_type := LEX_STRING |};
              l_accepted := l_accepted l;
              l_in_definition := l_in_definition l |}
      else if isgraph ch then
        '(id, rest) ← scan_graph s 0 [];
        classify l line0 id rest line
      else Fail (Thrown invalid_character)
  end.

(** [lexer(l)]: the next token, left in [l->token]. *)
Definition lexer (l : lexer_t) : result lexer_t :=
  lexer_again (length (l_input l)) l (l_line l) (l_input l) (l_line l).

(** ** The machine state *)

Record h2_t := {
  core : list Z;
  pc : Z;
  tos : Z;
  sp : Z;
  rp : Z
}.

Definition set_core (h : h2_t) (c : list Z) : h2_t :=
  {| core := c; pc := pc h; tos := tos h; sp := sp h; rp := rp h |}.
Definition set_pc (h : h2_t) (v : Z) : h2_t :=
  {| core := core h; pc := v; tos := tos h; sp := sp h; rp := rp h |}.

(** [h->core[i]]: outside the array the read is undefined. *)
Definition load (c : list Z) (i : Z) : option Z :=
  if (0 <=? i) then c !! Z.to_nat i else None.

(** [h->core[i] = v]: outside the array the write is undefined. *)
Definition store (c : list Z) (i v : Z) : option (list Z) :=
  if (0 <=? i) && (i <? Z.of_nat (length c))
  then Some (<[Z.to_nat i := v]> c) else None.

(** [allocate_or_die] clears the structure; the first [start_address] cells
    branch to the start address. *)
Definition h2_new (start_address : Z) : h2_t :=
  {| core := replicate (Z.to_nat start_address) (Z.lor OP_BRANCH start_address)
             ++ replicate (Z.to_nat (CORE_CELLS hd - start_address)) 0;
     pc := start_address;
     tos := 0;
     sp := VARIABLE_STACK_START hd;
     rp := RETURN_STACK_START hd |}.

(** ** The simulator *)

(** The terminal and the block file, as the simulator sees them: the bytes
    still to be read, the bytes written, and the last image saved. *)
Record io_t := {
  input : list Z;
  output : list Z;
  block : option (list Z)
}.

Definition ESCAPE : Z := 27.

Definition stack_delta (d : Z) : Z :=
  match d with
  | 0 => 0x0000 | 1 => 0x0001 | 2 => 0xFFFE | _ => 0xFFFF
  end.

(** What one turn of the loop of [h2_run] does. *)
Inductive step_t :=
| Continue (h : h2_t) (w : io_t)      (* go round the loop again *)
| Return (v : Z) (w : io_t)           (* [return tos] *)
| Exit (status : Z) (w : io_t)        (* [exit] inside [wrap_getch] *)
| Undefined.                          (* behaviour that C leaves undefined *)

(** The value the switch leaves in the local [tos]; [None] where C gives the
    expression no meaning (a shift by 32 or more, a left shift that leaves
    [int], a read outside the core). *)
Definition alu_value (op : option alu_code_e) (h : h2_t) (nos : Z) : option Z :=
  let tos := tos h in
  match op with
  | None => Some tos
  | Some ALU_OP_T => Some tos
  | Some ALU_OP_N => Some nos
  | Some ALU_OP_T_PLUS_N => Some (u16 (tos + nos))
  | Some ALU_OP_T_AND_N => Some (Z.land tos nos)
  | Some ALU_OP_T_OR_N => Some (Z.lor tos nos)
  | Some ALU_OP_T_XOR_N => Some (Z.lxor tos nos)
  | Some ALU_OP_T_INVERT => Some (not16 tos)
  | Some ALU_OP_T_EQUAL_N => Some (flag (tos =? nos))
  | Some ALU_OP_N_LESS_T => Some (flag (s16 nos <? s16 tos))
  | Some ALU_OP_N_RSHIFT_T =>
      if tos <? 32 then Some (u16 (Z.shiftr nos tos)) else None
  | Some ALU_OP_T_DECREMENT => Some (u16 (tos - 1))
  | Some ALU_OP_R => load (core h) (rp h)
  | Some ALU_OP_T_LOAD => load (core h) (Z.shiftr tos 1)
  | Some ALU_OP_N_LSHIFT_T =>
      if (tos <? 32) && (Z.shiftl nos tos <? 2147483648)
      then Some (u16 (Z.shiftl nos tos)) else None
  | Some ALU_OP_DEPTH => Some (u16 (sp h - VARIABLE_STACK_START hd))
  | Some ALU_OP_N_ULESS_T => Some (flag (nos <? tos))
  | Some ALU_OP_RDEPTH => Some (u16 (rp h - RETURN_STACK_START hd))
  | Some ALU_OP_T_EQUAL_0 => Some (flag (tos =? 0))
  | Some ALU_OP_TX => Some nos
  | Some ALU_OP_RX => Some tos       (* replaced by the byte read, see [alu] *)
  | Some ALU_OP_SAVE => Some tos
  | Some ALU_OP_BYE => Some tos
  end.

(** The three stores that follow the switch, then the new [tos] and [pc]. *)
Definition alu_commit (instruction : Z) (h : h2_t) (w : io_t)
    (nos tos' npc : Z) : step_t :=
  let sp' := u16 (sp h + stack_delta (DSTACK instruction)) in
  let rp' := u16 (rp h + stack_delta (RSTACK instruction)) in
  let c0 := Some (core h) in
  let c1 := if Z.land instruction T_TO_R =? 0 then c0
            else c ← c0; store c rp' (tos h) in
  let c2 := if Z.land instruction T_TO_N =? 0 then c1
            else c ← c1; store c sp' (tos h) in
  let c3 := if Z.land instruction N_TO_ADDR_T =? 0 then c2
            else c ← c2; store c (Z.shiftr (tos h) 1) nos in
  match c3 with
  | Some c => Continue {| core := c; pc := npc; tos := tos'; sp := sp'; rp := rp' |} w
  | None => Undefined
  end.

Definition alu (instruction : Z) (h : h2_t) (w : io_t) (pc_plus_one : Z) : step_t :=
  match load (core h) (sp h) with
  | None => Undefined
  | Some nos =>
    let onpc := if Z.land instruction R_TO_PC =? 0 then Some pc_plus_one
                else v ← load (core h) (rp h); Some (Z.shiftr v 1) in
    match onpc with
    | None => Undefined
    | Some npc =>
      let op := alu_code_of (ALU_OP instruction) in
      match op with
      | Some ALU_OP_BYE => Return (tos h) w
      | Some ALU_OP_RX =>
          (* [wrap_getch]: end of input and ESCAPE leave the process *)
          match input w with
          | [] => Exit 0 w
          | ch :: rest =>
              let w' := {| input := rest; output := output w; block := block w |} in
              if ch =? ESCAPE then Exit 0 w'
              else alu_commit instruction h w' nos (u16 ch) npc
          end
      | Some ALU_OP_TX =>
          let w' := {| input := input w;
                       output := output w ++ [Z.land (tos h) 0xFF];
                       block := block w |} in
          alu_commit instruction h w' nos nos npc
      | Some ALU_OP_SAVE =>
          let w' := {| input := input w; output := output w;
                       block := Some (core h) |} in
          alu_commit instruction h w' nos (tos h) npc
      | _ =>
          match alu_value op h nos with
          | Some tos' => alu_commit instruction h w nos tos' npc
          | None => Undefined
          end
      end
    end
  end.

(** One turn of the [for(;;)] of [h2_run]. *)
Definition h2_step (h : h2_t) (w : io_t) : step_t :=
  match load (core h) (pc h) with
  | None => Undefined
  | Some instruction =>
    let literal := Z.land instruction 0x7FFF in
    let address := Z.land instruction 0x1FFF in
    if MAX_PROGRAM hd =? 0 then Undefined else
    let pc_plus_one := u16 ((pc h + 1) mod MAX_PROGRAM hd) in
    if IS_LITERAL instruction then
      (* dpush *)
      let sp' := u16 (sp h + 1) in
      match store (core h) sp' (tos h) with
      | None => Undefined
      | Some c =>
          Continue {| core := c; pc := pc_plus_one; tos := literal;
                      sp := sp'; rp := rp h |} w
      end
    else if IS_ALU_OP instruction then
      alu instruction h w pc_plus_one
    else if IS_CALL instruction then
      (* rpush *)
      let rp' := u16 (rp h + 1) in
      match store (core h) rp' (u16 (Z.shiftl pc_plus_one 1)) with
      | None => Undefined
      | Some c =>
          Continue {| core := c; pc := address; tos := tos h;
                      sp := sp h; rp := rp' |} w
      end
    else if IS_0BRANCH instruction then
      (* dpop *)
      match load (core h) (sp h) with
      | None => Undefined
      | Some nos =>
          let r := tos h in
          let h' := {| core := core h; pc := pc h; tos := nos;
                       sp := u16 (sp h - 1); rp := rp h |} in
          if r =? 0 then Continue (set_pc h' (address mod MAX_PROGRAM hd)) w
          else Continue (set_pc h' pc_plus_one) w
      end
    else
      Continue (set_pc h address) w
  end.

(** The outcome of [h2_run]; the loop has no exit but [return] and [exit],
    so the model counts the turns it may take. *)
Inductive run_t :=
| Returned (v : Z) (w : io_t)
| Exited (status : Z) (w : io_t)
| Undefined_run
| Running (h : h2_t) (w : io_t).    (* the turns counted are used up *)

Fixpoint h2_run (turns : nat) (h : h2_t) (w : io_t) : run_t :=
  match turns with
  | O => Running h w
  | S turns' =>
      match h2_step h w with
      | Continue h' w' => h2_run turns' h' w'
      | Return v w' => Returned v w'
      | Exit st w' => Exited st w'
      | Undefined => Undefined_run
      end
  end.

(** ** The parse tree *)

Inductive parse_e :=
| SYM_PROGRAM | SYM_STATEMENTS | SYM_LABEL | SYM_BRANCH | SYM_0BRANCH
| SYM_CALL | SYM_CONSTANT | SYM_VARIABLE | SYM_LOCATION | SYM_LITERAL
| SYM_STRING | SYM_INSTRUCTION | SYM_BEGIN_UNTIL | SYM_BEGIN_AGAIN
| SYM_BEGIN_WHILE_REPEAT | SYM_FOR_NEXT | SYM_FOR_AFT_THEN_NEXT | SYM_IF1
| SYM_DEFINITION | SYM_CHAR | SYM_QUOTE | SYM_PWD | SYM_SET | SYM_PC
| SYM_BUILT_IN | SYM_MODE | SYM_ALLOCATE | SYM_CALL_DEFINITION.

#[global] Instance parse_e_eq_dec : EqDecision parse_e.
Proof. solve_decision. Defined.

(** [node_t]: the children [o] may be null pointers. *)
#[local] Unset Elimination Schemes.
Inductive node_t :=
| Node (n_type : parse_e) (bits : Z) (token value : option token_t)
       (o : list (option node_t)).
#[local] Set Elimination Schemes.

Definition DEFINE_HIDDEN : Z := 1.
Definition DEFINE_IMMEDIATE : Z := 2.
Definition DEFINE_INLINE : Z := 4.

(** ** The symbol table *)

Inductive symbol_type_e :=
| SYMBOL_TYPE_LABEL | SYMBOL_TYPE_CALL | SYMBOL_TYPE_CONSTANT
| SYMBOL_TYPE_VARIABLE.

#[global] Instance symbol_type_e_eq_dec : EqDecision symbol_type_e.
Proof. solve_decision. Defined.

Record symbol_t := {
  sym_id : string;
  sym_value : Z;
  sym_type : symbol_type_e;
  sym_hidden : bool
}.

(** [symbol_table_t]: the symbols in the order in which they were added. *)
Definition symbol_table_t := list symbol_t.

Fixpoint symbol_table_lookup (t : symbol_table_t) (id : string)
    : option symbol_t :=
  match t with
  | [] => None
  | s :: t' =>
      if String.eqb (sym_id s) id then Some s else symbol_table_lookup t' id
  end.

(** [symbol_table_add] with an error handler [e], as the assembler calls
    it. *)
Definition symbol_table_add (t : symbol_table_t) (type : symbol_type_e)
    (id : string) (value : Z) (hidden : bool) : result symbol_table_t :=
  match symbol_table_lookup t id with
  | Some _ => Fail (Thrown redefinition_of_symbol)
  | None =>
      Ok (t ++ [ {| sym_id := id; sym_value := value; sym_type := type;
                    sym_hidden := hidden |} ])
  end.

(** ** The code generator *)

Definition MODE_NORMAL : Z := 0.
Definition MODE_COMPILE_WORD_HEADER : Z := 1.
Definition MODE_OPTIMIZATION_ON : Z := 2.

Record assembler_t := {
  in_definition : bool;
  start_defined : bool;
  built_in_words_defined : bool;
  start : Z;
  mode : Z;
  pwd : Z;
  fence : Z;
  do_r_minus_one : option symbol_t;
  do_next : option symbol_t;
  do_var : option symbol_t;
  do_const : option symbol_t
}.

Definition set_fence (a : assembler_t) (v : Z) : assembler_t :=
  {| in_definition := in_definition a; start_defined := start_defined a;
     built_in_words_defined := built_in_words_defined a; start := start a;
     mode := mode a; pwd := pwd a; fence := v;
     do_r_minus_one := do_r_minus_one a; do_next := do_next a;
     do_var := do_var a; do_const := do_const a |}.
Definition set_pwd (a : assembler_t) (v : Z) : assembler_t :=
  {| in_definition := in_definition a; start_defined := start_defined a;
     built_in_words_defined := built_in_words_defined a; start := start a;
     mode := mode a; pwd := v; fence := fence a;
     do_r_minus_one := do_r_minus_one a; do_next := do_next a;
     do_var := do_var a; do_const := do_const a |}.
Definition set_mode (a : assembler_t) (v : Z) : assembler_t :=
  {| in_definition := in_definition a; start_defined := start_defined a;
     built_in_words_defined := built_in_words_defined a; start := start a;
     mode := v; pwd := pwd a; fence := fence a;
     do_r_minus_one := do_r_minus_one a; do_next := do_next a;
     do_var := do_var a; do_const := do_const a |}.
Definition set_in_definition (a : assembler_t) (v : bool) : assembler_t :=
  {| in_definition := v; start_defined := start_defined a;
     built_in_words_defined := built_in_words_defined a; start := start a;
     mode := mode a; pwd := pwd a; fence := fence a;
     do_r_minus_one := do_r_minus_one a; do_next := do_next a;
     do_var := do_var a; do_const := do_const a |}.
Definition set_built_in_words_defined (a : assembler_t) (v : bool) : assembler_t :=
  {| in_definition := in_definition a; start_defined := start_defined a;
     built_in_words_defined := v; start := start a;
     mode := mode a; pwd := pwd a; fence := fence a;
     do_r_minus_one := do_r_minus_one a; do_next := do_next a;
     do_var := do_var a; do_const := do_const a |}.
Definition set_do_r_minus_one (a : assembler_t) (v : option symbol_t) : assembler_t :=
  {| in_definition := in_definition a; start_defined := start_defined a;
     built_in_words_defined := built_in_words_defined a; start := start a;
     mode := mode a; pwd := pwd a; fence := fence a;
     do_r_minus_one := v; do_next := do_next a;
     do_var := do_var a; do_const := do_const a |}.
Definition set_do_var (a : assembler_t) (v : option symbol_t) : assembler_t :=
  {| in_definition := in_definition a; start_defined := start_defined a;
     built_in_words_defined := built_in_words_defined a; start := start a;
     mode := mode a; pwd := pwd a; fence := fence a;
     do_r_minus_one := do_r_minus_one a; do_next := do_next a;
     do_var := v; do_const := do_const a |}.
Definition set_do_const (a : assembler_t) (v : option symbol_t) : assembler_t :=
  {| in_definition := in_definition a; start_defined := start_defined a;
     built_in_words_defined := built_in_words_defined a; start := start a;
     mode := mode a; pwd := pwd a; fence := fence a;
     do_r_minus_one := do_r_minus_one a; do_next := do_next a;
     do_var := do_var a; do_const := v |}.

(** [memset(&a, 0, sizeof a)] *)
Definition assembler_zero : assembler_t :=
  {| in_definition := false; start_defined := false;
     built_in_words_defined := false; start := 0; mode := 0; pwd := 0;
     fence := 0; do_r_minus_one := None; do_next := None; do_var := None;
     do_const := None |}.

(** [x & FLAG] used as a condition. *)
Definition has (x flag_bits : Z) : bool := negb (Z.land x flag_bits =? 0).

Definition update_fence (a : assembler_t) (pc : Z) : assembler_t :=
  set_fence a (Z.max (fence a) pc).

(** [h->core[h->pc++] = instruction] *)
Definition emit (h : h2_t) (instruction : Z) : result h2_t :=
  c ← defined (store (core h) (pc h) instruction);
  Ok {| core := c; pc := u16 (pc h + 1); tos := tos h; sp := sp h; rp := rp h |}.

Definition generate (h : h2_t) (a : assembler_t) (instruction : Z)
    : result (h2_t * assembler_t) :=
  let a :=
    if IS_CALL instruction || IS_LITERAL instruction
       || IS_0BRANCH instruction || IS_BRANCH instruction
    then update_fence a (pc h) else a in
  if has (mode a) MODE_OPTIMIZATION_ON && negb (pc h =? 0) then
    previous ← defined (load (core h) (pc h - 1));
    if (pc h - 1 >? fence a) && IS_ALU_OP previous && (instruction =? CODE_EXIT)
    then
      if negb (has previous R_TO_PC) && negb (has previous (MK_RSTACK DELTA_N1))
      then
        c ← defined (store (core h) (pc h - 1) (Z.lor previous instruction));
        Ok (set_core h c, update_fence a (pc h - 1))
      else
        h ← emit h instruction; Ok (h, a)
    else if (pc h >? fence a) && IS_CALL previous && (instruction =? CODE_EXIT)
    then
      c ← defined (store (core h) (pc h - 1)
                     (Z.lor OP_BRANCH (Z.land previous 0x1FFF)));
      Ok (set_core h c, update_fence a (pc h - 1))
    else
      h ← emit h instruction; Ok (h, a)
  else
    h ← emit h instruction; Ok (h, a).

Definition here (h : h2_t) (a : assembler_t) : result (Z * assembler_t) :=
  _ ← assert (pc h <? MAX_PROGRAM hd);
  Ok (pc h, update_fence a (pc h)).

Definition hole (h : h2_t) (a : assembler_t) : result (Z * h2_t * assembler_t) :=
  _ ← assert (pc h <? MAX_PROGRAM hd);
  '(_, a) ← here h a;
  Ok (pc h, set_pc h (u16 (pc h + 1)), a).

Definition fix_ (h : h2_t) (hole patch : Z) : result h2_t :=
  _ ← assert (hole <? MAX_PROGRAM hd);
  c ← defined (store (core h) hole patch);
  Ok (set_core h c).

Definition token_id (tok : option token_t) : result string :=
  match tok with
  | Some {| tok_p := p_id id |} => Ok id
  | _ => Fail UndefinedBehaviour
  end.

Definition token_number (tok : option token_t) : result Z :=
  match tok with
  | Some {| tok_p := p_number n |} => Ok n
  | _ => Fail UndefinedBehaviour
  end.

Definition generate_jump (h : h2_t) (a : assembler_t) (t : symbol_table_t)
    (tok : option token_t) (type : parse_e) : result (h2_t * assembler_t) :=
  tk ← defined tok;
  addr ←
    match tok_type tk with
    | LEX_IDENTIFIER | LEX_STRING =>
        id ← token_id tok;
        match symbol_table_lookup t id with
        | None => Fail (Thrown undefined_symbol)
        | Some s =>
            if bool_decide (sym_type s = SYMBOL_TYPE_CALL)
               && negb (bool_decide (type = SYM_CALL))
            then Fail (Thrown cannot_branch_to_call)
            else Ok (sym_value s)
        end
    | LEX_LITERAL => token_number tok
    | _ => Fail Fatal
    end;
  if addr >? MAX_PROGRAM hd then Fail (Thrown invalid_jump_address)
  else
    or ←
      match type with
      | SYM_BRANCH => Ok OP_BRANCH
      | SYM_0BRANCH => Ok OP_0BRANCH
      | SYM_CALL => Ok OP_CALL
      | _ => Fail Fatal
      end;
    generate h a (Z.lor or addr).

Definition generate_literal (h : h2_t) (a : assembler_t) (number : Z)
    : result (h2_t * assembler_t) :=
  if has number OP_LITERAL then
    let number := not16 number in
    '(h, a) ← generate h a (Z.lor OP_LITERAL number);
    generate h a CODE_INVERT
  else
    generate h a (Z.lor OP_LITERAL number).

Definition lexer_to_alu_op (t : token_e) : result Z :=
  match t with
  | LEX_INSTRUCTION k =>
      match X_MACRO_INSTRUCTIONS hd !! k with
      | Some (_, _, instruction) => Ok instruction
      | None => Fail Fatal
      end
  | _ => Fail Assertion
  end.

(** The function returns a [uint16_t]: what it finds is cut to 16 bits. *)
Definition literal_or_symbol_lookup (token : option token_t)
    (t : symbol_table_t) : result Z :=
  tk ← defined token;
  match tok_type tk with
  | LEX_LITERAL => n ← token_number token; Ok (u16 n)
  | LEX_IDENTIFIER =>
      id ← token_id token;
      match symbol_table_lookup t id with
      | None => Fail (Thrown symbol_not_found)
      | Some s => Ok (u16 (sym_value s))
      end
  | _ => Fail Assertion
  end.

(** A [char] converted to [uint16_t]; plain [char] is taken signed. *)
Definition char16 (c : Z) : Z := u16 (if c <? 128 then c else c - 256).

Definition pack_16 (lb hb : Z) : Z :=
  u16 (Z.lor (Z.shiftl (char16 hb) 8) (char16 lb)).

(** The cells of [s[1]], [s[2]], ... two by two, the terminator closing the
    last cell of a string of even length. *)
Fixpoint pack_cells (s : list Z) : list Z :=
  match s with
  | [] => []
  | [x] => [pack_16 x 0]
  | x :: y :: s' => pack_16 x y :: pack_cells s'
  end.

(** [h->core[hole(h, a)] = v] for each [v] in turn. *)
Fixpoint fill_holes (h : h2_t) (a : assembler_t) (vs : list Z)
    : result (h2_t * assembler_t) :=
  match vs with
  | [] => Ok (h, a)
  | v :: vs' =>
      '(hl, h, a) ← hole h a;
      c ← defined (store (core h) hl v);
      fill_holes (set_core h c) a vs'
  end.

Definition pack_string (h : h2_t) (a : assembler_t) (s : string)
    : result (Z * h2_t * assembler_t) :=
  let cs := char_code <$> String.list_ascii_of_string s in
  let l := Z.of_nat (length cs) in
  let r := pc h in
  if l >? 255 then Fail (Thrown string_is_too_large)
  else
    '(h, a) ← fill_holes h a (pack_16 l (default 0 (head cs)) :: pack_cells (tail cs));
    '(_, a) ← here h a;
    Ok (r, h, a).

Definition symbol_special (h : h2_t) (a : assembler_t) (id : string) : result Z :=
  if String.eqb id "$pc" then Ok (u16 (Z.shiftl (pc h) 1))
  else if String.eqb id "$pwd" then Ok (pwd a)
  else Fail (Thrown is_not_a_symbol).

Record built_in_words_t := {
  name : string;
  len : Z;
  inline_bit : bool;
  bi_hidden : bool;
  compile : bool;
  code_ : list Z
}.

(** The table [built_in_words] up to its terminator. *)
Definition built_in_words : list built_in_words_t :=
  ((fun e : string * bool * Z =>
      {| name := e.1.1; compile := e.1.2; len := 1; inline_bit := true;
         bi_hidden := false; code_ := [e.2] |}) <$> X_MACRO_INSTRUCTIONS hd)
  ++ [ {| name := "doVar"; compile := true; inline_bit := false;
          bi_hidden := true; len := 1; code_ := [CODE_FROMR hd] |};
       {| name := "doConst"; compile := true; inline_bit := false;
          bi_hidden := true; len := 2; code_ := [CODE_FROMR hd; CODE_LOAD hd] |};
       {| name := "r1-"; compile := true; inline_bit := false;
          bi_hidden := true; len := 5;
          code_ := [CODE_FROMR hd; CODE_FROMR hd; CODE_T_N1 hd; CODE_TOR hd;
                    CODE_TOR hd] |} ].

(** [generate] for each word of a list in turn. *)
Fixpoint generate_all (h : h2_t) (a : assembler_t) (ws : list Z)
    : result (h2_t * assembler_t) :=
  match ws with
  | [] => Ok (h, a)
  | w :: ws' => '(h, a) ← generate h a w; generate_all h a ws'
  end.

Definition generate_loop_decrement (h : h2_t) (a : assembler_t)
    (t : symbol_table_t) : result (h2_t * assembler_t) :=
  let a := set_do_r_minus_one a
             (match do_r_minus_one a with
              | Some s => Some s
              | None => symbol_table_lookup t "r1-"
              end) in
  match do_r_minus_one a with
  | Some s =>
      if has (mode a) MODE_OPTIMIZATION_ON
      then generate h a (Z.lor OP_CALL (sym_value s))
      else generate_all h a [CODE_FROMR hd; CODE_T_N1 hd; CODE_TOR hd]
  | None => generate_all h a [CODE_FROMR hd; CODE_T_N1 hd; CODE_TOR hd]
  end.

Definition node_token (c : option node_t) : option token_t :=
  match c with
  | Some (Node _ _ token _ _) => token
  | None => None
  end.

(** The header of a word: a cell with the previous [pwd] and the flag bits,
    then the packed name. *)
Definition word_header (h : h2_t) (a : assembler_t) (flags : Z) (id : string)
    : result (h2_t * assembler_t) :=
  '(hole1, h, a) ← hole h a;
  h ← fix_ h hole1 (u16 (Z.lor (pwd a) flags));
  let a := set_pwd a (u16 (Z.shiftl hole1 1)) in
  '(_, h, a) ← pack_string h a id;
  Ok (h, a).

(** The case [SYM_LOCATION], into which [SYM_VARIABLE] falls. *)
Definition assemble_location (type : parse_e) (token : option token_t)
    (o0 : option node_t) (h : h2_t) (a : assembler_t) (t : symbol_table_t)
    : result (h2_t * assembler_t * symbol_table_t) :=
  '(_, a) ← here h a;
  init ← defined (node_token o0);
  '(hole1, h, a) ←
    match tok_type init with
    | LEX_LITERAL =>
        '(hole1, h, a) ← hole h a;
        v ← token_number (Some init);
        h ← fix_ h hole1 v;
        Ok (hole1, h, a)
    | LEX_STRING =>
        str ← token_id (Some init);
        pack_string h a str
    | _ => Fail Assertion
    end;
  id ← token_id token;
  t ← symbol_table_add t SYMBOL_TYPE_VARIABLE id (u16 (Z.shiftl hole1 1))
        (bool_decide (type = SYM_LOCATION));
  Ok (h, a, t).

Definition assemble_variable (bits : Z) (token : option token_t)
    (o0 : option node_t) (h : h2_t) (a : assembler_t) (t : symbol_table_t)
    : result (h2_t * assembler_t * symbol_table_t) :=
  '(h, a) ←
    (if has (mode a) MODE_COMPILE_WORD_HEADER && built_in_words_defined a
        && negb (has bits DEFINE_HIDDEN)
     then
       let a := set_do_var a (match do_var a with
                              | Some s => Some s
                              | None => symbol_table_lookup t "doVar"
                              end) in
       match do_var a with
       | None => Fail Assertion
       | Some dv =>
           id ← token_id token;
           '(h, a) ← word_header h a 0 id;
           generate h a (Z.lor OP_CALL (sym_value dv))
       end
     else if negb (has bits DEFINE_HIDDEN)
     then Fail (Thrown doVar_not_defined)
     else Ok (h, a));
  assemble_location SYM_VARIABLE token o0 h a t.

Definition assemble_constant (bits : Z) (token : option token_t)
    (o0 : option node_t) (h : h2_t) (a : assembler_t) (t : symbol_table_t)
    : result (h2_t * assembler_t * symbol_table_t) :=
  '(h, a) ←
    (if has (mode a) MODE_COMPILE_WORD_HEADER && built_in_words_defined a
        && negb (has bits DEFINE_HIDDEN)
     then
       let a := set_do_const a (match do_const a with
                                | Some s => Some s
                                | None => symbol_table_lookup t "doConst"
                                end) in
       match do_const a with
       | None => Fail Assertion
       | Some dc =>
           id ← token_id token;
           '(h, a) ← word_header h a 0 id;
           '(h, a) ← generate h a (Z.lor OP_CALL (sym_value dc));
           '(hole1, h, a) ← hole h a;
           v ← token_number (node_token o0);
           h ← fix_ h hole1 v;
           Ok (h, a)
       end
     else Ok (h, a));
  id ← token_id token;
  v ← token_number (node_token o0);
  t ← symbol_table_add t SYMBOL_TYPE_CONSTANT id v false;
  Ok (h, a, t).

Definition assemble_set (token value : option token_t)
    (h : h2_t) (a : assembler_t) (t : symbol_table_t) : result h2_t :=
  location ← literal_or_symbol_lookup token t;
  vt ← defined value;
  v ←
    match tok_type vt with
    | LEX_LITERAL => token_number value
    | _ =>
        id ← token_id value;
        match symbol_table_lookup t id with
        | Some l =>
            Ok (if bool_decide (sym_type l = SYMBOL_TYPE_CALL)
                then u16 (Z.shiftl (sym_value l) 1) else sym_value l)
        | None => symbol_special h a id
        end
    end;
  fix_ h (Z.shiftr location 1) v.

(** The loop of the case [SYM_BUILT_IN] over the table. *)
Fixpoint built_in_loop (ws : list built_in_words_t) (h : h2_t)
    (a : assembler_t) (t : symbol_table_t)
    : result (h2_t * assembler_t * symbol_table_t) :=
  match ws with
  | [] => Ok (h, a, t)
  | w :: ws' =>
      if negb (compile w) then built_in_loop ws' h a t
      else
        '(h, a) ←
          (if negb (bi_hidden w) then
             word_header h a
               (if inline_bit w then Z.shiftl DEFINE_INLINE 13 else 0) (name w)
           else Ok (h, a));
        '(entry, a) ← here h a;
        t ← symbol_table_add t SYMBOL_TYPE_CALL (name w) entry (bi_hidden w);
        '(h, a) ← generate_all h a (take (Z.to_nat (len w)) (code_ w));
        '(h, a) ← generate h a CODE_EXIT;
        built_in_loop ws' h a t
  end.

Fixpoint assemble (n : node_t) (h : h2_t) (a : assembler_t)
    (t : symbol_table_t) {struct n}
    : result (h2_t * assembler_t * symbol_table_t) :=
  let '(Node type bits token value o) := n in
  let sub (c : option node_t) (h : h2_t) (a : assembler_t) (t : symbol_table_t) :=
    match c with
    | None => Ok (h, a, t)
    | Some m => assemble m h a t
    end in
  if pc h >? MAX_PROGRAM hd then Fail (Thrown dictionary_overflow) else
  match type with
  | SYM_PROGRAM =>
      match o with
      | o0 :: _ => sub o0 h a t
      | _ => Fail UndefinedBehaviour
      end
  | SYM_STATEMENTS =>
      (fix statements (cs : list (option node_t)) h a t :=
         match cs with
         | [] => Ok (h, a, t)
         | c :: cs' => '(h, a, t) ← sub c h a t; statements cs' h a t
         end) o h a t
  | SYM_LABEL =>
      '(v, a) ← here h a;
      id ← token_id token;
      t ← symbol_table_add t SYMBOL_TYPE_LABEL id v false;
      Ok (h, a, t)
  | SYM_BRANCH | SYM_0BRANCH | SYM_CALL =>
      '(h, a) ← generate_jump h a t token type;
      Ok (h, a, t)
  | SYM_CONSTANT =>
      match o with
      | o0 :: _ => assemble_constant bits token o0 h a t
      | _ => Fail UndefinedBehaviour
      end
  | SYM_VARIABLE =>
      match o with
      | o0 :: _ => assemble_variable bits token o0 h a t
      | _ => Fail UndefinedBehaviour
      end
  | SYM_LOCATION =>
      match o with
      | o0 :: _ => assemble_location SYM_LOCATION token o0 h a t
      | _ => Fail UndefinedBehaviour
      end
  | SYM_QUOTE =>
      id ← token_id token;
      match symbol_table_lookup t id with
      | Some s =>
          if bool_decide (sym_type s = SYMBOL_TYPE_CALL)
             || bool_decide (sym_type s = SYMBOL_TYPE_LABEL)
          then
            '(h, a) ← generate_literal h a (u16 (Z.shiftl (sym_value s) 1));
            Ok (h, a, t)
          else Fail (Thrown not_a_defined_procedure)
      | None => Fail (Thrown not_a_defined_procedure)
      end
  | SYM_LITERAL =>
      v ← token_number token;
      '(h, a) ← generate_literal h a v;
      Ok (h, a, t)
  | SYM_INSTRUCTION =>
      tk ← defined token;
      w ← lexer_to_alu_op (tok_type tk);
      '(h, a) ← generate h a w;
      Ok (h, a, t)
  | SYM_BEGIN_AGAIN | SYM_BEGIN_UNTIL =>
      match o with
      | o0 :: _ =>
          '(hole1, a) ← here h a;
          '(h, a, t) ← sub o0 h a t;
          '(h, a) ← generate h a
             (Z.lor (if bool_decide (type = SYM_BEGIN_AGAIN)
                     then OP_BRANCH else OP_0BRANCH) hole1);
          Ok (h, a, t)
      | _ => Fail UndefinedBehaviour
      end
  | SYM_FOR_NEXT =>
      match o with
      | o0 :: _ =>
          let s := match do_next a with
                   | Some s => Some s
                   | None => symbol_table_lookup t "doNext"
                   end in
          match (if has (mode a) MODE_OPTIMIZATION_ON then s else None) with
          | Some s =>
              '(h, a) ← generate h a (CODE_TOR hd);
              '(hole1, a) ← here h a;
              '(h, a, t) ← sub o0 h a t;
              '(h, a) ← generate h a (Z.lor OP_CALL (sym_value s));
              '(h, a) ← generate h a (u16 (Z.shiftl hole1 1));
              Ok (h, a, t)
          | None =>
              '(h, a) ← generate h a (CODE_TOR hd);
              '(hole1, a) ← here h a;
              '(h, a, t) ← sub o0 h a t;
              '(h, a) ← generate h a (CODE_RAT hd);
              '(hole2, h, a) ← hole h a;
              '(h, a) ← generate_loop_decrement h a t;
              '(h, a) ← generate h a (Z.lor OP_BRANCH hole1);
              '(v, a) ← here h a;
              h ← fix_ h hole2 (Z.lor OP_0BRANCH v);
              '(h, a) ← generate h a (CODE_RDROP hd);
              Ok (h, a, t)
          end
      | _ => Fail UndefinedBehaviour
      end
  | SYM_FOR_AFT_THEN_NEXT =>
      match o with
      | o0 :: o1 :: o2 :: _ =>
          '(h, a) ← generate h a (CODE_TOR hd);
          '(h, a, t) ← sub o0 h a t;
          '(hole1, h, a) ← hole h a;
          '(h, a) ← generate h a (CODE_RAT hd);
          '(h, a) ← generate_loop_decrement h a t;
          '(hole2, h, a) ← hole h a;
          '(h, a, t) ← sub o1 h a t;
          '(v, a) ← here h a;
          h ← fix_ h hole1 (Z.lor OP_BRANCH v);
          '(h, a, t) ← sub o2 h a t;
          '(h, a) ← generate h a (u16 (Z.lor OP_BRANCH (hole1 + 1)));
          '(v, a) ← here h a;
          h ← fix_ h hole2 (Z.lor OP_0BRANCH v);
          '(h, a) ← generate h a (CODE_RDROP hd);
          Ok (h, a, t)
      | _ => Fail UndefinedBehaviour
      end
  | SYM_BEGIN_WHILE_REPEAT =>
      match o with
      | o0 :: o1 :: _ =>
          '(hole1, a) ← here h a;
          '(h, a, t) ← sub o0 h a t;
          '(hole2, h, a) ← hole h a;
          '(h, a, t) ← sub o1 h a t;
          '(h, a) ← generate h a (Z.lor OP_BRANCH hole1);
          '(v, a) ← here h a;
          h ← fix_ h hole2 (Z.lor OP_0BRANCH v);
          Ok (h, a, t)
      | _ => Fail UndefinedBehaviour
      end
  | SYM_IF1 =>
      match o with
      | o0 :: o1 :: _ =>
          '(hole1, h, a) ← hole h a;
          '(h, a, t) ← sub o0 h a t;
          match o1 with
          | Some _ =>
              '(hole2, h, a) ← hole h a;
              h ← fix_ h hole1 (u16 (Z.lor OP_0BRANCH (hole2 + 1)));
              '(h, a, t) ← sub o1 h a t;
              '(v, a) ← here h a;
              h ← fix_ h hole2 (Z.lor OP_BRANCH v);
              Ok (h, a, t)
          | None =>
              '(v, a) ← here h a;
              h ← fix_ h hole1 (Z.lor OP_0BRANCH v);
              Ok (h, a, t)
          end
      | _ => Fail UndefinedBehaviour
      end
  | SYM_CALL_DEFINITION =>
      id ← token_id token;
      match symbol_table_lookup t id with
      | None => Fail (Thrown not_a_constant_or_a_defined_procedure)
      | Some s =>
          match sym_type s with
          | SYMBOL_TYPE_CALL =>
              '(h, a) ← generate h a (Z.lor OP_CALL (sym_value s));
              Ok (h, a, t)
          | SYMBOL_TYPE_CONSTANT | SYMBOL_TYPE_VARIABLE =>
              '(h, a) ← generate_literal h a (sym_value s);
              Ok (h, a, t)
          | SYMBOL_TYPE_LABEL => Fail (Thrown can_only_call_or_push_literal)
          end
      end
  | SYM_DEFINITION =>
      match o with
      | o0 :: _ =>
          if negb (bits =? 0) && negb (has (mode a) MODE_COMPILE_WORD_HEADER)
          then Fail (Thrown cannot_modify_word_bits)
          else
            id ← token_id token;
            '(bits, h, a) ←
              (if has (mode a) MODE_COMPILE_WORD_HEADER
                  && negb (has bits DEFINE_HIDDEN)
               then
                 let bits := Z.land bits (Z.lor DEFINE_IMMEDIATE DEFINE_INLINE) in
                 '(h, a) ← word_header h a (Z.shiftl bits 13) id;
                 Ok (bits, h, a)
               else Ok (bits, h, a));
            '(entry, a) ← here h a;
            t ← symbol_table_add t SYMBOL_TYPE_CALL id entry
                  (has bits DEFINE_HIDDEN);
            if in_definition a then Fail (Thrown nested_word_definition)
            else
              let a := set_in_definition a true in
              '(h, a, t) ← sub o0 h a t;
              '(h, a) ← generate h a CODE_EXIT;
              Ok (h, set_in_definition a false, t)
      | _ => Fail UndefinedBehaviour
      end
  | SYM_CHAR =>
      id ← token_id token;
      let c := default 0 (head (char_code <$> String.list_ascii_of_string id)) in
      '(h, a) ← generate h a
         (u16 (Z.lor OP_LITERAL (if c <? 128 then c else c - 256)));
      Ok (h, a, t)
  | SYM_SET =>
      h ← assemble_set token value h a t;
      Ok (h, a, t)
  | SYM_PWD =>
      v ← literal_or_symbol_lookup token t;
      Ok (h, set_pwd a v, t)
  | SYM_PC =>
      v ← literal_or_symbol_lookup token t;
      Ok (set_pc h v, update_fence a v, t)
  | SYM_MODE =>
      v ← token_number token;
      Ok (h, set_mode a v, t)
  | SYM_ALLOCATE =>
      v ← literal_or_symbol_lookup token t;
      let pc' := u16 (pc h + Z.shiftr v 1) in
      Ok (set_pc h pc', update_fence a pc', t)
  | SYM_BUILT_IN =>
      if negb (has (mode a) MODE_COMPILE_WORD_HEADER) then Ok (h, a, t)
      else if built_in_words_defined a
      then Fail (Thrown built_in_words_already_defined)
      else built_in_loop built_in_words h (set_built_in_words_defined a true) t
  | SYM_STRING => Fail Fatal
  end.

(** [code(n, symbols)]: the image, or a failure where C returns [NULL]
    (after [ethrow]) or does not return at all. *)
Definition code (n : node_t) (symbols : option symbol_table_t) : result h2_t :=
  let t := default [] symbols in
  let h := h2_new (START_ADDR hd) in
  let a := set_fence assembler_zero (pc h) in
  '(h, _, _) ← assemble n h a t;
  Ok h.

End Header.

(** ** Vocabulary of the properties *)

(** The fields of an ALU word do not share a bit: the ALU field lies in bits
    8 to 12, and the R->PC flag is bit 4 or lies between the ALU field and
    the opcode prefix. *)
Definition layout_ok (hd : header) : Prop :=
  0 <= ALU_OP_LENGTH hd <= 5
  /\ (R_TO_PC_BIT_INDEX hd = 4
      \/ 8 + ALU_OP_LENGTH hd <= R_TO_PC_BIT_INDEX hd <= 12).

(** The ALU field can hold the operation [op]. *)
Definition alu_field_holds (hd : header) (op : alu_code_e) : Prop :=
  alu_code_value op < 2 ^ ALU_OP_LENGTH hd.

(** The sizes of the header are those of the machine: the program area is
    what the 13 bits of a branch address reach, it lies in the core, the
    core is addressed by a [uint16_t], and the start address lies in the
    program area. *)
Definition sizes_ok (hd : header) : Prop :=
  0 <= START_ADDR hd < MAX_PROGRAM hd
  /\ MAX_PROGRAM hd <= 8192
  /\ MAX_PROGRAM hd <= CORE_CELLS hd
  /\ CORE_CELLS hd <= 65536.

(** An ALU word from its operation and its two stack deltas. *)
Definition alu_word (op : alu_code_e) (d r : Z) : Z :=
  Z.lor (Z.lor (Z.lor OP_ALU_OP (MK_CODE (alu_code_value op))) (MK_DSTACK d))
        (MK_RSTACK r).

(** The cells [c] holds from the address [addr] on. *)
Fixpoint image_at (c : list Z) (addr : Z) (cells : list Z) : Prop :=
  match cells with
  | [] => True
  | cell :: cells' => load c addr = Some cell /\ image_at c (addr + 1) cells'
  end.

(** The cells that the spec has [generate_literal] emit for a 16-bit
    number: one literal when bit 15 is clear, else the literal of the
    complement and an inversion. *)
Definition literal_cells (n : Z) : list Z :=
  if has n OP_LITERAL then [Z.lor OP_LITERAL (not16 n); CODE_INVERT]
  else [Z.lor OP_LITERAL n].

(** [1 2 + bye] as cells. *)
Definition one_two_plus_bye : list Z :=
  [ Z.lor OP_LITERAL 1; Z.lor OP_LITERAL 2;
    alu_word ALU_OP_T_PLUS_N DELTA_N1 DELTA_0;
    alu_word ALU_OP_BYE DELTA_0 DELTA_0 ].

(** The index [i] lies in the core of [h]. *)
Definition in_core (h : h2_t) (i : Z) : Prop :=
  0 <= i < Z.of_nat (length (core h)).

(** [turns] turns of the loop of [h2_run], none of which leaves it. *)
Fixpoint h2_steps (hd : header) (turns : nat) (h : h2_t) (w : io_t)
    : option (h2_t * io_t) :=
  match turns with
  | O => Some (h, w)
  | S turns' =>
      match h2_step hd h w with
      | Continue h' w' => h2_steps hd turns' h' w'
      | _ => None
      end
  end.

(** A header with which the tool chain can be built: 8192 program cells in a
    core of 32768, the stacks behind the program, the ALU field five bits
    wide and R->PC in bit 4.  The properties below hold for every header
    that meets their hypotheses; this one shows that the hypotheses can be
    met, and is where the counterexamples are run. *)
Definition example_header : header :=
  {| MAX_PROGRAM := 8192;
     START_ADDR := 8;
     VARIABLE_STACK_START := 8704;
     RETURN_STACK_START := 16384;
     CORE_CELLS := 32768;
     ALU_OP_LENGTH := 5;
     R_TO_PC_BIT_INDEX := 4;
     CODE_FROMR := 0x6B8D;
     CODE_LOAD := 0x6C00;
     CODE_T_N1 := 0x6A00;
     CODE_TOR := 0x6147;
     CODE_RAT := 0x6B81;
     CODE_RDROP := 0x600C;
     X_MACRO_INSTRUCTIONS :=
       [ ("dup", true, 0x6081); ("over", true, 0x6181);
         ("invert", true, 0x6600); ("+", true, 0x6203);
         ("swap", true, 0x6180); ("nip", true, 0x6003);
         ("drop", true, 0x6103); ("exit", true, 0x601C);
         (">r", true, 0x6147); ("r>", true, 0x6B8D); ("r@", true, 0x6B81);
         ("@", true, 0x6C00); ("1-", true, 0x6A00); ("bye", true, 0x7500);
         ("rdrop", true, 0x600C) ] |}.

(** No input, no output, no block saved. *)
Definition io_empty : io_t := {| input := []; output := []; block := None |}.

(** The machine as [main] starts it on an image whose cells from the start
    address on are [cells]. *)
Definition h2_loaded (hd : header) (cells : list Z) : h2_t :=
  let h := h2_new hd (START_ADDR hd) in
  set_core h (take (Z.to_nat (START_ADDR hd)) (core h) ++ cells
              ++ drop (Z.to_nat (START_ADDR hd) + length cells) (core h)).

(** The integer that a string of decimal digits denotes. *)
Definition digit_value (c : ascii) : Z := char_code c - 48.

Definition decimal (ds : list ascii) : Z :=
  fold_left (fun acc c => acc * 10 + digit_value c) ds 0.

(** A bare word ends where the input ends or a character that is not
    graphical follows. *)
Definition ends_word (rest : list ascii) : Prop :=
  match rest with
  | [] => True
  | c :: _ => isgraph c = false
  end.

(** [generate] has ORed [CODE_EXIT] into the cell before [pc]: the cell is
    rewritten, nothing is appended. *)
Definition exit_merged (hd : header) (h : h2_t) (a : assembler_t)
    (previous : Z) : Prop :=
  generate hd h a (CODE_EXIT hd)
  = Ok (set_core h (<[Z.to_nat (pc h - 1) := Z.lor previous (CODE_EXIT hd)]> (core h)),
        update_fence a (pc h - 1)).

(** [generate] has appended [CODE_EXIT] as a cell of its own. *)
Definition exit_appended (hd : header) (h : h2_t) (a : assembler_t) : Prop :=
  generate hd h a (CODE_EXIT hd)
  = Ok ({| core := <[Z.to_nat (pc h) := CODE_EXIT hd]> (core h);
           pc := u16 (pc h + 1); tos := tos h; sp := sp h; rp := rp h |}, a).

(** The state in which [generate] meets an ALU word past the fence with the
    optimizer on. *)
Definition alu_past_fence (h : h2_t) (a : assembler_t) (previous : Z) : Prop :=
  has (mode a) MODE_OPTIMIZATION_ON = true
  /\ pc h <> 0
  /\ in_core h (pc h)
  /\ load (core h) (pc h - 1) = Some previous
  /\ IS_ALU_OP previous = true
  /\ fence a < pc h - 1.

(** The condition of the EXIT merge as the spec words it: neither R->PC set
    nor a return stack delta of -1. *)
Definition spec_merge_condition (hd : header) (previous : Z) : Prop :=
  has previous (R_TO_PC hd) = false /\ RSTACK previous <> DELTA_N1.

(** The condition that [generate] tests: neither R->PC set nor any bit of
    the return stack delta. *)
Definition merge_condition (hd : header) (previous : Z) : Prop :=
  has previous (R_TO_PC hd) = false /\ RSTACK previous = DELTA_0.

(** The assembler with the optimizer on and the fence at [f]. *)
Definition optimizing_at (f : Z) : assembler_t :=
  set_mode (set_fence assembler_zero f) MODE_OPTIMIZATION_ON.

(** The fence rule as the spec words it: a rewrite of an emitted cell takes
    place only at an address strictly greater than the fence. *)
Definition rewrites_strictly_past_fence : Prop :=
  forall hd h a instruction h' a',
    layout_ok hd ->
    generate hd h a instruction = Ok (h', a') ->
    pc h' = pc h ->
    fence a < pc h - 1.

(** ** Parse trees as [parse] builds them *)

Definition token_of (tp : token_p) (type : token_e) : option token_t :=
  Some {| tok_p := tp; tok_line := 1; tok_type := type |}.

(** [statements] starts with room for two children and grows by one at
    every turn, the last included: three null children follow the
    statements. *)
Definition n_statements (body : list node_t) : node_t :=
  Node SYM_STATEMENTS 0 None None ((Some <$> body) ++ [None; None; None]).

Definition n_program (body : list node_t) : node_t :=
  Node SYM_PROGRAM 0 None None [Some (n_statements body)].

Definition n_literal (v : Z) : node_t :=
  Node SYM_LITERAL 0 (token_of (p_number v) LEX_LITERAL) None [].

Definition n_mode (v : Z) : node_t :=
  Node SYM_MODE 0 (token_of (p_number v) LEX_LITERAL) None [].

Definition n_instruction (k : nat) : node_t :=
  Node SYM_INSTRUCTION 0 (token_of p_none (LEX_INSTRUCTION k)) None [].

Definition n_call_definition (id : string) : node_t :=
  Node SYM_CALL_DEFINITION 0 (token_of (p_id id) LEX_IDENTIFIER) None [].

Definition n_definition (id : string) (bits : Z) (body : list node_t) : node_t :=
  Node SYM_DEFINITION bits (token_of (p_id id) LEX_IDENTIFIER) None
       [Some (n_statements body)].

(** A jump statement on an identifier. *)
Definition n_jump (type : parse_e) (id : string) : node_t :=
  Node type 0 (token_of (p_id id) LEX_IDENTIFIER) None [].

(** [variable id v], with [hidden] or without. *)
Definition n_variable (type : parse_e) (id : string) (v : Z) (bits : Z) : node_t :=
  Node type bits (token_of (p_id id) LEX_IDENTIFIER) None [Some (n_literal v)].

(** [.pc v] on a literal. *)
Definition n_pc (v : Z) : node_t :=
  Node SYM_PC 0 (token_of (p_number v) LEX_LITERAL) None [].

(** [.set location value] on two literals. *)
Definition n_set (location value : Z) : node_t :=
  Node SYM_SET 0 (token_of (p_number location) LEX_LITERAL)
       (token_of (p_number value) LEX_LITERAL) [].

(** [.mode 2 : id dup ;] where [dup] is the [k]-th mnemonic. *)
Definition program_id_dup (k : nat) : node_t :=
  n_program [n_mode MODE_OPTIMIZATION_ON; n_definition "id" 0 [n_instruction k]].

(** [.mode 2 : a 1 ; : b a ;] *)
Definition program_a_b : node_t :=
  n_program [n_mode MODE_OPTIMIZATION_ON;
             n_definition "a" 0 [n_literal 1];
             n_definition "b" 0 [n_call_definition "a"]].

(** What the spec says of [: id dup ;] with the optimizer on: one cell, the
    word of [dup] with the effects of the return merged into it. *)
Definition id_dup_one_cell (hd : header) (k : nat) (dup : Z) : Prop :=
  exists h,
    code hd (program_id_dup k) None = Ok h
    /\ pc h = START_ADDR hd + 1
    /\ load (core h) (START_ADDR hd) = Some (Z.lor dup (CODE_EXIT hd)).

(** The loop of the case [SYM_STATEMENTS] over the children of a node. *)
Fixpoint assemble_children (hd : header) (cs : list (option node_t))
    (h : h2_t) (a : assembler_t) (t : symbol_table_t)
    : result (h2_t * assembler_t * symbol_table_t) :=
  match cs with
  | [] => Ok (h, a, t)
  | c :: cs' =>
      '(h, a, t) ← match c with
                   | None => Ok (h, a, t)
                   | Some m => assemble hd m h a t
                   end;
      assemble_children hd cs' h a t
  end.

(** The symbol that a definition adds. *)
Definition call_symbol (id : string) (value : Z) : symbol_t :=
  {| sym_id := id; sym_value := value; sym_type := SYMBOL_TYPE_CALL;
     sym_hidden := false |}.

(** The symbol that a variable or a location adds: the byte address of its
    cell. *)
Definition variable_symbol (id : string) (cell : Z) (hidden : bool) : symbol_t :=
  {| sym_id := id; sym_value := u16 (Z.shiftl cell 1);
     sym_type := SYMBOL_TYPE_VARIABLE; sym_hidden := hidden |}.

(** The header path of a variable is open: headers are compiled and the
    built-in words have been defined. *)
Definition header_path (a : assembler_t) : bool :=
  has (mode a) MODE_COMPILE_WORD_HEADER && built_in_words_defined a.

(** A result other than the error of the variable without [doVar]. *)
Definition not_doVar_error {A} (r : result A) : Prop :=
  r <> Fail (Thrown doVar_not_defined).

(** [variable id init] and [location id init], the initial value [init]
    a number or a string. *)
Definition n_declaration (type : parse_e) (id : string) (init : node_t)
    (bits : Z) : node_t :=
  Node type bits (token_of (p_id id) LEX_IDENTIFIER) None [Some init].

(** What the spec says of the declaration of a variable: the error of the
    missing [doVar] is raised exactly when the hidden flag is clear and the
    header path closed, and a variable declared hidden is accepted, its
    symbol entered with [hidden = false]. *)
Definition variable_claim (hd : header) : Prop :=
  forall id v bits h a t,
    (assemble hd (n_variable SYM_VARIABLE id v bits) h a t
     = Fail (Thrown doVar_not_defined)
     <-> has bits DEFINE_HIDDEN = false /\ header_path a = false)
    /\ (has bits DEFINE_HIDDEN = true ->
        exists h' a' cell,
          assemble hd (n_variable SYM_VARIABLE id v bits) h a t
          = Ok (h', a', t ++ [variable_symbol id cell false])).

(** [variable v 1 hidden variable v 2 hidden] *)
Definition program_hidden_twice : node_t :=
  n_program [n_variable SYM_VARIABLE "v" 1 DEFINE_HIDDEN;
             n_variable SYM_VARIABLE "v" 2 DEFINE_HIDDEN].

(** [.pc 9000 variable v 42] *)
Definition program_pc_variable : node_t :=
  n_program [n_pc 9000; n_variable SYM_VARIABLE "v" 42 0].

(** ** The cells below the start address *)

(** The core has its length and its cells below the start address branch to
    the start address. *)
Definition low_cells (hd : header) (c : list Z) : Prop :=
  Z.of_nat (length c) = CORE_CELLS hd
  /\ forall j, 0 <= j < START_ADDR hd ->
               load c j = Some (Z.lor OP_BRANCH (START_ADDR hd)).

(** What the spec says of every program that assembles. *)
Definition low_cells_kept (hd : header) : Prop :=
  forall n h, code hd n None = Ok h -> low_cells hd (core h).

(** The machine while the assembler keeps the cells below the start
    address: [pc] does not lie below it. *)
Definition pc_ok (hd : header) (h : h2_t) : Prop :=
  START_ADDR hd <= pc h /\ low_cells hd (core h).

(** Nor does the fence. *)
Definition fence_ok (hd : header) (a : assembler_t) : Prop :=
  START_ADDR hd <= fence a.

(** [pc] is a cell number and the core has its cells. *)
Definition core_ok (hd : header) (h : h2_t) : Prop :=
  0 <= pc h /\ Z.of_nat (length (core h)) = CORE_CELLS hd.

(** Every symbol of type call holds an address of the program area. *)
Definition calls_in_program (hd : header) (t : symbol_table_t) : Prop :=
  Forall (fun s => sym_type s = SYMBOL_TYPE_CALL ->
                   0 <= sym_value s < MAX_PROGRAM hd) t.

(** Assembling the tree keeps both. *)
Definition keeps_calls (hd : header) (n : node_t) : Prop :=
  forall h a t h' a' t',
    core_ok hd h -> calls_in_program hd t ->
    assemble hd n h a t = Ok (h', a', t') ->
    core_ok hd h' /\ calls_in_program hd t'.

Definition keeps_calls_child (hd : header) (c : option node_t) : Prop :=
  match c with
  | Some m => keeps_calls hd m
  | None => True
  end.

(** [.set 0 5] *)
Definition program_set_0_5 : node_t := n_program [n_set 0 5].

(** * Further parts of the tool chain *)

(** ** Block files *)

Definition EOF : Z := -1.

(** A stream open for writing: the bytes written so far, and the number of
    bytes that it still takes before [fputc] fails ([None]: it takes any
    number). *)
Record ostream := {
  written : list Z;
  room : option nat
}.

(** [fputc(c, output)]: the byte written, as an [unsigned char], or [EOF]. *)
Definition fputc (c : Z) (output : ostream) : Z * ostream :=
  match room output with
  | Some O => (EOF, output)
  | Some (S k) =>
      (c mod 256, {| written := written output ++ [c mod 256]; room := Some k |})
  | None =>
      (c mod 256, {| written := written output ++ [c mod 256]; room := None |})
  end.

(** [fgetc(input)] on the bytes that are still to be read. *)
Definition fgetc (input : list Z) : Z * list Z :=
  match input with
  | [] => (EOF, [])
  | b :: rest => (b, rest)
  end.

(** The loop of [binary_memory_load] from the cell [i] on, [turns] cells to
    go: the return value, what is left of the input, and the array. *)
Fixpoint binary_memory_load_from (i : Z) (turns : nat) (input : list Z)
    (p : list Z) : result (Z * list Z * list Z) :=
  match turns with
  | O => Ok (0, input, p)
  | S turns' =>
      let '(r1, input) := fgetc input in
      let '(r2, input) := fgetc input in
      if (r1 <? 0) || (r2 <? 0) then Ok (-1, input, p)
      else
        p ← defined (store p i
                       (u16 (Z.lor (Z.land r1 0xff) (Z.shiftl (Z.land r2 0xff) 8))));
        binary_memory_load_from (i + 1) turns' input p
  end.

Definition binary_memory_load (input : list Z) (p : list Z) (length : Z)
    : result (Z * list Z * list Z) :=
  binary_memory_load_from 0 (Z.to_nat length) input p.

(** The loop of [binary_memory_save] from the cell [i] on. *)
Fixpoint binary_memory_save_from (i : Z) (turns : nat) (output : ostream)
    (p : list Z) : result (Z * ostream) :=
  match turns with
  | O => Ok (0, output)
  | S turns' =>
      v ← defined (load p i);
      let '(r1, output) := fputc (Z.land v 0xff) output in
      let '(r2, output) := fputc (Z.land (Z.shiftr v 8) 0xff) output in
      if (r1 <? 0) || (r2 <? 0) then Ok (-1, output)
      else binary_memory_save_from (i + 1) turns' output p
  end.

Definition binary_memory_save (output : ostream) (p : list Z) (length : Z)
    : result (Z * ostream) :=
  binary_memory_save_from 0 (Z.to_nat length) output p.

(** [load(h, name)]: [file] is what [fopen(name, "rb")] gives, the bytes of
    the file or a null pointer. *)
Definition load_file (hd : header) (h : h2_t) (file : option (list Z))
    : result (Z * h2_t) :=
  match file with
  | Some input =>
      '(r, _, c) ← binary_memory_load input (core h) (CORE_CELLS hd);
      Ok (r, set_core h c)
  | None => Ok (-1, h)
  end.

(** [save(h, name, length)]: [file] is what [fopen(name, "wb")] gives, a
    stream with nothing written yet or a null pointer. *)
Definition save_file (h : h2_t) (file : option ostream) (length : Z)
    : result (Z * option ostream) :=
  match file with
  | Some output =>
      '(r, output) ← binary_memory_save output (core h) length;
      Ok (r, Some output)
  | None => Ok (-1, None)
  end.

(** ** The stacks of the simulator *)

Definition dpush (h : h2_t) (v : Z) : option h2_t :=
  let sp' := u16 (sp h + 1) in
  c ← store (core h) sp' (tos h);
  Some {| core := c; pc := pc h; tos := v; sp := sp'; rp := rp h |}.

Definition dpop (h : h2_t) : option (Z * h2_t) :=
  nos ← load (core h) (sp h);
  Some (tos h, {| core := core h; pc := pc h; tos := nos;
                  sp := u16 (sp h - 1); rp := rp h |}).

(** ** Vocabulary of the further properties *)

(** The two bytes of a cell, low byte first. *)
Definition cell_bytes (c : Z) : list Z :=
  [Z.land c 0xff; Z.land (Z.shiftr c 8) 0xff].

(** The cells that a sequence of bytes holds, low byte first; a last byte
    without its pair is left out. *)
Fixpoint cells_of_bytes (bs : list Z) : list Z :=
  match bs with
  | b1 :: b2 :: bs' => Z.lor b1 (Z.shiftl b2 8) :: cells_of_bytes bs'
  | _ => []
  end.

Definition is_byte (b : Z) : Prop := 0 <= b < 256.
Definition is_cell (c : Z) : Prop := 0 <= c < 65536.

(** A stream on which nothing has been written and that takes any number of
    bytes. *)
Definition fresh_stream : ostream := {| written := []; room := None |}.

(** The registers and the cells hold 16-bit values, the core has its
    length, and [pc] is an address that a jump, a return or the increment
    can give. *)
Definition machine_ok (hd : header) (h : h2_t) : Prop :=
  Z.of_nat (length (core h)) = CORE_CELLS hd
  /\ Forall is_cell (core h)
  /\ is_cell (tos h) /\ is_cell (sp h) /\ is_cell (rp h)
  /\ 0 <= pc h < 32768.

(** The integer that a string of hexadecimal digits denotes. *)
Definition hex_digit_value (c : ascii) : Z :=
  let c := char_code c in
  if c <=? 57 then c - 48 else if c <=? 70 then c - 55 else c - 87.

Definition hexadecimal (ds : list ascii) : Z :=
  fold_left (fun acc c => acc * 16 + hex_digit_value c) ds 0.

(** The characters that the switch of [lexer] skips one by one. *)
Definition isblank (c : ascii) : bool :=
  (char_code c =? 10) || (char_code c =? 32) || (char_code c =? 9)
  || (char_code c =? 13) || (char_code c =? 11).

(** The number of line feeds among some characters. *)
Definition line_feeds (s : list ascii) : Z :=
  Z.of_nat (length (filter (fun c => char_code c = 10) s)).

(** The character starts a bare word: it is graphical and opens neither a
    comment nor a string. *)
Definition starts_word (c : ascii) : bool :=
  isgraph c && negb (char_code c =? 92) && negb (char_code c =? 40)
  && negb (char_code c =? 34).

(** The state of the lexer with another input and line. *)
Definition lexer_at (l : lexer_t) (s : list ascii) (line : Z) : lexer_t :=
  {| l_input := s; l_line := line; l_token := l_token l;
     l_accepted := l_accepted l; l_in_definition := l_in_definition l |}.

(** The state of the lexer with another line in its token. *)
Definition token_at (line0 : Z) (l : lexer_t) : lexer_t :=
  {| l_input := l_input l; l_line := l_line l;
     l_token := match l_token l with
                | Some tk => Some {| tok_p := tok_p tk; tok_line := line0;
                                     tok_type := tok_type tk |}
                | None => None
                end;
     l_accepted := l_accepted l; l_in_definition := l_in_definition l |}.

(** The character that opens and closes a string. *)
Definition double_quote : ascii := "034"%char.

Definition backslash : ascii := "092"%char.
Definition line_feed : ascii := "010"%char.
Definition left_paren : ascii := "040"%char.
Definition right_paren : ascii := "041"%char.

(** The identifiers of a table, in the order of entry. *)
Definition symbol_ids (t : symbol_table_t) : list string := sym_id <$> t.

(** The table [t'] is the table [t] with symbols added at its end, and its
    identifiers are distinct if those of [t] are. *)
Definition extends (t t' : symbol_table_t) : Prop :=
  (exists new, t' = t ++ new)
  /\ (NoDup (symbol_ids t) -> NoDup (symbol_ids t')).

(** What assembling a tree does to the fence, the core and the table. *)
Definition grows (hd : header) (n : node_t) : Prop :=
  forall h a t h' a' t',
    assemble hd n h a t = Ok (h', a', t') ->
    fence a <= fence a'
    /\ length (core h') = length (core h)
    /\ extends t t'.

Definition grows_child (hd : header) (c : option node_t) : Prop :=
  match c with
  | Some m => grows hd m
  | None => True
  end.

(** The bytes of a counted string as [pack_string] lays them out: the
    length, the characters, and a zero when that makes an odd number of
    bytes. *)
Definition counted_bytes (cs : list Z) : list Z :=
  Z.of_nat (length cs) :: cs ++ (if Nat.even (length cs) then [0] else []).

(** ** Directives that address the cells below the start address *)

(** The operand of a [.set] or a [.pc], a literal or the value of the
    symbol that the table [t] holds for its identifier, is at or past the
    start address once [cell] has made a cell number of it.  An operand
    without a value in [t] stops the assembler. *)
Definition operand_above (hd : header) (t : symbol_table_t)
    (token : option token_t) (cell : Z -> Z) : bool :=
  match literal_or_symbol_lookup token t with
  | Ok v => START_ADDR hd <=? cell v
  | Fail _ => true
  end.

(** No directive of the tree addresses a cell below the start address:
    every [.set] writes the cell [location >> 1] at or past it, and every
    [.pc] moves [pc] there; identifiers are read in the table [t]. *)
Fixpoint directives_above (hd : header) (t : symbol_table_t) (n : node_t)
    : bool :=
  let '(Node type _ token _ o) := n in
  match type with
  | SYM_SET => operand_above hd t token (fun v => Z.shiftr v 1)
  | SYM_PC => operand_above hd t token (fun v => v)
  | _ => true
  end
  && forallb (fun c => match c with
                       | Some m => directives_above hd t m
                       | None => true
                       end) o.

(** Assembling the tree keeps the two invariants [pc_ok] and [fence_ok],
    when no directive of it addresses a cell below the start address by
    the symbols of [final], a table that holds those of the run. *)
Definition keeps (hd : header) (final : symbol_table_t) (n : node_t) : Prop :=
  forall h a t h' a' t',
    pc_ok hd h -> fence_ok hd a ->
    assemble hd n h a t = Ok (h', a', t') ->
    extends t' final ->
    pc_ok hd h' /\ fence_ok hd a'.

Definition keeps_child (hd : header) (final : symbol_table_t)
    (c : option node_t) : Prop :=
  match c with
  | Some m => keeps hd final m
  | None => True
  end.

(** [.set 16 5 .pc 100 1]: both directives address cells past the start
    address of the example. *)
Definition program_set_pc_above : node_t :=
  n_program [n_set 16 5; n_pc 100; n_literal 1].

(** [.pc 0 1] *)
Definition program_pc_0 : node_t := n_program [n_pc 0; n_literal 1].

(** ** The parser *)

#[global] Instance token_e_eq_dec : EqDecision token_e.
Proof. solve_decision. Defined.

(** What [_expect] and the calls of [syntax_error] in the parser report
    before they [ethrow]. *)
Inductive syntax_e :=
| unexpected_token (expected : token_e)
| hidden_bit_already_set
| immediate_bit_already_set
| inline_bit_already_set
| expected_single_character.

(** The ways a call of the parser ends: with a value; with a failure of the
    lexer or of an access ([Failed]); with a syntax error of its own, after
    which [parse] returns a null pointer ([Rejected]); the last case is
    that of the model only, when the turns counted for the loops are used
    up. *)
Inductive parsed (A : Type) :=
| Parsed (x : A)
| Failed (f : failure)
| Rejected (m : syntax_e)
| Turns_used_up.
Arguments Parsed {A} x.
Arguments Failed {A} f.
Arguments Rejected {A} m.
Arguments Turns_used_up {A}.

Definition pbind {A B} (k : A -> parsed B) (r : parsed A) : parsed B :=
  match r with
  | Parsed x => k x
  | Failed f => Failed f
  | Rejected m => Rejected m
  | Turns_used_up => Turns_used_up
  end.

#[global] Instance parsed_bind : MBind parsed := @pbind.
#[global] Instance parsed_ret : MRet parsed := @Parsed.

(** A call of the lexer or of the code generator inside the parser. *)
Definition lift {A} (r : result A) : parsed A :=
  match r with
  | Ok x => Parsed x
  | Fail f => Failed f
  end.

Definition node_type (n : node_t) : parse_e :=
  let '(Node type _ _ _ _) := n in type.
Definition node_bits (n : node_t) : Z :=
  let '(Node _ bits _ _ _) := n in bits.
Definition node_o (n : node_t) : list (option node_t) :=
  let '(Node _ _ _ _ o) := n in o.

(** [node_new(type, size)]: [allocate_or_die] clears the node. *)
Definition node_new (type : parse_e) (size : nat) : node_t :=
  Node type 0 None None (replicate size None).

(** [node_grow(n)]: one more child, a null pointer. *)
Definition node_grow (n : node_t) : node_t :=
  let '(Node type bits token value o) := n in
  Node type bits token value (o ++ [None]).

(** [r->o[i] = c]; outside the children the write is undefined. *)
Definition set_child (r : node_t) (i : nat) (c : node_t) : parsed node_t :=
  let '(Node type bits token value o) := r in
  if (i <? length o)%nat
  then Parsed (Node type bits token value (<[i := Some c]> o))
  else Failed UndefinedBehaviour.

(** [r->type = type] *)
Definition set_type (r : node_t) (type : parse_e) : node_t :=
  let '(Node _ bits token value o) := r in Node type bits token value o.

(** [r->bits |= b] *)
Definition or_bits (r : node_t) (b : Z) : node_t :=
  let '(Node type bits token value o) := r in
  Node type (Z.lor bits b) token value o.

Definition set_accepted (l : lexer_t) (tk : option token_t) : lexer_t :=
  {| l_input := l_input l; l_line := l_line l; l_token := l_token l;
     l_accepted := tk; l_in_definition := l_in_definition l |}.

Section Parser.

Context (hd : header).

(** [lexer_new(input)]: the structure is cleared. *)
Definition lexer_new (input : list ascii) : lexer_t :=
  {| l_input := input; l_line := 0; l_token := None; l_accepted := None;
     l_in_definition := false |}.

(** [accept(l, sym)]: the return value and the lexer. *)
Definition accept (l : lexer_t) (sym : token_e) : parsed (bool * lexer_t) :=
  tk ← lift (defined (l_token l));
  if bool_decide (sym = tok_type tk) then
    let l := set_accepted l (l_token l) in
    if bool_decide (sym = LEX_EOI) then Parsed (true, l)
    else l ← lift (lexer hd l); Parsed (true, l)
  else Parsed (false, l).

(** The loop of [accept_range] over the instruction tokens [ks]. *)
Fixpoint accept_range_from (l : lexer_t) (ks : list nat)
    : parsed (bool * lexer_t) :=
  match ks with
  | [] => Parsed (false, l)
  | k :: ks' =>
      '(b, l') ← accept l (LEX_INSTRUCTION k);
      if b : bool then Parsed (true, l') else accept_range_from l' ks'
  end.

(** [accept_range(l, low, high)] on the instruction tokens, the only ones
    it is called with: [low] and [high] are places in the mnemonic table. *)
Definition accept_range (l : lexer_t) (low high : nat)
    : parsed (bool * lexer_t) :=
  _ ← lift (assert (low <=? high)%nat);
  accept_range_from l (seq low (S high - low)).

(** [use(l, n)]: the token accepted moves into the tree. *)
Definition use (l : lexer_t) (n : node_t) : lexer_t * node_t :=
  let '(Node type bits token value o) := n in
  (set_accepted l None,
   match token with
   | Some _ => Node type bits token (l_accepted l) o
   | None => Node type bits (l_accepted l) value o
   end).

(** [expect(l, token)] comes back only when the token is accepted. *)
Definition expect (l : lexer_t) (token : token_e) : parsed lexer_t :=
  '(b, l) ← accept l token;
  if b : bool then Parsed l else Rejected (unexpected_token token).

Definition defined_by_token (l : lexer_t) (type : parse_e)
    : node_t * lexer_t :=
  let '(l, r) := use l (node_new type 0) in (r, l).

Definition variable_or_constant (l : lexer_t) (variable : bool)
    : parsed (node_t * lexer_t) :=
  let r := node_new (if variable then SYM_VARIABLE else SYM_CONSTANT) 1 in
  l ← expect l LEX_IDENTIFIER;
  let '(l, r) := use l r in
  '(b, l) ← accept l LEX_LITERAL;
  '(r, l) ←
    (if b : bool then
       let '(c, l) := defined_by_token l SYM_LITERAL in
       r ← set_child r 0 c; Parsed (r, l)
     else
       l ← expect l LEX_STRING;
       let '(c, l) := defined_by_token l SYM_STRING in
       r ← set_child r 0 c; Parsed (r, l));
  '(b, l) ← accept l LEX_HIDDEN;
  if b : bool then
    if has (node_bits r) DEFINE_HIDDEN then Rejected hidden_bit_already_set
    else Parsed (or_bits r DEFINE_HIDDEN, l)
  else Parsed (r, l).

Definition jump (l : lexer_t) (type : parse_e) : parsed (node_t * lexer_t) :=
  let r := node_new type 0 in
  '(b, l) ← accept l LEX_LITERAL;
  l ← (if b : bool then Parsed l
       else
         '(b, l) ← accept l LEX_STRING;
         if b : bool then Parsed l else expect l LEX_IDENTIFIER);
  let '(l, r) := use l r in
  Parsed (r, l).

(** The rules that call [statements], which is declared before them. *)
Section Rules.

Context (statements : lexer_t -> parsed (node_t * lexer_t)).

Definition for_next (l : lexer_t) : parsed (node_t * lexer_t) :=
  let r := node_new SYM_FOR_NEXT 1 in
  '(c, l) ← statements l;
  r ← set_child r 0 c;
  '(b, l) ← accept l LEX_AFT;
  '(r, l) ←
    (if b : bool then
       let r := set_type r SYM_FOR_AFT_THEN_NEXT in
       let r := node_grow r in
       '(c, l) ← statements l;
       r ← set_child r 1 c;
       let r := node_grow r in
       l ← expect l LEX_THEN;
       '(c, l) ← statements l;
       r ← set_child r 2 c;
       Parsed (r, l)
     else Parsed (r, l));
  l ← expect l LEX_NEXT;
  Parsed (r, l).

Definition begin (l : lexer_t) : parsed (node_t * lexer_t) :=
  let r := node_new SYM_BEGIN_UNTIL 1 in
  '(c, l) ← statements l;
  r ← set_child r 0 c;
  '(b, l) ← accept l LEX_AGAIN;
  if b : bool then Parsed (set_type r SYM_BEGIN_AGAIN, l)
  else
    '(b, l) ← accept l LEX_WHILE;
    if b : bool then
      let r := set_type r SYM_BEGIN_WHILE_REPEAT in
      let r := node_grow r in
      '(c, l) ← statements l;
      r ← set_child r 1 c;
      l ← expect l LEX_REPEAT;
      Parsed (r, l)
    else
      l ← expect l LEX_UNTIL;
      Parsed (r, l).

Definition if1 (l : lexer_t) : parsed (node_t * lexer_t) :=
  let r := node_new SYM_IF1 2 in
  '(c, l) ← statements l;
  r ← set_child r 0 c;
  '(b, l) ← accept l LEX_ELSE;
  '(r, l) ←
    (if b : bool then
       '(c, l) ← statements l;
       r ← set_child r 1 c;
       Parsed (r, l)
     else Parsed (r, l));
  l ← expect l LEX_THEN;
  Parsed (r, l).

(** The loop of [define] from the label [again]; [turns] counts the jumps
    back to it. *)
Fixpoint define_again (turns : nat) (l : lexer_t) (r : node_t)
    : parsed (node_t * lexer_t) :=
  match turns with
  | O => Turns_used_up
  | S turns' =>
      '(b, l) ← accept l LEX_IMMEDIATE;
      if b : bool then
        if has (node_bits r) DEFINE_IMMEDIATE
        then Rejected immediate_bit_already_set
        else define_again turns' l (or_bits r DEFINE_IMMEDIATE)
      else
        '(b, l) ← accept l LEX_HIDDEN;
        if b : bool then
          if has (node_bits r) DEFINE_HIDDEN
          then Rejected hidden_bit_already_set
          else define_again turns' l (or_bits r DEFINE_HIDDEN)
        else
          '(b, l) ← accept l LEX_INLINE;
          if b : bool then
            if has (node_bits r) DEFINE_INLINE
            then Rejected inline_bit_already_set
            else define_again turns' l (or_bits r DEFINE_INLINE)
          else Parsed (r, l)
  end.

Definition define (turns : nat) (l : lexer_t) : parsed (node_t * lexer_t) :=
  let r := node_new SYM_DEFINITION 1 in
  '(b, l) ← accept l LEX_IDENTIFIER;
  l ← (if b : bool then Parsed l else expect l LEX_STRING);
  let '(l, r) := use l r in
  '(c, l) ← statements l;
  r ← set_child r 0 c;
  l ← expect l LEX_ENDDEFINE;
  define_again turns l r.

End Rules.

Definition char_compile (l : lexer_t) : parsed (node_t * lexer_t) :=
  let r := node_new SYM_CHAR 0 in
  l ← expect l LEX_IDENTIFIER;
  let '(l, r) := use l r in
  id ← lift (token_id (node_token (Some r)));
  if (1 <? String.length id)%nat then Rejected expected_single_character
  else Parsed (r, l).

(** The rules [mode], [pc] and [pwd] of the parser; the names without
    the underscore are those of fields of the machine and the assembler. *)
Definition mode_ (l : lexer_t) : parsed (node_t * lexer_t) :=
  let r := node_new SYM_MODE 0 in
  l ← expect l LEX_LITERAL;
  let '(l, r) := use l r in
  Parsed (r, l).

(** [pc], [pwd] and [allocate] differ in the type of the node only. *)
Definition literal_or_identifier (type : parse_e) (l : lexer_t)
    : parsed (node_t * lexer_t) :=
  let r := node_new type 0 in
  '(b, l) ← accept l LEX_LITERAL;
  l ← (if b : bool then Parsed l else expect l LEX_IDENTIFIER);
  let '(l, r) := use l r in
  Parsed (r, l).

Definition pc_ (l : lexer_t) : parsed (node_t * lexer_t) :=
  literal_or_identifier SYM_PC l.

Definition pwd_ (l : lexer_t) : parsed (node_t * lexer_t) :=
  literal_or_identifier SYM_PWD l.

Definition set (l : lexer_t) : parsed (node_t * lexer_t) :=
  let r := node_new SYM_SET 0 in
  '(b, l) ← accept l LEX_IDENTIFIER;
  l ← (if b : bool then Parsed l else expect l LEX_LITERAL);
  let '(l, r) := use l r in
  '(b, l) ← accept l LEX_IDENTIFIER;
  l ← (if b : bool then Parsed l
       else
         '(b, l) ← accept l LEX_STRING;
         if b : bool then Parsed l else expect l LEX_LITERAL);
  let '(l, r) := use l r in
  Parsed (r, l).

Definition allocate (l : lexer_t) : parsed (node_t * lexer_t) :=
  let r := node_new SYM_ALLOCATE 0 in
  '(b, l) ← accept l LEX_IDENTIFIER;
  l ← (if b : bool then Parsed l else expect l LEX_LITERAL);
  let '(l, r) := use l r in
  Parsed (r, l).

Definition quote (l : lexer_t) : parsed (node_t * lexer_t) :=
  let r := node_new SYM_QUOTE 0 in
  '(b, l) ← accept l LEX_IDENTIFIER;
  l ← (if b : bool then Parsed l else expect l LEX_STRING);
  let '(l, r) := use l r in
  Parsed (r, l).

(** [statements] from the label [again], with [i] children in the node
    [r]; [turns] counts the jumps back to [again] and bounds the depth of
    the calls of [statements] inside the rules as well. *)
Fixpoint statements_again (turns : nat) (l : lexer_t) (r : node_t) (i : nat)
    : parsed (node_t * lexer_t) :=
  match turns with
  | O => Turns_used_up
  | S turns' =>
      let statements l :=
        statements_again turns' l (node_new SYM_STATEMENTS 2) 0 in
      let r := node_grow r in
      (* [r->o[i++] = c; goto again;] *)
      let next (c : parsed (node_t * lexer_t)) :=
        '(c, l) ← c;
        r ← set_child r i c;
        statements_again turns' l r (S i) in
      '(b, l) ← accept l LEX_CALL;
      if b : bool then next (jump l SYM_CALL) else
      '(b, l) ← accept l LEX_BRANCH;
      if b : bool then next (jump l SYM_BRANCH) else
      '(b, l) ← accept l LEX_0BRANCH;
      if b : bool then next (jump l SYM_0BRANCH) else
      '(b, l) ← accept l LEX_LITERAL;
      if b : bool then next (Parsed (defined_by_token l SYM_LITERAL)) else
      '(b, l) ← accept l LEX_LABEL;
      if b : bool then next (Parsed (defined_by_token l SYM_LABEL)) else
      '(b, l) ← accept l LEX_CONSTANT;
      if b : bool then next (variable_or_constant l false) else
      '(b, l) ← accept l LEX_VARIABLE;
      if b : bool then next (variable_or_constant l true) else
      '(b, l) ← accept l LEX_LOCATION;
      if b : bool then
        next ('(c, l) ← variable_or_constant l true;
              Parsed (set_type c SYM_LOCATION, l)) else
      '(b, l) ← accept l LEX_IF;
      if b : bool then next (if1 statements l) else
      '(b, l) ← accept l LEX_DEFINE;
      if b : bool then next (define statements turns' l) else
      '(b, l) ← accept l LEX_CHAR;
      if b : bool then next (char_compile l) else
      '(b, l) ← accept l LEX_BEGIN;
      if b : bool then next (begin statements l) else
      '(b, l) ← accept l LEX_FOR;
      if b : bool then next (for_next statements l) else
      '(b, l) ← accept l LEX_QUOTE;
      if b : bool then next (quote l) else
      '(b, l) ← accept l LEX_IDENTIFIER;
      if b : bool then next (Parsed (defined_by_token l SYM_CALL_DEFINITION)) else
      '(b, l) ← accept l LEX_PWD;
      if b : bool then next (pwd_ l) else
      '(b, l) ← accept l LEX_SET;
      if b : bool then next (set l) else
      '(b, l) ← accept l LEX_PC;
      if b : bool then next (pc_ l) else
      '(b, l) ← accept l LEX_MODE;
      if b : bool then next (mode_ l) else
      '(b, l) ← accept l LEX_ALLOCATE;
      if b : bool then next (allocate l) else
      '(b, l) ← accept l LEX_BUILT_IN;
      if b : bool then next (Parsed (defined_by_token l SYM_BUILT_IN)) else
      '(b, l) ← accept_range l 0 (length (X_MACRO_INSTRUCTIONS hd) - 1);
      if b : bool then next (Parsed (defined_by_token l SYM_INSTRUCTION)) else
      Parsed (r, l)
  end.

Definition statements (turns : nat) (l : lexer_t)
    : parsed (node_t * lexer_t) :=
  statements_again turns l (node_new SYM_STATEMENTS 2) 0.

Definition program (turns : nat) (l : lexer_t) : parsed (node_t * lexer_t) :=
  let r := node_new SYM_PROGRAM 1 in
  l ← lift (lexer hd l);
  '(c, l) ← statements turns l;
  r ← set_child r 0 c;
  l ← expect l LEX_EOI;
  Parsed (r, l).

(** [parse(input)]: the tree, or the way it is not built; after [Rejected]
    and after [Failed (Thrown _)] the function returns a null pointer.  No
    loop of the parser takes a turn without a token accepted, so the turns
    counted are one more than there are characters. *)
Definition parse (input : list ascii) : parsed node_t :=
  '(n, _) ← program (S (length input)) (lexer_new input);
  Parsed n.

(** [h2_assemble_core(input, symbols)] *)
Definition h2_assemble_core (input : list ascii)
    (symbols : option symbol_table_t) : parsed h2_t :=
  n ← parse input;
  lift (code hd n symbols).

End Parser.
(** ** Vocabulary of the properties of the parser *)

(** What a token holds, by its type: a literal its number of 16 bits, an
    identifier, a label or a string its text, an instruction a place in
    the mnemonic table, any other keyword nothing; the lexer leaves no
    token of type [LEX_ERROR] to the parser. *)
Definition token_ok (hd : header) (tk : token_t) : bool :=
  match tok_type tk with
  | LEX_LITERAL =>
      match tok_p tk with
      | p_number n => (0 <=? n) && (n <? 65536)
      | _ => false
      end
  | LEX_IDENTIFIER | LEX_LABEL | LEX_STRING =>
      match tok_p tk with p_id _ => true | _ => false end
  | LEX_INSTRUCTION k =>
      match tok_p tk with
      | p_none => (k <? length (X_MACRO_INSTRUCTIONS hd))%nat
      | _ => false
      end
  | LEX_ERROR => false
  | _ => match tok_p tk with p_none => true | _ => false end
  end.

(** The token is there, it is of one of the [types], and it holds what a
    token of its type does. *)
Definition token_in (hd : header) (types : list token_e)
    (tk : option token_t) : bool :=
  match tk with
  | Some tk => token_ok hd tk && bool_decide (tok_type tk ∈ types)
  | None => false
  end.

Definition is_instruction (hd : header) (tk : option token_t) : bool :=
  match tk with
  | Some tk =>
      token_ok hd tk
      && match tok_type tk with LEX_INSTRUCTION _ => true | _ => false end
  | None => false
  end.

(** The text of the token has at most one character. *)
Definition single_character (tk : option token_t) : bool :=
  match tk with
  | Some {| tok_p := p_id id |} => (String.length id <=? 1)%nat
  | _ => false
  end.

(** The types of nodes that stand for a statement. *)
Definition is_statement (type : parse_e) : bool :=
  negb (bool_decide (type ∈ [SYM_PROGRAM; SYM_STATEMENTS; SYM_STRING])).

(** The children of a [SYM_STATEMENTS] node: statements, then three null
    pointers. *)
Fixpoint statement_kinds (ks : list (option parse_e)) : bool :=
  match ks with
  | [None; None; None] => true
  | Some k :: ks' => is_statement k && statement_kinds ks'
  | _ => false
  end.

(** The node by itself: its bits, its tokens, and the number and the types
    of its children, for each type of node. *)
Definition shape (hd : header) (n : node_t) : bool :=
  let '(Node type bits token value o) := n in
  let kinds := option_map node_type <$> o in
  let no_token := bool_decide (token = None) && bool_decide (value = None) in
  let one_token types :=
    token_in hd types token && bool_decide (value = None) in
  let leaf := bool_decide (o = []) && (bits =? 0) in
  let inner (ks : list (list (option parse_e))) :=
    no_token && (bits =? 0) && bool_decide (kinds ∈ ks) in
  match type with
  | SYM_PROGRAM => inner [[Some SYM_STATEMENTS]]
  | SYM_STATEMENTS => no_token && (bits =? 0) && statement_kinds kinds
  | SYM_LABEL => leaf && one_token [LEX_LABEL]
  | SYM_BRANCH | SYM_0BRANCH | SYM_CALL =>
      leaf && one_token [LEX_LITERAL; LEX_STRING; LEX_IDENTIFIER]
  | SYM_CONSTANT | SYM_VARIABLE | SYM_LOCATION =>
      one_token [LEX_IDENTIFIER]
      && bool_decide (bits ∈ [0; DEFINE_HIDDEN])
      && bool_decide (kinds ∈ [[Some SYM_LITERAL]; [Some SYM_STRING]])
  | SYM_LITERAL => leaf && one_token [LEX_LITERAL]
  | SYM_STRING => leaf && one_token [LEX_STRING]
  | SYM_INSTRUCTION =>
      leaf && is_instruction hd token && bool_decide (value = None)
  | SYM_BEGIN_UNTIL | SYM_BEGIN_AGAIN | SYM_FOR_NEXT =>
      inner [[Some SYM_STATEMENTS]]
  | SYM_BEGIN_WHILE_REPEAT =>
      inner [[Some SYM_STATEMENTS; Some SYM_STATEMENTS]]
  | SYM_FOR_AFT_THEN_NEXT =>
      inner [[Some SYM_STATEMENTS; Some SYM_STATEMENTS; Some SYM_STATEMENTS]]
  | SYM_IF1 =>
      inner [[Some SYM_STATEMENTS; None];
             [Some SYM_STATEMENTS; Some SYM_STATEMENTS]]
  | SYM_DEFINITION =>
      one_token [LEX_IDENTIFIER; LEX_STRING]
      && (0 <=? bits) && (bits <? 8)
      && bool_decide (kinds = [Some SYM_STATEMENTS])
  | SYM_CHAR =>
      leaf && one_token [LEX_IDENTIFIER] && single_character token
  | SYM_QUOTE => leaf && one_token [LEX_IDENTIFIER; LEX_STRING]
  | SYM_PWD | SYM_PC | SYM_ALLOCATE =>
      leaf && one_token [LEX_LITERAL; LEX_IDENTIFIER]
  | SYM_SET =>
      leaf && token_in hd [LEX_IDENTIFIER; LEX_LITERAL] token
      && token_in hd [LEX_IDENTIFIER; LEX_STRING; LEX_LITERAL] value
  | SYM_MODE => leaf && one_token [LEX_LITERAL]
  | SYM_BUILT_IN => leaf && one_token [LEX_BUILT_IN]
  | SYM_CALL_DEFINITION => leaf && one_token [LEX_IDENTIFIER]
  end.

Definition child_ok (ok : node_t -> bool) (c : option node_t) : bool :=
  match c with
  | Some m => ok m
  | None => true
  end.

(** The trees of the grammar: every node of the tree has its shape. *)
Fixpoint tree_ok (hd : header) (n : node_t) : bool :=
  shape hd n
  && let '(Node _ _ _ _ o) := n in forallb (child_ok (tree_ok hd)) o.

(** No [SYM_DEFINITION] node in the tree. *)
Fixpoint no_definition (n : node_t) : bool :=
  let '(Node type _ _ _ o) := n in
  negb (bool_decide (type = SYM_DEFINITION))
  && forallb (child_ok no_definition) o.

(** No [SYM_DEFINITION] node below a [SYM_DEFINITION] node. *)
Fixpoint definitions_flat (n : node_t) : bool :=
  let '(Node type _ _ _ o) := n in
  if bool_decide (type = SYM_DEFINITION)
  then forallb (child_ok no_definition) o
  else forallb (child_ok definitions_flat) o.

(** What holds of a tree that was parsed inside the body of a definition
    ([body = true]) or outside. *)
Definition flat (body : bool) (n : node_t) : bool :=
  if body then no_definition n else definitions_flat n.

(** The token that waits and the flag [in_definition] of the lexer, which
    is one token ahead of the parser: inside the body of a definition the
    token is no colon and the flag is set unless the token is the semicolon
    that ends the body; outside, the token is no semicolon and the flag is
    clear unless the token is the colon that opens a definition. *)
Definition in_body (body : bool) (type : token_e) (flag : bool) : Prop :=
  if body
  then type <> LEX_DEFINE /\ (flag = false <-> type = LEX_ENDDEFINE)
  else type <> LEX_ENDDEFINE /\ (flag = true <-> type = LEX_DEFINE).

(** Where the parser is once a token of the type [sym] is accepted. *)
Definition next_context (body : bool) (sym : token_e) : bool :=
  match sym with
  | LEX_DEFINE => true
  | LEX_ENDDEFINE => false
  | _ => body
  end.

(** The tokens that can be accepted inside a body, and outside. *)
Definition may_take (body : bool) (sym : token_e) : Prop :=
  if body then sym <> LEX_DEFINE else sym <> LEX_ENDDEFINE.

(** What a call of the lexer does to the flag, by the token it finds. *)
Definition flag_step (before : bool) (type : token_e) (after : bool) : Prop :=
  match type with
  | LEX_DEFINE => before = false /\ after = true
  | LEX_ENDDEFINE => before = true /\ after = false
  | _ => after = before
  end.

(** The token that [lexer] left is there and holds what its type says, and
    the parser is inside the body of a definition or outside one as [body]
    says. *)
Definition lexer_ready (hd : header) (body : bool) (l : lexer_t) : Prop :=
  exists tk, l_token l = Some tk /\ token_ok hd tk = true
             /\ in_body body (tok_type tk) (l_in_definition l).

(** The token that [accept] took is of the type [sym]. *)
Definition accepted_as (hd : header) (sym : token_e) (l : lexer_t) : Prop :=
  token_in hd [sym] (l_accepted l) = true.

(** The characters not yet read, and one for the token that waits to be
    accepted unless it is the end of the input. *)
Definition tokens_left (l : lexer_t) : nat :=
  length (l_input l)
  + match l_token l with
    | Some {| tok_type := LEX_EOI |} => 0
    | _ => 1
    end.

(** The call of the parser comes back with a value that satisfies [Q], or
    it rejects the input, or it fails in another way than through [fatal]
    and than with the error [nested word definition] of the assembler; it
    does not use up the turns counted. *)
Definition ends {A} (r : parsed A) (Q : A -> Prop) : Prop :=
  match r with
  | Parsed x => Q x
  | Failed f => f <> Fatal /\ f <> Thrown nested_word_definition
  | Rejected _ => True
  | Turns_used_up => False
  end.

(** A call of the lexer or of the assembler comes back with a value that
    satisfies [Q], or it fails in another way than through [fatal] and
    than with the error [nested word definition]. *)
Definition passes {A} (r : result A) (Q : A -> Prop) : Prop :=
  match r with
  | Ok x => Q x
  | Fail f => f <> Fatal /\ f <> Thrown nested_word_definition
  end.

(** The assembler that comes back with the value is inside a definition
    or outside one as the assembler [a] was. *)
Definition same_flag {A} (a : assembler_t) (r : A * assembler_t) : Prop :=
  in_definition r.2 = in_definition a.

Definition same_flag_table {A B} (a : assembler_t)
    (r : A * assembler_t * B) : Prop :=
  in_definition r.1.2 = in_definition a.
(** What the lexer leaves when it comes back from the state [l]: a token
    that holds what its type says, the flag as the token makes it, the
    token accepted before untouched, and at most [n] characters and token
    to go. *)
Definition lexed (hd : header) (l : lexer_t) (n : nat) (l' : lexer_t) : Prop :=
  (exists tk, l_token l' = Some tk /\ token_ok hd tk = true
              /\ flag_step (l_in_definition l) (tok_type tk)
                   (l_in_definition l'))
  /\ l_accepted l' = l_accepted l
  /\ (tokens_left l' <= n)%nat.

(** What [accept] leaves when it took a token of the type [sym] in the
    state [l]. *)
Definition took (hd : header) (body : bool) (sym : token_e)
    (l l' : lexer_t) : Prop :=
  accepted_as hd sym l' /\ lexer_ready hd body l'
  /\ (tokens_left l' < tokens_left l)%nat.

(** What a rule of the grammar leaves when it comes back from the state
    [l]: a tree of the grammar with a node of one of the [types] at its
    root, without a definition inside a definition, and the lexer ready
    with no more to go than before. *)
Definition rule_post (hd : header) (body : bool) (l : lexer_t)
    (types : list parse_e) (r : node_t * lexer_t) : Prop :=
  tree_ok hd r.1 = true /\ node_type r.1 ∈ types /\ flat body r.1 = true
  /\ lexer_ready hd body r.2 /\ (tokens_left r.2 <= tokens_left l)%nat.

(** What is asked of a child that [assemble] is called on: on a tree
    without a definition inside a definition it passes and leaves the flag
    of the assembler as it was. *)
Definition child_passes (hd : header) (c : option node_t) : Prop :=
  match c with
  | Some m =>
      forall h a t,
        flat (in_definition a) m = true ->
        passes (assemble hd m h a t) (same_flag_table a)
  | None => True
  end.

(** * Properties *)

(** ** Core memory *)

Lemma store_Some c i v :
  0 <= i < Z.of_nat (length c) -> store c i v = Some (<[Z.to_nat i := v]> c).
Proof.
  intros Hi. unfold store.
  destruct (0 <=? i) eqn:E1; [|lia].
  destruct (i <? Z.of_nat (length c)) eqn:E2; [reflexivity|lia].
Qed.

Lemma store_inv c i v c' :
  store c i v = Some c' ->
  0 <= i < Z.of_nat (length c) /\ c' = <[Z.to_nat i := v]> c.
Proof.
  unfold store.
  destruct (0 <=? i) eqn:E1; [|discriminate].
  destruct (i <? Z.of_nat (length c)) eqn:E2; [|discriminate].
  intros [= <-]. split; [lia|reflexivity].
Qed.

Lemma store_length c i v c' : store c i v = Some c' -> length c' = length c.
Proof. intros [_ ->]%store_inv. apply length_insert. Qed.

Lemma load_Some_lt c i v : load c i = Some v -> 0 <= i < Z.of_nat (length c).
Proof.
  unfold load. destruct (0 <=? i) eqn:E; [|discriminate].
  intros H%lookup_lt_Some. lia.
Qed.

Lemma load_is_Some c i : 0 <= i < Z.of_nat (length c) -> is_Some (load c i).
Proof.
  intros Hi. unfold load. destruct (0 <=? i) eqn:E; [|lia].
  apply lookup_lt_is_Some. lia.
Qed.

Lemma u16_small x : 0 <= x < 65536 -> u16 x = x.
Proof. intros. unfold u16. apply Z.mod_small. lia. Qed.

Lemma u16_range x : 0 <= u16 x < 65536.
Proof. unfold u16. apply Z.mod_pos_bound. lia. Qed.

(** ** Instruction words *)

Lemma IS_ALU_OP_not_literal i : IS_ALU_OP i = true -> IS_LITERAL i = false.
Proof.
  unfold IS_ALU_OP, IS_LITERAL. intros H%Z.eqb_eq.
  replace (Z.land i 32768) with (Z.land (Z.land i 57344) 32768)
    by (rewrite <- Z.land_assoc; reflexivity).
  rewrite H. reflexivity.
Qed.

Lemma IS_ALU_OP_not_call i : IS_ALU_OP i = true -> IS_CALL i = false.
Proof.
  unfold IS_ALU_OP, IS_CALL. intros H%Z.eqb_eq. rewrite H. reflexivity.
Qed.

Lemma IS_CALL_not_alu i : IS_CALL i = true -> IS_ALU_OP i = false.
Proof.
  unfold IS_ALU_OP, IS_CALL. intros H%Z.eqb_eq. rewrite H. reflexivity.
Qed.

Lemma IS_ALU_OP_not_0branch i : IS_ALU_OP i = true -> IS_0BRANCH i = false.
Proof.
  unfold IS_ALU_OP, IS_0BRANCH. intros H%Z.eqb_eq. rewrite H. reflexivity.
Qed.

Lemma IS_ALU_OP_not_branch i : IS_ALU_OP i = true -> IS_BRANCH i = false.
Proof.
  unfold IS_ALU_OP, IS_BRANCH. intros H%Z.eqb_eq. rewrite H. reflexivity.
Qed.

(** The layouts that [layout_ok] admits, one by one. *)
Lemma layout_cases hd :
  layout_ok hd ->
  exists l r, ALU_OP_LENGTH hd = l /\ R_TO_PC_BIT_INDEX hd = r
    /\ In (l, r) [ (0,4); (1,4); (2,4); (3,4); (4,4); (5,4);
                   (0,8); (0,9); (0,10); (0,11); (0,12);
                   (1,9); (1,10); (1,11); (1,12);
                   (2,10); (2,11); (2,12); (3,11); (3,12); (4,12) ].
Proof.
  intros [Hl Hr]. exists (ALU_OP_LENGTH hd), (R_TO_PC_BIT_INDEX hd).
  split; [reflexivity|]. split; [reflexivity|].
  assert (ALU_OP_LENGTH hd = 0 \/ ALU_OP_LENGTH hd = 1 \/ ALU_OP_LENGTH hd = 2
          \/ ALU_OP_LENGTH hd = 3 \/ ALU_OP_LENGTH hd = 4
          \/ ALU_OP_LENGTH hd = 5) as Hc by lia.
  assert (R_TO_PC_BIT_INDEX hd = 4 \/ R_TO_PC_BIT_INDEX hd = 8
          \/ R_TO_PC_BIT_INDEX hd = 9 \/ R_TO_PC_BIT_INDEX hd = 10
          \/ R_TO_PC_BIT_INDEX hd = 11 \/ R_TO_PC_BIT_INDEX hd = 12) as Hi by lia.
  destruct Hc as [E|[E|[E|[E|[E|E]]]]]; rewrite E in *;
  destruct Hi as [F|[F|[F|[F|[F|F]]]]]; rewrite F in *;
  simpl; try lia; tauto.
Qed.

(** Case analysis on the layout: replaces the two layout constants of the
    header by their values. *)
Ltac layout_cases hd H :=
  let l := fresh "l" in let r := fresh "r" in
  let El := fresh "El" in let Er := fresh "Er" in let Hin := fresh "Hin" in
  destruct (layout_cases hd H) as (l & r & El & Er & Hin);
  simpl in Hin;
  repeat (destruct Hin as [Hin|Hin]; [injection Hin as <- <-|]);
  try contradiction.

Lemma CODE_EXIT_is_alu hd : layout_ok hd -> IS_ALU_OP (CODE_EXIT hd) = true.
Proof.
  intros H. unfold CODE_EXIT, R_TO_PC. layout_cases hd H;
    rewrite Er; reflexivity.
Qed.

(** ** The simulator *)

Lemma h2_step_bye hd h w instruction :
  MAX_PROGRAM hd <> 0 ->
  load (core h) (pc h) = Some instruction ->
  IS_ALU_OP instruction = true ->
  alu_code_of (ALU_OP hd instruction) = Some ALU_OP_BYE ->
  in_core h (sp h) -> in_core h (rp h) ->
  h2_step hd h w = Return (tos h) w.
Proof.
  intros Hm Hl Ha Hop Hsp Hrp. unfold h2_step. rewrite Hl.
  destruct (MAX_PROGRAM hd =? 0) eqn:E; [lia|].
  rewrite (IS_ALU_OP_not_literal _ Ha), Ha. unfold alu.
  destruct (load_is_Some _ _ Hsp) as [nos ->].
  destruct (load_is_Some _ _ Hrp) as [r Hr]. rewrite Hr. simpl.
  rewrite Hop. destruct (Z.land instruction (R_TO_PC hd) =? 0); reflexivity.
Qed.

Lemma h2_step_literal hd h w instruction :
  MAX_PROGRAM hd <> 0 ->
  load (core h) (pc h) = Some instruction ->
  IS_LITERAL instruction = true ->
  in_core h (u16 (sp h + 1)) ->
  h2_step hd h w =
    Continue {| core := <[Z.to_nat (u16 (sp h + 1)) := tos h]> (core h);
                pc := u16 ((pc h + 1) mod MAX_PROGRAM hd);
                tos := Z.land instruction 0x7FFF;
                sp := u16 (sp h + 1); rp := rp h |} w.
Proof.
  intros Hm Hl Hi Hsp. unfold h2_step. rewrite Hl.
  destruct (MAX_PROGRAM hd =? 0) eqn:E; [lia|].
  rewrite Hi, store_Some by exact Hsp. reflexivity.
Qed.

(** An ALU word that reads no input, writes no output, does not return and
    moves nothing between the stacks: the switch computes the new top of
    stack and the data stack pointer moves. *)
Lemma h2_step_alu_pure hd h w instruction op nos v :
  MAX_PROGRAM hd <> 0 ->
  load (core h) (pc h) = Some instruction ->
  IS_ALU_OP instruction = true ->
  Z.land instruction (R_TO_PC hd) = 0 ->
  Z.land instruction T_TO_R = 0 ->
  Z.land instruction T_TO_N = 0 ->
  Z.land instruction N_TO_ADDR_T = 0 ->
  alu_code_of (ALU_OP hd instruction) = Some op ->
  op <> ALU_OP_BYE -> op <> ALU_OP_RX -> op <> ALU_OP_TX -> op <> ALU_OP_SAVE ->
  load (core h) (sp h) = Some nos ->
  alu_value hd (Some op) h nos = Some v ->
  h2_step hd h w =
    Continue {| core := core h;
                pc := u16 ((pc h + 1) mod MAX_PROGRAM hd);
                tos := v;
                sp := u16 (sp h + stack_delta (DSTACK instruction));
                rp := u16 (rp h + stack_delta (RSTACK instruction)) |} w.
Proof.
  intros Hm Hl Ha Hr Htr Htn Hna Hop H1 H2 H3 H4 Hn Hv. unfold h2_step.
  rewrite Hl. destruct (MAX_PROGRAM hd =? 0) eqn:E; [lia|].
  rewrite (IS_ALU_OP_not_literal _ Ha), Ha. unfold alu. rewrite Hn, Hr. simpl.
  rewrite Hop.
  destruct op; try congruence; rewrite Hv; unfold alu_commit;
    rewrite Htr, Htn, Hna; reflexivity.
Qed.

Lemma load_insert_ne (c : list Z) i v j :
  0 <= i -> i <> j -> load (<[Z.to_nat i := v]> c) j = load c j.
Proof.
  intros Hi Hne. unfold load. destruct (0 <=? j) eqn:E; [|reflexivity].
  apply list_lookup_insert_ne. lia.
Qed.

Lemma load_insert_eq (c : list Z) i v :
  0 <= i < Z.of_nat (length c) -> load (<[Z.to_nat i := v]> c) i = Some v.
Proof.
  intros Hi. unfold load. destruct (0 <=? i) eqn:E; [|lia].
  apply list_lookup_insert_eq. lia.
Qed.

Lemma h2_run_one_two_plus_bye hd h w turns :
  sizes_ok hd ->
  layout_ok hd -> alu_field_holds hd ALU_OP_BYE ->
  START_ADDR hd + 3 < MAX_PROGRAM hd ->
  0 <= VARIABLE_STACK_START hd ->
  VARIABLE_STACK_START hd + 2 < CORE_CELLS hd ->
  (VARIABLE_STACK_START hd + 2 < START_ADDR hd
   \/ START_ADDR hd + 3 < VARIABLE_STACK_START hd + 1) ->
  Z.of_nat (length (core h)) = CORE_CELLS hd ->
  pc h = START_ADDR hd ->
  sp h = VARIABLE_STACK_START hd ->
  in_core h (rp h) ->
  0 <= tos h < 65536 ->
  image_at (core h) (START_ADDR hd) one_two_plus_bye ->
  h2_run hd (4 + turns) h w = Returned 3 w.
Proof.
  intros (Hs1 & Hs0 & Hs2 & Hs3) Hlay Hbye Hp Hv0 Hv2 Hdis Hlen Hpc Hsp Hrp Htos Him.
  assert (MAX_PROGRAM hd <> 0) as Hm by lia.
  assert (ALU_OP_LENGTH hd = 5 /\ R_TO_PC_BIT_INDEX hd = 4) as [El Er].
  { unfold alu_field_holds in Hbye. simpl in Hbye.
    layout_cases hd Hlay; rewrite El in Hbye; simpl in Hbye; lia. }
  destruct Him as (I0 & I1 & I2 & I3 & _).
  replace (START_ADDR hd + 1 + 1 + 1) with (START_ADDR hd + 3) in I3 by lia.
  replace (START_ADDR hd + 1 + 1) with (START_ADDR hd + 2) in I2 by lia.
  change (4 + turns)%nat with (S (S (S (S turns)))).
  (* literal 1 *)
  cbn [h2_run].
  rewrite (h2_step_literal hd h w (Z.lor OP_LITERAL 1) Hm); cycle 1.
  { rewrite Hpc. exact I0. } { reflexivity. }
  { unfold in_core. rewrite Hsp, u16_small by lia. lia. }
  rewrite Hsp, Hpc, (u16_small (VARIABLE_STACK_START hd + 1)) by lia.
  rewrite (Z.mod_small (START_ADDR hd + 1)), u16_small by lia.
  (* literal 2 *)
  cbn [h2_run].
  rewrite (h2_step_literal hd _ w (Z.lor OP_LITERAL 2) Hm); cycle 1.
  { cbn [core pc]. rewrite load_insert_ne by lia. exact I1. } { reflexivity. }
  { unfold in_core. cbn [core sp]. rewrite length_insert, u16_small by lia. lia. }
  cbn [core pc sp tos rp].
  rewrite (u16_small (VARIABLE_STACK_START hd + 1 + 1)) by lia.
  rewrite (Z.mod_small (START_ADDR hd + 1 + 1)), u16_small by lia.
  (* + *)
  cbn [h2_run].
  rewrite (h2_step_alu_pure hd _ w (alu_word ALU_OP_T_PLUS_N DELTA_N1 DELTA_0)
             ALU_OP_T_PLUS_N 1 3 Hm); try discriminate; try reflexivity; cycle 1.
  { cbn [core pc]. rewrite !load_insert_ne by lia.
    replace (START_ADDR hd + 1 + 1) with (START_ADDR hd + 2) by lia. exact I2. }
  { unfold R_TO_PC. rewrite Er. reflexivity. }
  { unfold ALU_OP. rewrite El. reflexivity. }
  { cbn [core sp]. rewrite load_insert_eq; [reflexivity|].
    rewrite length_insert. lia. }
  cbn [core pc sp tos rp].
  (* bye *)
  cbn [h2_run].
  rewrite (h2_step_bye hd _ w (alu_word ALU_OP_BYE DELTA_0 DELTA_0) Hm);
    try reflexivity.
  - cbn [core pc]. rewrite (Z.mod_small (START_ADDR hd + 1 + 1 + 1)),
      u16_small by lia.
    rewrite !load_insert_ne by lia.
    replace (START_ADDR hd + 1 + 1 + 1) with (START_ADDR hd + 3) by lia.
    exact I3.
  - unfold ALU_OP. rewrite El. reflexivity.
  - unfold in_core. cbn [core sp]. rewrite !length_insert.
    change (stack_delta (DSTACK (alu_word ALU_OP_T_PLUS_N DELTA_N1 DELTA_0)))
      with 65535.
    unfold u16. replace (VARIABLE_STACK_START hd + 1 + 1 + 65535)
      with (VARIABLE_STACK_START hd + 1 + 1 * 65536) by lia.
    rewrite Z.mod_add, Z.mod_small by lia. lia.
  - unfold in_core in *. cbn [core rp]. rewrite !length_insert.
    change (stack_delta (RSTACK (alu_word ALU_OP_T_PLUS_N DELTA_N1 DELTA_0)))
      with 0. rewrite Z.add_0_r, u16_small by lia. lia.
Qed.

(** C1. [h2_run] returns the low 16 bits of [tos] at the turn in which an
    ALU word with the operation BYE is executed; and on an image that holds
    the cells of [1 2 + bye] from the start address on, run from the state
    in which [main] starts the machine, it returns 3. *)
Theorem h2_run_bye (hd : header) :
  sizes_ok hd ->
  (forall h w turns instruction,
      load (core h) (pc h) = Some instruction ->
      IS_ALU_OP instruction = true ->
      alu_code_of (ALU_OP hd instruction) = Some ALU_OP_BYE ->
      in_core h (sp h) -> in_core h (rp h) ->
      0 <= tos h < 65536 ->
      h2_run hd (S turns) h w = Returned (Z.land (tos h) 0xFFFF) w)
  /\ (layout_ok hd -> alu_field_holds hd ALU_OP_BYE ->
      START_ADDR hd + 3 < MAX_PROGRAM hd ->
      0 <= VARIABLE_STACK_START hd ->
      VARIABLE_STACK_START hd + 2 < CORE_CELLS hd ->
      (VARIABLE_STACK_START hd + 2 < START_ADDR hd
       \/ START_ADDR hd + 3 < VARIABLE_STACK_START hd + 1) ->
      forall h w turns,
        Z.of_nat (length (core h)) = CORE_CELLS hd ->
        pc h = START_ADDR hd ->
        sp h = VARIABLE_STACK_START hd ->
        in_core h (rp h) ->
        0 <= tos h < 65536 ->
        image_at (core h) (START_ADDR hd) one_two_plus_bye ->
        h2_run hd (4 + turns) h w = Returned 3 w).
Proof.
  intros Hs. split.
  - intros h w turns instruction Hl Ha Hop Hsp Hrp Ht.
    cbn [h2_run]. rewrite (h2_step_bye hd h w instruction); try assumption.
    + f_equal. change 65535 with (Z.ones 16). rewrite Z.land_ones by lia.
      symmetry. apply Z.mod_small. change (2 ^ 16) with 65536. lia.
    + destruct Hs as (? & ? & ? & ?). lia.
  - intros. apply h2_run_one_two_plus_bye; assumption.
Qed.

Lemma example_header_sizes : sizes_ok example_header.
Proof. unfold sizes_ok. simpl. lia. Qed.

Lemma example_header_layout : layout_ok example_header.
Proof. unfold layout_ok. simpl. lia. Qed.

Lemma example_header_fits op : alu_field_holds example_header op.
Proof. unfold alu_field_holds. destruct op; simpl; lia. Qed.

Lemma h2_run_bye_witness :
  h2_run example_header 1
    {| core := [alu_word ALU_OP_BYE DELTA_0 DELTA_0]; pc := 0; tos := 7;
       sp := 0; rp := 0 |} io_empty
  = Returned 7 io_empty
  /\ h2_run example_header 4 (h2_loaded example_header one_two_plus_bye) io_empty
     = Returned 3 io_empty.
Proof.
  split.
  - apply (proj1 (h2_run_bye example_header example_header_sizes)
             {| core := [alu_word ALU_OP_BYE DELTA_0 DELTA_0]; pc := 0;
                tos := 7; sp := 0; rp := 0 |} io_empty 0%nat
             (alu_word ALU_OP_BYE DELTA_0 DELTA_0)).
    + reflexivity.
    + reflexivity.
    + reflexivity.
    + unfold in_core. simpl. lia.
    + unfold in_core. simpl. lia.
    + simpl. lia.
  - apply (proj2 (h2_run_bye example_header example_header_sizes)
             example_header_layout (example_header_fits ALU_OP_BYE)).
    + simpl. lia.
    + simpl. lia.
    + simpl. lia.
    + simpl. lia.
    + vm_compute. reflexivity.
    + reflexivity.
    + reflexivity.
    + unfold in_core.
      assert (Z.of_nat (length (core (h2_loaded example_header one_two_plus_bye)))
              = 32768) as -> by (vm_compute; reflexivity).
      simpl. lia.
    + simpl. lia.
    + vm_compute. repeat split; reflexivity.
Defined.

(** ** Emission *)

Lemma bit15_clear n : 0 <= n < 65536 -> Z.land n 0x8000 = 0 -> n < 32768.
Proof.
  intros Hn H. destruct (Z.lt_ge_cases n 32768) as [|Hge]; [assumption|].
  exfalso. assert (Z.testbit (Z.land n 32768) 15 = true) as Hb.
  { rewrite Z.land_spec. change (Z.testbit 32768 15) with true.
    rewrite andb_true_r. apply Z.testbit_true; [lia|].
    change (2 ^ 15) with 32768.
    replace (n / 32768) with 1; [reflexivity|].
    apply Z.div_unique with (r := n - 32768); lia. }
  rewrite H in Hb. discriminate.
Qed.

Lemma bit15_set n : 0 <= n < 65536 -> Z.land n 0x8000 <> 0 -> 32768 <= n.
Proof.
  intros Hn H. destruct (Z.lt_ge_cases n 32768) as [Hlt|]; [|assumption].
  exfalso. apply H. change 32768 with (2 ^ 15) in *.
  apply Z.bits_inj'. intros k Hk. rewrite Z.land_spec, Z.bits_0.
  destruct (Z.eq_dec k 15) as [->|Hne].
  - rewrite (Z.bits_above_log2 n 15); [reflexivity|lia|].
    destruct (Z.eq_dec n 0) as [->|]; [simpl; lia|].
    apply Z.log2_lt_pow2; lia.
  - rewrite Z.pow2_bits_false by lia. apply andb_false_r.
Qed.

Lemma not16_value n : 0 <= n < 65536 -> not16 n = 65535 - n.
Proof.
  intros Hn. unfold not16, u16, Z.lnot.
  replace (Z.pred (- n)) with (65535 - n + (-1) * 65536) by lia.
  rewrite Z.mod_add by lia. apply Z.mod_small. lia.
Qed.

Lemma literal_word_is_literal x : 0 <= x -> IS_LITERAL (Z.lor OP_LITERAL x) = true.
Proof.
  intros Hx. unfold IS_LITERAL, OP_LITERAL. apply Z.eqb_eq.
  rewrite Z.land_lor_distr_l. change (Z.land 32768 32768) with 32768.
  apply Z.bits_inj'. intros k Hk. rewrite Z.lor_spec, Z.land_spec.
  change 32768 with (2 ^ 15).
  destruct (Z.eq_dec k 15) as [->|Hne].
  - rewrite Z.pow2_bits_true by lia. reflexivity.
  - rewrite Z.pow2_bits_false by lia. rewrite andb_false_r. reflexivity.
Qed.

Lemma literal_word_value x :
  0 <= x < 32768 -> Z.land (Z.lor OP_LITERAL x) 0x7FFF = x.
Proof.
  intros Hx. unfold OP_LITERAL. rewrite Z.land_lor_distr_l.
  change (Z.land 32768 32767) with 0. rewrite Z.lor_0_l.
  change 32767 with (Z.ones 15). rewrite Z.land_ones by lia.
  apply Z.mod_small. change (2 ^ 15) with 32768. lia.
Qed.

Lemma literal_word_not_exit hd x :
  layout_ok hd -> 0 <= x -> Z.lor OP_LITERAL x <> CODE_EXIT hd.
Proof.
  intros Hl Hx E. pose proof (literal_word_is_literal x Hx) as H1.
  rewrite E, (IS_ALU_OP_not_literal _ (CODE_EXIT_is_alu hd Hl)) in H1.
  discriminate.
Qed.

Lemma CODE_INVERT_not_exit hd : CODE_INVERT <> CODE_EXIT hd.
Proof.
  intros E. assert (Z.testbit CODE_INVERT 2 = Z.testbit (CODE_EXIT hd) 2) as H
    by (rewrite E; reflexivity).
  unfold CODE_EXIT in H. rewrite !Z.lor_spec in H.
  change (Z.testbit (MK_RSTACK DELTA_N1) 2) with true in H.
  rewrite orb_true_r in H. discriminate.
Qed.

(** An instruction other than [CODE_EXIT] is appended, whatever the mode. *)
Lemma generate_not_exit hd h a instruction :
  instruction <> CODE_EXIT hd ->
  generate hd h a instruction =
    (h' ← emit h instruction;
     Ok (h', if IS_CALL instruction || IS_LITERAL instruction
                || IS_0BRANCH instruction || IS_BRANCH instruction
             then update_fence a (pc h) else a)).
Proof.
  intros Hne. unfold generate.
  set (a' := if IS_CALL instruction || IS_LITERAL instruction
                || IS_0BRANCH instruction || IS_BRANCH instruction
             then update_fence a (pc h) else a).
  destruct (instruction =? CODE_EXIT hd) eqn:E; [apply Z.eqb_eq in E; contradiction|].
  destruct (has (mode a') MODE_OPTIMIZATION_ON && negb (pc h =? 0)) eqn:Eo;
    [|reflexivity].
  destruct (load (core h) (pc h - 1)) as [previous|] eqn:El;
    [simpl; rewrite !andb_false_r; reflexivity|].
  simpl. unfold emit.
  destruct (store (core h) (pc h) instruction) as [c|] eqn:Es; [|reflexivity].
  exfalso. apply store_inv in Es as [Hi _].
  apply andb_prop in Eo as [_ Hz]. apply negb_true_iff, Z.eqb_neq in Hz.
  destruct (load_is_Some (core h) (pc h - 1)) as [v Hv]; [lia|]. congruence.
Qed.

Lemma emit_Some h instruction :
  in_core h (pc h) ->
  emit h instruction =
    Ok {| core := <[Z.to_nat (pc h) := instruction]> (core h);
          pc := u16 (pc h + 1); tos := tos h; sp := sp h; rp := rp h |}.
Proof. intros Hi. unfold emit. rewrite store_Some by exact Hi. reflexivity. Qed.

Lemma sizes_ok_program hd :
  sizes_ok hd -> MAX_PROGRAM hd <> 0 /\ MAX_PROGRAM hd <= 8192.
Proof. intros (? & ? & ? & ?). lia. Qed.

Lemma CODE_INVERT_decodes hd :
  layout_ok hd -> alu_field_holds hd ALU_OP_T_INVERT ->
  alu_code_of (ALU_OP hd CODE_INVERT) = Some ALU_OP_T_INVERT
  /\ Z.land CODE_INVERT (R_TO_PC hd) = 0.
Proof.
  intros Hl Hf. unfold alu_field_holds in Hf. simpl in Hf.
  unfold ALU_OP, R_TO_PC.
  layout_cases hd Hl; rewrite El in *; rewrite Er; simpl in Hf; try lia;
    split; reflexivity.
Qed.

(** C2. For a 16-bit [n], [generate_literal] appends exactly the cells
    [literal_cells n] -- one literal when bit 15 is clear, else the literal
    of the complement followed by [CODE_INVERT] -- and a machine that runs
    these cells, its stack off them, ends with [n] in [tos] and the data
    stack one cell deeper. *)
Theorem generate_literal_round_trip (hd : header) (n : Z) (h : h2_t)
    (a : assembler_t) :
  sizes_ok hd -> layout_ok hd -> alu_field_holds hd ALU_OP_T_INVERT ->
  0 <= n < 65536 ->
  Z.of_nat (length (core h)) = CORE_CELLS hd ->
  0 <= pc h ->
  pc h + Z.of_nat (length (literal_cells n)) <= MAX_PROGRAM hd ->
  exists h' a',
    generate_literal hd h a n = Ok (h', a')
    /\ pc h' = pc h + Z.of_nat (length (literal_cells n))
    /\ image_at (core h') (pc h) (literal_cells n)
    /\ (forall j, j < pc h \/ pc h + Z.of_nat (length (literal_cells n)) <= j ->
                  load (core h') j = load (core h) j)
    /\ (tos h', sp h', rp h') = (tos h, sp h, rp h)
    /\ forall m w,
         core m = core h' -> pc m = pc h ->
         0 <= sp m -> sp m + 1 < CORE_CELLS hd ->
         (sp m + 1 < pc h
          \/ pc h + Z.of_nat (length (literal_cells n)) <= sp m + 1) ->
         exists m',
           h2_steps hd (length (literal_cells n)) m w = Some (m', w)
           /\ tos m' = n /\ sp m' = sp m + 1.
Proof.
  intros Hs Hl Hf Hn Hlen Hpc Hroom.
  pose proof (sizes_ok_program hd Hs) as [Hm Hm8].
  destruct Hs as (Hs1 & _ & Hs2 & Hs3).
  unfold generate_literal, literal_cells in *. unfold has in *.
  destruct (Z.land n OP_LITERAL =? 0) eqn:Eb; cbn [negb] in *.
  - (* bit 15 clear: one cell *)
    apply Z.eqb_eq in Eb. pose proof (bit15_clear n Hn Eb) as Hn15.
    cbn [length] in *.
    rewrite generate_not_exit by (apply literal_word_not_exit; [assumption|lia]).
    rewrite emit_Some by (unfold in_core; lia). cbn [mbind result_bind rbind].
    eexists _, _. split; [reflexivity|]. cbn [core pc].
    split; [apply u16_small; lia|].
    split; [split; [apply load_insert_eq; lia|exact I]|].
    split; [intros j Hj; apply load_insert_ne; lia|].
    split; [reflexivity|].
    intros m w Hc Hp Hsp0 Hsp1 Hdis. cbn [h2_steps].
    rewrite (h2_step_literal hd m w (Z.lor OP_LITERAL n) Hm); cycle 1.
    { rewrite Hc, Hp. apply load_insert_eq. lia. }
    { apply literal_word_is_literal. lia. }
    { unfold in_core. rewrite Hc, length_insert, u16_small by lia. lia. }
    eexists. split; [reflexivity|]. cbn [tos sp].
    split; [apply literal_word_value; lia|apply u16_small; lia].
  - (* bit 15 set: the complement, then the inversion *)
    apply Z.eqb_neq in Eb. pose proof (bit15_set n Hn Eb) as Hn15.
    cbn [length] in *. pose proof (not16_value n Hn) as Hnot.
    destruct (CODE_INVERT_decodes hd Hl Hf) as [Hdec Hrpc].
    rewrite generate_not_exit by (apply literal_word_not_exit; [assumption|lia]).
    rewrite emit_Some by (unfold in_core; lia). cbn [mbind result_bind rbind].
    rewrite generate_not_exit by apply CODE_INVERT_not_exit.
    rewrite emit_Some
      by (unfold in_core; cbn [core pc]; rewrite length_insert, u16_small; lia).
    cbn [mbind result_bind rbind core pc].
    rewrite (u16_small (pc h + 1)) by lia.
    eexists _, _. split; [reflexivity|]. cbn [core pc].
    split; [rewrite u16_small; lia|].
    split.
    { split; [|split; [|exact I]].
      - rewrite load_insert_ne by lia. apply load_insert_eq. lia.
      - apply load_insert_eq. rewrite length_insert. lia. }
    split; [intros j Hj; rewrite !load_insert_ne by lia; reflexivity|].
    split; [reflexivity|].
    intros m w Hc Hp Hsp0 Hsp1 Hdis. cbn [h2_steps].
    rewrite (h2_step_literal hd m w (Z.lor OP_LITERAL (not16 n)) Hm); cycle 1.
    { rewrite Hc, Hp. rewrite load_insert_ne by lia. apply load_insert_eq. lia. }
    { apply literal_word_is_literal. lia. }
    { unfold in_core. rewrite Hc, !length_insert, u16_small by lia. lia. }
    rewrite Hp, (Z.mod_small (pc h + 1)), !u16_small by lia.
    rewrite literal_word_value by lia.
    rewrite (h2_step_alu_pure hd _ w CODE_INVERT ALU_OP_T_INVERT (tos m)
               (not16 (not16 n)) Hm);
      try discriminate; try reflexivity; try assumption; cycle 1.
    { cbn [core pc]. rewrite Hc, load_insert_ne by lia.
      apply load_insert_eq. rewrite length_insert. lia. }
    { cbn [core sp]. apply load_insert_eq. rewrite Hc, !length_insert. lia. }
    eexists. split; [reflexivity|]. cbn [tos sp].
    split.
    + rewrite Hnot, not16_value by lia. lia.
    + change (stack_delta (DSTACK CODE_INVERT)) with 0.
      rewrite Z.add_0_r. apply u16_small. lia.
Qed.

Lemma generate_literal_round_trip_witness :
  exists h' a',
    generate_literal example_header (h2_new example_header 8)
      (set_fence assembler_zero 8) 65535 = Ok (h', a')
    /\ pc h' = 10
    /\ image_at (core h') 8 [Z.lor OP_LITERAL 0; CODE_INVERT]
    /\ exists m',
         h2_steps example_header 2 (set_pc h' 8) io_empty = Some (m', io_empty)
         /\ tos m' = 65535.
Proof.
  assert (0 <= 65535 < 65536) as Hn by lia.
  assert (Z.of_nat (length (core (h2_new example_header 8)))
          = CORE_CELLS example_header) as Hlen by (vm_compute; reflexivity).
  assert (0 <= pc (h2_new example_header 8)) as Hpc by (simpl; lia).
  assert (pc (h2_new example_header 8)
          + Z.of_nat (length (literal_cells 65535))
          <= MAX_PROGRAM example_header) as Hroom by (simpl; lia).
  destruct (generate_literal_round_trip example_header 65535
              (h2_new example_header 8) (set_fence assembler_zero 8)
              example_header_sizes example_header_layout
              (example_header_fits ALU_OP_T_INVERT) Hn Hlen Hpc Hroom)
    as (h' & a' & Hg & Hpc' & Him & _ & Hreg & Hrun).
  injection Hreg as Ht Hsp Hrp.
  exists h', a'. split; [exact Hg|]. split; [exact Hpc'|]. split; [exact Him|].
  destruct (Hrun (set_pc h' 8) io_empty) as (m' & Hs & Hm & _).
  - reflexivity.
  - reflexivity.
  - cbn [set_pc sp]. rewrite Hsp. simpl. lia.
  - cbn [set_pc sp]. rewrite Hsp. simpl. lia.
  - cbn [set_pc sp]. rewrite Hsp. simpl. lia.
  - exists m'. split; [exact Hs|exact Hm].
Defined.

(** ** The lexer *)

Lemma isdigit_isgraph c : isdigit c = true -> isgraph c = true.
Proof.
  unfold isdigit, isgraph. intros [H1 H2]%andb_prop.
  apply Z.leb_le in H1, H2. apply andb_true_intro.
  split; apply Z.leb_le; lia.
Qed.

Lemma scan_graph_word word : forall rest i id,
  forallb isgraph word = true ->
  i + Z.of_nat (length word) <= MAX_ID_LENGTH - 1 ->
  ends_word rest ->
  scan_graph (word ++ rest) i id = Ok (id ++ word, rest).
Proof.
  induction word as [|c word IH]; intros rest i id Hg Hlen Hend.
  - rewrite app_nil_r. destruct rest as [|c rest]; [reflexivity|].
    simpl in *. rewrite Hend. reflexivity.
  - simpl in Hg. apply andb_prop in Hg as [Hc Hg].
    cbn [app scan_graph]. rewrite Hc.
    cbn [length] in Hlen.
    destruct (MAX_ID_LENGTH - 1 <=? i) eqn:E; [apply Z.leb_le in E; lia|].
    rewrite IH by (try assumption; lia).
    rewrite <- app_assoc. reflexivity.
Qed.

Lemma map_char_to_number_digit c :
  isdigit c = true -> map_char_to_number c = Ok (digit_value c).
Proof.
  unfold isdigit, map_char_to_number, digit_value. intros H. rewrite H.
  apply andb_prop in H as [H1 H2]. apply Z.leb_le in H1, H2.
  rewrite u16_small by lia. reflexivity.
Qed.

Lemma u32_idem x y : u32 (u32 x * 10 + y) = u32 (x * 10 + y).
Proof.
  unfold u32. rewrite Z.add_mod, Z.mul_mod_idemp_l, <- Z.add_mod by lia.
  reflexivity.
Qed.

Lemma accumulate_decimal ds : forall x,
  forallb isdigit ds = true ->
  accumulate 10 ds (u32 x)
  = Ok (u32 (fold_left (fun acc c => acc * 10 + digit_value c) ds x)).
Proof.
  induction ds as [|c ds IH]; intros x Hd; [reflexivity|].
  simpl in Hd. apply andb_prop in Hd as [Hc Hd].
  cbn [accumulate fold_left]. rewrite map_char_to_number_digit by exact Hc.
  cbn [mbind result_bind rbind]. rewrite u32_idem. apply IH. exact Hd.
Qed.

Lemma u16_u32 x : u16 (u32 x) = x mod 65536.
Proof.
  unfold u16, u32. apply Z.mod_mod_divide. exists 65536. reflexivity.
Qed.

Lemma u16_u32_negate x : u16 (u32 (u32 x * u32 (-1))) = (- x) mod 65536.
Proof.
  rewrite u16_u32. unfold u32.
  assert ((x mod 4294967296 * ((-1) mod 4294967296)) mod 4294967296
          = (- x) mod 4294967296) as H.
  { rewrite <- Z.mul_mod by lia. f_equal. lia. }
  rewrite <- (Z.mod_mod_divide (- x) 4294967296 65536)
    by (exists 65536; reflexivity).
  rewrite <- H. symmetry. apply Z.mod_mod_divide. exists 65536. reflexivity.
Qed.

Lemma digit_not_sign c :
  isdigit c = true ->
  (char_code c =? 45) = false /\ (char_code c =? 36) = false.
Proof.
  unfold isdigit. intros [H1 H2]%andb_prop. apply Z.leb_le in H1, H2.
  split; apply Z.eqb_neq; lia.
Qed.

Lemma number_decimal ds :
  ds <> [] -> forallb isdigit ds = true ->
  number ds = Ok (Some (decimal ds mod 65536))
  /\ number ("-"%char :: ds) = Ok (Some ((- decimal ds) mod 65536)).
Proof.
  intros Hne Hd. destruct ds as [|c ds]; [contradiction|].
  pose proof Hd as Hd'. simpl in Hd'. apply andb_prop in Hd' as [Hc _].
  destruct (digit_not_sign c Hc) as [H45 H36].
  pose proof (accumulate_decimal (c :: ds) 0 Hd) as Hacc.
  change (u32 0) with 0 in Hacc. fold (decimal (c :: ds)) in Hacc.
  split.
  - unfold number. rewrite H45, H36.
    change (forallb _ (c :: ds)) with (forallb isdigit (c :: ds)).
    rewrite Hd, Hacc. cbn [mbind result_bind rbind]. rewrite u16_u32.
    reflexivity.
  - unfold number. change (char_code "-" =? 45) with true. cbv iota.
    rewrite H36.
    change (forallb _ (c :: ds)) with (forallb isdigit (c :: ds)).
    rewrite Hd, Hacc. cbn [mbind result_bind rbind].
    rewrite u16_u32_negate. reflexivity.
Qed.

Lemma forallb_isdigit_isgraph ds :
  forallb isdigit ds = true -> forallb isgraph ds = true.
Proof.
  induction ds as [|c ds IH]; [reflexivity|]. simpl.
  intros [Hc Hd]%andb_prop. rewrite (isdigit_isgraph c Hc), IH by exact Hd.
  reflexivity.
Qed.

(** C9. A bare word of one or more decimal digits, with or without a single
    leading ['-'], of at most 255 characters, is lexed as a literal token
    whose number is the integer it denotes modulo 2^16, negated when the
    sign is there; the lexer raises no error, whatever the magnitude. *)
Theorem lexer_decimal_literal (hd : header) (l : lexer_t) (negative : bool)
    (ds rest : list ascii) :
  let word := (if negative then ["-"%char] else []) ++ ds in
  ds <> [] ->
  forallb isdigit ds = true ->
  Z.of_nat (length word) <= 255 ->
  ends_word rest ->
  l_input l = word ++ rest ->
  lexer hd l =
    Ok {| l_input := rest;
          l_line := l_line l;
          l_token :=
            Some {| tok_p := p_number ((if negative then - decimal ds
                                        else decimal ds) mod 65536);
                    tok_line := l_line l;
                    tok_type := LEX_LITERAL |};
          l_accepted := l_accepted l;
          l_in_definition := l_in_definition l |}.
Proof.
  intros word Hne Hd Hlen Hend Hin.
  assert (forallb isgraph word = true) as Hg.
  { subst word. rewrite forallb_app, (forallb_isdigit_isgraph ds Hd).
    destruct negative; reflexivity. }
  assert (number word = Ok (Some ((if negative then - decimal ds
                                   else decimal ds) mod 65536))) as Hnum.
  { subst word. destruct (number_decimal ds Hne Hd) as [H1 H2].
    destruct negative; assumption. }
  assert (exists c word', word = c :: word'
            /\ (char_code c = 45 \/ 48 <= char_code c <= 57)) as (c & word' & Ew & Hc).
  { subst word. destruct negative.
    - exists "-"%char, ds. split; [reflexivity|left; reflexivity].
    - destruct ds as [|c ds']; [contradiction|]. exists c, ds'.
      split; [reflexivity|right]. simpl in Hd.
      apply andb_prop in Hd as [Hc _]. unfold isdigit in Hc.
      apply andb_prop in Hc as [H1 H2]. apply Z.leb_le in H1, H2. lia. }
  unfold lexer. rewrite Hin.
  pose proof (scan_graph_word word rest 0 [] Hg) as Hscan.
  rewrite Ew in *. cbn [app length lexer_again].
  assert (isgraph c = true) as Hgc.
  { simpl in Hg. apply andb_prop in Hg as [Hg _]. exact Hg. }
  rewrite Hgc.
  replace (char_code c =? 10) with false by (symmetry; apply Z.eqb_neq; lia).
  replace (char_code c =? 32) with false by (symmetry; apply Z.eqb_neq; lia).
  replace (char_code c =? 9) with false by (symmetry; apply Z.eqb_neq; lia).
  replace (char_code c =? 13) with false by (symmetry; apply Z.eqb_neq; lia).
  replace (char_code c =? 11) with false by (symmetry; apply Z.eqb_neq; lia).
  replace (char_code c =? 92) with false by (symmetry; apply Z.eqb_neq; lia).
  replace (char_code c =? 40) with false by (symmetry; apply Z.eqb_neq; lia).
  replace (char_code c =? 34) with false by (symmetry; apply Z.eqb_neq; lia).
  cbn [orb].
  change (c :: word' ++ rest) with ((c :: word') ++ rest).
  rewrite Hscan by (try assumption; unfold MAX_ID_LENGTH; lia).
  cbn [mbind result_bind rbind app]. unfold classify. rewrite Hnum.
  reflexivity.
Qed.

Lemma lexer_decimal_literal_witness :
  lexer example_header
    {| l_input := String.list_ascii_of_string "-70000 dup"; l_line := 1;
       l_token := None; l_accepted := None; l_in_definition := false |}
  = Ok {| l_input := String.list_ascii_of_string " dup"; l_line := 1;
          l_token := Some {| tok_p := p_number 61072; tok_line := 1;
                             tok_type := LEX_LITERAL |};
          l_accepted := None; l_in_definition := false |}.
Proof.
  apply (lexer_decimal_literal example_header
           {| l_input := String.list_ascii_of_string "-70000 dup"; l_line := 1;
              l_token := None; l_accepted := None; l_in_definition := false |}
           true (String.list_ascii_of_string "70000")
           (String.list_ascii_of_string " dup")).
  - discriminate.
  - reflexivity.
  - simpl. lia.
  - reflexivity.
  - reflexivity.
Defined.

(** ** The peephole rewrites *)

Lemma CODE_EXIT_untagged hd :
  layout_ok hd ->
  IS_CALL (CODE_EXIT hd) || IS_LITERAL (CODE_EXIT hd)
  || IS_0BRANCH (CODE_EXIT hd) || IS_BRANCH (CODE_EXIT hd) = false.
Proof.
  intros Hl. pose proof (CODE_EXIT_is_alu hd Hl) as Ha.
  rewrite (IS_ALU_OP_not_call _ Ha), (IS_ALU_OP_not_literal _ Ha),
    (IS_ALU_OP_not_0branch _ Ha), (IS_ALU_OP_not_branch _ Ha). reflexivity.
Qed.

Lemma rstack_bits previous :
  has previous (MK_RSTACK DELTA_N1) = false <-> RSTACK previous = DELTA_0.
Proof.
  unfold has, RSTACK, MK_RSTACK, DELTA_N1, DELTA_0.
  change (Z.shiftl 3 2) with 12.
  rewrite negb_false_iff, Z.eqb_eq.
  assert (Z.land (Z.shiftr previous 2) 3 = Z.shiftr (Z.land previous 12) 2) as ->.
  { rewrite Z.shiftr_land. reflexivity. }
  split; [intros ->; reflexivity|]. intros H.
  apply Z.bits_inj'. intros k Hk. rewrite Z.bits_0.
  destruct (Z.lt_ge_cases k 2) as [Hlt|Hge].
  - rewrite Z.land_spec.
    assert (k = 0 \/ k = 1) as [-> | ->] by lia; apply andb_false_r.
  - replace k with (k - 2 + 2) by lia.
    rewrite <- Z.shiftr_spec by lia. rewrite H. apply Z.bits_0.
Qed.

Lemma u16_succ_ne x : u16 (x + 1) <> x.
Proof.
  unfold u16. intros H.
  pose proof (Z.mod_pos_bound (x + 1) 65536 ltac:(lia)) as Hb.
  pose proof (Z.div_mod (x + 1) 65536 ltac:(lia)) as Hd.
  rewrite H in Hd.
  assert (65536 * ((x + 1) / 65536) = 1) as Hx by lia. lia.
Qed.

(** What [generate] does with [CODE_EXIT] when the optimizer is on and the
    cell before [pc] is an ALU word past the fence. *)
Lemma generate_exit_past_fence hd h a previous :
  layout_ok hd -> alu_past_fence h a previous ->
  generate hd h a (CODE_EXIT hd) =
    if negb (has previous (R_TO_PC hd)) && negb (has previous (MK_RSTACK DELTA_N1))
    then Ok (set_core h (<[Z.to_nat (pc h - 1) := Z.lor previous (CODE_EXIT hd)]> (core h)),
             update_fence a (pc h - 1))
    else Ok ({| core := <[Z.to_nat (pc h) := CODE_EXIT hd]> (core h);
                pc := u16 (pc h + 1); tos := tos h; sp := sp h; rp := rp h |}, a).
Proof.
  intros Hl (Hopt & Hpc & Hin & Hld & Halu & Hf).
  unfold generate. rewrite (CODE_EXIT_untagged hd Hl), Hopt.
  destruct (pc h =? 0) eqn:E; [apply Z.eqb_eq in E; contradiction|].
  cbn [negb andb]. rewrite Hld. cbn [defined mbind result_bind rbind].
  rewrite Halu, Z.eqb_refl.
  destruct (pc h - 1 >? fence a) eqn:Eg;
    [|rewrite Z.gtb_ltb in Eg; apply Z.ltb_ge in Eg; lia].
  cbn [andb].
  destruct (negb (has previous (R_TO_PC hd))
            && negb (has previous (MK_RSTACK DELTA_N1))).
  - rewrite store_Some by (apply load_Some_lt in Hld; exact Hld). reflexivity.
  - rewrite emit_Some by exact Hin. reflexivity.
Qed.

Lemma appended_not_rewritten h c1 c2 (a1 a2 : assembler_t) :
  @Ok (h2_t * assembler_t)
      ({| core := c1; pc := u16 (pc h + 1); tos := tos h; sp := sp h;
          rp := rp h |}, a1)
  <> Ok (set_core h c2, a2).
Proof. intros [= _ Hx _]. exact (u16_succ_ne _ Hx). Qed.

(** C4, as the code has it.  With the optimizer on and an ALU word past the
    fence before [pc], [CODE_EXIT] is ORed into that word if and only if
    the word has R->PC clear and a return stack delta of 0; otherwise, and
    so for a word whose return stack delta is +1 or -2, [CODE_EXIT] is
    appended as a cell of its own. *)
Theorem generate_exit_merge (hd : header) (h : h2_t) (a : assembler_t)
    (previous : Z) :
  layout_ok hd -> alu_past_fence h a previous ->
  (exit_merged hd h a previous <-> merge_condition hd previous)
  /\ (~ merge_condition hd previous -> exit_appended hd h a)
  /\ (RSTACK previous = DELTA_1 \/ RSTACK previous = DELTA_N2 ->
      exit_appended hd h a).
Proof.
  intros Hl Hp. pose proof (generate_exit_past_fence hd h a previous Hl Hp) as Hg.
  assert (merge_condition hd previous
          <-> negb (has previous (R_TO_PC hd))
              && negb (has previous (MK_RSTACK DELTA_N1)) = true) as Hc.
  { unfold merge_condition. rewrite <- rstack_bits.
    destruct (has previous (R_TO_PC hd)), (has previous (MK_RSTACK DELTA_N1));
      simpl; intuition congruence. }
  unfold exit_merged, exit_appended. rewrite Hg.
  destruct (negb (has previous (R_TO_PC hd))
            && negb (has previous (MK_RSTACK DELTA_N1))) eqn:E.
  - split; [|split].
    + split; [intros _; apply Hc; reflexivity|reflexivity].
    + intros Hn. exfalso. apply Hn, Hc. reflexivity.
    + intros Hd. exfalso. destruct (proj2 Hc eq_refl) as [_ E'].
      rewrite E' in Hd. destruct Hd; discriminate.
  - split; [|split].
    + split.
      * intros Hx. exfalso. exact (appended_not_rewritten _ _ _ _ _ Hx).
      * intros Hx%Hc. discriminate.
    + reflexivity.
    + reflexivity.
Qed.

Lemma example_alu_past_fence :
  alu_past_fence
    (set_pc (h2_loaded example_header [0x6081; 0x6081]) 10)
    (optimizing_at 8) 0x6081.
Proof.
  unfold alu_past_fence, in_core. cbn [set_pc pc core].
  assert (Z.of_nat (length (core (h2_loaded example_header [0x6081; 0x6081])))
          = 32768) as -> by (vm_compute; reflexivity).
  repeat split; first [reflexivity | lia].
Qed.

Lemma generate_exit_merge_witness :
  exit_merged example_header
    (set_pc (h2_loaded example_header [0x6081; 0x6081]) 10)
    (optimizing_at 8) 0x6081.
Proof.
  apply (proj1 (generate_exit_merge example_header _ _ 0x6081
                  example_header_layout example_alu_past_fence)).
  split; reflexivity.
Defined.

Lemma example_tor_past_fence :
  alu_past_fence
    (set_pc (h2_loaded example_header [0x6081; 0x6147]) 10)
    (optimizing_at 8) 0x6147.
Proof.
  unfold alu_past_fence, in_core. cbn [set_pc pc core].
  assert (Z.of_nat (length (core (h2_loaded example_header [0x6081; 0x6147])))
          = 32768) as -> by (vm_compute; reflexivity).
  repeat split; first [reflexivity | lia].
Qed.

(** C4 as the spec words it fails: the word [>r] (0x6147 in the example
    header: R->PC clear, return stack delta +1) lies past the fence and
    meets the spec's condition, and [CODE_EXIT] is not merged into it. *)
Lemma spec_exit_merge_fails :
  spec_merge_condition example_header 0x6147
  /\ exit_appended example_header
       (set_pc (h2_loaded example_header [0x6081; 0x6147]) 10) (optimizing_at 8)
  /\ ~ (forall hd h a previous,
          layout_ok hd -> alu_past_fence h a previous ->
          (exit_merged hd h a previous <-> spec_merge_condition hd previous)).
Proof.
  assert (spec_merge_condition example_header 0x6147) as Hs
    by (split; [reflexivity|discriminate]).
  pose proof (generate_exit_past_fence example_header _ _ 0x6147
                example_header_layout example_tor_past_fence) as Hg.
  change (negb (has 0x6147 (R_TO_PC example_header))
          && negb (has 0x6147 (MK_RSTACK DELTA_N1))) with false in Hg.
  split; [exact Hs|]. split; [exact Hg|].
  intros H.
  specialize (H example_header _ _ 0x6147 example_header_layout
                example_tor_past_fence).
  apply H in Hs. unfold exit_merged in Hs. rewrite Hg in Hs.
  exact (appended_not_rewritten _ _ _ _ _ Hs).
Qed.

(** What [generate] does with [CODE_EXIT] when the optimizer is on and the
    cell before [pc] is a call not below the fence. *)
Lemma generate_exit_tail_call hd h a previous :
  layout_ok hd ->
  has (mode a) MODE_OPTIMIZATION_ON = true ->
  pc h <> 0 ->
  load (core h) (pc h - 1) = Some previous ->
  IS_CALL previous = true ->
  fence a < pc h ->
  generate hd h a (CODE_EXIT hd) =
    Ok (set_core h (<[Z.to_nat (pc h - 1) :=
                        Z.lor OP_BRANCH (Z.land previous 0x1FFF)]> (core h)),
        update_fence a (pc h - 1)).
Proof.
  intros Hl Hopt Hpc Hld Hcall Hf.
  unfold generate. rewrite (CODE_EXIT_untagged hd Hl), Hopt.
  destruct (pc h =? 0) eqn:E; [apply Z.eqb_eq in E; contradiction|].
  cbn [negb andb]. rewrite Hld. cbn [defined mbind result_bind rbind].
  rewrite (IS_CALL_not_alu _ Hcall), Hcall, Z.eqb_refl, andb_false_r.
  destruct (pc h >? fence a) eqn:Eg;
    [|rewrite Z.gtb_ltb in Eg; apply Z.ltb_ge in Eg; lia].
  cbn [andb].
  rewrite store_Some by (apply load_Some_lt in Hld; exact Hld). reflexivity.
Qed.

(** C6, as the code has it.  When [generate] rewrites a cell instead of
    appending one, the instruction is [CODE_EXIT], the cell is the one
    before [pc], and its address is not below the fence: strictly past it
    for the EXIT merge, at it or past it for the tail call.  No other cell
    changes, so no cell below the fence does. *)
Theorem generate_rewrite_not_below_fence (hd : header) (h : h2_t)
    (a : assembler_t) (instruction : Z) (h' : h2_t) (a' : assembler_t) :
  layout_ok hd ->
  generate hd h a instruction = Ok (h', a') ->
  pc h' = pc h ->
  exists previous,
    instruction = CODE_EXIT hd
    /\ load (core h) (pc h - 1) = Some previous
    /\ fence a <= pc h - 1
    /\ ((IS_ALU_OP previous = true
         /\ fence a < pc h - 1
         /\ load (core h') (pc h - 1) = Some (Z.lor previous (CODE_EXIT hd)))
        \/ (IS_CALL previous = true
            /\ load (core h') (pc h - 1)
               = Some (Z.lor OP_BRANCH (Z.land previous 0x1FFF))))
    /\ (forall j, j <> pc h - 1 -> load (core h') j = load (core h) j)
    /\ (forall j, j < fence a -> load (core h') j = load (core h) j).
Proof.
  intros Hl Hg Hpc.
  destruct (Z.eq_dec instruction (CODE_EXIT hd)) as [->|Hne].
  2:{ rewrite generate_not_exit in Hg by exact Hne. unfold emit in Hg.
      destruct (store (core h) (pc h) instruction); [|discriminate].
      cbn in Hg. injection Hg as <- <-. cbn [pc] in Hpc.
      exfalso. exact (u16_succ_ne _ Hpc). }
  unfold generate in Hg. rewrite (CODE_EXIT_untagged hd Hl) in Hg.
  assert (forall a0 : assembler_t,
             (h0 ← emit h (CODE_EXIT hd); Ok (h0, a0)) = Ok (h', a') -> False)
    as Hno.
  { intros a0 Hx. unfold emit in Hx.
    destruct (store (core h) (pc h) (CODE_EXIT hd)); [|discriminate].
    cbn in Hx. injection Hx as <- <-. cbn [pc] in Hpc.
    exact (u16_succ_ne _ Hpc). }
  destruct (has (mode a) MODE_OPTIMIZATION_ON && negb (pc h =? 0)) eqn:Eo;
    [|exfalso; exact (Hno _ Hg)].
  destruct (load (core h) (pc h - 1)) as [previous|] eqn:Hld; [|discriminate].
  cbn [defined mbind result_bind rbind] in Hg.
  rewrite Z.eqb_refl, !andb_true_r in Hg.
  pose proof (load_Some_lt _ _ _ Hld) as Hin.
  rewrite !store_Some in Hg by exact Hin.
  cbn [defined mbind result_bind rbind] in Hg.
  exists previous. split; [reflexivity|]. split; [reflexivity|].
  destruct ((pc h - 1 >? fence a) && IS_ALU_OP previous) eqn:E1.
  - apply andb_prop in E1 as [Eg Ea].
    rewrite Z.gtb_ltb in Eg. apply Z.ltb_lt in Eg.
    destruct (negb (has previous (R_TO_PC hd))
              && negb (has previous (MK_RSTACK DELTA_N1)));
      [|exfalso; exact (Hno _ Hg)].
    injection Hg as <- <-. cbn [set_core core].
    split; [lia|]. split.
    + left. split; [exact Ea|]. split; [exact Eg|].
      apply load_insert_eq. exact Hin.
    + split; intros j Hj; apply load_insert_ne; lia.
  - destruct ((pc h >? fence a) && IS_CALL previous) eqn:E2;
      [|exfalso; exact (Hno _ Hg)].
    apply andb_prop in E2 as [Eg Ec].
    rewrite Z.gtb_ltb in Eg. apply Z.ltb_lt in Eg.
    injection Hg as <- <-. cbn [set_core core].
    split; [lia|]. split.
    + right. split; [exact Ec|]. apply load_insert_eq. exact Hin.
    + split; intros j Hj; apply load_insert_ne; lia.
Qed.

(** The example state after [call 8] has been generated at address 8: the
    tail call rewrites the cell at the fence. *)
Lemma example_tail_call :
  generate example_header
    (set_pc (h2_loaded example_header [Z.lor OP_CALL 8]) 9) (optimizing_at 8)
    (CODE_EXIT example_header)
  = Ok (set_core (set_pc (h2_loaded example_header [Z.lor OP_CALL 8]) 9)
          (<[Z.to_nat (9 - 1) := Z.lor OP_BRANCH (Z.land (Z.lor OP_CALL 8) 0x1FFF)]>
             (core (h2_loaded example_header [Z.lor OP_CALL 8]))),
        update_fence (optimizing_at 8) (9 - 1)).
Proof.
  apply (generate_exit_tail_call example_header
           (set_pc (h2_loaded example_header [Z.lor OP_CALL 8]) 9)
           (optimizing_at 8) (Z.lor OP_CALL 8) example_header_layout);
    first [reflexivity | discriminate | cbn; lia].
Qed.

Lemma generate_rewrite_not_below_fence_witness :
  exists previous,
    load (core (h2_loaded example_header [Z.lor OP_CALL 8])) (9 - 1)
    = Some previous
    /\ fence (optimizing_at 8) <= 9 - 1.
Proof.
  destruct (generate_rewrite_not_below_fence example_header _ _ _ _ _
              example_header_layout example_tail_call eq_refl)
    as (previous & _ & Hl & Hf & _).
  exists previous. split; [exact Hl|exact Hf].
Defined.

(** The optimizer on and the fence at the start address 8, as [code] and a
    [.mode] directive leave them: [call 8] is generated at address 8, which
    raises the fence to 8, and [CODE_EXIT] then turns that cell into a
    branch.  This is how the body of [: b b ;] is assembled. *)
Lemma example_call_then_exit :
  exists h1 a1 h2 a2,
    generate example_header (h2_new example_header 8) (optimizing_at 8)
      (Z.lor OP_CALL 8) = Ok (h1, a1)
    /\ generate example_header h1 a1 (CODE_EXIT example_header) = Ok (h2, a2)
    /\ pc h1 = 9 /\ pc h2 = 9 /\ fence a1 = 8
    /\ load (core h1) 8 = Some (Z.lor OP_CALL 8)
    /\ load (core h2) 8 = Some (Z.lor OP_BRANCH 8).
Proof.
  assert (Z.of_nat (length (core (h2_new example_header 8))) = 32768) as Hlen
    by (vm_compute; reflexivity).
  eexists _, _, _, _. split.
  { rewrite generate_not_exit by discriminate.
    rewrite emit_Some by (unfold in_core; rewrite Hlen; cbn; lia).
    reflexivity. }
  split.
  { apply (generate_exit_tail_call example_header _ _ (Z.lor OP_CALL 8)
             example_header_layout);
      [reflexivity|discriminate| |reflexivity|reflexivity].
    cbn [pc core].
    change (u16 (pc (h2_new example_header 8) + 1) - 1)
      with (pc (h2_new example_header 8)).
    apply load_insert_eq. rewrite Hlen. cbn [pc h2_new]. lia. }
  split; [reflexivity|]. split; [reflexivity|]. split; [reflexivity|].
  cbn [pc core set_core].
  change (u16 (pc (h2_new example_header 8) + 1) - 1) with 8.
  change (pc (h2_new example_header 8)) with 8.
  split; apply load_insert_eq; rewrite ?length_insert, Hlen; lia.
Qed.

(** C6 as the spec words it fails: after [call 8] has been generated at
    address 8 the fence is 8, and the tail call rewrites the cell at 8. *)
Lemma rewrite_at_fence :
  (exists h1 a1 h2 a2,
     generate example_header (h2_new example_header 8) (optimizing_at 8)
       (Z.lor OP_CALL 8) = Ok (h1, a1)
     /\ generate example_header h1 a1 (CODE_EXIT example_header) = Ok (h2, a2)
     /\ pc h1 = 9 /\ pc h2 = 9 /\ fence a1 = 8
     /\ load (core h1) 8 = Some (Z.lor OP_CALL 8)
     /\ load (core h2) 8 = Some (Z.lor OP_BRANCH 8))
  /\ ~ rewrites_strictly_past_fence.
Proof.
  split; [exact example_call_then_exit|].
  intros H.
  destruct example_call_then_exit
    as (h1 & a1 & h2 & a2 & _ & Hg & Hpc1 & Hpc2 & Hf & _).
  specialize (H example_header _ _ _ _ _ example_header_layout Hg
                (eq_trans Hpc2 (eq_sym Hpc1))).
  lia.
Qed.

(** ** Assembling whole programs *)

Lemma h2_new_length hd :
  0 <= START_ADDR hd <= CORE_CELLS hd ->
  Z.of_nat (length (core (h2_new hd (START_ADDR hd)))) = CORE_CELLS hd.
Proof.
  intros H. unfold h2_new. cbn [core].
  rewrite length_app, !length_replicate. lia.
Qed.

Lemma gtb_false x y : x <= y -> (x >? y) = false.
Proof. intros H. rewrite Z.gtb_ltb. apply Z.ltb_ge. exact H. Qed.

Lemma ltb_true x y : x < y -> (x <? y) = true.
Proof. apply Z.ltb_lt. Qed.

(** [generate] appends [CODE_EXIT] when neither rewrite applies: the cell
    before [pc] is no ALU word past the fence and no call at or past it. *)
Lemma generate_exit_appends hd h a previous :
  layout_ok hd ->
  in_core h (pc h) ->
  load (core h) (pc h - 1) = Some previous ->
  IS_ALU_OP previous = false \/ pc h - 1 <= fence a ->
  IS_CALL previous = false \/ pc h <= fence a ->
  generate hd h a (CODE_EXIT hd) =
    Ok ({| core := <[Z.to_nat (pc h) := CODE_EXIT hd]> (core h);
           pc := u16 (pc h + 1); tos := tos h; sp := sp h; rp := rp h |}, a).
Proof.
  intros Hl Hin Hld H1 H2. unfold generate.
  rewrite (CODE_EXIT_untagged hd Hl), Hld, emit_Some by exact Hin.
  cbn [defined mbind result_bind rbind].
  assert ((pc h - 1 >? fence a) && IS_ALU_OP previous = false) as ->.
  { destruct H1 as [-> | H1]; [apply andb_false_r|].
    rewrite gtb_false by exact H1. reflexivity. }
  assert ((pc h >? fence a) && IS_CALL previous = false) as ->.
  { destruct H2 as [-> | H2]; [apply andb_false_r|].
    rewrite gtb_false by exact H2. reflexivity. }
  cbn [andb].
  destruct (has (mode a) MODE_OPTIMIZATION_ON && negb (pc h =? 0)); reflexivity.
Qed.

Lemma max_id x : Z.max x x = x.
Proof. apply Z.max_id. Qed.

(** [generate] appends whatever it is given when [pc] is not past the
    fence. *)
Lemma generate_appends_at_fence hd h a instruction :
  in_core h (pc h) -> pc h <= fence a ->
  generate hd h a instruction =
    Ok ({| core := <[Z.to_nat (pc h) := instruction]> (core h);
           pc := u16 (pc h + 1); tos := tos h; sp := sp h; rp := rp h |},
        if IS_CALL instruction || IS_LITERAL instruction
           || IS_0BRANCH instruction || IS_BRANCH instruction
        then update_fence a (pc h) else a).
Proof.
  intros Hin Hf. unfold generate.
  set (a' := if IS_CALL instruction || IS_LITERAL instruction
                || IS_0BRANCH instruction || IS_BRANCH instruction
             then update_fence a (pc h) else a).
  assert (pc h <= fence a') as Hf'.
  { subst a'. destruct (_ || _); [|exact Hf]. cbn. lia. }
  rewrite emit_Some by exact Hin. cbn [mbind result_bind rbind].
  destruct (has (mode a') MODE_OPTIMIZATION_ON && negb (pc h =? 0)) eqn:Eo;
    [|reflexivity].
  apply andb_prop in Eo as [_ Hz]. apply negb_true_iff, Z.eqb_neq in Hz.
  destruct (load_is_Some (core h) (pc h - 1)) as [previous ->];
    [unfold in_core in Hin; lia|].
  cbn [defined mbind result_bind rbind].
  rewrite (gtb_false (pc h - 1)), (gtb_false (pc h)) by lia. reflexivity.
Qed.

(** [: id dup ;] with the optimizer on: the word of [dup] sits at the entry
    of the definition, which is the fence, and the return follows it in a
    cell of its own. *)
Lemma code_id_dup hd k name d dup :
  sizes_ok hd -> layout_ok hd ->
  START_ADDR hd + 1 < MAX_PROGRAM hd ->
  X_MACRO_INSTRUCTIONS hd !! k = Some (name, d, dup) ->
  IS_ALU_OP dup = true ->
  exists h,
    code hd (program_id_dup k) None = Ok h
    /\ pc h = START_ADDR hd + 2
    /\ load (core h) (START_ADDR hd) = Some dup
    /\ load (core h) (START_ADDR hd + 1) = Some (CODE_EXIT hd).
Proof.
  intros (Hs1 & Hs0 & Hs2 & Hs3) Hl Hroom Hk Hdup.
  pose proof (h2_new_length hd ltac:(lia)) as Hlen.
  unfold code, program_id_dup, n_program, n_statements, n_definition, n_mode,
    n_instruction, token_of.
  cbn [fmap list_fmap app default].
  set (h0 := h2_new hd (START_ADDR hd)) in *.
  assert (pc h0 = START_ADDR hd) as Hpc0 by reflexivity.
  cbn [assemble].
  rewrite !Hpc0. rewrite (gtb_false (START_ADDR hd)) by lia.
  cbn [token_number tok_p mbind result_bind rbind].
  change (negb (0 =? 0)) with false. cbn [andb].
  cbn [token_id tok_p mbind result_bind rbind].
  change (has (mode (set_mode (set_fence assembler_zero (START_ADDR hd))
                       MODE_OPTIMIZATION_ON)) MODE_COMPILE_WORD_HEADER)
    with false.
  cbn [andb mbind result_bind rbind].
  unfold here at 1. rewrite Hpc0, ltb_true by lia.
  cbn [assert mbind result_bind rbind symbol_table_add symbol_table_lookup
       in_definition update_fence set_fence set_mode set_in_definition fence
       assembler_zero app mode].
  change (has 0 DEFINE_HIDDEN) with false.
  unfold n_statements. cbn [fmap list_fmap app assemble].
  rewrite !Hpc0, (gtb_false (START_ADDR hd)) by lia.
  cbn [defined tok_type mbind result_bind rbind lexer_to_alu_op].
  rewrite Hk. cbn [mbind result_bind rbind].
  rewrite generate_appends_at_fence
    by (unfold in_core; rewrite ?Hlen, ?Hpc0;
        cbn [fence update_fence set_fence set_in_definition set_mode
             assembler_zero]; lia).
  rewrite (IS_ALU_OP_not_call _ Hdup), (IS_ALU_OP_not_literal _ Hdup),
    (IS_ALU_OP_not_0branch _ Hdup), (IS_ALU_OP_not_branch _ Hdup).
  cbn [orb mbind result_bind rbind]. rewrite Hpc0, u16_small by lia.
  rewrite (generate_exit_appends hd _ _ dup Hl); cycle 1.
  { unfold in_core. cbn [core pc]. rewrite length_insert. lia. }
  { cbn [core pc]. replace (START_ADDR hd + 1 - 1) with (START_ADDR hd) by lia.
    apply load_insert_eq. lia. }
  { right. cbn [pc fence update_fence set_fence set_in_definition set_mode
                assembler_zero]. lia. }
  { left. apply IS_ALU_OP_not_call, Hdup. }
  cbn [mbind result_bind rbind core pc]. rewrite u16_small by lia.
  eexists. split; [reflexivity|]. cbn [core pc].
  split; [lia|]. split.
  - rewrite load_insert_ne by lia. apply load_insert_eq. lia.
  - apply load_insert_eq. rewrite length_insert. lia.
Qed.

(** C5, as the code has it.  [: id dup ;] with the optimizer on emits two
    cells for the body: the word of [dup] at the entry of the definition,
    which the fence protects, and [CODE_EXIT] in the cell after it. *)
Theorem definition_of_one_instruction_is_two_cells (hd : header) (k : nat)
    (name : string) (d : bool) (dup : Z) :
  sizes_ok hd -> layout_ok hd ->
  START_ADDR hd + 1 < MAX_PROGRAM hd ->
  X_MACRO_INSTRUCTIONS hd !! k = Some (name, d, dup) ->
  IS_ALU_OP dup = true ->
  exists h,
    code hd (program_id_dup k) None = Ok h
    /\ pc h = START_ADDR hd + 2
    /\ load (core h) (START_ADDR hd) = Some dup
    /\ load (core h) (START_ADDR hd + 1) = Some (CODE_EXIT hd).
Proof. apply code_id_dup. Qed.

Lemma example_header_room : START_ADDR example_header + 1 < MAX_PROGRAM example_header.
Proof. simpl. lia. Qed.

Lemma definition_of_one_instruction_is_two_cells_witness :
  exists h,
    code example_header (program_id_dup 0) None = Ok h
    /\ pc h = 10
    /\ load (core h) 8 = Some 0x6081
    /\ load (core h) 9 = Some 0x601C.
Proof.
  exact (definition_of_one_instruction_is_two_cells example_header 0 "dup" true
           0x6081 example_header_sizes example_header_layout
           example_header_room eq_refl eq_refl).
Defined.

(** C5 as the spec words it fails: in the example header [: id dup ;] ends
    with [pc] two cells past the start address, not one. *)
Lemma id_dup_is_not_merged : ~ id_dup_one_cell example_header 0 0x6081.
Proof.
  intros (h & Hc & Hpc & _).
  destruct (code_id_dup example_header 0 "dup" true 0x6081
              example_header_sizes example_header_layout example_header_room
              eq_refl eq_refl) as (h' & Hc' & Hpc' & _).
  rewrite Hc in Hc'. injection Hc' as <-. rewrite Hpc in Hpc'.
  discriminate.
Qed.

Lemma address_prefix_clear x : 0 <= x < 8192 -> Z.land x 0xE000 = 0.
Proof.
  intros Hx. apply Z.bits_inj'. intros k Hk. rewrite Z.land_spec, Z.bits_0.
  destruct (Z.lt_ge_cases k 13) as [Hlt|Hge].
  - change 57344 with (Z.shiftl 7 13). rewrite Z.shiftl_spec_low by exact Hlt.
    apply andb_false_r.
  - destruct (Z.eq_dec x 0) as [->|Hne]; [rewrite Z.bits_0; reflexivity|].
    rewrite Z.bits_above_log2; [reflexivity|lia|].
    apply Z.lt_le_trans with 13; [|exact Hge].
    apply Z.log2_lt_pow2; [lia|]. change (2 ^ 13) with 8192. lia.
Qed.

Lemma call_word_is_call x : 0 <= x < 8192 -> IS_CALL (Z.lor OP_CALL x) = true.
Proof.
  intros Hx. unfold IS_CALL, OP_CALL. rewrite Z.land_lor_distr_l.
  rewrite (address_prefix_clear x Hx). reflexivity.
Qed.

Lemma call_word_address x : 0 <= x < 8192 -> Z.land (Z.lor OP_CALL x) 0x1FFF = x.
Proof.
  intros Hx. unfold OP_CALL. rewrite Z.land_lor_distr_l.
  change (Z.land 16384 8191) with 0. rewrite Z.lor_0_l.
  change 8191 with (Z.ones 13). rewrite Z.land_ones by lia.
  apply Z.mod_small. change (2 ^ 13) with 8192. lia.
Qed.

Lemma call_word_not_exit hd x :
  layout_ok hd -> 0 <= x < 8192 -> Z.lor OP_CALL x <> CODE_EXIT hd.
Proof.
  intros Hl Hx E. pose proof (call_word_is_call x Hx) as H1.
  rewrite E, (IS_ALU_OP_not_call _ (CODE_EXIT_is_alu hd Hl)) in H1.
  discriminate.
Qed.

Lemma call_word_tagged x :
  0 <= x < 8192 ->
  IS_CALL (Z.lor OP_CALL x) || IS_LITERAL (Z.lor OP_CALL x)
  || IS_0BRANCH (Z.lor OP_CALL x) || IS_BRANCH (Z.lor OP_CALL x) = true.
Proof. intros Hx. rewrite call_word_is_call by exact Hx. reflexivity. Qed.

(** *** The cases of [assemble], one by one *)

Lemma assemble_statements_eq hd bits token value o h a t :
  assemble hd (Node SYM_STATEMENTS bits token value o) h a t =
    if pc h >? MAX_PROGRAM hd then Fail (Thrown dictionary_overflow)
    else assemble_children hd o h a t.
Proof.
  cbn [assemble]. destruct (pc h >? MAX_PROGRAM hd); [reflexivity|].
  revert h a t. induction o as [|c o IH]; intros h a t; [reflexivity|].
  cbn [assemble_children]. destruct c as [m|].
  - destruct (assemble hd m h a t) as [[[h1 a1] t1]|f]; [|reflexivity].
    cbn [mbind result_bind rbind]. apply IH.
  - cbn [mbind result_bind rbind]. apply IH.
Qed.

Lemma assemble_program_eq hd body h a t :
  pc h <= MAX_PROGRAM hd ->
  assemble hd (n_program body) h a t
  = assemble_children hd ((Some <$> body) ++ [None; None; None]) h a t.
Proof.
  intros Hpc. unfold n_program. cbn [assemble].
  rewrite (gtb_false (pc h)) by exact Hpc.
  unfold n_statements. rewrite assemble_statements_eq.
  rewrite (gtb_false (pc h)) by exact Hpc. reflexivity.
Qed.

Lemma assemble_mode_eq hd v h a t :
  pc h <= MAX_PROGRAM hd ->
  assemble hd (n_mode v) h a t = Ok (h, set_mode a v, t).
Proof.
  intros Hpc. unfold n_mode. cbn [assemble].
  rewrite (gtb_false (pc h)) by exact Hpc. reflexivity.
Qed.

Lemma assemble_literal_eq hd v h a t :
  pc h <= MAX_PROGRAM hd ->
  assemble hd (n_literal v) h a t
  = '(h, a) ← generate_literal hd h a v; Ok (h, a, t).
Proof.
  intros Hpc. unfold n_literal. cbn [assemble].
  rewrite (gtb_false (pc h)) by exact Hpc. reflexivity.
Qed.

Lemma assemble_call_definition_eq hd id s h a t :
  pc h <= MAX_PROGRAM hd ->
  symbol_table_lookup t id = Some s ->
  sym_type s = SYMBOL_TYPE_CALL ->
  assemble hd (n_call_definition id) h a t
  = '(h, a) ← generate hd h a (Z.lor OP_CALL (sym_value s)); Ok (h, a, t).
Proof.
  intros Hpc Hs Ht. unfold n_call_definition. cbn [assemble].
  rewrite (gtb_false (pc h)) by exact Hpc.
  cbn [token_of token_id tok_p mbind result_bind rbind]. rewrite Hs, Ht.
  reflexivity.
Qed.

(** A definition without flags, when no header is compiled. *)
Lemma assemble_definition_eq hd id body h a t :
  pc h < MAX_PROGRAM hd ->
  has (mode a) MODE_COMPILE_WORD_HEADER = false ->
  in_definition a = false ->
  symbol_table_lookup t id = None ->
  assemble hd (n_definition id 0 body) h a t
  = '(h1, a1, t1) ← assemble_children hd
                       ((Some <$> body) ++ [None; None; None]) h
                       (set_in_definition (update_fence a (pc h)) true)
                       (t ++ [call_symbol id (pc h)]);
    '(h2, a2) ← generate hd h1 a1 (CODE_EXIT hd);
    Ok (h2, set_in_definition a2 false, t1).
Proof.
  intros Hpc Hm Hd Ht. unfold n_definition. cbn [assemble].
  rewrite (gtb_false (pc h)) by lia.
  change (negb (0 =? 0)) with false.
  cbn [andb token_of token_id tok_p mbind result_bind rbind].
  rewrite Hm. cbn [andb mbind result_bind rbind]. unfold here.
  rewrite ltb_true by exact Hpc.
  cbn [assert mbind result_bind rbind]. unfold symbol_table_add.
  rewrite Ht. cbn [mbind result_bind rbind].
  change (has 0 DEFINE_HIDDEN) with false.
  change (in_definition (update_fence a (pc h))) with (in_definition a).
  rewrite Hd. unfold n_statements. rewrite assemble_statements_eq.
  rewrite (gtb_false (pc h)) by lia. reflexivity.
Qed.

(** [: a 1 ; : b a ;] with the optimizer on, from the state in which [code]
    starts the assembler. *)
Lemma assemble_a_b hd :
  sizes_ok hd -> layout_ok hd ->
  START_ADDR hd + 2 < MAX_PROGRAM hd ->
  START_ADDR hd + 3 < CORE_CELLS hd ->
  exists h a t,
    assemble hd program_a_b (h2_new hd (START_ADDR hd))
      (set_fence assembler_zero (START_ADDR hd)) [] = Ok (h, a, t)
    /\ symbol_table_lookup t "a" = Some (call_symbol "a" (START_ADDR hd))
    /\ symbol_table_lookup t "b" = Some (call_symbol "b" (START_ADDR hd + 2))
    /\ load (core h) (START_ADDR hd + 2)
       = Some (Z.lor OP_BRANCH (START_ADDR hd))
    /\ pc h = START_ADDR hd + 3
    /\ load (core h) (START_ADDR hd + 3) = Some 0.
Proof.
  intros (Hs1 & Hs0 & Hs2 & Hs3) Hl Hroom Hcore.
  pose proof (h2_new_length hd ltac:(lia)) as Hlen.
  assert (load (core (h2_new hd (START_ADDR hd))) (START_ADDR hd + 3) = Some 0)
    as Hzero.
  { unfold load, h2_new. cbn [core].
    destruct (0 <=? START_ADDR hd + 3) eqn:E; [|apply Z.leb_gt in E; lia].
    rewrite lookup_app_r by (rewrite length_replicate; lia).
    apply lookup_replicate_2. rewrite length_replicate. lia. }
  set (h0 := h2_new hd (START_ADDR hd)) in *.
  assert (pc h0 = START_ADDR hd) as Hpc0 by reflexivity.
  unfold program_a_b.
  rewrite assemble_program_eq by (rewrite Hpc0; lia).
  cbn [fmap list_fmap app assemble_children].
  rewrite assemble_mode_eq by (rewrite Hpc0; lia).
  cbn [mbind result_bind rbind].
  (* : a 1 ; *)
  rewrite assemble_definition_eq by (rewrite ?Hpc0; first [lia|reflexivity]).
  cbn [fmap list_fmap app assemble_children].
  rewrite assemble_literal_eq by (rewrite Hpc0; lia).
  unfold generate_literal at 1. change (has 1 OP_LITERAL) with false. cbv iota.
  rewrite generate_appends_at_fence
    by (unfold in_core; rewrite ?Hlen, ?Hpc0; cbn; lia).
  change (IS_CALL (Z.lor OP_LITERAL 1) || IS_LITERAL (Z.lor OP_LITERAL 1)
          || IS_0BRANCH (Z.lor OP_LITERAL 1) || IS_BRANCH (Z.lor OP_LITERAL 1))
    with true.
  cbn [mbind result_bind rbind]. rewrite Hpc0, u16_small by lia.
  rewrite (generate_exit_appends hd _ _ (Z.lor OP_LITERAL 1) Hl); cycle 1.
  { unfold in_core. cbn [core pc]. rewrite length_insert. lia. }
  { cbn [core pc]. replace (START_ADDR hd + 1 - 1) with (START_ADDR hd) by lia.
    apply load_insert_eq. lia. }
  { left. reflexivity. }
  { left. reflexivity. }
  cbn [mbind result_bind rbind core pc]. rewrite u16_small by lia.
  (* : b a ; *)
  rewrite assemble_definition_eq
    by (cbn [pc]; first [lia|reflexivity]).
  cbn [fmap list_fmap app assemble_children pc].
  rewrite (assemble_call_definition_eq hd "a" (call_symbol "a" (START_ADDR hd)))
    by (cbn [pc]; first [lia|reflexivity]).
  cbn [call_symbol sym_value].
  rewrite generate_not_exit by (apply call_word_not_exit; [exact Hl|lia]).
  rewrite emit_Some
    by (unfold in_core; cbn [core pc]; rewrite !length_insert; lia).
  rewrite call_word_tagged by lia.
  cbn [mbind result_bind rbind core pc]. rewrite u16_small by lia.
  rewrite (generate_exit_tail_call hd _ _ (Z.lor OP_CALL (START_ADDR hd)) Hl);
    cycle 1.
  { reflexivity. }
  { cbn [pc]. lia. }
  { cbn [core pc].
    replace (START_ADDR hd + 1 + 1 + 1 - 1) with (START_ADDR hd + 1 + 1) by lia.
    apply load_insert_eq. rewrite !length_insert. lia. }
  { apply call_word_is_call. lia. }
  { cbn. lia. }
  cbn [mbind result_bind rbind core pc set_core].
  rewrite call_word_address by lia.
  eexists _, _, _. split; [reflexivity|].
  split; [reflexivity|]. split.
  { cbn [symbol_table_lookup app call_symbol sym_id]. cbn.
    replace (START_ADDR hd + 1 + 1) with (START_ADDR hd + 2) by lia.
    reflexivity. }
  cbn [core pc set_core].
  replace (START_ADDR hd + 1 + 1 + 1 - 1) with (START_ADDR hd + 2) by lia.
  replace (START_ADDR hd + 1 + 1 + 1) with (START_ADDR hd + 3) by lia.
  replace (START_ADDR hd + 1 + 1) with (START_ADDR hd + 2) by lia.
  split; [apply load_insert_eq; rewrite !length_insert; lia|].
  split; [reflexivity|].
  rewrite !load_insert_ne by lia. exact Hzero.
Qed.

(** C7. [: a 1 ; : b a ;] with the optimizer on: the body of [b] is one
    cell, a branch to the entry of [a]; the call that was generated there
    has been rewritten, and no [CODE_EXIT] follows it. *)
Theorem tail_call_becomes_branch (hd : header) :
  sizes_ok hd -> layout_ok hd ->
  START_ADDR hd + 2 < MAX_PROGRAM hd ->
  START_ADDR hd + 3 < CORE_CELLS hd ->
  exists h a t,
    assemble hd program_a_b (h2_new hd (START_ADDR hd))
      (set_fence assembler_zero (START_ADDR hd)) [] = Ok (h, a, t)
    /\ code hd program_a_b None = Ok h
    /\ symbol_table_lookup t "a" = Some (call_symbol "a" (START_ADDR hd))
    /\ symbol_table_lookup t "b" = Some (call_symbol "b" (START_ADDR hd + 2))
    /\ load (core h) (START_ADDR hd + 2)
       = Some (Z.lor OP_BRANCH (START_ADDR hd))
    /\ pc h = START_ADDR hd + 3
    /\ load (core h) (START_ADDR hd + 3) = Some 0.
Proof.
  intros Hs Hl Hroom Hcore.
  destruct (assemble_a_b hd Hs Hl Hroom Hcore) as (h & a & t & Ha & Hrest).
  exists h, a, t. split; [exact Ha|]. split; [|exact Hrest].
  unfold code. cbn [default].
  change (pc (h2_new hd (START_ADDR hd))) with (START_ADDR hd).
  rewrite Ha. reflexivity.
Qed.

Lemma tail_call_becomes_branch_witness :
  exists h,
    code example_header program_a_b None = Ok h
    /\ load (core h) 10 = Some (Z.lor OP_BRANCH 8)
    /\ pc h = 11
    /\ load (core h) 11 = Some 0.
Proof.
  destruct (tail_call_becomes_branch example_header example_header_sizes
              example_header_layout)
    as (h & a & t & _ & Hc & _ & _ & H10 & Hpc & H11).
  - simpl. lia.
  - simpl. lia.
  - exists h. split; [exact Hc|]. split; [exact H10|].
    split; [exact Hpc|exact H11].
Defined.

(** ** Jumps *)

Lemma assemble_children_app hd cs1 cs2 h a t :
  assemble_children hd (cs1 ++ cs2) h a t
  = '(h1, a1, t1) ← assemble_children hd cs1 h a t;
    assemble_children hd cs2 h1 a1 t1.
Proof.
  revert h a t. induction cs1 as [|c cs1 IH]; intros h a t; [reflexivity|].
  cbn [app assemble_children].
  destruct (match c with
            | Some m => assemble hd m h a t
            | None => Ok (h, a, t)
            end) as [[[h1 a1] t1]|f]; [|reflexivity].
  cbn [mbind result_bind rbind]. apply IH.
Qed.

Lemma generate_jump_to_call hd h a t id s type :
  symbol_table_lookup t id = Some s ->
  sym_type s = SYMBOL_TYPE_CALL ->
  type <> SYM_CALL ->
  generate_jump hd h a t (token_of (p_id id) LEX_IDENTIFIER) type
  = Fail (Thrown cannot_branch_to_call).
Proof.
  intros Hs Ht Hty. unfold generate_jump, token_of.
  cbn [defined tok_type token_id tok_p mbind result_bind rbind].
  rewrite Hs, Ht. rewrite bool_decide_eq_true_2 by reflexivity.
  rewrite bool_decide_eq_false_2 by exact Hty. reflexivity.
Qed.

Lemma assemble_jump_eq hd type id h a t :
  type = SYM_BRANCH \/ type = SYM_0BRANCH \/ type = SYM_CALL ->
  assemble hd (n_jump type id) h a t
  = if pc h >? MAX_PROGRAM hd then Fail (Thrown dictionary_overflow)
    else '(h, a) ← generate_jump hd h a t (token_of (p_id id) LEX_IDENTIFIER) type;
         Ok (h, a, t).
Proof. intros [-> | [-> | ->]]; reflexivity. Qed.

(** *** Call symbols lie in the program area *)

(** Takes apart a hypothesis that says that a sequence of steps came back
    with a result. *)
Ltac ok_inv :=
  repeat match goal with
  | H : Fail _ = Ok _ |- _ => discriminate H
  | H : Ok _ = Ok _ |- _ => injection H as H; subst
  | H : (?m ≫= _) = Ok _ |- _ =>
      let E := fresh "E" in
      destruct m eqn:E; [cbn [mbind result_bind rbind] in H|discriminate H]
  | H : (let '(_, _) := ?x in _) = Ok _ |- _ => destruct x
  | H : (if ?b then _ else _) = Ok _ |- _ =>
      let C := fresh "C" in destruct b eqn:C
  | H : match ?x with _ => _ end = Ok _ |- _ =>
      let C := fresh "C" in destruct x eqn:C
  end.

Lemma node_induction (P : node_t -> Prop) :
  (forall type bits token value o,
      Forall (fun c => match c with Some m => P m | None => True end) o ->
      P (Node type bits token value o)) ->
  forall n, P n.
Proof.
  intros H. fix IH 1. intros [type bits token value o]. apply H.
  induction o as [|c o IHo]; constructor; [|exact IHo].
  destruct c as [m|]; [apply IH|exact I].
Qed.

Lemma literal_or_symbol_lookup_range token t v :
  literal_or_symbol_lookup token t = Ok v -> 0 <= v < 65536.
Proof.
  intros E. unfold literal_or_symbol_lookup in E.
  ok_inv; apply u16_range.
Qed.

Section CallSymbols.

Context (hd : header).

Lemma store_core h j v c :
  core_ok hd h -> defined (store (core h) j v) = Ok c ->
  core_ok hd (set_core h c).
Proof.
  intros [Hpc Hlen] E. destruct (store (core h) j v) as [c1|] eqn:Es;
    [|discriminate].
  injection E as <-. apply store_length in Es.
  split; [exact Hpc|]. cbn [set_core core]. rewrite Es. exact Hlen.
Qed.

Lemma emit_core h instruction h' :
  core_ok hd h -> emit h instruction = Ok h' -> core_ok hd h'.
Proof.
  intros Hh E. unfold emit in E. ok_inv.
  match goal with
  | E : defined _ = Ok _ |- _ => apply (store_core _ _ _ _ Hh) in E as [_ Hl]
  end.
  split; [apply u16_range|exact Hl].
Qed.

Lemma generate_core h a instruction h' a' :
  core_ok hd h -> generate hd h a instruction = Ok (h', a') -> core_ok hd h'.
Proof.
  intros Hh E. unfold generate in E.
  ok_inv;
    first [ eapply emit_core; eassumption
          | eapply store_core; eassumption ].
Qed.

Lemma here_core h a v a' :
  core_ok hd h -> here hd h a = Ok (v, a') -> 0 <= v < MAX_PROGRAM hd.
Proof.
  intros [Hpc _] E. unfold here in E.
  destruct (pc h <? MAX_PROGRAM hd) eqn:Elt; [|discriminate].
  cbn in E. injection E as <- _. apply Z.ltb_lt in Elt. lia.
Qed.

Lemma hole_core h a v h' a' :
  core_ok hd h -> hole hd h a = Ok (v, h', a') -> core_ok hd h'.
Proof.
  intros [Hpc Hl] E. unfold hole, here in E.
  destruct (pc h <? MAX_PROGRAM hd); [|discriminate].
  cbn in E. injection E as _ <- _. split; [apply u16_range|exact Hl].
Qed.

Lemma fix_core h hl patch h' :
  core_ok hd h -> fix_ hd h hl patch = Ok h' -> core_ok hd h'.
Proof.
  intros Hh E. unfold fix_ in E. ok_inv. eapply store_core; eassumption.
Qed.

Lemma fill_holes_core vs : forall h a h' a',
  core_ok hd h -> fill_holes hd h a vs = Ok (h', a') -> core_ok hd h'.
Proof.
  induction vs as [|v vs IH]; intros h a h' a' Hh E; cbn [fill_holes] in E.
  - injection E as <- _. exact Hh.
  - destruct (hole hd h a) as [[[hl h1] a1]|] eqn:Eh; [|discriminate].
    cbn [mbind result_bind rbind] in E.
    apply (hole_core _ _ _ _ _ Hh) in Eh.
    destruct (defined (store (core h1) hl v)) as [c|] eqn:Es; [|discriminate].
    cbn [mbind result_bind rbind] in E.
    apply (store_core _ _ _ _ Eh) in Es. exact (IH _ _ _ _ Es E).
Qed.

Lemma pack_string_core h a s r h' a' :
  core_ok hd h -> pack_string hd h a s = Ok (r, h', a') -> core_ok hd h'.
Proof.
  intros Hh E. unfold pack_string in E.
  destruct (_ >? 255); [discriminate|].
  destruct (fill_holes hd h a _) as [[h1 a1]|] eqn:Ef; [|discriminate].
  cbn [mbind result_bind rbind] in E.
  apply (fill_holes_core _ _ _ _ _ Hh) in Ef.
  destruct (here hd h1 a1) as [[v a2]|]; [|discriminate].
  cbn in E. injection E as _ <- _. exact Ef.
Qed.

Lemma symbol_table_add_calls t type id v hidden t' :
  calls_in_program hd t ->
  (type = SYMBOL_TYPE_CALL -> 0 <= v < MAX_PROGRAM hd) ->
  symbol_table_add t type id v hidden = Ok t' ->
  calls_in_program hd t'.
Proof.
  intros Ht Hv E. unfold symbol_table_add in E.
  destruct (symbol_table_lookup t id); [discriminate|].
  injection E as <-. apply Forall_app. split; [exact Ht|].
  constructor; [exact Hv|constructor].
Qed.

Lemma calls_in_program_lookup t id s :
  calls_in_program hd t -> symbol_table_lookup t id = Some s ->
  sym_type s = SYMBOL_TYPE_CALL -> 0 <= sym_value s < MAX_PROGRAM hd.
Proof.
  induction 1 as [|s0 t Hs0 Ht IH]; cbn [symbol_table_lookup]; [discriminate|].
  destruct (String.eqb (sym_id s0) id).
  - intros [= <-]. exact Hs0.
  - exact IH.
Qed.

(** Carries the invariants over the steps that [ok_inv] has laid bare. *)
Ltac calls_use :=
  repeat match goal with
  | E : generate hd _ _ _ = Ok _ |- _ =>
      apply generate_core in E; [|assumption]
  | E : here hd _ _ = Ok _ |- _ => apply here_core in E; [|assumption]
  | E : hole hd _ _ = Ok _ |- _ => apply hole_core in E; [|assumption]
  | E : fix_ hd _ _ _ = Ok _ |- _ => apply fix_core in E; [|assumption]
  | E : pack_string hd _ _ _ = Ok _ |- _ =>
      apply pack_string_core in E; [|assumption]
  | E : symbol_table_add _ _ _ _ _ = Ok _ |- _ =>
      apply symbol_table_add_calls in E;
      [|assumption|first [intros; discriminate|intros; assumption]]
  end.

Lemma generate_all_core ws : forall h a h' a',
  core_ok hd h -> generate_all hd h a ws = Ok (h', a') -> core_ok hd h'.
Proof.
  induction ws as [|w ws IH]; intros h a h' a' Hh E; cbn [generate_all] in E.
  - ok_inv. assumption.
  - ok_inv. calls_use. eapply IH; eassumption.
Qed.

Lemma generate_literal_core h a n h' a' :
  core_ok hd h -> generate_literal hd h a n = Ok (h', a') -> core_ok hd h'.
Proof.
  intros Hh E. unfold generate_literal in E. ok_inv; calls_use; assumption.
Qed.

Lemma generate_jump_core h a t tok ty h' a' :
  core_ok hd h -> generate_jump hd h a t tok ty = Ok (h', a') -> core_ok hd h'.
Proof.
  intros Hh E. unfold generate_jump in E.
  destruct (defined tok) as [tk|]; [|discriminate].
  cbn [mbind result_bind rbind] in E.
  match type of E with (?m ≫= _) = _ => destruct m as [addr|] end;
    [|discriminate].
  cbn [mbind result_bind rbind] in E.
  destruct (addr >? MAX_PROGRAM hd); [discriminate|].
  match type of E with (?m ≫= _) = _ => destruct m as [or|] end;
    [|discriminate].
  cbn [mbind result_bind rbind] in E. calls_use. assumption.
Qed.

Lemma generate_loop_decrement_core h a t h' a' :
  core_ok hd h -> generate_loop_decrement hd h a t = Ok (h', a') ->
  core_ok hd h'.
Proof.
  intros Hh E. unfold generate_loop_decrement in E.
  match type of E with
  | context [set_do_r_minus_one a ?v] =>
      generalize dependent (set_do_r_minus_one a v)
  end.
  intros a1 E.
  destruct (do_r_minus_one a1) as [s|];
    [destruct (has (mode a1) MODE_OPTIMIZATION_ON)|].
  - calls_use. assumption.
  - exact (generate_all_core _ _ _ _ _ Hh E).
  - exact (generate_all_core _ _ _ _ _ Hh E).
Qed.

Lemma word_header_core h a flags id h' a' :
  core_ok hd h -> word_header hd h a flags id = Ok (h', a') -> core_ok hd h'.
Proof.
  intros Hh E. unfold word_header in E. ok_inv. calls_use. assumption.
Qed.

Lemma assemble_location_calls ty token o0 h a t h' a' t' :
  core_ok hd h -> calls_in_program hd t ->
  assemble_location hd ty token o0 h a t = Ok (h', a', t') ->
  core_ok hd h' /\ calls_in_program hd t'.
Proof.
  intros Hh Ht E. unfold assemble_location in E.
  ok_inv; calls_use; split; assumption.
Qed.

Lemma assemble_variable_calls bits token o0 h a t h' a' t' :
  core_ok hd h -> calls_in_program hd t ->
  assemble_variable hd bits token o0 h a t = Ok (h', a', t') ->
  core_ok hd h' /\ calls_in_program hd t'.
Proof.
  intros Hh Ht E. unfold assemble_variable in E.
  match type of E with (?m ≫= _) = _ => destruct m as [[h1 a1]|] eqn:E1 end;
    [|discriminate].
  cbn [mbind result_bind rbind] in E.
  assert (core_ok hd h1) as Hh1.
  { destruct (_ && _ && _).
    - match type of E1 with
      | context [set_do_var a ?v] => generalize dependent (set_do_var a v)
      end.
      intros a2 E1. destruct (do_var a2); [|discriminate].
      ok_inv.
      match goal with
      | E : word_header _ _ _ _ _ = Ok _ |- _ =>
          apply (word_header_core _ _ _ _ _ _ Hh) in E
      end.
      calls_use. assumption.
    - destruct (negb _); [discriminate|]. ok_inv; assumption. }
  exact (assemble_location_calls _ _ _ _ _ _ _ _ _ Hh1 Ht E).
Qed.

Lemma assemble_constant_calls bits token o0 h a t h' a' t' :
  core_ok hd h -> calls_in_program hd t ->
  assemble_constant hd bits token o0 h a t = Ok (h', a', t') ->
  core_ok hd h' /\ calls_in_program hd t'.
Proof.
  intros Hh Ht E. unfold assemble_constant in E.
  match type of E with (?m ≫= _) = _ => destruct m as [[h1 a1]|] eqn:E1 end;
    [|discriminate].
  cbn [mbind result_bind rbind] in E.
  assert (core_ok hd h1) as Hh1.
  { destruct (_ && _ && _).
    - match type of E1 with
      | context [set_do_const a ?v] => generalize dependent (set_do_const a v)
      end.
      intros a2 E1. destruct (do_const a2); [|discriminate].
      ok_inv.
      match goal with
      | E : word_header _ _ _ _ _ = Ok _ |- _ =>
          apply (word_header_core _ _ _ _ _ _ Hh) in E
      end.
      calls_use. assumption.
    - ok_inv; assumption. }
  ok_inv; calls_use; split; assumption.
Qed.

Lemma built_in_loop_calls ws : forall h a t h' a' t',
  core_ok hd h -> calls_in_program hd t ->
  built_in_loop hd ws h a t = Ok (h', a', t') ->
  core_ok hd h' /\ calls_in_program hd t'.
Proof.
  induction ws as [|w ws IH]; intros h a t h' a' t' Hh Ht E;
    cbn [built_in_loop] in E.
  - ok_inv; split; assumption.
  - destruct (negb (compile w)); [exact (IH _ _ _ _ _ _ Hh Ht E)|].
    match type of E with (?m ≫= _) = _ => destruct m as [[h1 a1]|] eqn:E1 end;
      [|discriminate].
    cbn [mbind result_bind rbind] in E.
    assert (core_ok hd h1) as Hh1.
    { destruct (negb (bi_hidden w)).
      - exact (word_header_core _ _ _ _ _ _ Hh E1).
      - ok_inv; assumption. }
    clear E1.
    destruct (here hd h1 a1) as [[entry a2]|] eqn:E2; [|discriminate].
    cbn [mbind result_bind rbind] in E.
    apply (here_core _ _ _ _ Hh1) in E2.
    destruct (symbol_table_add t SYMBOL_TYPE_CALL (name w) entry (bi_hidden w))
      as [t1|] eqn:E3; [|discriminate].
    cbn [mbind result_bind rbind] in E.
    apply (symbol_table_add_calls _ _ _ _ _ _ Ht (fun _ => E2)) in E3.
    destruct (generate_all hd h1 a2 _) as [[h3 a3]|] eqn:E4; [|discriminate].
    cbn [mbind result_bind rbind] in E.
    apply (generate_all_core _ _ _ _ _ Hh1) in E4.
    destruct (generate hd h3 a3 (CODE_EXIT hd)) as [[h4 a4]|] eqn:E5;
      [|discriminate].
    cbn [mbind result_bind rbind] in E.
    apply (generate_core _ _ _ _ _ E4) in E5.
    exact (IH _ _ _ _ _ _ E5 E3 E).
Qed.

Lemma assemble_children_calls cs : forall h a t h' a' t',
  Forall (keeps_calls_child hd) cs ->
  core_ok hd h -> calls_in_program hd t ->
  assemble_children hd cs h a t = Ok (h', a', t') ->
  core_ok hd h' /\ calls_in_program hd t'.
Proof.
  induction cs as [|c cs IH]; intros h a t h' a' t' Hk Hh Ht E;
    cbn [assemble_children] in E.
  - ok_inv; split; assumption.
  - inversion Hk as [|? ? Hc Hk']; subst. clear Hk. rename Hk' into Hk.
    destruct c as [m|]; cbn [mbind result_bind rbind] in E.
    + destruct (assemble hd m h a t) as [[[h1 a1] t1]|] eqn:E1; [|discriminate].
      cbn [mbind result_bind rbind] in E.
      destruct (Hc _ _ _ _ _ _ Hh Ht E1) as [Hh1 Ht1].
      exact (IH _ _ _ _ _ _ Hk Hh1 Ht1 E).
    + exact (IH _ _ _ _ _ _ Hk Hh Ht E).
Qed.

(** The steps of [assemble] that are calls of the functions above. *)
Ltac calls_call :=
  repeat first
    [ progress calls_use
    | match goal with
      | K : keeps_calls hd ?m, E : assemble hd ?m _ _ _ = Ok _ |- _ =>
          apply K in E; [destruct E as [? ?]|assumption|assumption]
      | E : generate_literal hd _ _ _ = Ok _ |- _ =>
          apply generate_literal_core in E; [|assumption]
      | E : generate_jump hd _ _ _ _ _ = Ok _ |- _ =>
          apply generate_jump_core in E; [|assumption]
      | E : generate_loop_decrement hd _ _ _ = Ok _ |- _ =>
          apply generate_loop_decrement_core in E; [|assumption]
      | E : word_header hd _ _ _ _ = Ok _ |- _ =>
          apply word_header_core in E; [|assumption]
      | E : assemble_set hd _ _ _ _ _ = Ok _ |- _ =>
          unfold assemble_set in E; ok_inv
      | E : assemble_constant hd _ _ _ _ _ _ = Ok _ |- _ =>
          apply assemble_constant_calls in E;
          [destruct E as [? ?]|assumption|assumption]
      | E : assemble_variable hd _ _ _ _ _ _ = Ok _ |- _ =>
          apply assemble_variable_calls in E;
          [destruct E as [? ?]|assumption|assumption]
      | E : assemble_location hd _ _ _ _ _ _ = Ok _ |- _ =>
          apply assemble_location_calls in E;
          [destruct E as [? ?]|assumption|assumption]
      | E : built_in_loop hd _ _ _ _ = Ok _ |- _ =>
          apply built_in_loop_calls in E;
          [destruct E as [? ?]|assumption|assumption]
      end ].

(** Whatever the tree, assembling it keeps [pc] a cell number, the core at
    its length and the call symbols in the program area. *)
Lemma assemble_keeps_calls n : keeps_calls hd n.
Proof.
  induction n as [type bits token value o IH] using node_induction.
  assert (Forall (keeps_calls_child hd) o) as Hk.
  { clear -IH. induction o as [|c o IHo]; constructor.
    - inversion IH; subst. destruct c as [m|]; [cbn; auto|exact I].
    - inversion IH; subst. apply IHo; assumption. }
  clear IH.
  intros h a t h' a' t' Hh Ht E.
  destruct (decide (type = SYM_STATEMENTS)) as [->|Hst].
  { rewrite assemble_statements_eq in E.
    destruct (pc h >? MAX_PROGRAM hd); [discriminate|].
    exact (assemble_children_calls _ _ _ _ _ _ _ Hk Hh Ht E). }
  cbn [assemble] in E.
  destruct (pc h >? MAX_PROGRAM hd) eqn:Emax; [destruct type; discriminate|].
  destruct o as [|o0 [|o1 [|o2 o3]]];
    repeat match goal with
           | H : Forall _ (_ :: _) |- _ => inversion H; subst; clear H
           | H : Forall _ [] |- _ => clear H
           end;
    destruct type; try congruence; try discriminate.
  all: try (ok_inv; cbn [keeps_calls_child] in *; calls_call;
            split; assumption).
  all: ok_inv;
       repeat match goal with
       | E : literal_or_symbol_lookup _ _ = Ok _ |- _ =>
           apply literal_or_symbol_lookup_range in E
       end;
       destruct Hh as [Hpc Hl];
       (split; [split; [first [apply u16_range|cbn [set_pc pc]; lia]
                       |exact Hl]
               |assumption]).
Qed.

(** The statements of a program, assembled from the start as [code] does,
    leave a state in which every call symbol is an address of the program
    area. *)
Lemma assemble_children_from_start before h a t :
  sizes_ok hd ->
  assemble_children hd (Some <$> before) (h2_new hd (START_ADDR hd))
    (set_fence assembler_zero (START_ADDR hd)) [] = Ok (h, a, t) ->
  core_ok hd h /\ calls_in_program hd t.
Proof.
  intros (Hs1 & Hs8 & Hs2 & Hs3) E.
  apply (assemble_children_calls _ _ _ _ _ _ _) in E; [exact E| | |].
  - clear E. induction before as [|m before IH]; constructor;
      [exact (assemble_keeps_calls m)|exact IH].
  - split; [cbn; lia|apply h2_new_length; lia].
  - constructor.
Qed.

End CallSymbols.

(** C8. A branch or a 0branch whose target identifier resolves to a symbol
    of type call is refused: [generate_jump] throws, the statement fails,
    and so does a program that holds it after statements that assemble, so
    that [code] yields no image.  The same identifier as the target of a
    call statement, after the statements of a program that assemble and
    with a cell left for it, is assembled into the cell [OP_CALL | value]:
    the value of a call symbol is an address of the program area, which
    [generate_jump] accepts. *)
Theorem jump_to_call_symbol (hd : header) (h : h2_t) (a : assembler_t)
    (t : symbol_table_t) (id : string) (s : symbol_t) :
  symbol_table_lookup t id = Some s ->
  sym_type s = SYMBOL_TYPE_CALL ->
  (forall type, type = SYM_BRANCH \/ type = SYM_0BRANCH ->
     generate_jump hd h a t (token_of (p_id id) LEX_IDENTIFIER) type
     = Fail (Thrown cannot_branch_to_call)
     /\ (exists m, assemble hd (n_jump type id) h a t = Fail (Thrown m))
     /\ (forall before after,
           assemble_children hd (Some <$> before)
             (h2_new hd (START_ADDR hd))
             (set_fence assembler_zero (START_ADDR hd)) [] = Ok (h, a, t) ->
           exists m,
             code hd (n_program (before ++ n_jump type id :: after)) None
             = Fail (Thrown m)))
  /\ (forall before,
        sizes_ok hd -> layout_ok hd ->
        assemble_children hd (Some <$> before)
          (h2_new hd (START_ADDR hd))
          (set_fence assembler_zero (START_ADDR hd)) [] = Ok (h, a, t) ->
        pc h <= MAX_PROGRAM hd -> pc h < CORE_CELLS hd ->
        assemble hd (n_jump SYM_CALL id) h a t
        = Ok ({| core := <[Z.to_nat (pc h) := Z.lor OP_CALL (sym_value s)]> (core h);
                 pc := u16 (pc h + 1); tos := tos h; sp := sp h; rp := rp h |},
              update_fence a (pc h), t)).
Proof.
  intros Hs Ht. split.
  - intros type Hty.
    assert (type <> SYM_CALL) as Hnc by (destruct Hty as [-> | ->]; discriminate).
    pose proof (generate_jump_to_call hd h a t id s type Hs Ht Hnc) as Hg.
    assert (exists m, assemble hd (n_jump type id) h a t = Fail (Thrown m)) as Hn.
    { rewrite assemble_jump_eq by tauto. rewrite Hg.
      destruct (pc h >? MAX_PROGRAM hd); eexists; reflexivity. }
    split; [exact Hg|]. split; [exact Hn|].
    intros before after Hb. unfold code, n_program. cbn [default assemble].
    change (pc (h2_new hd (START_ADDR hd))) with (START_ADDR hd).
    destruct (START_ADDR hd >? MAX_PROGRAM hd);
      [eexists; reflexivity|].
    unfold n_statements. rewrite assemble_statements_eq.
    change (pc (h2_new hd (START_ADDR hd))) with (START_ADDR hd).
    destruct (START_ADDR hd >? MAX_PROGRAM hd);
      [eexists; reflexivity|].
    rewrite fmap_app, <- app_assoc, assemble_children_app, Hb.
    cbn [mbind result_bind rbind fmap list_fmap app assemble_children].
    destruct Hn as [m ->]. exists m. reflexivity.
  - intros before Hsz Hl Hb Hpc Hcell.
    destruct (assemble_children_from_start hd before h a t Hsz Hb)
      as [[Hpc0 Hlen] Hcalls].
    pose proof (calls_in_program_lookup hd t id s Hcalls Hs Ht) as Hv.
    destruct Hsz as (_ & Hm8 & _).
    rewrite assemble_jump_eq by tauto. rewrite (gtb_false (pc h)) by exact Hpc.
    unfold generate_jump, token_of.
    cbn [defined tok_type token_id tok_p mbind result_bind rbind].
    rewrite Hs, Ht. rewrite bool_decide_eq_true_2 by reflexivity.
    rewrite (bool_decide_eq_true_2 (SYM_CALL = SYM_CALL)) by reflexivity.
    cbn [negb andb mbind result_bind rbind].
    rewrite (gtb_false (sym_value s)) by lia.
    rewrite generate_not_exit by (apply call_word_not_exit; [exact Hl|lia]).
    rewrite emit_Some by (unfold in_core; lia).
    rewrite call_word_tagged by lia.
    reflexivity.
Qed.

Lemma jump_to_call_symbol_witness :
  exists h a t,
    assemble_children example_header
      (Some <$> [n_mode MODE_OPTIMIZATION_ON;
                 n_definition "a" 0 [n_literal 1];
                 n_definition "b" 0 [n_call_definition "a"]])
      (h2_new example_header 8) (set_fence assembler_zero 8) [] = Ok (h, a, t)
    /\ generate_jump example_header h a t
         (token_of (p_id "a") LEX_IDENTIFIER) SYM_0BRANCH
       = Fail (Thrown cannot_branch_to_call)
    /\ assemble example_header (n_jump SYM_CALL "a") h a t
       = Ok ({| core := <[Z.to_nat (pc h) := Z.lor OP_CALL 8]> (core h);
                pc := u16 (pc h + 1); tos := tos h; sp := sp h; rp := rp h |},
             update_fence a (pc h), t).
Proof.
  destruct (assemble_a_b example_header example_header_sizes
              example_header_layout)
    as (h & a & t & Ha & Hsym & _ & _ & Hpc & _); [simpl; lia|simpl; lia|].
  unfold program_a_b in Ha.
  rewrite assemble_program_eq in Ha by (simpl; lia).
  rewrite assemble_children_app in Ha.
  change (START_ADDR example_header) with 8 in *.
  destruct (assemble_children example_header _ (h2_new example_header 8) _ [])
    as [[[h1 a1] t1]|] eqn:Eb; [|discriminate].
  cbn in Ha. injection Ha as -> -> ->.
  exists h, a, t. split; [reflexivity|].
  destruct (jump_to_call_symbol example_header h a t "a" (call_symbol "a" 8)
              Hsym eq_refl) as [Hb Hc].
  split.
  - exact (proj1 (Hb SYM_0BRANCH (or_intror eq_refl))).
  - apply (Hc _ example_header_sizes example_header_layout Eb).
    + rewrite Hpc. simpl. lia.
    + rewrite Hpc. simpl. lia.
Defined.

(** ** Variables and locations *)

Lemma not_doVar_bind {A B} (m : result A) (k : A -> result B) :
  not_doVar_error m -> (forall x, m = Ok x -> not_doVar_error (k x)) ->
  not_doVar_error (m ≫= k).
Proof.
  intros Hm Hk. destruct m as [x|f]; cbn.
  - apply Hk. reflexivity.
  - intros [= E]. apply Hm. rewrite E. reflexivity.
Qed.

Ltac not_doVar :=
  repeat first
    [ apply not_doVar_bind; [|intros ? ?]
    | match goal with
      | |- not_doVar_error (Ok _) => discriminate
      | |- not_doVar_error (Fail _) => discriminate
      | |- not_doVar_error (assert ?b) => destruct b; discriminate
      | |- not_doVar_error (defined ?o) => destruct o; discriminate
      | |- not_doVar_error (if ?b then _ else _) => destruct b
      | |- not_doVar_error (match ?x with _ => _ end) => destruct x
      | |- not_doVar_error (let '(_, _) := ?x in _) => destruct x
      end ].

Lemma here_not_doVar hd h a : not_doVar_error (here hd h a).
Proof. unfold here. not_doVar. Qed.

Lemma hole_not_doVar hd h a : not_doVar_error (hole hd h a).
Proof. unfold hole, here. not_doVar. Qed.

Lemma fix_not_doVar hd h hl p : not_doVar_error (fix_ hd h hl p).
Proof. unfold fix_. not_doVar. Qed.

Lemma fill_holes_not_doVar hd vs : forall h a,
  not_doVar_error (fill_holes hd h a vs).
Proof.
  induction vs as [|v vs IH]; intros h a; cbn [fill_holes]; [discriminate|].
  apply not_doVar_bind; [apply hole_not_doVar|]. intros [[hl h1] a1] _.
  apply not_doVar_bind; [not_doVar|]. intros c _. apply IH.
Qed.

Lemma pack_string_not_doVar hd h a s : not_doVar_error (pack_string hd h a s).
Proof.
  unfold pack_string. destruct (_ >? 255); [discriminate|].
  apply not_doVar_bind; [apply fill_holes_not_doVar|]. intros [h1 a1] _.
  apply not_doVar_bind; [apply here_not_doVar|]. intros [v a2] _. discriminate.
Qed.

Lemma token_id_not_doVar tok : not_doVar_error (token_id tok).
Proof. unfold token_id. not_doVar. Qed.

Lemma token_number_not_doVar tok : not_doVar_error (token_number tok).
Proof. unfold token_number. not_doVar. Qed.

Lemma symbol_table_add_not_doVar t ty id v hid :
  not_doVar_error (symbol_table_add t ty id v hid).
Proof. unfold symbol_table_add. not_doVar. Qed.

Lemma emit_not_doVar h i : not_doVar_error (emit h i).
Proof. unfold emit. not_doVar. Qed.

Lemma generate_not_doVar hd h a i : not_doVar_error (generate hd h a i).
Proof.
  unfold generate.
  destruct (has _ _ && negb _).
  - apply not_doVar_bind; [not_doVar|]. intros previous _.
    destruct (_ && _ && _).
    + destruct (_ && _).
      * apply not_doVar_bind; [not_doVar|]. intros; discriminate.
      * apply not_doVar_bind; [apply emit_not_doVar|]. intros; discriminate.
    + destruct (_ && _ && _).
      * apply not_doVar_bind; [not_doVar|]. intros; discriminate.
      * apply not_doVar_bind; [apply emit_not_doVar|]. intros; discriminate.
  - apply not_doVar_bind; [apply emit_not_doVar|]. intros; discriminate.
Qed.

Lemma word_header_not_doVar hd h a f id : not_doVar_error (word_header hd h a f id).
Proof.
  unfold word_header.
  apply not_doVar_bind; [apply hole_not_doVar|]. intros [[hl h1] a1] _.
  apply not_doVar_bind; [apply fix_not_doVar|]. intros h2 _.
  apply not_doVar_bind; [apply pack_string_not_doVar|]. intros [[r h3] a3] _.
  discriminate.
Qed.

Lemma assemble_location_not_doVar hd ty token o0 h a t :
  not_doVar_error (assemble_location hd ty token o0 h a t).
Proof.
  unfold assemble_location.
  apply not_doVar_bind; [apply here_not_doVar|]. intros [v a1] _.
  apply not_doVar_bind; [not_doVar|]. intros init _.
  apply not_doVar_bind.
  - destruct (tok_type init); try discriminate.
    + apply not_doVar_bind; [apply hole_not_doVar|]. intros [[hl h1] a2] _.
      apply not_doVar_bind; [apply token_number_not_doVar|]. intros n _.
      apply not_doVar_bind; [apply fix_not_doVar|]. intros; discriminate.
    + apply not_doVar_bind; [apply token_id_not_doVar|]. intros str _.
      apply pack_string_not_doVar.
  - intros [[hl h1] a2] _.
    apply not_doVar_bind; [apply token_id_not_doVar|]. intros id _.
    apply not_doVar_bind; [apply symbol_table_add_not_doVar|].
    intros; discriminate.
Qed.

Lemma assemble_variable_eq hd id init bits h a t :
  assemble hd (n_declaration SYM_VARIABLE id init bits) h a t
  = if pc h >? MAX_PROGRAM hd then Fail (Thrown dictionary_overflow)
    else assemble_variable hd bits (token_of (p_id id) LEX_IDENTIFIER)
           (Some init) h a t.
Proof. reflexivity. Qed.

Lemma assemble_location_eq hd id init bits h a t :
  assemble hd (n_declaration SYM_LOCATION id init bits) h a t
  = if pc h >? MAX_PROGRAM hd then Fail (Thrown dictionary_overflow)
    else assemble_location hd SYM_LOCATION (token_of (p_id id) LEX_IDENTIFIER)
           (Some init) h a t.
Proof. reflexivity. Qed.

(** The cell of a variable or a location whose initial value is a number. *)
Lemma assemble_location_literal hd ty id v h a t :
  pc h < MAX_PROGRAM hd -> in_core h (pc h) ->
  symbol_table_lookup t id = None ->
  assemble_location hd ty (token_of (p_id id) LEX_IDENTIFIER)
    (Some (n_literal v)) h a t
  = Ok ({| core := <[Z.to_nat (pc h) := v]> (core h); pc := u16 (pc h + 1);
           tos := tos h; sp := sp h; rp := rp h |},
        update_fence (update_fence a (pc h)) (pc h),
        t ++ [variable_symbol id (pc h) (bool_decide (ty = SYM_LOCATION))]).
Proof.
  intros Hpc Hin Ht. unfold assemble_location, here, hole, here, fix_.
  rewrite ltb_true by exact Hpc.
  cbn [assert mbind result_bind rbind node_token n_literal token_of defined
       tok_type token_number tok_p token_id set_pc pc core].
  rewrite ltb_true by exact Hpc.
  cbn [assert mbind result_bind rbind].
  rewrite store_Some by exact Hin.
  cbn [defined mbind result_bind rbind]. unfold symbol_table_add.
  rewrite Ht. reflexivity.
Qed.

Lemma assemble_variable_hidden hd bits token o0 h a t :
  has bits DEFINE_HIDDEN = true ->
  assemble_variable hd bits token o0 h a t
  = assemble_location hd SYM_VARIABLE token o0 h a t.
Proof.
  intros Hh. unfold assemble_variable. rewrite Hh.
  cbn [negb]. rewrite andb_false_r. reflexivity.
Qed.

Lemma assemble_variable_not_doVar hd bits token o0 h a t :
  has bits DEFINE_HIDDEN = true \/ header_path a = true ->
  not_doVar_error (assemble_variable hd bits token o0 h a t).
Proof.
  intros Hc. destruct (has bits DEFINE_HIDDEN) eqn:Hh.
  - rewrite assemble_variable_hidden by exact Hh.
    apply assemble_location_not_doVar.
  - destruct Hc as [Hc|Hc]; [discriminate|].
    unfold assemble_variable. unfold header_path in Hc. rewrite Hc, Hh.
    cbn [negb andb].
    apply not_doVar_bind.
    + cbn [do_var set_do_var].
      destruct (match do_var a with
                | Some s => Some s
                | None => symbol_table_lookup t "doVar"
                end) as [dv|]; [|discriminate].
      apply not_doVar_bind; [apply token_id_not_doVar|]. intros id _.
      apply not_doVar_bind; [apply word_header_not_doVar|]. intros [h1 a1] _.
      apply generate_not_doVar.
    + intros [h1 a1] _. apply assemble_location_not_doVar.
Qed.

(** A number as initial value is accepted only with room for its cell
    and under a name that the table does not hold yet. *)
Lemma assemble_location_literal_inv hd ty id v h a t r :
  assemble_location hd ty (token_of (p_id id) LEX_IDENTIFIER)
    (Some (n_literal v)) h a t = Ok r ->
  pc h < MAX_PROGRAM hd /\ in_core h (pc h)
  /\ symbol_table_lookup t id = None.
Proof.
  unfold assemble_location, here, hole, here, fix_.
  destruct (pc h <? MAX_PROGRAM hd) eqn:Hpc;
    cbn [assert mbind result_bind rbind node_token n_literal token_of defined
         tok_type token_number tok_p token_id set_pc pc core];
    [|discriminate].
  rewrite Hpc. cbn [assert mbind result_bind rbind].
  destruct (store (core h) (pc h) v) as [c|] eqn:Es;
    cbn [defined mbind result_bind rbind]; [|discriminate].
  unfold symbol_table_add.
  destruct (symbol_table_lookup t id); [discriminate|]. intros _.
  apply store_inv in Es as [Hin _]. apply Z.ltb_lt in Hpc.
  split; [exact Hpc|]. split; [exact Hin|reflexivity].
Qed.

(** The symbol of a declaration that is accepted. *)
Lemma assemble_location_symbol hd ty id o0 h a t h' a' t' :
  assemble_location hd ty (token_of (p_id id) LEX_IDENTIFIER) o0 h a t
  = Ok (h', a', t') ->
  exists cell,
    t' = t ++ [variable_symbol id cell (bool_decide (ty = SYM_LOCATION))].
Proof.
  unfold assemble_location. intros E. ok_inv.
  all: match goal with
       | E : symbol_table_add _ _ _ _ _ = Ok _ |- _ =>
           unfold symbol_table_add in E;
           destruct (symbol_table_lookup _ _); [discriminate E|];
           injection E as <-
       end.
  all: match goal with
       | E : token_id _ = Ok _ |- _ => cbn in E; injection E as <-
       end.
  all: eexists; reflexivity.
Qed.

Lemma assemble_variable_symbol hd bits id o0 h a t h' a' t' :
  assemble_variable hd bits (token_of (p_id id) LEX_IDENTIFIER) o0 h a t
  = Ok (h', a', t') ->
  exists cell, t' = t ++ [variable_symbol id cell false].
Proof.
  unfold assemble_variable. intros E.
  match type of E with (?m ≫= _) = _ => destruct m as [[h1 a1]|] end;
    [|discriminate].
  cbn [mbind result_bind rbind] in E.
  exact (assemble_location_symbol _ _ _ _ _ _ _ _ _ _ E).
Qed.

(** C10 as the spec words it fails.  The second declaration of a hidden
    variable of the same name is refused as a redefinition, and past the
    end of the program area a variable without the hidden flag and without
    the header path is refused for the overflow of the dictionary, before
    [doVar] is looked at. *)
Lemma hidden_variable_refused :
  code example_header program_hidden_twice None
  = Fail (Thrown redefinition_of_symbol)
  /\ code example_header program_pc_variable None
     = Fail (Thrown dictionary_overflow)
  /\ ~ variable_claim example_header.
Proof.
  split; [vm_compute; reflexivity|]. split; [vm_compute; reflexivity|].
  intros H.
  destruct (H "v"%string 2 DEFINE_HIDDEN (h2_new example_header 8)
              (set_fence assembler_zero 8) [variable_symbol "v" 8 false])
    as [_ Hacc].
  destruct (Hacc eq_refl) as (h' & a' & cell & E).
  assert (assemble example_header
            (n_variable SYM_VARIABLE "v" 2 DEFINE_HIDDEN)
            (h2_new example_header 8) (set_fence assembler_zero 8)
            [variable_symbol "v" 8 false]
          = Fail (Thrown redefinition_of_symbol)) as E'
    by (vm_compute; reflexivity).
  rewrite E' in E. discriminate E.
Qed.

(** C10, as the code has it.  Once the check of [pc] against the end of
    the program area has let the declaration through, a variable raises
    the error of the missing [doVar] if and only if it lacks the hidden
    flag and the header path is closed (headers are not compiled, or the
    built-in words are not yet defined).  A variable declared hidden is
    assembled as a location is, without a header, whatever its initial
    value.  A declaration that is accepted enters its symbol at the end
    of the table, with [hidden = false] for a variable and [hidden = true]
    for a location.  With a number as initial value, a hidden variable or
    a location is accepted exactly when [pc] is below the end of the
    program area, its cell is in the core and the table does not hold its
    name: the number goes to the cell at [pc]. *)
Theorem variable_without_doVar (hd : header) (id : string) (init : node_t)
    (bits : Z) (h : h2_t) (a : assembler_t) (t : symbol_table_t) :
  pc h <= MAX_PROGRAM hd ->
  (assemble hd (n_declaration SYM_VARIABLE id init bits) h a t
   = Fail (Thrown doVar_not_defined)
   <-> has bits DEFINE_HIDDEN = false /\ header_path a = false)
  /\ (has bits DEFINE_HIDDEN = true ->
      assemble hd (n_declaration SYM_VARIABLE id init bits) h a t
      = assemble_location hd SYM_VARIABLE (token_of (p_id id) LEX_IDENTIFIER)
          (Some init) h a t)
  /\ (forall ty h' a' t',
        ty = SYM_VARIABLE \/ ty = SYM_LOCATION ->
        assemble hd (n_declaration ty id init bits) h a t = Ok (h', a', t') ->
        exists cell,
          t' = t ++ [variable_symbol id cell (bool_decide (ty = SYM_LOCATION))])
  /\ (forall ty v,
        ty = SYM_VARIABLE /\ has bits DEFINE_HIDDEN = true
        \/ ty = SYM_LOCATION ->
        init = n_literal v ->
        ((exists r, assemble hd (n_declaration ty id init bits) h a t = Ok r)
         <-> pc h < MAX_PROGRAM hd /\ in_core h (pc h)
             /\ symbol_table_lookup t id = None)
        /\ (pc h < MAX_PROGRAM hd -> in_core h (pc h) ->
            symbol_table_lookup t id = None ->
            assemble hd (n_declaration ty id init bits) h a t
            = Ok ({| core := <[Z.to_nat (pc h) := v]> (core h);
                     pc := u16 (pc h + 1); tos := tos h; sp := sp h;
                     rp := rp h |},
                  update_fence (update_fence a (pc h)) (pc h),
                  t ++ [variable_symbol id (pc h)
                          (bool_decide (ty = SYM_LOCATION))]))).
Proof.
  intros Hpc. rewrite !assemble_variable_eq.
  rewrite (gtb_false (pc h)) by exact Hpc.
  split; [|split; [|split]].
  - split.
    + intros E. destruct (has bits DEFINE_HIDDEN) eqn:Hh.
      * exfalso. revert E. apply assemble_variable_not_doVar. left. exact Hh.
      * destruct (header_path a) eqn:Hp; [|split; reflexivity].
        exfalso. revert E. apply assemble_variable_not_doVar. right. exact Hp.
    + intros [Hh Hp]. unfold assemble_variable. unfold header_path in Hp.
      rewrite Hp, Hh. reflexivity.
  - intros Hh. apply assemble_variable_hidden, Hh.
  - intros ty h' a' t' [->| ->] E.
    + rewrite assemble_variable_eq, (gtb_false (pc h)) in E by exact Hpc.
      exact (assemble_variable_symbol _ _ _ _ _ _ _ _ _ _ E).
    + rewrite assemble_location_eq, (gtb_false (pc h)) in E by exact Hpc.
      exact (assemble_location_symbol _ _ _ _ _ _ _ _ _ _ E).
  - intros ty v Hty ->.
    assert (assemble hd (n_declaration ty id (n_literal v) bits) h a t
            = assemble_location hd ty (token_of (p_id id) LEX_IDENTIFIER)
                (Some (n_literal v)) h a t) as ->.
    { destruct Hty as [[-> Hh]| ->].
      - rewrite assemble_variable_eq, (gtb_false (pc h)) by exact Hpc.
        apply assemble_variable_hidden, Hh.
      - rewrite assemble_location_eq, (gtb_false (pc h)) by exact Hpc.
        reflexivity. }
    split.
    + split.
      * intros [r E]. exact (assemble_location_literal_inv _ _ _ _ _ _ _ _ E).
      * intros (Hlt & Hin & Ht). eexists.
        apply assemble_location_literal; assumption.
    + apply assemble_location_literal.
Qed.

Lemma variable_without_doVar_witness :
  assemble example_header (n_declaration SYM_VARIABLE "v" (n_literal 42) 0)
    (h2_new example_header 8) (set_fence assembler_zero 8) []
  = Fail (Thrown doVar_not_defined)
  /\ assemble example_header
       (n_declaration SYM_VARIABLE "v" (n_literal 42) DEFINE_HIDDEN)
       (h2_new example_header 8) (set_fence assembler_zero 8) []
     = Ok ({| core := <[Z.to_nat 8 := 42]> (core (h2_new example_header 8));
              pc := u16 (8 + 1); tos := 0; sp := 8704; rp := 16384 |},
           update_fence (update_fence (set_fence assembler_zero 8) 8) 8,
           [variable_symbol "v" 8 false]).
Proof.
  assert (pc (h2_new example_header 8) <= MAX_PROGRAM example_header) as Hpc
    by (simpl; lia).
  assert (in_core (h2_new example_header 8) 8) as Hin.
  { unfold in_core.
    change (h2_new example_header 8)
      with (h2_new example_header (START_ADDR example_header)).
    rewrite (h2_new_length example_header) by (simpl; lia). simpl. lia. }
  split.
  - apply (proj1 (variable_without_doVar example_header "v" (n_literal 42) 0
                    (h2_new example_header 8) (set_fence assembler_zero 8) []
                    Hpc)).
    split; reflexivity.
  - destruct (variable_without_doVar example_header "v" (n_literal 42)
                DEFINE_HIDDEN (h2_new example_header 8)
                (set_fence assembler_zero 8) [] Hpc) as (_ & _ & _ & H).
    destruct (H SYM_VARIABLE 42) as [_ Hok].
    + left. split; reflexivity.
    + reflexivity.
    + apply Hok.
      * simpl. lia.
      * exact Hin.
      * reflexivity.
Defined.

(** * Further properties *)

(** ** The symbol table *)

Lemma symbol_table_lookup_snoc t s id :
  symbol_table_lookup (t ++ [s]) id
  = match symbol_table_lookup t id with
    | Some x => Some x
    | None => if String.eqb (sym_id s) id then Some s else None
    end.
Proof.
  induction t as [|s0 t IH]; cbn [app symbol_table_lookup]; [reflexivity|].
  destruct (String.eqb (sym_id s0) id); [reflexivity|exact IH].
Qed.

(** X1. [symbol_table_add] refuses an identifier that the table holds, and
    otherwise enters it so that a lookup finds the new symbol with the type,
    value and hidden flag given; every other lookup gives what it gave
    before. *)
Theorem symbol_table_add_lookup (t : symbol_table_t) (type : symbol_type_e)
    (id : string) (value : Z) (hidden : bool) :
  match symbol_table_lookup t id with
  | Some _ =>
      symbol_table_add t type id value hidden
      = Fail (Thrown redefinition_of_symbol)
  | None =>
      exists t',
        symbol_table_add t type id value hidden = Ok t'
        /\ symbol_table_lookup t' id
           = Some {| sym_id := id; sym_value := value; sym_type := type;
                     sym_hidden := hidden |}
        /\ forall id', id' <> id ->
             symbol_table_lookup t' id' = symbol_table_lookup t id'
  end.
Proof.
  unfold symbol_table_add.
  destruct (symbol_table_lookup t id) as [s|] eqn:E; [reflexivity|].
  eexists. split; [reflexivity|]. split.
  - rewrite symbol_table_lookup_snoc, E. cbn [sym_id].
    rewrite String.eqb_refl. reflexivity.
  - intros id' Hne. rewrite symbol_table_lookup_snoc. cbn [sym_id].
    destruct (symbol_table_lookup t id'); [reflexivity|].
    destruct (String.eqb id id') eqn:Eq; [|reflexivity].
    apply String.eqb_eq in Eq. congruence.
Qed.

(** ** Block files *)

Lemma land_255_byte v : 0 <= Z.land v 255 < 256.
Proof.
  change 255 with (Z.ones 8). rewrite Z.land_ones by lia.
  apply Z.mod_pos_bound. lia.
Qed.

Lemma fputc_fresh c ws :
  is_byte c ->
  fputc c {| written := ws; room := None |}
  = (c, {| written := ws ++ [c]; room := None |}).
Proof.
  intros Hc. unfold fputc. cbn [room written].
  rewrite Z.mod_small by exact Hc. reflexivity.
Qed.

Lemma binary_memory_save_from_fresh turns : forall i ws p,
  0 <= i -> i + Z.of_nat turns <= Z.of_nat (length p) ->
  binary_memory_save_from i turns {| written := ws; room := None |} p
  = Ok (0, {| written := ws ++ flat_map cell_bytes
                                  (take turns (drop (Z.to_nat i) p));
              room := None |}).
Proof.
  induction turns as [|turns IH]; intros i ws p Hi Hlen;
    cbn [binary_memory_save_from].
  - rewrite take_0. cbn [flat_map]. rewrite app_nil_r. reflexivity.
  - destruct (p !! Z.to_nat i) as [v|] eqn:Ev.
    2: { apply lookup_ge_None in Ev. lia. }
    unfold load. destruct (0 <=? i) eqn:E0; [|lia]. rewrite Ev.
    cbn [defined mbind result_bind rbind].
    rewrite !fputc_fresh by apply land_255_byte.
    pose proof (land_255_byte v) as H1.
    pose proof (land_255_byte (Z.shiftr v 8)) as H2.
    destruct (Z.land v 255 <? 0) eqn:E1; [lia|].
    destruct (Z.land (Z.shiftr v 8) 255 <? 0) eqn:E2; [lia|].
    cbn [orb]. rewrite IH by lia.
    rewrite (drop_S p v (Z.to_nat i) Ev). cbn [take flat_map cell_bytes].
    replace (Z.to_nat (i + 1)) with (S (Z.to_nat i)) by lia.
    rewrite <- !app_assoc. reflexivity.
Qed.

Lemma length_flat_map_cell_bytes cs :
  length (flat_map cell_bytes cs) = (2 * length cs)%nat.
Proof. induction cs as [|c cs IH]; cbn; [reflexivity|]. rewrite IH. lia. Qed.

Lemma cell_of_bytes c :
  is_cell c ->
  u16 (Z.lor (Z.land (Z.land c 255) 255)
             (Z.shiftl (Z.land (Z.land (Z.shiftr c 8) 255) 255) 8)) = c.
Proof.
  intros Hc. rewrite <- !Z.land_assoc. change (Z.land 255 255) with 255.
  assert (Z.lor (Z.land c 255) (Z.shiftl (Z.land (Z.shiftr c 8) 255) 8) = c)
    as ->.
  { apply Z.bits_inj'. intros k Hk. rewrite Z.lor_spec, Z.land_spec.
    destruct (Z.lt_ge_cases k 8) as [Hlt|Hge].
    - rewrite Z.shiftl_spec_low by exact Hlt.
      change 255 with (Z.ones 8). rewrite Z.ones_spec_low by lia.
      rewrite andb_true_r, orb_false_r. reflexivity.
    - rewrite Z.shiftl_spec by lia. rewrite Z.land_spec, Z.shiftr_spec by lia.
      replace (k - 8 + 8) with k by lia.
      change 255 with (Z.ones 8). rewrite Z.ones_spec_high by lia.
      rewrite andb_false_r. cbn [orb].
      destruct (Z.lt_ge_cases k 16) as [Hlt|Hge16].
      + rewrite Z.ones_spec_low by lia. apply andb_true_r.
      + rewrite Z.ones_spec_high by lia. rewrite andb_false_r. symmetry.
        destruct (Z.eq_dec c 0) as [->|Hne]; [apply Z.bits_0|].
        apply Z.bits_above_log2; [unfold is_cell in Hc; lia|].
        apply Z.lt_le_trans with 16; [|exact Hge16].
        apply Z.log2_lt_pow2; [unfold is_cell in Hc; lia|].
        change (2 ^ 16) with 65536. unfold is_cell in Hc. lia. }
  apply u16_small. exact Hc.
Qed.

Lemma binary_memory_load_from_cells cs : forall i rest q,
  Forall is_cell cs ->
  0 <= i -> i + Z.of_nat (length cs) <= Z.of_nat (length q) ->
  binary_memory_load_from i (length cs) (flat_map cell_bytes cs ++ rest) q
  = Ok (0, rest,
        take (Z.to_nat i) q ++ cs ++ drop (Z.to_nat i + length cs) q).
Proof.
  induction cs as [|c cs IH]; intros i rest q Hcs Hi Hlen;
    cbn [length binary_memory_load_from flat_map cell_bytes app fgetc].
  - rewrite Nat.add_0_r, take_drop. reflexivity.
  - inversion Hcs as [|? ? Hc Hcs']; subst.
    pose proof (land_255_byte c) as H1.
    pose proof (land_255_byte (Z.shiftr c 8)) as H2.
    destruct (Z.land c 255 <? 0) eqn:E1; [lia|].
    destruct (Z.land (Z.shiftr c 8) 255 <? 0) eqn:E2; [lia|].
    cbn [orb]. rewrite (cell_of_bytes c Hc).
    cbn [length] in Hlen.
    rewrite store_Some by lia. cbn [defined mbind result_bind rbind].
    rewrite IH; [|exact Hcs'|lia|rewrite length_insert; lia].
    f_equal. f_equal.
    replace (Z.to_nat (i + 1)) with (S (Z.to_nat i)) by lia.
    rewrite (take_S_r _ _ c)
      by (apply list_lookup_insert_eq; lia).
    rewrite take_insert_ge by lia.
    rewrite drop_insert_lt by lia.
    rewrite <- app_assoc. cbn [app].
    replace (S (Z.to_nat i) + length cs)%nat
      with (Z.to_nat i + S (length cs))%nat by lia.
    reflexivity.
Qed.

(** X2. Round trip of a block file.  [binary_memory_save] writes the first
    [n] cells of an array as [2 n] bytes, the low byte of each cell first;
    [binary_memory_load] of these bytes into an array of at least [n] cells
    returns 0, leaves what follows them in the input unread, and makes the
    first [n] cells of the array those that were saved, the others staying
    as they were. *)
Theorem binary_memory_round_trip (p q rest : list Z) (n : Z) :
  Forall is_cell p ->
  0 <= n <= Z.of_nat (length p) ->
  n <= Z.of_nat (length q) ->
  exists output,
    binary_memory_save fresh_stream p n = Ok (0, output)
    /\ written output = flat_map cell_bytes (take (Z.to_nat n) p)
    /\ Z.of_nat (length (written output)) = 2 * n
    /\ binary_memory_load (written output ++ rest) q n
       = Ok (0, rest, take (Z.to_nat n) p ++ drop (Z.to_nat n) q).
Proof.
  intros Hp Hn Hq. unfold binary_memory_save, fresh_stream.
  rewrite binary_memory_save_from_fresh by lia.
  eexists. split; [reflexivity|]. cbn [written app drop].
  change (Z.to_nat 0) with 0%nat. rewrite drop_0.
  split; [reflexivity|]. split.
  { rewrite length_flat_map_cell_bytes, length_take. lia. }
  unfold binary_memory_load.
  assert (length (take (Z.to_nat n) p) = Z.to_nat n) as Hl
    by (rewrite length_take; lia).
  rewrite <- Hl at 1.
  rewrite binary_memory_load_from_cells;
    [|apply Forall_take, Hp|lia|rewrite Hl; lia].
  change (Z.to_nat 0) with 0%nat. rewrite take_0, Hl. reflexivity.
Qed.

Lemma binary_memory_round_trip_witness :
  exists output,
    binary_memory_save fresh_stream [0x1234; 0xABCD; 7] 2 = Ok (0, output)
    /\ written output = [0x34; 0x12; 0xCD; 0xAB]
    /\ binary_memory_load (written output ++ [9]) [1; 2; 3] 2
       = Ok (0, [9], [0x1234; 0xABCD; 3]).
Proof.
  destruct (binary_memory_round_trip [0x1234; 0xABCD; 7] [1; 2; 3] [9] 2)
    as (output & Hs & Hw & _ & Hl).
  - repeat constructor; unfold is_cell; lia.
  - simpl. lia.
  - simpl. lia.
  - exists output. split; [exact Hs|]. split; [exact Hw|exact Hl].
Defined.

Lemma below_pow2_land a n : 0 <= n -> 0 <= a < 2 ^ n -> Z.land a (Z.ones n) = a.
Proof. intros Hn Ha. rewrite Z.land_ones by exact Hn. apply Z.mod_small, Ha. Qed.

Lemma land_ones_below a n : 0 <= n -> 0 <= Z.land a (Z.ones n) < 2 ^ n.
Proof.
  intros Hn. rewrite Z.land_ones by exact Hn. apply Z.mod_pos_bound.
  apply Z.pow_pos_nonneg; lia.
Qed.

Lemma lor_below a b n :
  0 <= n -> 0 <= a < 2 ^ n -> 0 <= b < 2 ^ n -> 0 <= Z.lor a b < 2 ^ n.
Proof.
  intros Hn Ha Hb.
  rewrite <- (below_pow2_land a n Hn Ha), <- (below_pow2_land b n Hn Hb).
  rewrite <- Z.land_lor_distr_l. apply land_ones_below, Hn.
Qed.

Lemma land_below a b n :
  0 <= n -> 0 <= a < 2 ^ n -> 0 <= Z.land a b < 2 ^ n.
Proof.
  intros Hn Ha. rewrite <- (below_pow2_land a n Hn Ha).
  rewrite <- Z.land_assoc, (Z.land_comm (Z.ones n)), Z.land_assoc.
  apply land_ones_below, Hn.
Qed.

Lemma lxor_below a b n :
  0 <= n -> 0 <= a < 2 ^ n -> 0 <= b < 2 ^ n -> 0 <= Z.lxor a b < 2 ^ n.
Proof.
  intros Hn Ha Hb.
  assert (Z.lxor a b = Z.land (Z.lxor a b) (Z.ones n)) as ->.
  { apply Z.bits_inj'. intros k Hk.
    rewrite Z.land_spec, Z.lxor_spec.
    destruct (Z.lt_ge_cases k n) as [Hlt|Hge].
    - rewrite Z.ones_spec_low by lia. symmetry. apply andb_true_r.
    - rewrite Z.ones_spec_high by lia. rewrite andb_false_r.
      rewrite <- (below_pow2_land a n Hn Ha), <- (below_pow2_land b n Hn Hb).
      rewrite !Z.land_spec, Z.ones_spec_high by lia.
      rewrite !andb_false_r. reflexivity. }
  apply land_ones_below, Hn.
Qed.

Lemma shiftr_below a k n :
  0 <= k -> 0 <= a < 2 ^ n -> 0 <= Z.shiftr a k < 2 ^ n.
Proof.
  intros Hk Ha. rewrite Z.shiftr_div_pow2 by exact Hk.
  assert (0 < 2 ^ k) by (apply Z.pow_pos_nonneg; lia).
  split; [apply Z.div_pos; lia|].
  apply Z.le_lt_trans with a; [|lia].
  apply Z.div_le_upper_bound; [lia|]. nia.
Qed.

Lemma byte_pair_cell b1 b2 :
  is_byte b1 -> is_byte b2 ->
  u16 (Z.lor (Z.land b1 255) (Z.shiftl (Z.land b2 255) 8))
  = Z.lor b1 (Z.shiftl b2 8)
  /\ is_cell (Z.lor b1 (Z.shiftl b2 8)).
Proof.
  intros H1 H2. unfold is_byte in *.
  change 255 with (Z.ones 8).
  rewrite !below_pow2_land by (change (2 ^ 8) with 256; lia).
  assert (is_cell (Z.lor b1 (Z.shiftl b2 8))) as Hc.
  { unfold is_cell. change 65536 with (2 ^ 16). apply lor_below; [lia| |].
    - change (2 ^ 16) with 65536. lia.
    - rewrite Z.shiftl_mul_pow2 by lia. change (2 ^ 8) with 256.
      change (2 ^ 16) with 65536. lia. }
  split; [apply u16_small, Hc|exact Hc].
Qed.

Lemma binary_memory_load_from_short turns : forall i input q,
  Forall is_byte input ->
  (length input < 2 * turns)%nat ->
  0 <= i -> i + Z.of_nat turns <= Z.of_nat (length q) ->
  binary_memory_load_from i turns input q
  = Ok (-1, [],
        take (Z.to_nat i) q ++ cells_of_bytes input
        ++ drop (Z.to_nat i + length input / 2) q).
Proof.
  induction turns as [|turns IH]; intros i input q Hb Hshort Hi Hlen; [lia|].
  cbn [binary_memory_load_from].
  destruct input as [|b1 [|b2 input]]; cbn [fgetc].
  - cbn [orb Z.ltb Z.compare EOF cells_of_bytes length app].
    change (0 / 2)%nat with 0%nat. rewrite Nat.add_0_r, take_drop. reflexivity.
  - inversion Hb as [|? ? H1 _]; subst. unfold is_byte in H1.
    destruct (b1 <? 0) eqn:E1; [apply Z.ltb_lt in E1; lia|].
    cbn [orb Z.ltb Z.compare EOF cells_of_bytes length app].
    change (1 / 2)%nat with 0%nat. rewrite Nat.add_0_r, take_drop. reflexivity.
  - inversion Hb as [|? ? H1 Hb1]; subst. inversion Hb1 as [|? ? H2 Hb2]; subst.
    destruct (byte_pair_cell b1 b2 H1 H2) as [Hv _]. unfold is_byte in H1, H2.
    destruct (b1 <? 0) eqn:E1; [apply Z.ltb_lt in E1; lia|].
    destruct (b2 <? 0) eqn:E2; [apply Z.ltb_lt in E2; lia|].
    cbn [orb]. rewrite Hv. rewrite store_Some by lia.
    cbn [defined mbind result_bind rbind length] in *.
    rewrite IH; [|exact Hb2|lia|lia|rewrite length_insert; lia].
    f_equal. f_equal.
    replace (Z.to_nat (i + 1)) with (S (Z.to_nat i)) by lia.
    rewrite (take_S_r _ _ (Z.lor b1 (Z.shiftl b2 8)))
      by (apply list_lookup_insert_eq; lia).
    rewrite take_insert_ge by lia.
    assert (length input / 2 <= length input)%nat
      by (apply Nat.Div0.div_le_upper_bound; lia).
    rewrite drop_insert_lt by lia.
    rewrite <- app_assoc. cbn [app cells_of_bytes].
    change (S (S (length input))) with (2 + length input)%nat.
    replace (2 + length input)%nat with (length input + 1 * 2)%nat by lia.
    rewrite Nat.div_add by lia.
    replace (S (Z.to_nat i) + length input / 2)%nat
      with (Z.to_nat i + (length input / 2 + 1))%nat by lia.
    reflexivity.
Qed.

(** X3. A block file that is too short.  When the input runs out before
    [n] cells are read, [binary_memory_load] returns -1 with the input used
    up; the cells that the input holds in full have been stored, a last byte
    without its pair is dropped, and the rest of the array is as it was. *)
Theorem binary_memory_load_short (input q : list Z) (n : Z) :
  Forall is_byte input ->
  Z.of_nat (length input) < 2 * n ->
  n <= Z.of_nat (length q) ->
  binary_memory_load input q n
  = Ok (-1, [], cells_of_bytes input ++ drop (length input / 2) q).
Proof.
  intros Hb Hshort Hq. unfold binary_memory_load.
  rewrite binary_memory_load_from_short; [|exact Hb|lia|lia|lia].
  change (Z.to_nat 0) with 0%nat. rewrite take_0. reflexivity.
Qed.

Lemma binary_memory_load_short_witness :
  binary_memory_load [0x34; 0x12; 0xCD] [1; 2; 3] 3
  = Ok (-1, [], [0x1234; 2; 3]).
Proof.
  apply (binary_memory_load_short [0x34; 0x12; 0xCD] [1; 2; 3] 3).
  - repeat constructor; unfold is_byte; lia.
  - simpl. lia.
  - simpl. lia.
Defined.

(** ** The simulator *)

Lemma load_is_cell c i v : Forall is_cell c -> load c i = Some v -> is_cell v.
Proof.
  intros Hc E. unfold load in E. destruct (0 <=? i); [|discriminate].
  rewrite Forall_lookup in Hc. exact (Hc _ _ E).
Qed.

Lemma store_cells c i v c' :
  Forall is_cell c -> is_cell v -> store c i v = Some c' ->
  Forall is_cell c' /\ length c' = length c.
Proof.
  intros Hc Hv [_ ->]%store_inv.
  split; [apply Forall_insert; assumption|apply length_insert].
Qed.

Lemma is_cell_u16 x : is_cell (u16 x).
Proof. apply u16_range. Qed.

Lemma is_cell_flag b : is_cell (flag b).
Proof. unfold is_cell. destruct b; cbn; lia. Qed.

Lemma alu_value_is_cell hd op h nos v :
  Forall is_cell (core h) -> is_cell (tos h) -> is_cell nos ->
  alu_value hd op h nos = Some v -> is_cell v.
Proof.
  intros Hc Ht Hn E. unfold is_cell in *. change 65536 with (2 ^ 16) in *.
  destruct op as [[]|]; cbn [alu_value] in E;
    repeat match type of E with
           | (if ?b then _ else _) = _ => destruct b; [|discriminate]
           end;
    try (injection E as <-);
    first [ assumption
          | apply u16_range
          | apply (is_cell_flag _)
          | apply land_below; [lia|assumption]
          | apply lor_below; [lia|assumption|assumption]
          | apply lxor_below; [lia|assumption|assumption]
          | exact (load_is_cell _ _ _ Hc E) ].
Qed.

Lemma alu_commit_ok hd instruction h w nos tos' npc h' w' :
  machine_ok hd h -> is_cell nos -> is_cell tos' -> 0 <= npc < 32768 ->
  alu_commit instruction h w nos tos' npc = Continue h' w' ->
  machine_ok hd h'.
Proof.
  intros (Hlen & Hc & Ht & Hsp & Hrp & Hpc) Hn Ht' Hnpc E.
  unfold alu_commit in E.
  set (sp' := u16 (sp h + stack_delta (DSTACK instruction))) in *.
  set (rp' := u16 (rp h + stack_delta (RSTACK instruction))) in *.
  assert (forall (o : option (list Z)) (b : bool) (i v : Z),
            (forall c : list Z, o = Some c ->
                       Forall is_cell c /\ length c = length (core h)) ->
            is_cell v ->
            forall c : list Z,
              (if b then o else c0 ← o; store c0 i v) = Some c ->
                      Forall is_cell c /\ length c = length (core h)) as Hstep.
  { intros o b i v Ho Hv c Ec. destruct b; [exact (Ho c Ec)|].
    destruct o as [c0|]; [|discriminate]. cbn in Ec.
    destruct (Ho c0 eq_refl) as [H1 H2].
    destruct (store_cells _ _ _ _ H1 Hv Ec) as [H3 H4].
    split; [exact H3|congruence]. }
  match type of E with
  | match ?o with _ => _ end = _ => destruct o as [c|] eqn:Ec; [|discriminate]
  end.
  injection E as <- <-.
  apply Hstep in Ec; [|clear Ec|exact Hn].
  2: { intros c2 Ec2. apply Hstep in Ec2; [exact Ec2| |exact Ht].
       intros c1 Ec1. apply Hstep in Ec1; [exact Ec1| |exact Ht].
       intros c0 [= <-]. split; [exact Hc|reflexivity]. }
  destruct Ec as [Hc' Hl'].
  repeat split; cbn [core pc tos sp rp];
    first [ rewrite Hl'; exact Hlen | exact Hc' | apply u16_range
          | apply Ht' | apply Hnpc | idtac ].
Qed.

Lemma h2_step_ok hd h w :
  0 < MAX_PROGRAM hd <= 8192 ->
  machine_ok hd h ->
  match h2_step hd h w with
  | Continue h' _ => machine_ok hd h'
  | Return v _ => is_cell v
  | _ => True
  end.
Proof.
  intros Hm Hok. pose proof Hok as (Hlen & Hc & Ht & Hsp & Hrp & Hpc).
  unfold h2_step.
  destruct (load (core h) (pc h)) as [instruction|] eqn:Ei; [|exact I].
  pose proof (load_is_cell _ _ _ Hc Ei) as Hi.
  destruct (MAX_PROGRAM hd =? 0) eqn:E0; [exact I|].
  assert (0 <= (pc h + 1) mod MAX_PROGRAM hd < MAX_PROGRAM hd) as Hmod
    by (apply Z.mod_pos_bound; lia).
  assert (0 <= u16 ((pc h + 1) mod MAX_PROGRAM hd) < 32768) as Hpp
    by (rewrite u16_small by lia; lia).
  assert (0 <= Z.land instruction 8191 < 8192) as Haddr.
  { change 8191 with (Z.ones 13). change 8192 with (2 ^ 13).
    apply land_ones_below. lia. }
  assert (is_cell (Z.land instruction 32767)) as Hlit.
  { unfold is_cell. change 32767 with (Z.ones 15).
    pose proof (land_ones_below instruction 15 ltac:(lia)) as H.
    change (2 ^ 15) with 32768 in H. lia. }
  destruct (IS_LITERAL instruction).
  { destruct (store (core h) (u16 (sp h + 1)) (tos h)) as [c|] eqn:Es; [|exact I].
    destruct (store_cells _ _ _ _ Hc Ht Es) as [Hc' Hl'].
    repeat split; cbn [core pc tos sp rp];
      first [ rewrite Hl'; exact Hlen | exact Hc' | apply u16_range
            | apply Hlit | apply Hpp | apply Hrp | idtac ]. }
  destruct (IS_ALU_OP instruction).
  { unfold alu.
    destruct (load (core h) (sp h)) as [nos|] eqn:En; [|exact I].
    pose proof (load_is_cell _ _ _ Hc En) as Hnos.
    match goal with
    | |- context [if ?b then Some ?x else ?y] =>
        destruct (if b then Some x else y) as [npc|] eqn:Enpc; [|exact I]
    end.
    assert (0 <= npc < 32768) as Hnpc.
    { destruct (Z.land instruction (R_TO_PC hd) =? 0).
      - injection Enpc as <-. exact Hpp.
      - destruct (load (core h) (rp h)) as [v|] eqn:Ev; [|discriminate].
        cbn in Enpc. injection Enpc as <-.
        pose proof (load_is_cell _ _ _ Hc Ev) as Hv. unfold is_cell in Hv.
        rewrite Z.shiftr_div_pow2 by lia. change (2 ^ 1) with 2.
        split; [apply Z.div_pos; lia|apply Z.div_lt_upper_bound; lia]. }
    assert (forall w0 tos',
              is_cell tos' ->
              match alu_commit instruction h w0 nos tos' npc with
              | Continue h' _ => machine_ok hd h'
              | Return v _ => is_cell v
              | _ => True
              end) as Hcommit.
    { intros w0 tos' Ht'.
      destruct (alu_commit instruction h w0 nos tos' npc) as [h' w'| | |] eqn:Ec;
        try exact I.
      - exact (alu_commit_ok hd _ _ _ _ _ _ _ _ Hok Hnos Ht' Hnpc Ec).
      - unfold alu_commit in Ec.
        match type of Ec with
        | match ?o with _ => _ end = _ => destruct o; discriminate
        end. }
    assert (forall op,
              match
                match alu_value hd op h nos with
                | Some tos' => alu_commit instruction h w nos tos' npc
                | None => Undefined
                end
              with
              | Continue h' _ => machine_ok hd h'
              | Return v _ => is_cell v
              | _ => True
              end) as Hpure.
    { intros op. destruct (alu_value hd op h nos) as [tos'|] eqn:Ev; [|exact I].
      apply Hcommit. exact (alu_value_is_cell hd op h nos tos' Hc Ht Hnos Ev). }
    destruct (alu_code_of (ALU_OP hd instruction)) as [[]|];
      try apply Hpure.
    - apply Hcommit, Hnos.
    - destruct (input w) as [|ch rest]; [exact I|].
      destruct (ch =? ESCAPE); [exact I|]. apply Hcommit, is_cell_u16.
    - apply Hcommit, Ht.
    - exact Ht. }
  destruct (IS_CALL instruction).
  { match goal with
    | |- context [store ?c ?i ?v] =>
        destruct (store c i v) as [c1|] eqn:Es; [|exact I];
        destruct (store_cells _ _ _ _ Hc (is_cell_u16 _) Es) as [Hc' Hl']
    end.
    repeat split; cbn [core pc tos sp rp];
      first [ rewrite Hl'; exact Hlen | exact Hc' | apply u16_range
            | apply Ht | apply Hsp | lia ]. }
  destruct (IS_0BRANCH instruction).
  { destruct (load (core h) (sp h)) as [nos|] eqn:En; [|exact I].
    pose proof (load_is_cell _ _ _ Hc En) as Hnos.
    assert (0 <= Z.land instruction 8191 mod MAX_PROGRAM hd < MAX_PROGRAM hd)
      by (apply Z.mod_pos_bound; lia).
    destruct (tos h =? 0);
      repeat split; cbn [core pc tos sp rp set_pc];
        first [ exact Hlen | exact Hc | apply u16_range
              | apply Hnos | apply Hrp | lia ]. }
  repeat split; cbn [core pc tos sp rp set_pc];
    first [ exact Hlen | exact Hc | apply Ht | apply Hsp | apply Hrp | lia ].
Qed.

(** X4. The simulator keeps the machine in its 16 bits: a turn of the loop
    of [h2_run] that goes on leaves the core at its length with every cell,
    [tos], [sp] and [rp] below 65536 and [pc] below 32768, so after any
    number of turns the state is still so, and the value that [h2_run]
    returns is below 65536. *)
Theorem h2_run_keeps_16_bits (hd : header) (turns : nat) (h : h2_t) (w : io_t) :
  0 < MAX_PROGRAM hd <= 8192 ->
  machine_ok hd h ->
  match h2_run hd turns h w with
  | Returned v _ => 0 <= v < 65536
  | Running h' _ => machine_ok hd h'
  | _ => True
  end.
Proof.
  intros Hm. revert h w. induction turns as [|turns IH]; intros h w Hok.
  - exact Hok.
  - cbn [h2_run]. pose proof (h2_step_ok hd h w Hm Hok) as Hs.
    destruct (h2_step hd h w) as [h' w'|v w'|st w'|]; try exact I.
    + apply IH, Hs.
    + exact Hs.
Qed.

Lemma h2_new_machine_ok hd :
  sizes_ok hd -> is_cell (VARIABLE_STACK_START hd) ->
  is_cell (RETURN_STACK_START hd) ->
  machine_ok hd (h2_new hd (START_ADDR hd)).
Proof.
  intros (Hs1 & Hs8 & Hs2 & Hs3) Hv Hr.
  split; [apply h2_new_length; lia|].
  split; [|repeat split; cbn [h2_new tos sp rp pc];
            first [apply Hv|apply Hr|unfold is_cell; lia|lia]].
  unfold h2_new. cbn [core]. apply Forall_app. split; apply Forall_replicate.
  - unfold is_cell, OP_BRANCH. rewrite Z.lor_0_l. lia.
  - unfold is_cell. lia.
Qed.

Lemma h2_run_keeps_16_bits_witness :
  match h2_run example_header 5 (h2_new example_header 8) io_empty with
  | Returned v _ => 0 <= v < 65536
  | Running h' _ => machine_ok example_header h'
  | _ => True
  end.
Proof.
  apply (h2_run_keeps_16_bits example_header 5 (h2_new example_header 8)).
  - simpl. lia.
  - apply (h2_new_machine_ok example_header example_header_sizes);
      unfold is_cell; simpl; lia.
Defined.

(** *** The return merged into an ALU word *)

(** The fields of [CODE_EXIT]. *)
Lemma CODE_EXIT_fields hd :
  layout_ok hd ->
  Z.land (Z.shiftr (CODE_EXIT hd) 8) (Z.ones (ALU_OP_LENGTH hd)) = 0
  /\ Z.land (CODE_EXIT hd) (R_TO_PC hd) = R_TO_PC hd
  /\ R_TO_PC hd <> 0
  /\ Z.land (CODE_EXIT hd) 3 = 0
  /\ Z.land (Z.shiftr (CODE_EXIT hd) 2) 3 = 3
  /\ Z.land (CODE_EXIT hd) T_TO_R = 0
  /\ Z.land (CODE_EXIT hd) T_TO_N = 0
  /\ Z.land (CODE_EXIT hd) N_TO_ADDR_T = 0.
Proof.
  intros Hl. unfold CODE_EXIT, R_TO_PC.
  layout_cases hd Hl; rewrite ?El, ?Er; repeat split; discriminate.
Qed.

Lemma u16_u16_0 x : u16 (u16 x + 0) = u16 x.
Proof.
  rewrite Z.add_0_r. apply u16_small, u16_range.
Qed.

(** What a turn on [CODE_EXIT] does: [pc] is taken from the return stack,
    which is popped. *)
Lemma alu_CODE_EXIT hd h w ppo h2 w2 :
  layout_ok hd ->
  alu hd (CODE_EXIT hd) h w ppo = Continue h2 w2 ->
  exists r,
    load (core h) (rp h) = Some r
    /\ w2 = w
    /\ h2 = {| core := core h; pc := Z.shiftr r 1; tos := tos h;
               sp := u16 (sp h + 0); rp := u16 (rp h + 65535) |}.
Proof.
  intros Hl E. destruct (CODE_EXIT_fields hd Hl)
    as (Hop & Hr & Hr0 & Hd & Hrs & H1 & H2 & H3).
  unfold alu in E.
  destruct (load (core h) (sp h)) as [nos|]; [|discriminate].
  rewrite Hr in E. destruct (R_TO_PC hd =? 0) eqn:E0;
    [apply Z.eqb_eq in E0; contradiction|].
  destruct (load (core h) (rp h)) as [r|]; [|discriminate].
  cbn [mbind option_bind] in E.
  unfold ALU_OP in E. rewrite Hop in E. cbn [alu_code_of] in E.
  change (alu_codes !! Z.to_nat 0) with (Some ALU_OP_T) in E.
  cbn [andb Z.leb Z.ltb Z.compare alu_value] in E.
  unfold alu_commit in E. rewrite H1, H2, H3 in E. cbn [Z.eqb] in E.
  unfold DSTACK, RSTACK in E. rewrite Hd, Hrs in E. cbn [stack_delta] in E.
  injection E as <- <-. exists r. repeat split.
Qed.

(** The fields of an ALU word into which [CODE_EXIT] has been ORed. *)
Lemma merged_fields hd previous :
  layout_ok hd ->
  has previous (R_TO_PC hd) = false ->
  has previous (MK_RSTACK DELTA_N1) = false ->
  let merged := Z.lor previous (CODE_EXIT hd) in
  ALU_OP hd merged = ALU_OP hd previous
  /\ (Z.land merged (R_TO_PC hd) =? 0) = false
  /\ (Z.land previous (R_TO_PC hd) =? 0) = true
  /\ DSTACK merged = DSTACK previous
  /\ RSTACK merged = 3 /\ RSTACK previous = 0
  /\ Z.land merged T_TO_R = Z.land previous T_TO_R
  /\ Z.land merged T_TO_N = Z.land previous T_TO_N
  /\ Z.land merged N_TO_ADDR_T = Z.land previous N_TO_ADDR_T.
Proof.
  intros Hl Hr Hs merged. subst merged.
  destruct (CODE_EXIT_fields hd Hl)
    as (Hop & Hre & Hr0 & Hd & Hrs & H1 & H2 & H3).
  unfold has in Hr. apply negb_false_iff, Z.eqb_eq in Hr.
  apply rstack_bits in Hs. unfold DELTA_0 in Hs.
  unfold ALU_OP, DSTACK, RSTACK in *.
  rewrite !Z.shiftr_lor, !Z.land_lor_distr_l.
  rewrite Hop, Hre, Hr, Hd, Hrs, Hs, H1, H2, H3, !Z.lor_0_r, !Z.lor_0_l.
  repeat split. apply Z.eqb_neq, Hr0.
Qed.

Lemma alu_commit_merged hd previous h w nos tos' ppo h1 w1 r :
  layout_ok hd ->
  has previous (R_TO_PC hd) = false ->
  has previous (MK_RSTACK DELTA_N1) = false ->
  Z.land previous T_TO_R = 0 ->
  is_cell (rp h) ->
  alu_commit previous h w nos tos' ppo = Continue h1 w1 ->
  alu_commit (Z.lor previous (CODE_EXIT hd)) h w nos tos' (Z.shiftr r 1)
  = Continue {| core := core h1; pc := Z.shiftr r 1; tos := tos h1;
                sp := u16 (sp h1 + 0); rp := u16 (rp h1 + 65535) |} w1.
Proof.
  intros Hl Hr Hs Htr Hrp E.
  destruct (merged_fields hd previous Hl Hr Hs)
    as (_ & _ & _ & Hd & Hrs & Hrs0 & H1 & H2 & H3).
  unfold alu_commit in *. rewrite Hd, Hrs, H1, H2, H3.
  rewrite Hrs0, Htr in *. cbn [stack_delta Z.eqb] in *.
  match type of E with
  | match ?o with _ => _ end = _ => destruct o as [c|]; [|discriminate]
  end.
  injection E as <- <-. cbn [core tos sp rp].
  rewrite u16_u16_0, Z.add_0_r, (u16_small (rp h)) by exact Hrp.
  reflexivity.
Qed.

(** X5. The EXIT merge keeps the meaning of the code.  Let [previous] be
    an ALU word that passes the test of [generate] (R->PC clear, no bit of
    the return stack delta set) and does not copy T to the return stack.
    If a turn of the simulator on [previous] followed by a turn on
    [CODE_EXIT] goes on, the first turn having left the return address in
    place, then one turn on the merged word [previous | CODE_EXIT] from the
    same state ends in the same state with the same input and output. *)
Theorem exit_merge_sound (hd : header) (previous : Z) (h h1 h2 : h2_t)
    (w w1 w2 : io_t) (ppo ppo' : Z) :
  layout_ok hd ->
  has previous (R_TO_PC hd) = false ->
  has previous (MK_RSTACK DELTA_N1) = false ->
  Z.land previous T_TO_R = 0 ->
  is_cell (rp h) ->
  alu hd previous h w ppo = Continue h1 w1 ->
  load (core h1) (rp h) = load (core h) (rp h) ->
  alu hd (CODE_EXIT hd) h1 w1 ppo' = Continue h2 w2 ->
  alu hd (Z.lor previous (CODE_EXIT hd)) h w ppo = Continue h2 w2.
Proof.
  intros Hl Hr Hs Htr Hrp E1 Hkeep E2.
  destruct (merged_fields hd previous Hl Hr Hs)
    as (Hop & Hrm & Hrp0 & _).
  apply (alu_CODE_EXIT hd h1 w1 ppo' h2 w2 Hl) in E2
    as (r & Hld & -> & ->).
  assert (rp h1 = rp h) as Hrp1.
  { unfold alu in E1.
    destruct (load (core h) (sp h)) as [nos|]; [|discriminate].
    rewrite Hrp0 in E1.
    assert (forall w0 t, alu_commit previous h w0 nos t ppo = Continue h1 w1 ->
                         rp h1 = rp h) as Hc.
    { intros w0 t Ec. unfold alu_commit in Ec.
      match type of Ec with
      | match ?o with _ => _ end = _ => destruct o as [c|]; [|discriminate]
      end.
      injection Ec as <- _. cbn [rp].
      apply rstack_bits in Hs. rewrite Hs. cbn [stack_delta DELTA_0].
      rewrite Z.add_0_r. apply u16_small, Hrp. }
    destruct (alu_code_of (ALU_OP hd previous)) as [[]|];
      try (destruct (alu_value hd _ h nos); [|discriminate]);
      try (destruct (input w) as [|ch rest]; [discriminate|];
           destruct (ch =? ESCAPE); [discriminate|]);
      try discriminate;
      eapply Hc; eassumption. }
  rewrite Hrp1, Hkeep in Hld.
  unfold alu in *. rewrite Hop, Hrm.
  destruct (load (core h) (sp h)) as [nos|]; [|discriminate].
  rewrite Hrp0 in E1. rewrite Hld. cbn [mbind option_bind].
  destruct (alu_code_of (ALU_OP hd previous)) as [[]|];
    try (destruct (alu_value hd _ h nos) as [t|]; [|discriminate]);
    try (destruct (input w) as [|ch rest]; [discriminate|];
         destruct (ch =? ESCAPE); [discriminate|]);
    try discriminate;
    exact (alu_commit_merged hd previous h _ nos _ ppo h1 w1 r
             Hl Hr Hs Htr Hrp E1).
Qed.

Lemma exit_merge_sound_witness :
  alu example_header (Z.lor 0x6081 (CODE_EXIT example_header))
    {| core := [0; 0; 6; 0]; pc := 0; tos := 5; sp := 0; rp := 2 |} io_empty 1
  = Continue {| core := [0; 5; 6; 0]; pc := 3; tos := 5; sp := 1; rp := 1 |}
      io_empty.
Proof.
  apply (exit_merge_sound example_header 0x6081
           {| core := [0; 0; 6; 0]; pc := 0; tos := 5; sp := 0; rp := 2 |}
           {| core := [0; 5; 6; 0]; pc := 1; tos := 5; sp := 1; rp := 2 |}
           _ io_empty io_empty io_empty 1 2 example_header_layout).
  - reflexivity.
  - reflexivity.
  - reflexivity.
  - unfold is_cell. simpl. lia.
  - reflexivity.
  - reflexivity.
  - reflexivity.
Defined.

(** *** Call and return *)

Lemma IS_CALL_not_literal i : IS_CALL i = true -> IS_LITERAL i = false.
Proof.
  unfold IS_CALL, IS_LITERAL. intros H%Z.eqb_eq.
  replace (Z.land i 32768) with (Z.land (Z.land i 57344) 32768)
    by (rewrite <- Z.land_assoc; reflexivity).
  rewrite H. reflexivity.
Qed.

Lemma alu_CODE_EXIT_run hd h w ppo nos r :
  layout_ok hd ->
  load (core h) (sp h) = Some nos ->
  load (core h) (rp h) = Some r ->
  alu hd (CODE_EXIT hd) h w ppo
  = Continue {| core := core h; pc := Z.shiftr r 1; tos := tos h;
                sp := u16 (sp h + 0); rp := u16 (rp h + 65535) |} w.
Proof.
  intros Hl Hn Hr. destruct (CODE_EXIT_fields hd Hl)
    as (Hop & Hre & Hr0 & Hd & Hrs & H1 & H2 & H3).
  unfold alu. rewrite Hn, Hre.
  destruct (R_TO_PC hd =? 0) eqn:E0; [apply Z.eqb_eq in E0; contradiction|].
  rewrite Hr. cbn [mbind option_bind].
  unfold ALU_OP. rewrite Hop.
  change (alu_code_of 0) with (Some ALU_OP_T). cbn [alu_value].
  unfold alu_commit. rewrite H1, H2, H3. cbn [Z.eqb].
  unfold DSTACK, RSTACK. rewrite Hd, Hrs. reflexivity.
Qed.

(** X6. Call and return.  A call to an address that holds [CODE_EXIT]
    comes back in two turns to the cell after the call: the return address
    is pushed on the return stack as a byte address, the return takes it
    from there and pops it, and [tos], the data stack and the input and
    output are as they were. *)
Theorem call_then_exit_returns (hd : header) (h : h2_t) (w : io_t) (a : Z) :
  layout_ok hd ->
  0 < MAX_PROGRAM hd <= 8192 ->
  0 <= a < 8192 ->
  load (core h) (pc h) = Some (Z.lor OP_CALL a) ->
  load (core h) a = Some (CODE_EXIT hd) ->
  in_core h (sp h) -> is_cell (sp h) ->
  0 <= rp h -> in_core h (rp h + 1) -> rp h + 1 < 65536 -> rp h + 1 <> a ->
  h2_steps hd 2 h w
  = Some ({| core := <[Z.to_nat (rp h + 1) :=
                        2 * ((pc h + 1) mod MAX_PROGRAM hd)]> (core h);
             pc := (pc h + 1) mod MAX_PROGRAM hd;
             tos := tos h; sp := sp h; rp := rp h |}, w).
Proof.
  intros Hl Hm Ha Hcall Hexit Hsp Hsp16 Hrp0 Hrp Hrp16 Hne.
  assert (0 <= (pc h + 1) mod MAX_PROGRAM hd < MAX_PROGRAM hd) as Hmod
    by (apply Z.mod_pos_bound; lia).
  set (ppo := (pc h + 1) mod MAX_PROGRAM hd) in *.
  pose proof (call_word_is_call a Ha) as Hc.
  cbn [h2_steps]. unfold h2_step at 1. rewrite Hcall.
  destruct (MAX_PROGRAM hd =? 0) eqn:E0; [apply Z.eqb_eq in E0; lia|].
  rewrite (IS_CALL_not_literal _ Hc), (IS_CALL_not_alu _ Hc), Hc.
  fold ppo. rewrite (u16_small ppo) by lia.
  rewrite (u16_small (rp h + 1)) by lia.
  rewrite Z.shiftl_mul_pow2 by lia. change (2 ^ 1) with 2.
  rewrite (Z.mul_comm ppo 2), (u16_small (2 * ppo)) by lia.
  rewrite store_Some by exact Hrp.
  rewrite (call_word_address a Ha).
  unfold h2_step. cbn [core pc].
  rewrite load_insert_ne by lia. rewrite Hexit, E0.
  pose proof (CODE_EXIT_is_alu hd Hl) as Halu.
  rewrite (IS_ALU_OP_not_literal _ Halu), Halu.
  destruct (load_is_Some
              (<[Z.to_nat (rp h + 1) := 2 * ppo]> (core h)) (sp h))
    as [nos Hn]; [rewrite length_insert; exact Hsp|].
  rewrite (alu_CODE_EXIT_run hd _ w _ nos (2 * ppo) Hl); cycle 1.
  { exact Hn. }
  { cbn [core rp]. apply load_insert_eq. exact Hrp. }
  cbn [core tos sp rp].
  rewrite Z.add_0_r, (u16_small (sp h)) by exact Hsp16.
  replace (rp h + 1 + 65535) with (rp h + 1 * 65536) by lia.
  unfold u16 at 1. rewrite Z.mod_add by lia.
  rewrite (Z.mod_small (rp h)) by lia.
  rewrite Z.shiftr_div_pow2 by lia. change (2 ^ 1) with 2.
  rewrite (Z.mul_comm 2 ppo), Z.div_mul by lia. reflexivity.
Qed.

Lemma call_then_exit_returns_witness :
  h2_steps example_header 2
    {| core := [Z.lor OP_CALL 2; 0; CODE_EXIT example_header; 0; 0];
       pc := 0; tos := 7; sp := 3; rp := 3 |} io_empty
  = Some ({| core := [Z.lor OP_CALL 2; 0; CODE_EXIT example_header; 0; 2];
             pc := 1; tos := 7; sp := 3; rp := 3 |}, io_empty).
Proof.
  apply (call_then_exit_returns example_header
           {| core := [Z.lor OP_CALL 2; 0; CODE_EXIT example_header; 0; 0];
              pc := 0; tos := 7; sp := 3; rp := 3 |} io_empty 2
           example_header_layout).
  - simpl. lia.
  - lia.
  - reflexivity.
  - reflexivity.
  - unfold in_core. simpl. lia.
  - unfold is_cell. simpl. lia.
  - simpl. lia.
  - unfold in_core. simpl. lia.
  - simpl. lia.
  - simpl. lia.
Defined.

(** ** The lexer *)

(** A bare word is scanned into the buffer and handed to the
    classification. *)
Lemma lexer_word hd l c word rest :
  starts_word c = true ->
  forallb isgraph word = true ->
  Z.of_nat (length (c :: word)) <= 255 ->
  ends_word rest ->
  l_input l = (c :: word) ++ rest ->
  lexer hd l = classify hd l (l_line l) (c :: word) rest (l_line l).
Proof.
  intros Hc Hg Hlen Hend Hin. unfold starts_word in Hc.
  apply andb_prop in Hc as [Hc H34]. apply andb_prop in Hc as [Hc H40].
  apply andb_prop in Hc as [Hgc H92].
  apply negb_true_iff in H34, H40, H92.
  assert (33 <= char_code c <= 126) as Hr.
  { unfold isgraph in Hgc. apply andb_prop in Hgc as [H1 H2].
    apply Z.leb_le in H1, H2. lia. }
  unfold lexer. rewrite Hin. cbn [app length lexer_again].
  rewrite H92, H40, H34, Hgc.
  replace (char_code c =? 10) with false by (symmetry; apply Z.eqb_neq; lia).
  replace (char_code c =? 32) with false by (symmetry; apply Z.eqb_neq; lia).
  replace (char_code c =? 9) with false by (symmetry; apply Z.eqb_neq; lia).
  replace (char_code c =? 13) with false by (symmetry; apply Z.eqb_neq; lia).
  replace (char_code c =? 11) with false by (symmetry; apply Z.eqb_neq; lia).
  cbn [orb].
  change (c :: word ++ rest) with ((c :: word) ++ rest).
  rewrite (scan_graph_word (c :: word) rest 0 []);
    [reflexivity| |unfold MAX_ID_LENGTH; lia|exact Hend].
  cbn [forallb]. rewrite Hgc. exact Hg.
Qed.

Lemma isxdigit_isgraph c : isxdigit c = true -> isgraph c = true.
Proof.
  unfold isxdigit, isdigit, isgraph. intros H.
  apply orb_prop in H as [H|H]; [apply orb_prop in H as [H|H]|];
    apply andb_prop in H as [H1 H2]; apply Z.leb_le in H1, H2;
    apply andb_true_intro; split; apply Z.leb_le; lia.
Qed.

Lemma forallb_isxdigit_isgraph ds :
  forallb isxdigit ds = true -> forallb isgraph ds = true.
Proof.
  induction ds as [|c ds IH]; [reflexivity|]. simpl.
  intros [Hc Hd]%andb_prop. rewrite (isxdigit_isgraph c Hc), IH by exact Hd.
  reflexivity.
Qed.

Lemma map_char_to_number_xdigit c :
  isxdigit c = true -> map_char_to_number c = Ok (hex_digit_value c).
Proof.
  destruct c as [[] [] [] [] [] [] [] []]; vm_compute; intros H;
    first [discriminate H | reflexivity].
Qed.

Lemma u32_idem_mul x b y : u32 (u32 x * b + y) = u32 (x * b + y).
Proof.
  unfold u32. rewrite Z.add_mod, Z.mul_mod_idemp_l, <- Z.add_mod by lia.
  reflexivity.
Qed.

Lemma accumulate_hexadecimal ds : forall x,
  forallb isxdigit ds = true ->
  accumulate 16 ds (u32 x)
  = Ok (u32 (fold_left (fun acc c => acc * 16 + hex_digit_value c) ds x)).
Proof.
  induction ds as [|c ds IH]; intros x Hd; [reflexivity|].
  simpl in Hd. apply andb_prop in Hd as [Hc Hd].
  cbn [accumulate fold_left]. rewrite map_char_to_number_xdigit by exact Hc.
  cbn [mbind result_bind rbind]. rewrite u32_idem_mul. apply IH. exact Hd.
Qed.

Lemma number_hexadecimal ds :
  ds <> [] -> forallb isxdigit ds = true ->
  number ("$"%char :: ds) = Ok (Some (hexadecimal ds mod 65536))
  /\ number ("-"%char :: "$"%char :: ds)
     = Ok (Some ((- hexadecimal ds) mod 65536)).
Proof.
  intros Hne Hd. destruct ds as [|c ds]; [contradiction|].
  pose proof (accumulate_hexadecimal (c :: ds) 0 Hd) as Hacc.
  change (u32 0) with 0 in Hacc. fold (hexadecimal (c :: ds)) in Hacc.
  split.
  - unfold number. change (char_code "$" =? 45) with false.
    cbv beta iota zeta. change (char_code "$" =? 36) with true.
    cbv beta iota zeta.
    change (forallb _ (c :: ds)) with (forallb isxdigit (c :: ds)).
    rewrite Hd, Hacc. cbn [mbind result_bind rbind]. rewrite u16_u32.
    reflexivity.
  - unfold number. change (char_code "-" =? 45) with true.
    cbv beta iota zeta. change (char_code "$" =? 36) with true.
    cbv beta iota zeta.
    change (forallb _ (c :: ds)) with (forallb isxdigit (c :: ds)).
    rewrite Hd, Hacc. cbn [mbind result_bind rbind].
    rewrite u16_u32_negate. reflexivity.
Qed.

(** X7. A bare word of hexadecimal digits after a ['$'], in either case,
    with or without a leading ['-'], is lexed as a literal token whose
    number is the integer it denotes modulo 2^16, negated when the sign is
    there. *)
Theorem lexer_hexadecimal_literal (hd : header) (l : lexer_t)
    (negative : bool) (ds rest : list ascii) :
  let word := (if negative then ["-"%char] else []) ++ "$"%char :: ds in
  ds <> [] ->
  forallb isxdigit ds = true ->
  Z.of_nat (length word) <= 255 ->
  ends_word rest ->
  l_input l = word ++ rest ->
  lexer hd l =
    Ok {| l_input := rest;
          l_line := l_line l;
          l_token :=
            Some {| tok_p := p_number ((if negative then - hexadecimal ds
                                        else hexadecimal ds) mod 65536);
                    tok_line := l_line l;
                    tok_type := LEX_LITERAL |};
          l_accepted := l_accepted l;
          l_in_definition := l_in_definition l |}.
Proof.
  intros word Hne Hd Hlen Hend Hin.
  destruct (number_hexadecimal ds Hne Hd) as [H1 H2].
  pose proof (forallb_isxdigit_isgraph ds Hd) as Hg.
  subst word. destruct negative; cbn [app] in *.
  - rewrite (lexer_word hd l "-"%char ("$"%char :: ds) rest);
      [|reflexivity|cbn [forallb]; rewrite Hg; reflexivity
       |exact Hlen|exact Hend|exact Hin].
    unfold classify. rewrite H2. reflexivity.
  - rewrite (lexer_word hd l "$"%char ds rest);
      [|reflexivity|exact Hg|exact Hlen|exact Hend|exact Hin].
    unfold classify. rewrite H1. reflexivity.
Qed.

Lemma lexer_hexadecimal_literal_witness :
  lexer example_header
    {| l_input := String.list_ascii_of_string "-$1fFFf ;"; l_line := 1;
       l_token := None; l_accepted := None; l_in_definition := false |}
  = Ok {| l_input := String.list_ascii_of_string " ;"; l_line := 1;
          l_token := Some {| tok_p := p_number 1; tok_line := 1;
                             tok_type := LEX_LITERAL |};
          l_accepted := None; l_in_definition := false |}.
Proof.
  apply (lexer_hexadecimal_literal example_header
           {| l_input := String.list_ascii_of_string "-$1fFFf ;"; l_line := 1;
              l_token := None; l_accepted := None; l_in_definition := false |}
           true (String.list_ascii_of_string "1fFFf")
           (String.list_ascii_of_string " ;")).
  - discriminate.
  - reflexivity.
  - simpl. lia.
  - reflexivity.
  - reflexivity.
Defined.

(** *** Blanks and comments *)

Lemma skip_line_length s : forall s2,
  skip_line s = Some s2 -> (length s2 < length s)%nat.
Proof.
  induction s as [|c s IH]; intros s2 E; cbn [skip_line] in E; [discriminate|].
  destruct (char_code c =? 10).
  - injection E as <-. cbn. lia.
  - apply IH in E. cbn. lia.
Qed.

Lemma skip_paren_length s : forall line s3 line3,
  skip_paren s line = Some (s3, line3) -> (length s3 < length s)%nat.
Proof.
  induction s as [|c s IH]; intros line s3 line3 E; cbn [skip_paren] in E;
    [discriminate|].
  destruct (char_code c =? 41).
  - injection E as <- _. cbn. lia.
  - apply IH in E. cbn. lia.
Qed.

(** The jumps back to [again] that [lexer] counts are fewer than the
    characters of the input: more turns change nothing. *)
Lemma lexer_again_fuel hd n : forall m l line0 s line,
  (length s <= n)%nat -> (length s <= m)%nat ->
  lexer_again hd n l line0 s line = lexer_again hd m l line0 s line.
Proof.
  induction n as [|n IH]; intros m l line0 s line Hn Hm.
  - destruct s; [|cbn in Hn; lia]. destruct m; reflexivity.
  - destruct s as [|ch s]; [destruct m; reflexivity|].
    destruct m as [|m]; [cbn in Hm; lia|]. cbn [length] in Hn, Hm.
    cbn [lexer_again].
    destruct (char_code ch =? 10); [apply IH; lia|].
    destruct ((char_code ch =? 32) || (char_code ch =? 9)
              || (char_code ch =? 13) || (char_code ch =? 11));
      [apply IH; lia|].
    destruct (char_code ch =? 92).
    { destruct (skip_line s) as [s2|] eqn:E; [|reflexivity].
      apply skip_line_length in E. apply IH; lia. }
    destruct (char_code ch =? 40); [|reflexivity].
    destruct s as [|c1 s2]; [reflexivity|].
    destruct (isspace c1); [|reflexivity].
    destruct (skip_paren s2 line) as [[s3 line3]|] eqn:E; [|reflexivity].
    apply skip_paren_length in E. cbn [length] in Hn, Hm. apply IH; lia.
Qed.

Lemma classify_token_at hd l line0 line0' id rest line :
  classify hd l line0 id rest line
  = match classify hd l line0' id rest line with
    | Ok r => Ok (token_at line0 r)
    | Fail f => Fail f
    end.
Proof.
  unfold classify. destruct (number id) as [[n|]|f]; try reflexivity.
  cbn [mbind result_bind rbind].
  destruct (keyword_lookup (keywords hd) (String.string_of_list_ascii id)) as [sym|].
  - destruct sym; try reflexivity; destruct (l_in_definition l); reflexivity.
  - match goal with |- context [if ?b then _ else _] => destruct b end;
      reflexivity.
Qed.

(** The line on which [lexer] was entered goes into the token and nowhere
    else. *)
Lemma lexer_again_token_at hd n : forall l line0 line0' s line,
  lexer_again hd n l line0 s line
  = match lexer_again hd n l line0' s line with
    | Ok r => Ok (token_at line0 r)
    | Fail f => Fail f
    end.
Proof.
  assert (forall n, (forall l line0 line0' s line,
            lexer_again hd n l line0 s line
            = match lexer_again hd n l line0' s line with
              | Ok r => Ok (token_at line0 r)
              | Fail f => Fail f
              end) ->
          forall l line0 line0' s line,
            lexer_again hd (S n) l line0 s line
            = match lexer_again hd (S n) l line0' s line with
              | Ok r => Ok (token_at line0 r)
              | Fail f => Fail f
              end) as Hstep.
  { intros k IH l line0 line0' s line.
    destruct s as [|ch s]; [reflexivity|]. cbn [lexer_again].
    destruct (char_code ch =? 10); [apply IH|].
    destruct ((char_code ch =? 32) || (char_code ch =? 9)
              || (char_code ch =? 13) || (char_code ch =? 11)); [apply IH|].
    destruct (char_code ch =? 92).
    { destruct (skip_line s) as [s2|]; [apply IH|reflexivity]. }
    destruct (char_code ch =? 40).
    { destruct s as [|c1 s2]; [reflexivity|].
      destruct (isspace c1); [|reflexivity].
      destruct (skip_paren s2 line) as [[s3 line3]|]; [apply IH|reflexivity]. }
    destruct (char_code ch =? 34).
    { destruct (scan_string s 0 []) as [[id rest]|]; reflexivity. }
    destruct (isgraph ch); [|reflexivity].
    destruct (scan_graph (ch :: s) 0 []) as [[id rest]|]; [|reflexivity].
    cbn [mbind result_bind rbind]. apply classify_token_at. }
  induction n as [|n IH]; [|exact (Hstep n IH)].
  intros l line0 line0' s line.
  destruct s as [|ch s]; [reflexivity|]. cbn [lexer_again].
  destruct (char_code ch =? 10); [reflexivity|].
  destruct ((char_code ch =? 32) || (char_code ch =? 9)
            || (char_code ch =? 13) || (char_code ch =? 11)); [reflexivity|].
  destruct (char_code ch =? 92).
  { destruct (skip_line s) as [s2|]; reflexivity. }
  destruct (char_code ch =? 40).
  { destruct s as [|c1 s2]; [reflexivity|].
    destruct (isspace c1); [|reflexivity].
    destruct (skip_paren s2 line) as [[s3 line3]|]; reflexivity. }
  destruct (char_code ch =? 34).
  { destruct (scan_string s 0 []) as [[id rest]|]; reflexivity. }
  destruct (isgraph ch); [|reflexivity].
  destruct (scan_graph (ch :: s) 0 []) as [[id rest]|]; [|reflexivity].
  cbn [mbind result_bind rbind]. apply classify_token_at.
Qed.

(** Of the state of the lexer, the switch reads the accepted token and the
    definition flag only. *)
Lemma lexer_again_lexer_at hd n : forall l s0 line1 line0 s line,
  lexer_again hd n (lexer_at l s0 line1) line0 s line
  = lexer_again hd n l line0 s line.
Proof.
  assert (forall l s0 line1 line0 id rest line,
            classify hd (lexer_at l s0 line1) line0 id rest line
            = classify hd l line0 id rest line) as Hclassify.
  { intros. unfold classify. destruct (number id) as [[k|]|f]; reflexivity. }
  induction n as [|n IH]; intros l s0 line1 line0 s line;
    (destruct s as [|ch s]; [reflexivity|]); cbn [lexer_again];
    (destruct (char_code ch =? 10); [first [apply IH|reflexivity]|]);
    (destruct ((char_code ch =? 32) || (char_code ch =? 9)
               || (char_code ch =? 13) || (char_code ch =? 11));
       [first [apply IH|reflexivity]|]);
    (destruct (char_code ch =? 92);
       [destruct (skip_line s) as [s2|]; first [apply IH|reflexivity]|]);
    (destruct (char_code ch =? 40);
       [destruct s as [|c1 s2]; [reflexivity|];
        destruct (isspace c1); [|reflexivity];
        destruct (skip_paren s2 line) as [[s3 line3]|];
        first [apply IH|reflexivity]|]);
    (destruct (char_code ch =? 34);
       [destruct (scan_string s 0 []) as [[id rest]|]; reflexivity|]);
    (destruct (isgraph ch); [|reflexivity]);
    (destruct (scan_graph (ch :: s) 0 []) as [[id rest]|]; [|reflexivity]);
    cbn [mbind result_bind rbind]; apply Hclassify.
Qed.

Lemma line_feeds_cons c ws :
  line_feeds (c :: ws)
  = (if char_code c =? 10 then 1 else 0) + line_feeds ws.
Proof.
  unfold line_feeds. rewrite filter_cons.
  destruct (decide (char_code c = 10)) as [E|E].
  - rewrite E. cbn [length Z.eqb Pos.eqb]. lia.
  - apply Z.eqb_neq in E. rewrite E. lia.
Qed.

Lemma line_feeds_nonneg ws : 0 <= line_feeds ws.
Proof. unfold line_feeds. lia. Qed.

Lemma lexer_again_blanks hd ws : forall n l line0 s line,
  forallb isblank ws = true ->
  (length (ws ++ s) <= n)%nat ->
  0 <= line -> line + line_feeds ws < 4294967296 ->
  lexer_again hd n l line0 (ws ++ s) line
  = lexer_again hd n l line0 s (line + line_feeds ws).
Proof.
  induction ws as [|c ws IH]; intros n l line0 s line Hb Hn Hl Hlf.
  - unfold line_feeds. cbn. rewrite Z.add_0_r. reflexivity.
  - cbn [forallb] in Hb. apply andb_prop in Hb as [Hc Hb].
    cbn [app length] in Hn. destruct n as [|n]; [lia|].
    rewrite line_feeds_cons in *. pose proof (line_feeds_nonneg ws) as Hnn.
    rewrite length_app in Hn.
    match goal with
    | |- _ = ?rhs => set (R := rhs)
    end.
    cbn [app lexer_again]. unfold isblank in Hc.
    destruct (char_code c =? 10) eqn:E10.
    + unfold u32. rewrite Z.mod_small by lia.
      rewrite IH by (try assumption; rewrite ?length_app; lia).
      rewrite (lexer_again_fuel hd n (S n)) by lia. subst R. f_equal; lia.
    + cbn [orb] in Hc. rewrite Hc.
      rewrite IH by (try assumption; rewrite ?length_app; lia).
      rewrite (lexer_again_fuel hd n (S n)) by lia. subst R. f_equal; lia.
Qed.

(** X8. Blanks before a token are skipped.  On an input that starts with
    spaces, tabs, carriage returns, vertical tabs and line feeds, [lexer]
    gives what it gives on the input without them with the line counter
    advanced by the number of line feeds, except that the token carries the
    line on which [lexer] was entered, not the line on which the token
    stands. *)
Theorem lexer_skips_blanks (hd : header) (l : lexer_t) (ws s : list ascii) :
  forallb isblank ws = true ->
  l_input l = ws ++ s ->
  0 <= l_line l -> l_line l + line_feeds ws < 4294967296 ->
  lexer hd l
  = match lexer hd (lexer_at l s (l_line l + line_feeds ws)) with
    | Ok r => Ok (token_at (l_line l) r)
    | Fail f => Fail f
    end.
Proof.
  intros Hb Hin Hl Hlf. unfold lexer. rewrite Hin. cbn [lexer_at l_input l_line].
  rewrite lexer_again_blanks by (try assumption; lia).
  rewrite (lexer_again_fuel hd (length (ws ++ s)) (length s))
    by (rewrite ?length_app; lia).
  rewrite (lexer_again_token_at hd (length s) l (l_line l)
             (l_line l + line_feeds ws)).
  rewrite lexer_again_lexer_at. reflexivity.
Qed.

Lemma lexer_skips_blanks_witness :
  lexer example_header
    {| l_input := String.list_ascii_of_string (String "010" (String "010" " 7"));
       l_line := 1; l_token := None; l_accepted := None;
       l_in_definition := false |}
  = Ok {| l_input := []; l_line := 3;
          l_token := Some {| tok_p := p_number 7; tok_line := 1;
                             tok_type := LEX_LITERAL |};
          l_accepted := None; l_in_definition := false |}.
Proof.
  rewrite (lexer_skips_blanks example_header _
             (String.list_ascii_of_string (String "010" (String "010" " ")))
             (String.list_ascii_of_string "7")).
  - reflexivity.
  - reflexivity.
  - reflexivity.
  - simpl. lia.
  - vm_compute. reflexivity.
Defined.

(** *** The bound on the length of a word *)

Lemma scan_graph_too_large word : forall rest i id,
  forallb isgraph word = true ->
  0 <= i <= MAX_ID_LENGTH - 1 ->
  MAX_ID_LENGTH - 1 < i + Z.of_nat (length word) ->
  scan_graph (word ++ rest) i id = Fail (Thrown identifier_too_large).
Proof.
  induction word as [|c word IH]; intros rest i id Hg Hi Hlen.
  - cbn [length] in Hlen. lia.
  - cbn [forallb] in Hg. apply andb_prop in Hg as [Hc Hg].
    cbn [app scan_graph length] in *. rewrite Hc.
    destruct (MAX_ID_LENGTH - 1 <=? i) eqn:E; [reflexivity|].
    apply Z.leb_gt in E. apply IH; [exact Hg|lia|lia].
Qed.

(** X9. The buffer of the lexer holds 255 characters.  A bare word of more
    than 255 graphical characters, whatever follows it, makes [lexer] throw
    the error of the identifier that is too large; nothing of the word is
    given back as a token. *)
Theorem lexer_word_too_large (hd : header) (l : lexer_t) (c : ascii)
    (word rest : list ascii) :
  starts_word c = true ->
  forallb isgraph word = true ->
  255 < Z.of_nat (length (c :: word)) ->
  l_input l = (c :: word) ++ rest ->
  lexer hd l = Fail (Thrown identifier_too_large).
Proof.
  intros Hc Hg Hlen Hin. unfold starts_word in Hc.
  apply andb_prop in Hc as [Hc H34]. apply andb_prop in Hc as [Hc H40].
  apply andb_prop in Hc as [Hgc H92].
  apply negb_true_iff in H34, H40, H92.
  assert (33 <= char_code c <= 126) as Hr.
  { unfold isgraph in Hgc. apply andb_prop in Hgc as [H1 H2].
    apply Z.leb_le in H1, H2. lia. }
  unfold lexer. rewrite Hin. cbn [app length lexer_again].
  rewrite H92, H40, H34, Hgc.
  replace (char_code c =? 10) with false by (symmetry; apply Z.eqb_neq; lia).
  replace (char_code c =? 32) with false by (symmetry; apply Z.eqb_neq; lia).
  replace (char_code c =? 9) with false by (symmetry; apply Z.eqb_neq; lia).
  replace (char_code c =? 13) with false by (symmetry; apply Z.eqb_neq; lia).
  replace (char_code c =? 11) with false by (symmetry; apply Z.eqb_neq; lia).
  cbn [orb].
  change (c :: word ++ rest) with ((c :: word) ++ rest).
  rewrite (scan_graph_too_large (c :: word) rest 0 []);
    [reflexivity| |unfold MAX_ID_LENGTH; lia|unfold MAX_ID_LENGTH; lia].
  cbn [forallb]. rewrite Hgc. exact Hg.
Qed.

Lemma lexer_word_too_large_witness :
  lexer example_header
    {| l_input := "x"%char :: repeat "y"%char 255;
       l_line := 1; l_token := None; l_accepted := None;
       l_in_definition := false |}
  = Fail (Thrown identifier_too_large).
Proof.
  apply (lexer_word_too_large example_header _ "x"%char
           (repeat "y"%char 255) []).
  - reflexivity.
  - reflexivity.
  - rewrite length_cons, repeat_length. lia.
  - cbn [l_input]. rewrite app_nil_r. reflexivity.
Defined.

(** *** Strings *)

Lemma scan_string_body body : forall rest i id,
  Forall (fun c => char_code c <> 34) body ->
  i + Z.of_nat (length body) <= MAX_ID_LENGTH - 1 ->
  scan_string (body ++ double_quote :: rest) i id = Ok (id ++ body, rest).
Proof.
  induction body as [|c body IH]; intros rest i id Hb Hlen.
  - cbn [app scan_string]. change (char_code double_quote =? 34) with true.
    rewrite app_nil_r. reflexivity.
  - inversion Hb as [|? ? Hc Hb']; subst. apply Z.eqb_neq in Hc.
    cbn [app scan_string length] in *. rewrite Hc.
    destruct (MAX_ID_LENGTH - 1 <=? i) eqn:E; [apply Z.leb_le in E; lia|].
    rewrite IH by (try assumption; lia). rewrite <- app_assoc. reflexivity.
Qed.

Lemma scan_string_open body : forall i id,
  Forall (fun c => char_code c <> 34) body ->
  i + Z.of_nat (length body) <= MAX_ID_LENGTH - 1 ->
  scan_string body i id = Fail (Thrown string_terminated_by_EOF).
Proof.
  induction body as [|c body IH]; intros i id Hb Hlen; [reflexivity|].
  inversion Hb as [|? ? Hc Hb']; subst. apply Z.eqb_neq in Hc.
  cbn [scan_string length] in *. rewrite Hc.
  destruct (MAX_ID_LENGTH - 1 <=? i) eqn:E; [apply Z.leb_le in E; lia|].
  apply IH; [exact Hb'|lia].
Qed.

Lemma scan_string_too_large body : forall rest i id,
  Forall (fun c => char_code c <> 34) body ->
  0 <= i <= MAX_ID_LENGTH - 1 ->
  MAX_ID_LENGTH - 1 < i + Z.of_nat (length body) ->
  scan_string (body ++ rest) i id = Fail (Thrown identifier_too_large).
Proof.
  induction body as [|c body IH]; intros rest i id Hb Hi Hlen.
  - cbn [length] in Hlen. lia.
  - inversion Hb as [|? ? Hc Hb']; subst. apply Z.eqb_neq in Hc.
    cbn [app scan_string length] in *. rewrite Hc.
    destruct (MAX_ID_LENGTH - 1 <=? i) eqn:E; [reflexivity|].
    apply Z.leb_gt in E. apply IH; [exact Hb'|lia|lia].
Qed.

(** A buffer without a NUL byte is copied whole. *)
Lemma duplicate_whole s :
  Forall (fun c => char_code c <> 0) s -> duplicate s = s.
Proof.
  induction 1 as [|c s Hc _ IH]; [reflexivity|].
  cbn [duplicate]. apply Z.eqb_neq in Hc. rewrite Hc, IH. reflexivity.
Qed.

(** X10. String tokens.  After a double quote the characters up to the next
    double quote, blanks and line feeds included, go to the buffer, and the
    input goes on after the closing quote; the line counter does not move.
    The text of the string token is the copy that [duplicate] makes of the
    buffer: the characters before the first NUL byte, all of them when
    there is none.  More than 255 characters are refused as an identifier
    that is too large, and at most 255 characters that the end of the input
    cuts short as a string terminated by EOF. *)
Theorem lexer_string (hd : header) (l : lexer_t) (body rest : list ascii) :
  Forall (fun c => char_code c <> 34) body ->
  (l_input l = double_quote :: body ++ double_quote :: rest ->
   Z.of_nat (length body) <= 255 ->
   lexer hd l
   = Ok {| l_input := rest; l_line := l_line l;
           l_token := Some {| tok_p := p_id (String.string_of_list_ascii
                                               (duplicate body));
                              tok_line := l_line l; tok_type := LEX_STRING |};
           l_accepted := l_accepted l;
           l_in_definition := l_in_definition l |})
  /\ (Forall (fun c => char_code c <> 0) body -> duplicate body = body)
  /\ (l_input l = double_quote :: body ++ rest ->
      255 < Z.of_nat (length body) ->
      lexer hd l = Fail (Thrown identifier_too_large))
  /\ (l_input l = double_quote :: body ->
      Z.of_nat (length body) <= 255 ->
      lexer hd l = Fail (Thrown string_terminated_by_EOF)).
Proof.
  intros Hb. unfold lexer.
  split; [|split; [exact (duplicate_whole body)|split]];
    intros Hin Hlen; rewrite Hin; cbn [length lexer_again];
    change (char_code double_quote =? 10) with false;
    change (char_code double_quote =? 32) with false;
    change (char_code double_quote =? 9) with false;
    change (char_code double_quote =? 13) with false;
    change (char_code double_quote =? 11) with false;
    change (char_code double_quote =? 92) with false;
    change (char_code double_quote =? 40) with false;
    change (char_code double_quote =? 34) with true; cbn [orb].
  - rewrite scan_string_body by (try assumption; unfold MAX_ID_LENGTH; lia).
    reflexivity.
  - rewrite scan_string_too_large
      by (try assumption; unfold MAX_ID_LENGTH; lia).
    reflexivity.
  - rewrite scan_string_open by (try assumption; unfold MAX_ID_LENGTH; lia).
    reflexivity.
Qed.

Lemma lexer_string_witness :
  lexer example_header
    {| l_input := double_quote :: ["a"; "000"; "b"]%char
                  ++ double_quote :: String.list_ascii_of_string " x";
       l_line := 1; l_token := None; l_accepted := None;
       l_in_definition := false |}
  = Ok {| l_input := String.list_ascii_of_string " x"; l_line := 1;
          l_token := Some {| tok_p := p_id "a"; tok_line := 1;
                             tok_type := LEX_STRING |};
          l_accepted := None; l_in_definition := false |}.
Proof.
  apply (proj1 (lexer_string example_header
                  {| l_input := double_quote :: ["a"; "000"; "b"]%char
                                ++ double_quote :: String.list_ascii_of_string " x";
                     l_line := 1; l_token := None; l_accepted := None;
                     l_in_definition := false |}
                  ["a"; "000"; "b"]%char
                  (String.list_ascii_of_string " x")
                  ltac:(repeat constructor; discriminate))).
  - reflexivity.
  - simpl. lia.
Defined.

(** *** Comments *)

Lemma skip_line_text text : forall s,
  Forall (fun c => char_code c <> 10) text ->
  skip_line (text ++ line_feed :: s) = Some s /\ skip_line text = None.
Proof.
  induction text as [|c text IH]; intros s Ht.
  - split; reflexivity.
  - inversion Ht as [|? ? Hc Ht']; subst. apply Z.eqb_neq in Hc.
    cbn [app skip_line]. rewrite Hc. apply IH, Ht'.
Qed.

Lemma skip_paren_text text : forall s line,
  Forall (fun c => char_code c <> 41) text ->
  0 <= line -> line + line_feeds text < 4294967296 ->
  skip_paren (text ++ right_paren :: s) line
  = Some (s, line + line_feeds text)
  /\ skip_paren text line = None.
Proof.
  induction text as [|c text IH]; intros s line Ht Hl Hlf.
  - cbn [app skip_paren]. change (char_code right_paren =? 41) with true.
    unfold line_feeds. cbn. rewrite Z.add_0_r. split; reflexivity.
  - inversion Ht as [|? ? Hc Ht']; subst. apply Z.eqb_neq in Hc.
    rewrite line_feeds_cons in *. pose proof (line_feeds_nonneg text) as Hnn.
    cbn [app skip_paren]. rewrite Hc.
    destruct (char_code c =? 10).
    + unfold u32. rewrite Z.mod_small by lia.
      destruct (IH s (line + 1) Ht') as [H1 H2]; [lia|lia|].
      rewrite H1, H2. split; [f_equal; f_equal; lia|reflexivity].
    + destruct (IH s line Ht') as [H1 H2]; [lia|lia|].
      rewrite H1, H2. split; [f_equal; f_equal; lia|reflexivity].
Qed.

Lemma lexer_again_left_paren hd n l line0 blank s line :
  isspace blank = true ->
  lexer_again hd (S n) l line0 (left_paren :: blank :: s) line
  = match skip_paren s line with
    | Some (s3, line3) => lexer_again hd n l line0 s3 line3
    | None => Fail (Thrown comment_terminated_by_EOF)
    end.
Proof.
  intros Hb. cbn [lexer_again].
  change (char_code left_paren =? 10) with false.
  change (char_code left_paren =? 32) with false.
  change (char_code left_paren =? 9) with false.
  change (char_code left_paren =? 13) with false.
  change (char_code left_paren =? 11) with false.
  change (char_code left_paren =? 92) with false.
  change (char_code left_paren =? 40) with true. cbn [orb]. rewrite Hb.
  destruct (skip_paren s line) as [[s3 line3]|]; reflexivity.
Qed.

(** X11. Comments.  A backslash starts a comment that runs to the line
    feed: [lexer] goes on after it one line further, the token carrying the
    line on which [lexer] was entered; a backslash comment that the end of
    the input cuts short, as on a last line without a line feed, is a syntax
    error.  A left parenthesis followed by a space character starts a
    comment that runs to the right parenthesis; its line feeds are counted,
    except one that stands right after the left parenthesis, and without
    the right parenthesis it is a syntax error too. *)
Theorem lexer_comment (hd : header) (l : lexer_t) (text s : list ascii)
    (blank : ascii) :
  0 <= l_line l -> l_line l + line_feeds text + 1 < 4294967296 ->
  (Forall (fun c => char_code c <> 10) text ->
   (l_input l = backslash :: text ->
    lexer hd l = Fail (Thrown comment_terminated_by_EOF))
   /\ (l_input l = backslash :: text ++ line_feed :: s ->
       lexer hd l
       = match lexer hd (lexer_at l s (l_line l + 1)) with
         | Ok r => Ok (token_at (l_line l) r)
         | Fail f => Fail f
         end))
  /\ (Forall (fun c => char_code c <> 41) text -> isspace blank = true ->
      (l_input l = left_paren :: blank :: text ->
       lexer hd l = Fail (Thrown comment_terminated_by_EOF))
      /\ (l_input l = left_paren :: blank :: text ++ right_paren :: s ->
          lexer hd l
          = match lexer hd (lexer_at l s (l_line l + line_feeds text)) with
            | Ok r => Ok (token_at (l_line l) r)
            | Fail f => Fail f
            end)).
Proof.
  intros Hl Hlf. pose proof (line_feeds_nonneg text) as Hnn.
  split.
  - intros Ht. split; intros Hin; unfold lexer; rewrite Hin;
      cbn [length lexer_again];
      change (char_code backslash =? 10) with false;
      change (char_code backslash =? 32) with false;
      change (char_code backslash =? 9) with false;
      change (char_code backslash =? 13) with false;
      change (char_code backslash =? 11) with false;
      change (char_code backslash =? 92) with true; cbn [orb].
    + rewrite (proj2 (skip_line_text text [] Ht)). reflexivity.
    + rewrite (proj1 (skip_line_text text s Ht)).
      unfold u32. rewrite Z.mod_small by lia.
      cbn [lexer_at l_input l_line].
      rewrite (lexer_again_fuel hd _ (length s))
        by (rewrite ?length_app; cbn [length]; lia).
      rewrite (lexer_again_token_at hd (length s) l (l_line l) (l_line l + 1)).
      rewrite lexer_again_lexer_at. reflexivity.
  - intros Ht Hb. split; intros Hin; unfold lexer; rewrite Hin;
      cbn [length]; rewrite (lexer_again_left_paren hd _ l _ blank _ _ Hb).
    + rewrite (proj2 (skip_paren_text text [] (l_line l) Ht Hl ltac:(lia))).
      reflexivity.
    + rewrite (proj1 (skip_paren_text text s (l_line l) Ht Hl ltac:(lia))).
      cbn [lexer_at l_input l_line].
      rewrite (lexer_again_fuel hd (S (length (text ++ right_paren :: s)))
                 (length s))
        by (rewrite ?length_app; cbn [length]; lia).
      rewrite (lexer_again_token_at hd (length s) l (l_line l)
                 (l_line l + line_feeds text)).
      rewrite lexer_again_lexer_at. reflexivity.
Qed.

Lemma lexer_comment_witness :
  lexer example_header
    {| l_input := backslash :: String.list_ascii_of_string " the end";
       l_line := 1; l_token := None; l_accepted := None;
       l_in_definition := false |}
  = Fail (Thrown comment_terminated_by_EOF).
Proof.
  destruct (lexer_comment example_header
              {| l_input := backslash :: String.list_ascii_of_string " the end";
                 l_line := 1; l_token := None; l_accepted := None;
                 l_in_definition := false |}
              (String.list_ascii_of_string " the end") [] " "%char)
    as [H _].
  - simpl. lia.
  - vm_compute. reflexivity.
  - apply H; [repeat constructor; discriminate|reflexivity].
Defined.

(** ** What assembly keeps *)

Lemma extends_refl t : extends t t.
Proof. split; [exists []; rewrite app_nil_r; reflexivity|auto]. Qed.

Lemma extends_trans t1 t2 t3 : extends t1 t2 -> extends t2 t3 -> extends t1 t3.
Proof.
  intros [[n1 ->] H1] [[n2 ->] H2]. split; [|auto].
  exists (n1 ++ n2). rewrite app_assoc. reflexivity.
Qed.

Lemma symbol_table_lookup_None t id :
  symbol_table_lookup t id = None -> id ∉ symbol_ids t.
Proof.
  induction t as [|s t IH]; cbn [symbol_table_lookup symbol_ids fmap list_fmap].
  - intros _. apply not_elem_of_nil.
  - destruct (String.eqb (sym_id s) id) eqn:E; [discriminate|].
    intros H. apply String.eqb_neq in E. apply not_elem_of_cons.
    split; [congruence|apply IH, H].
Qed.

Lemma symbol_table_add_extends t type id v hidden t' :
  symbol_table_add t type id v hidden = Ok t' -> extends t t'.
Proof.
  unfold symbol_table_add.
  destruct (symbol_table_lookup t id) eqn:E; [discriminate|].
  intros [= <-]. split; [eexists; reflexivity|].
  intros Hn. unfold symbol_ids. rewrite fmap_app. cbn [fmap list_fmap sym_id].
  apply list.NoDup_app. split; [exact Hn|]. split.
  - intros x Hx [->|[]%elem_of_nil]%elem_of_cons.
    exact (symbol_table_lookup_None t id E Hx).
  - apply NoDup_singleton.
Qed.

Lemma extends_lookup t t' id s :
  extends t t' -> symbol_table_lookup t id = Some s ->
  symbol_table_lookup t' id = Some s.
Proof.
  intros [[new ->] _] E. induction t as [|s0 t IH]; [discriminate|].
  cbn [app symbol_table_lookup] in *.
  destruct (String.eqb (sym_id s0) id); [exact E|apply IH, E].
Qed.

Lemma emit_rel h i h' :
  emit h i = Ok h' -> length (core h') = length (core h).
Proof.
  unfold emit. intros E. ok_inv. cbn [core].
  match goal with
  | E : defined (store _ _ _) = Ok _ |- _ =>
      destruct (store (core h) (pc h) i) as [c|] eqn:Es; [|discriminate];
      injection E as <-; exact (store_length _ _ _ _ Es)
  end.
Qed.

Lemma defined_store_length c i v c' :
  defined (store c i v) = Ok c' -> length c' = length c.
Proof.
  destruct (store c i v) as [c1|] eqn:Es; [|discriminate].
  intros [= <-]. exact (store_length _ _ _ _ Es).
Qed.

Lemma generate_rel hd h a i h' a' :
  generate hd h a i = Ok (h', a') ->
  fence a <= fence a' /\ length (core h') = length (core h).
Proof.
  intros E. unfold generate in E.
  set (a1 := if IS_CALL i || IS_LITERAL i || IS_0BRANCH i || IS_BRANCH i
             then update_fence a (pc h) else a) in *.
  assert (fence a <= fence a1) as Ha1.
  { subst a1. destruct (_ || _); [cbn; lia|lia]. }
  clearbody a1.
  ok_inv; cbn [fence update_fence set_fence core set_core];
    repeat match goal with
           | E : emit _ _ = Ok _ |- _ => apply emit_rel in E
           | E : defined (store _ _ _) = Ok _ |- _ =>
               apply defined_store_length in E
           end;
    split; first [lia|congruence].
Qed.

Lemma here_rel hd h a v a' :
  here hd h a = Ok (v, a') -> fence a <= fence a'.
Proof.
  unfold here. intros E. destruct (pc h <? MAX_PROGRAM hd); [|discriminate].
  cbn in E. injection E as _ <-. cbn. lia.
Qed.

Lemma hole_rel hd h a v h' a' :
  hole hd h a = Ok (v, h', a') ->
  fence a <= fence a' /\ length (core h') = length (core h).
Proof.
  unfold hole, here. intros E.
  destruct (pc h <? MAX_PROGRAM hd); [|discriminate].
  cbn in E. injection E as _ <- <-. cbn. split; [lia|reflexivity].
Qed.

Lemma fix_rel hd h hl patch h' :
  fix_ hd h hl patch = Ok h' -> length (core h') = length (core h).
Proof.
  unfold fix_. intros E. ok_inv. cbn [core set_core].
  match goal with
  | E : defined (store _ _ _) = Ok _ |- _ => exact (defined_store_length _ _ _ _ E)
  end.
Qed.

(** Carries the fence, the length of the core and the table over the steps
    that [ok_inv] has laid bare. *)
Ltac rel_use hd :=
  repeat match goal with
  | E : generate hd _ _ _ = Ok _ |- _ =>
      apply generate_rel in E; destruct E as [? ?]
  | E : here hd _ _ = Ok _ |- _ => apply here_rel in E
  | E : hole hd _ _ = Ok _ |- _ => apply hole_rel in E; destruct E as [? ?]
  | E : fix_ hd _ _ _ = Ok _ |- _ => apply fix_rel in E
  | E : symbol_table_add _ _ _ _ _ = Ok _ |- _ =>
      apply symbol_table_add_extends in E
  | E : defined (store _ _ _) = Ok _ |- _ => apply defined_store_length in E
  end.

Ltac chain_extends :=
  first
    [ apply extends_refl
    | assumption
    | match goal with
      | H : extends ?x ?y |- extends ?x ?z =>
          apply (extends_trans x y z H); chain_extends
      end ].

Ltac rel_done :=
  cbn [fence set_fence set_pwd set_mode set_in_definition
       set_built_in_words_defined set_do_r_minus_one set_do_var
       set_do_const update_fence core set_core set_pc] in *;
  first
    [ split; [lia|split; [first [lia|congruence]|chain_extends]]
    | split; [lia|first [lia|congruence]] ].

Lemma fill_holes_rel hd vs : forall h a h' a',
  fill_holes hd h a vs = Ok (h', a') ->
  fence a <= fence a' /\ length (core h') = length (core h).
Proof.
  induction vs as [|v vs IH]; intros h a h' a' E; cbn [fill_holes] in E.
  - injection E as <- <-. split; [lia|reflexivity].
  - ok_inv. rel_use hd.
    match goal with
    | E : fill_holes _ _ _ _ = Ok _ |- _ => apply IH in E; destruct E as [? ?]
    end.
    rel_done.
Qed.

Lemma pack_string_rel hd h a s r h' a' :
  pack_string hd h a s = Ok (r, h', a') ->
  fence a <= fence a' /\ length (core h') = length (core h).
Proof.
  unfold pack_string. intros E. ok_inv. rel_use hd.
  match goal with
  | E : fill_holes _ _ _ _ = Ok _ |- _ =>
      apply fill_holes_rel in E; destruct E as [? ?]
  end.
  rel_done.
Qed.

Lemma generate_all_rel hd ws : forall h a h' a',
  generate_all hd h a ws = Ok (h', a') ->
  fence a <= fence a' /\ length (core h') = length (core h).
Proof.
  induction ws as [|w ws IH]; intros h a h' a' E; cbn [generate_all] in E.
  - injection E as <- <-. split; [lia|reflexivity].
  - ok_inv. rel_use hd.
    match goal with
    | E : generate_all _ _ _ _ = Ok _ |- _ => apply IH in E; destruct E as [? ?]
    end.
    rel_done.
Qed.

Lemma generate_literal_rel hd h a n h' a' :
  generate_literal hd h a n = Ok (h', a') ->
  fence a <= fence a' /\ length (core h') = length (core h).
Proof.
  unfold generate_literal. intros E. ok_inv; rel_use hd; rel_done.
Qed.

Lemma generate_jump_rel hd h a t tok ty h' a' :
  generate_jump hd h a t tok ty = Ok (h', a') ->
  fence a <= fence a' /\ length (core h') = length (core h).
Proof.
  unfold generate_jump. intros E.
  destruct (defined tok) as [tk|]; [|discriminate].
  cbn [mbind result_bind rbind] in E.
  match type of E with (?m ≫= _) = _ => destruct m as [addr|] end;
    [|discriminate].
  cbn [mbind result_bind rbind] in E.
  destruct (addr >? MAX_PROGRAM hd); [discriminate|].
  match type of E with (?m ≫= _) = _ => destruct m as [or|] end;
    [|discriminate].
  cbn [mbind result_bind rbind] in E. rel_use hd. rel_done.
Qed.

Lemma generate_loop_decrement_rel hd h a t h' a' :
  generate_loop_decrement hd h a t = Ok (h', a') ->
  fence a <= fence a' /\ length (core h') = length (core h).
Proof.
  unfold generate_loop_decrement. intros E.
  match type of E with
  | context [set_do_r_minus_one a ?v] =>
      assert (fence a <= fence (set_do_r_minus_one a v)) as Ha
        by (cbn; lia);
      generalize dependent (set_do_r_minus_one a v)
  end.
  intros a1 E Ha1.
  destruct (do_r_minus_one a1) as [s|];
    [destruct (has (mode a1) MODE_OPTIMIZATION_ON)|].
  - rel_use hd. rel_done.
  - apply generate_all_rel in E. destruct E. rel_done.
  - apply generate_all_rel in E. destruct E. rel_done.
Qed.

Lemma word_header_rel hd h a flags id h' a' :
  word_header hd h a flags id = Ok (h', a') ->
  fence a <= fence a' /\ length (core h') = length (core h).
Proof.
  unfold word_header. intros E. ok_inv. rel_use hd.
  match goal with
  | E : pack_string _ _ _ _ = Ok _ |- _ =>
      apply pack_string_rel in E; destruct E as [? ?]
  end.
  rel_done.
Qed.

(** The steps of [assemble] that are calls of the functions above. *)
Ltac rel_call hd :=
  repeat first
    [ progress rel_use hd
    | match goal with
      | E : fill_holes hd _ _ _ = Ok _ |- _ =>
          apply fill_holes_rel in E; destruct E as [? ?]
      | E : pack_string hd _ _ _ = Ok _ |- _ =>
          apply pack_string_rel in E; destruct E as [? ?]
      | E : generate_all hd _ _ _ = Ok _ |- _ =>
          apply generate_all_rel in E; destruct E as [? ?]
      | E : generate_literal hd _ _ _ = Ok _ |- _ =>
          apply generate_literal_rel in E; destruct E as [? ?]
      | E : generate_jump hd _ _ _ _ _ = Ok _ |- _ =>
          apply generate_jump_rel in E; destruct E as [? ?]
      | E : generate_loop_decrement hd _ _ _ = Ok _ |- _ =>
          apply generate_loop_decrement_rel in E; destruct E as [? ?]
      | E : word_header hd _ _ _ _ = Ok _ |- _ =>
          apply word_header_rel in E; destruct E as [? ?]
      end ].

Lemma assemble_location_rel hd ty token o0 h a t h' a' t' :
  assemble_location hd ty token o0 h a t = Ok (h', a', t') ->
  fence a <= fence a' /\ length (core h') = length (core h) /\ extends t t'.
Proof.
  unfold assemble_location. intros E. ok_inv; rel_call hd; rel_done.
Qed.

Lemma assemble_variable_rel hd bits token o0 h a t h' a' t' :
  assemble_variable hd bits token o0 h a t = Ok (h', a', t') ->
  fence a <= fence a' /\ length (core h') = length (core h) /\ extends t t'.
Proof.
  unfold assemble_variable. intros E.
  match type of E with (?m ≫= _) = _ => destruct m as [[h1 a1]|] eqn:E1 end;
    [|discriminate].
  cbn [mbind result_bind rbind] in E.
  apply assemble_location_rel in E. destruct E as (? & ? & ?).
  assert (fence a <= fence a1 /\ length (core h1) = length (core h)) as [? ?].
  { destruct (_ && _ && _).
    - match type of E1 with
      | context [set_do_var a ?v] =>
          assert (fence a <= fence (set_do_var a v)) as Ha by (cbn; lia);
          generalize dependent (set_do_var a v)
      end.
      intros a2 E1 Ha2. destruct (do_var a2); [|discriminate].
      ok_inv; rel_call hd; rel_done.
    - destruct (negb _); [discriminate|]. ok_inv; split; [lia|reflexivity]. }
  rel_done.
Qed.

Lemma assemble_constant_rel hd bits token o0 h a t h' a' t' :
  assemble_constant hd bits token o0 h a t = Ok (h', a', t') ->
  fence a <= fence a' /\ length (core h') = length (core h) /\ extends t t'.
Proof.
  unfold assemble_constant. intros E.
  match type of E with (?m ≫= _) = _ => destruct m as [[h1 a1]|] eqn:E1 end;
    [|discriminate].
  cbn [mbind result_bind rbind] in E.
  assert (fence a <= fence a1 /\ length (core h1) = length (core h)) as [? ?].
  { destruct (_ && _ && _).
    - match type of E1 with
      | context [set_do_const a ?v] =>
          assert (fence a <= fence (set_do_const a v)) as Ha by (cbn; lia);
          generalize dependent (set_do_const a v)
      end.
      intros a2 E1 Ha2. destruct (do_const a2); [|discriminate].
      ok_inv; rel_call hd; rel_done.
    - ok_inv; split; [lia|reflexivity]. }
  ok_inv; rel_call hd; rel_done.
Qed.

Lemma built_in_loop_rel hd ws : forall h a t h' a' t',
  built_in_loop hd ws h a t = Ok (h', a', t') ->
  fence a <= fence a' /\ length (core h') = length (core h) /\ extends t t'.
Proof.
  induction ws as [|w ws IH]; intros h a t h' a' t' E;
    cbn [built_in_loop] in E.
  - ok_inv. rel_done.
  - destruct (negb (compile w)); [exact (IH _ _ _ _ _ _ E)|].
    match type of E with (?m ≫= _) = _ => destruct m as [[h1 a1]|] eqn:E1 end;
      [|discriminate].
    cbn [mbind result_bind rbind] in E.
    assert (fence a <= fence a1 /\ length (core h1) = length (core h)) as [? ?].
    { destruct (negb (bi_hidden w)).
      - exact (word_header_rel _ _ _ _ _ _ _ E1).
      - ok_inv; split; [lia|reflexivity]. }
    clear E1. ok_inv. rel_call hd.
    match goal with
    | E : built_in_loop _ _ _ _ _ = Ok _ |- _ =>
        apply IH in E; destruct E as (? & ? & ?)
    end.
    rel_done.
Qed.

Lemma assemble_children_rel hd cs : forall h a t h' a' t',
  Forall (grows_child hd) cs ->
  assemble_children hd cs h a t = Ok (h', a', t') ->
  fence a <= fence a' /\ length (core h') = length (core h) /\ extends t t'.
Proof.
  induction cs as [|c cs IH]; intros h a t h' a' t' Hk E;
    cbn [assemble_children] in E.
  - ok_inv. rel_done.
  - inversion Hk as [|? ? Hc Hk']; subst. clear Hk.
    destruct c as [m|]; cbn [mbind result_bind rbind] in E.
    + destruct (assemble hd m h a t) as [[[h1 a1] t1]|] eqn:E1; [|discriminate].
      cbn [mbind result_bind rbind] in E.
      destruct (Hc _ _ _ _ _ _ E1) as (? & ? & ?).
      destruct (IH _ _ _ _ _ _ Hk' E) as (? & ? & ?). rel_done.
    + exact (IH _ _ _ _ _ _ Hk' E).
Qed.

Ltac rel_assemble hd :=
  repeat first
    [ progress rel_call hd
    | match goal with
      | K : grows hd ?m, E : assemble hd ?m _ _ _ = Ok _ |- _ =>
          apply K in E; destruct E as (? & ? & ?)
      | E : assemble_set hd _ _ _ _ _ = Ok _ |- _ =>
          unfold assemble_set in E; ok_inv
      | E : assemble_constant hd _ _ _ _ _ _ = Ok _ |- _ =>
          apply assemble_constant_rel in E; destruct E as (? & ? & ?)
      | E : assemble_variable hd _ _ _ _ _ _ = Ok _ |- _ =>
          apply assemble_variable_rel in E; destruct E as (? & ? & ?)
      | E : assemble_location hd _ _ _ _ _ _ = Ok _ |- _ =>
          apply assemble_location_rel in E; destruct E as (? & ? & ?)
      | E : built_in_loop hd _ _ _ _ = Ok _ |- _ =>
          apply built_in_loop_rel in E; destruct E as (? & ? & ?)
      end ].

(** Whatever the tree, assembling it never lowers the fence, never changes
    the length of the core, and only adds symbols at the end of the
    table. *)
Lemma assemble_grows hd n : grows hd n.
Proof.
  induction n as [type bits token value o IH] using node_induction.
  assert (Forall (grows_child hd) o) as Hk.
  { clear -IH. induction o as [|c o IHo]; constructor.
    - inversion IH; subst. destruct c as [m|]; [cbn; auto|exact I].
    - inversion IH; subst. apply IHo; assumption. }
  clear IH.
  intros h a t h' a' t' E.
  destruct (decide (type = SYM_STATEMENTS)) as [->|Hst].
  { rewrite assemble_statements_eq in E.
    destruct (pc h >? MAX_PROGRAM hd); [discriminate|].
    exact (assemble_children_rel _ _ _ _ _ _ _ _ Hk E). }
  cbn [assemble] in E.
  destruct (pc h >? MAX_PROGRAM hd) eqn:Emax; [destruct type; discriminate|].
  destruct o as [|o0 [|o1 [|o2 o3]]];
    repeat match goal with
           | H : Forall _ (_ :: _) |- _ => inversion H; subst; clear H
           | H : Forall _ [] |- _ => clear H
           end;
    destruct type; try congruence; try discriminate;
    ok_inv; cbn [grows_child] in *; rel_assemble hd; rel_done.
Qed.

(** X12. The fence only moves forward and the core keeps its length:
    whatever the tree, when [assemble] comes back the fence is at or past
    the place where it was and the core has as many cells as before. *)
Theorem assemble_fence_monotone (hd : header) (n : node_t) (h h' : h2_t)
    (a a' : assembler_t) (t t' : symbol_table_t) :
  assemble hd n h a t = Ok (h', a', t') ->
  fence a <= fence a' /\ length (core h') = length (core h).
Proof.
  intros E. destruct (assemble_grows hd n _ _ _ _ _ _ E) as (Hf & Hl & _).
  split; [exact Hf|exact Hl].
Qed.

Lemma assemble_fence_monotone_witness :
  exists h a t,
    assemble example_header program_a_b (h2_new example_header 8)
      (set_fence assembler_zero 8) [] = Ok (h, a, t)
    /\ 8 <= fence a
    /\ length (core h) = length (core (h2_new example_header 8)).
Proof.
  destruct (assemble_a_b example_header example_header_sizes
              example_header_layout)
    as (h & a & t & Ha & _); [simpl; lia|simpl; lia|].
  exists h, a, t. split; [exact Ha|].
  exact (assemble_fence_monotone example_header _ _ _ _ _ _ _ Ha).
Defined.

(** X13. Symbols are added, never removed or changed.  When [assemble]
    comes back, the table is the table it was given with symbols added at
    its end; every identifier that was defined is still looked up to the
    same symbol; and if the identifiers of the table were distinct they
    still are. *)
Theorem assemble_keeps_symbols (hd : header) (n : node_t) (h h' : h2_t)
    (a a' : assembler_t) (t t' : symbol_table_t) :
  assemble hd n h a t = Ok (h', a', t') ->
  (exists new, t' = t ++ new)
  /\ (forall id s, symbol_table_lookup t id = Some s ->
                   symbol_table_lookup t' id = Some s)
  /\ (NoDup (symbol_ids t) -> NoDup (symbol_ids t')).
Proof.
  intros E. destruct (assemble_grows hd n _ _ _ _ _ _ E) as (_ & _ & He).
  split; [exact (proj1 He)|]. split; [|exact (proj2 He)].
  intros id s. apply extends_lookup, He.
Qed.

Lemma assemble_keeps_symbols_witness :
  exists h a t,
    assemble example_header program_a_b (h2_new example_header 8)
      (set_fence assembler_zero 8) [] = Ok (h, a, t)
    /\ NoDup (symbol_ids t).
Proof.
  destruct (assemble_a_b example_header example_header_sizes
              example_header_layout)
    as (h & a & t & Ha & _); [simpl; lia|simpl; lia|].
  exists h, a, t. split; [exact Ha|].
  destruct (assemble_keeps_symbols example_header _ _ _ _ _ _ _ Ha)
    as (_ & _ & Hn).
  apply Hn. constructor.
Defined.

(** ** Packed strings *)

Lemma image_at_insert_before c addr cells i v :
  0 <= i < addr ->
  image_at c addr cells -> image_at (<[Z.to_nat i := v]> c) addr cells.
Proof.
  revert addr. induction cells as [|cell cells IH]; intros addr Hi Him;
    [exact I|].
  destruct Him as [H1 H2]. split.
  - rewrite load_insert_ne by lia. exact H1.
  - apply IH; [lia|exact H2].
Qed.

Lemma image_at_ext c c' cells : forall addr,
  (forall j, addr <= j -> load c' j = load c j) ->
  image_at c addr cells -> image_at c' addr cells.
Proof.
  induction cells as [|cell cells IH]; intros addr Hj Him; [exact I|].
  destruct Him as [H1 H2]. split.
  - rewrite Hj by lia. exact H1.
  - apply IH; [intros j Hle; apply Hj; lia|exact H2].
Qed.

(** [fill_holes] writes its values cell after cell from [pc] on. *)
Lemma fill_holes_cells hd vs : forall h a,
  MAX_PROGRAM hd < 65536 ->
  0 <= pc h ->
  pc h + Z.of_nat (length vs) <= MAX_PROGRAM hd ->
  pc h + Z.of_nat (length vs) <= Z.of_nat (length (core h)) ->
  exists h' a',
    fill_holes hd h a vs = Ok (h', a')
    /\ pc h' = pc h + Z.of_nat (length vs)
    /\ image_at (core h') (pc h) vs
    /\ (forall j, j < pc h \/ pc h + Z.of_nat (length vs) <= j ->
                  load (core h') j = load (core h) j)
    /\ (tos h', sp h', rp h') = (tos h, sp h, rp h).
Proof.
  induction vs as [|v vs IH]; intros h a Hm Hpc Hroom Hcore.
  - exists h, a. cbn [fill_holes length]. rewrite Z.add_0_r.
    repeat split; auto.
  - cbn [length] in Hroom, Hcore. cbn [fill_holes]. unfold hole, here.
    rewrite ltb_true by lia. cbn [assert mbind result_bind rbind].
    cbn [core set_pc]. rewrite store_Some by lia.
    cbn [defined mbind result_bind rbind].
    rewrite u16_small by lia.
    edestruct (IH (set_core (set_pc h (pc h + 1))
                     (<[Z.to_nat (pc h) := v]> (core h)))
                  (update_fence a (pc h)))
      as (h' & a' & Hf & Hpc' & Him & Hoff & Hreg);
      [exact Hm|cbn [pc set_core set_pc]; lia|cbn [pc set_core set_pc]; lia
      |cbn [pc core set_core set_pc]; rewrite length_insert; lia|].
    cbn [pc core set_core set_pc tos sp rp] in *.
    exists h', a'. split; [exact Hf|]. split; [cbn [length]; lia|].
    split; [|split; [|exact Hreg]].
    + split; [|exact Him]. rewrite Hoff by lia. apply load_insert_eq. lia.
    + intros j Hj. cbn [length] in Hj. rewrite Hoff by lia.
      apply load_insert_ne; lia.
Qed.

Lemma char16_ascii c : 0 <= c < 128 -> char16 c = c.
Proof.
  intros Hc. unfold char16.
  destruct (c <? 128) eqn:E; [|apply Z.ltb_ge in E; lia].
  apply u16_small. lia.
Qed.

Lemma pack_16_bytes lb hb :
  0 <= lb < 128 -> 0 <= hb < 128 -> cell_bytes (pack_16 lb hb) = [lb; hb].
Proof.
  intros Hl Hh. unfold pack_16. rewrite !char16_ascii by assumption.
  assert (is_byte lb) as Bl by (unfold is_byte; lia).
  assert (is_byte hb) as Bh by (unfold is_byte; lia).
  rewrite Z.lor_comm.
  destruct (byte_pair_cell lb hb Bl Bh) as [_ Hc].
  rewrite u16_small by exact Hc.
  pose proof (cell_of_bytes (Z.lor lb (Z.shiftl hb 8)) Hc) as Hr.
  unfold cell_bytes. f_equal; [|f_equal].
  - change 255 with (Z.ones 8). rewrite Z.land_lor_distr_l.
    rewrite (Z.land_ones (Z.shiftl hb 8)) by lia.
    rewrite Z.shiftl_mul_pow2 by lia. rewrite Z.mod_mul by lia.
    rewrite Z.lor_0_r. apply below_pow2_land; [lia|change (2 ^ 8) with 256; lia].
  - rewrite Z.shiftr_lor, Z.shiftr_shiftl_l by lia. change (8 - 8) with 0.
    rewrite Z.shiftl_0_r.
    assert (Z.shiftr lb 8 = 0) as ->.
    { rewrite Z.shiftr_div_pow2 by lia. apply Z.div_small.
      change (2 ^ 8) with 256. lia. }
    rewrite Z.lor_0_l. change 255 with (Z.ones 8).
    apply below_pow2_land; [lia|change (2 ^ 8) with 256; lia].
Qed.

Lemma pack_cells_bytes : forall (k : nat) cs,
  (length cs <= k)%nat ->
  Forall (fun c => 0 <= c < 128) cs ->
  flat_map cell_bytes (pack_cells cs)
  = cs ++ (if Nat.odd (length cs) then [0] else [])
  /\ length (pack_cells cs) = Nat.div2 (S (length cs)).
Proof.
  induction k as [|k IH]; intros cs Hk Hcs.
  - destruct cs; [split; reflexivity|cbn in Hk; lia].
  - destruct cs as [|x [|y cs]].
    + split; reflexivity.
    + inversion Hcs as [|? ? Hx _]; subst.
      cbn [pack_cells flat_map length app Nat.odd Nat.even negb].
      rewrite pack_16_bytes by lia. split; reflexivity.
    + inversion Hcs as [|? ? Hx Hcs1]; subst.
      inversion Hcs1 as [|? ? Hy Hcs2]; subst.
      cbn [length] in Hk.
      destruct (IH cs ltac:(lia) Hcs2) as [H1 H2].
      cbn [pack_cells flat_map length]. rewrite pack_16_bytes by lia.
      rewrite H1. split; [reflexivity|].
      cbn [length Nat.div2]. rewrite H2. reflexivity.
Qed.

(** X14. The layout of a packed string.  For a string of at most 127
    characters of the ASCII range, with room for it in the program area,
    [pack_string] returns the address at which it starts and writes, from
    there on, one cell for every two bytes of the counted string, low byte
    first: the length, then the characters, then a zero if the number of
    bytes is odd.  [pc] ends after these cells and no other cell
    changes. *)
Theorem pack_string_layout (hd : header) (h : h2_t) (a : assembler_t)
    (s : string) :
  let cs := char_code <$> String.list_ascii_of_string s in
  let n := Z.of_nat (length cs) / 2 + 1 in
  Z.of_nat (length cs) <= 127 ->
  Forall (fun c => 0 <= c < 128) cs ->
  MAX_PROGRAM hd < 65536 ->
  0 <= pc h -> pc h + n < MAX_PROGRAM hd ->
  pc h + n <= Z.of_nat (length (core h)) ->
  exists cells h' a',
    pack_string hd h a s = Ok (pc h, h', a')
    /\ Z.of_nat (length cells) = n
    /\ flat_map cell_bytes cells = counted_bytes cs
    /\ image_at (core h') (pc h) cells
    /\ pc h' = pc h + n
    /\ (forall j, j < pc h \/ pc h + n <= j ->
                  load (core h') j = load (core h) j).
Proof.
  intros cs n Hlen Hcs Hm Hpc Hroom Hcore.
  set (cells := pack_16 (Z.of_nat (length cs)) (default 0 (head cs))
                :: pack_cells (tail cs)).
  assert (Forall (fun c => 0 <= c < 128) (tail cs)) as Htail
    by (destruct cs; [constructor|inversion Hcs; assumption]).
  destruct (pack_cells_bytes (length (tail cs)) (tail cs) (le_n _) Htail)
    as [Hb Hl].
  assert (0 <= default 0 (head cs) < 128) as Hhead
    by (destruct cs; [cbn; lia|inversion Hcs; assumption]).
  assert (Z.of_nat (length cells) = n) as Hn.
  { subst cells n. cbn [length]. rewrite Hl.
    destruct cs as [|c cs']; [reflexivity|]. cbn [tail length].
    rewrite Nat.div2_div, (Nat2Z.inj_succ (_ / _)), Nat2Z.inj_div.
    change (Z.of_nat 2) with 2. lia. }
  assert (flat_map cell_bytes cells = counted_bytes cs) as Hbytes.
  { subst cells. cbn [flat_map]. rewrite pack_16_bytes by lia. rewrite Hb.
    unfold counted_bytes. destruct cs as [|c cs']; [reflexivity|].
    cbn [head default tail length app]. rewrite Nat.even_succ. reflexivity. }
  destruct (fill_holes_cells hd cells h a Hm Hpc)
    as (h' & a' & Hf & Hpc' & Him & Hoff & _); [lia|lia|].
  exists cells, h', (update_fence a' (pc h')).
  unfold pack_string. fold cs.
  destruct (Z.of_nat (length cs) >? 255) eqn:E;
    [rewrite Z.gtb_ltb in E; apply Z.ltb_lt in E; lia|].
  fold cells. rewrite Hf. cbn [mbind result_bind rbind]. unfold here.
  rewrite ltb_true by lia. cbn [assert mbind result_bind rbind].
  split; [reflexivity|]. split; [exact Hn|]. split; [exact Hbytes|].
  split; [exact Him|]. split; [lia|].
  intros j Hj. apply Hoff. lia.
Qed.

Lemma pack_string_layout_witness :
  exists cells h' a',
    pack_string example_header (h2_new example_header 8)
      (set_fence assembler_zero 8) "dup" = Ok (8, h', a')
    /\ flat_map cell_bytes cells = [3; 100; 117; 112]
    /\ image_at (core h') 8 cells
    /\ pc h' = 10.
Proof.
  destruct (pack_string_layout example_header (h2_new example_header 8)
              (set_fence assembler_zero 8) "dup")
    as (cells & h' & a' & Hp & _ & Hb & Him & Hpc & _).
  - simpl. lia.
  - change (Forall (fun c => 0 <= c < 128) [100; 117; 112]).
    repeat constructor; lia.
  - simpl. lia.
  - simpl. lia.
  - vm_compute. reflexivity.
  - change (h2_new example_header 8)
      with (h2_new example_header (START_ADDR example_header)).
    rewrite (h2_new_length example_header) by (simpl; lia).
    vm_compute. discriminate.
  - exists cells, h', a'. split; [exact Hp|]. split; [exact Hb|].
    split; [exact Him|exact Hpc].
Defined.

(** ** The cells below the start address *)

(** [.set] writes where it is told to. *)
Lemma code_set hd location value :
  sizes_ok hd ->
  0 <= location < 65536 ->
  Z.shiftr location 1 < MAX_PROGRAM hd ->
  exists h,
    code hd (n_program [n_set location value]) None = Ok h
    /\ load (core h) (Z.shiftr location 1) = Some value.
Proof.
  intros (Hs1 & Hs0 & Hs2 & Hs3) Hloc Hlt.
  pose proof (h2_new_length hd ltac:(lia)) as Hlen.
  assert (0 <= Z.shiftr location 1) as Hnn by (apply Z.shiftr_nonneg; lia).
  unfold code. cbn [default].
  rewrite assemble_program_eq
    by (change (pc (h2_new hd (START_ADDR hd))) with (START_ADDR hd); lia).
  cbn [fmap list_fmap app assemble_children n_set assemble].
  change (pc (h2_new hd (START_ADDR hd))) with (START_ADDR hd).
  rewrite (gtb_false (START_ADDR hd)) by lia.
  unfold assemble_set, literal_or_symbol_lookup, token_of.
  cbn [defined tok_type token_number tok_p mbind result_bind rbind].
  rewrite u16_small by exact Hloc. unfold fix_.
  rewrite ltb_true by exact Hlt. cbn [assert mbind result_bind rbind].
  rewrite store_Some by lia. cbn [defined mbind result_bind rbind].
  eexists. split; [reflexivity|]. cbn [set_core core].
  apply load_insert_eq. lia.
Qed.

(** C3 as the spec words it fails: [.set 0 5] assembles and leaves 5 in
    cell 0. *)
Lemma set_overwrites_low_cell :
  (exists h, code example_header program_set_0_5 None = Ok h
             /\ load (core h) 0 = Some 5)
  /\ ~ low_cells_kept example_header.
Proof.
  destruct (code_set example_header 0 5 example_header_sizes)
    as (h & Hc & Hl); [lia|reflexivity|].
  change (Z.shiftr 0 1) with 0 in Hl.
  split; [exists h; split; [exact Hc|exact Hl]|].
  intros H. destruct (H _ _ Hc) as [_ Hlow].
  rewrite (Hlow 0) in Hl by (simpl; lia). discriminate.
Qed.

Section LowCells.

Context (hd : header) (Hsizes : sizes_ok hd) (Hcore : CORE_CELLS hd < 65536).
Context (final : symbol_table_t).

Lemma low_cells_insert c j v :
  low_cells hd c -> START_ADDR hd <= j ->
  low_cells hd (<[Z.to_nat j := v]> c).
Proof.
  intros [Hlen Hlow] Hj. pose proof Hsizes as (Hs1 & _).
  split; [rewrite length_insert; exact Hlen|].
  intros i Hi. rewrite load_insert_ne by lia. apply Hlow, Hi.
Qed.

Lemma store_low c j v c' :
  low_cells hd c -> START_ADDR hd <= j -> store c j v = Some c' ->
  low_cells hd c'.
Proof.
  intros Hl Hj [_ ->]%store_inv. apply low_cells_insert; assumption.
Qed.

Lemma defined_store_low c j v c' :
  low_cells hd c -> START_ADDR hd <= j -> defined (store c j v) = Ok c' ->
  low_cells hd c' /\ j < CORE_CELLS hd.
Proof.
  intros Hl Hj E. destruct (store c j v) as [c1|] eqn:Es; [|discriminate].
  injection E as <-. split; [exact (store_low _ _ _ _ Hl Hj Es)|].
  apply store_inv in Es as [Hi _]. destruct Hl as [Hlen _]. lia.
Qed.

Lemma emit_ok h instruction h' :
  pc_ok hd h -> emit h instruction = Ok h' -> pc_ok hd h'.
Proof.
  intros [Hpc Hl] E. unfold emit in E.
  destruct (defined (store (core h) (pc h) instruction)) as [c|] eqn:Es;
    [|discriminate].
  cbn in E. injection E as <-.
  destruct (defined_store_low _ _ _ _ Hl Hpc Es) as [Hl' Hlt].
  pose proof Hsizes as (Hs1 & _).
  split; [|exact Hl']. cbn [pc]. rewrite u16_small by lia. lia.
Qed.

Lemma update_fence_ok a v : fence_ok hd a -> fence_ok hd (update_fence a v).
Proof. unfold fence_ok. cbn. lia. Qed.

Lemma generate_ok h a instruction h' a' :
  pc_ok hd h -> fence_ok hd a ->
  generate hd h a instruction = Ok (h', a') ->
  pc_ok hd h' /\ fence_ok hd a'.
Proof.
  intros Hh Ha E. unfold generate in E.
  set (a1 := if IS_CALL instruction || IS_LITERAL instruction
                || IS_0BRANCH instruction || IS_BRANCH instruction
             then update_fence a (pc h) else a) in *.
  assert (fence_ok hd a1) as Ha1.
  { subst a1. destruct (_ || _); [apply update_fence_ok|]; exact Ha. }
  clearbody a1.
  assert (forall r : result h2_t,
            (h0 ← r; Ok (h0, a1)) = Ok (h', a') -> r = Ok h' /\ a' = a1) as Hemit.
  { intros [h0|f] Hr; [|discriminate]. cbn in Hr. injection Hr as <- <-.
    split; reflexivity. }
  assert (forall (previous v : Z),
            START_ADDR hd <= pc h - 1 ->
            (c ← defined (store (core h) (pc h - 1) v);
             Ok (set_core h c, update_fence a1 (pc h - 1))) = Ok (h', a') ->
            pc_ok hd h' /\ fence_ok hd a') as Hrewrite.
  { intros _ v Hge Hr.
    destruct (defined (store (core h) (pc h - 1) v)) as [c|] eqn:Es;
      [|discriminate].
    cbn in Hr. injection Hr as <- <-. destruct Hh as [Hpc Hl].
    destruct (defined_store_low _ _ _ _ Hl Hge Es) as [Hl' _].
    split; [split; [exact Hpc|exact Hl']|apply update_fence_ok, Ha1]. }
  assert (forall r : result h2_t,
            (h0 ← r; Ok (h0, a1)) = Ok (h', a') -> r = emit h instruction ->
            pc_ok hd h' /\ fence_ok hd a') as Happend.
  { intros r Hr ->. apply Hemit in Hr as [Hr ->].
    split; [exact (emit_ok _ _ _ Hh Hr)|exact Ha1]. }
  destruct (has (mode a1) MODE_OPTIMIZATION_ON && negb (pc h =? 0));
    [|exact (Happend _ E eq_refl)].
  destruct (defined (load (core h) (pc h - 1))) as [previous|] eqn:El;
    [|discriminate].
  cbn [mbind result_bind rbind] in E.
  destruct ((pc h - 1 >? fence a1) && IS_ALU_OP previous
            && (instruction =? CODE_EXIT hd)) eqn:C1.
  - apply andb_prop in C1 as [C1 _]. apply andb_prop in C1 as [C1 _].
    rewrite Z.gtb_ltb in C1. apply Z.ltb_lt in C1. unfold fence_ok in Ha1.
    destruct (negb (has previous (R_TO_PC hd))
              && negb (has previous (MK_RSTACK DELTA_N1)));
      [|exact (Happend _ E eq_refl)].
    apply (Hrewrite previous _ ltac:(lia) E).
  - destruct ((pc h >? fence a1) && IS_CALL previous
              && (instruction =? CODE_EXIT hd)) eqn:C2;
      [|exact (Happend _ E eq_refl)].
    apply andb_prop in C2 as [C2 _]. apply andb_prop in C2 as [C2 _].
    rewrite Z.gtb_ltb in C2. apply Z.ltb_lt in C2. unfold fence_ok in Ha1.
    apply (Hrewrite previous _ ltac:(lia) E).
Qed.

Lemma here_ok h a v a' :
  pc_ok hd h -> fence_ok hd a -> here hd h a = Ok (v, a') ->
  fence_ok hd a' /\ START_ADDR hd <= v.
Proof.
  intros [Hpc _] Ha E. unfold here in E.
  destruct (pc h <? MAX_PROGRAM hd); [|discriminate].
  cbn in E. injection E as <- <-. split; [apply update_fence_ok, Ha|exact Hpc].
Qed.

Lemma hole_ok h a v h' a' :
  pc_ok hd h -> fence_ok hd a -> hole hd h a = Ok (v, h', a') ->
  pc_ok hd h' /\ fence_ok hd a' /\ START_ADDR hd <= v.
Proof.
  intros [Hpc Hl] Ha E. unfold hole, here in E.
  destruct (pc h <? MAX_PROGRAM hd) eqn:Elt; [|discriminate].
  cbn in E. injection E as <- <- <-. apply Z.ltb_lt in Elt.
  pose proof Hsizes as (Hs1 & Hs8 & _).
  split; [|split; [apply update_fence_ok, Ha|exact Hpc]].
  split; [|exact Hl]. cbn [set_pc pc]. rewrite u16_small by lia. lia.
Qed.

Lemma fix_ok h hl patch h' :
  pc_ok hd h -> START_ADDR hd <= hl -> fix_ hd h hl patch = Ok h' ->
  pc_ok hd h'.
Proof.
  intros [Hpc Hl] Hhl E. unfold fix_ in E.
  destruct (hl <? MAX_PROGRAM hd); [|discriminate].
  cbn [assert mbind result_bind rbind] in E.
  destruct (defined (store (core h) hl patch)) as [c|] eqn:Es; [|discriminate].
  cbn in E. injection E as <-.
  destruct (defined_store_low _ _ _ _ Hl Hhl Es) as [Hl' _].
  split; [exact Hpc|exact Hl'].
Qed.

Lemma fill_holes_ok vs : forall h a h' a',
  pc_ok hd h -> fence_ok hd a -> fill_holes hd h a vs = Ok (h', a') ->
  pc_ok hd h' /\ fence_ok hd a'.
Proof.
  induction vs as [|v vs IH]; intros h a h' a' Hh Ha E; cbn [fill_holes] in E.
  - injection E as <- <-. split; assumption.
  - destruct (hole hd h a) as [[[hl h1] a1]|] eqn:Eh; [|discriminate].
    cbn [mbind result_bind rbind] in E.
    destruct (hole_ok _ _ _ _ _ Hh Ha Eh) as ([Hpc1 Hl1] & Ha1 & Hhl).
    destruct (defined (store (core h1) hl v)) as [c|] eqn:Es; [|discriminate].
    cbn [mbind result_bind rbind] in E.
    destruct (defined_store_low _ _ _ _ Hl1 Hhl Es) as [Hl' _].
    apply (IH (set_core h1 c) a1 h' a'); [split; assumption|exact Ha1|exact E].
Qed.

Lemma pack_string_ok h a s r h' a' :
  pc_ok hd h -> fence_ok hd a -> pack_string hd h a s = Ok (r, h', a') ->
  pc_ok hd h' /\ fence_ok hd a' /\ START_ADDR hd <= r.
Proof.
  intros Hh Ha E. unfold pack_string in E.
  destruct (_ >? 255); [discriminate|].
  destruct (fill_holes hd h a _) as [[h1 a1]|] eqn:Ef; [|discriminate].
  cbn [mbind result_bind rbind] in E.
  destruct (fill_holes_ok _ _ _ _ _ Hh Ha Ef) as [Hh1 Ha1].
  destruct (here hd h1 a1) as [[v a2]|] eqn:Ee; [|discriminate].
  cbn in E. injection E as <- <- <-.
  destruct (here_ok _ _ _ _ Hh1 Ha1 Ee) as [Ha2 _].
  split; [exact Hh1|]. split; [exact Ha2|]. destruct Hh as [Hpc _]. exact Hpc.
Qed.

Ltac solve_fence :=
  first
    [ assumption
    | unfold fence_ok in *;
      cbn [fence set_fence set_pwd set_mode set_in_definition
           set_built_in_words_defined set_do_r_minus_one set_do_var
           set_do_const update_fence] in *; lia ].

(** Carries the two invariants over the steps that [ok_inv] has laid
    bare. *)
Ltac ok_use :=
  repeat match goal with
  | E : generate hd ?h ?a _ = Ok _ |- _ =>
      let Hh := fresh "Hh" in let Ha := fresh "Ha" in
      assert (pc_ok hd h) as Hh by assumption;
      assert (fence_ok hd a) as Ha by solve_fence;
      destruct (generate_ok _ _ _ _ _ Hh Ha E) as [? ?]; clear E Hh Ha
  | E : here hd ?h ?a = Ok _ |- _ =>
      let Hh := fresh "Hh" in let Ha := fresh "Ha" in
      assert (pc_ok hd h) as Hh by assumption;
      assert (fence_ok hd a) as Ha by solve_fence;
      destruct (here_ok _ _ _ _ Hh Ha E) as [? ?]; clear E Hh Ha
  | E : hole hd ?h ?a = Ok _ |- _ =>
      let Hh := fresh "Hh" in let Ha := fresh "Ha" in
      assert (pc_ok hd h) as Hh by assumption;
      assert (fence_ok hd a) as Ha by solve_fence;
      destruct (hole_ok _ _ _ _ _ Hh Ha E) as (? & ? & ?); clear E Hh Ha
  | E : fix_ hd ?h ?hl _ = Ok _ |- _ =>
      let Hh := fresh "Hh" in let Hl := fresh "Hl" in
      assert (pc_ok hd h) as Hh by assumption;
      assert (START_ADDR hd <= hl) as Hl by lia;
      pose proof (fix_ok _ _ _ _ Hh Hl E); clear E Hh Hl
  | E : pack_string hd ?h ?a _ = Ok _ |- _ =>
      let Hh := fresh "Hh" in let Ha := fresh "Ha" in
      assert (pc_ok hd h) as Hh by assumption;
      assert (fence_ok hd a) as Ha by solve_fence;
      destruct (pack_string_ok _ _ _ _ _ _ Hh Ha E) as (? & ? & ?);
      clear E Hh Ha
  end.

Lemma generate_all_ok ws : forall h a h' a',
  pc_ok hd h -> fence_ok hd a -> generate_all hd h a ws = Ok (h', a') ->
  pc_ok hd h' /\ fence_ok hd a'.
Proof.
  induction ws as [|w ws IH]; intros h a h' a' Hh Ha E; cbn [generate_all] in E.
  - ok_inv; split; assumption.
  - ok_inv. ok_use. eapply IH; eassumption.
Qed.

Lemma generate_literal_ok h a n h' a' :
  pc_ok hd h -> fence_ok hd a -> generate_literal hd h a n = Ok (h', a') ->
  pc_ok hd h' /\ fence_ok hd a'.
Proof.
  intros Hh Ha E. unfold generate_literal in E. ok_inv; ok_use; split; assumption.
Qed.

Lemma generate_jump_ok h a t tok ty h' a' :
  pc_ok hd h -> fence_ok hd a -> generate_jump hd h a t tok ty = Ok (h', a') ->
  pc_ok hd h' /\ fence_ok hd a'.
Proof.
  intros Hh Ha E. unfold generate_jump in E.
  destruct (defined tok) as [tk|]; [|discriminate].
  cbn [mbind result_bind rbind] in E.
  match type of E with (?m ≫= _) = _ => destruct m as [addr|] end;
    [|discriminate].
  cbn [mbind result_bind rbind] in E.
  destruct (addr >? MAX_PROGRAM hd); [discriminate|].
  match type of E with (?m ≫= _) = _ => destruct m as [or|] end;
    [|discriminate].
  cbn [mbind result_bind rbind] in E. ok_use. split; assumption.
Qed.

Lemma generate_loop_decrement_ok h a t h' a' :
  pc_ok hd h -> fence_ok hd a ->
  generate_loop_decrement hd h a t = Ok (h', a') ->
  pc_ok hd h' /\ fence_ok hd a'.
Proof.
  intros Hh Ha E. unfold generate_loop_decrement in E.
  match type of E with
  | context [set_do_r_minus_one a ?v] =>
      assert (fence_ok hd (set_do_r_minus_one a v)) as Ha' by exact Ha;
      generalize dependent (set_do_r_minus_one a v)
  end.
  intros a1 E Ha1.
  destruct (do_r_minus_one a1) as [s|];
    [destruct (has (mode a1) MODE_OPTIMIZATION_ON)|].
  - ok_use. split; assumption.
  - exact (generate_all_ok _ _ _ _ _ Hh Ha1 E).
  - exact (generate_all_ok _ _ _ _ _ Hh Ha1 E).
Qed.

Lemma word_header_ok h a flags id h' a' :
  pc_ok hd h -> fence_ok hd a -> word_header hd h a flags id = Ok (h', a') ->
  pc_ok hd h' /\ fence_ok hd a'.
Proof.
  intros Hh Ha E. unfold word_header in E. ok_inv. ok_use. split; assumption.
Qed.

Lemma assemble_location_ok ty token o0 h a t h' a' t' :
  pc_ok hd h -> fence_ok hd a ->
  assemble_location hd ty token o0 h a t = Ok (h', a', t') ->
  pc_ok hd h' /\ fence_ok hd a'.
Proof.
  intros Hh Ha E. unfold assemble_location in E.
  ok_inv; ok_use; split; assumption.
Qed.

Lemma assemble_variable_ok bits token o0 h a t h' a' t' :
  pc_ok hd h -> fence_ok hd a ->
  assemble_variable hd bits token o0 h a t = Ok (h', a', t') ->
  pc_ok hd h' /\ fence_ok hd a'.
Proof.
  intros Hh Ha E. unfold assemble_variable in E.
  match type of E with (?m ≫= _) = _ => destruct m as [[h1 a1]|] eqn:E1 end;
    [|discriminate].
  cbn [mbind result_bind rbind] in E.
  assert (pc_ok hd h1 /\ fence_ok hd a1) as [Hh1 Ha1].
  { destruct (_ && _ && _).
    - match type of E1 with
      | context [set_do_var a ?v] =>
          assert (fence_ok hd (set_do_var a v)) as Ha' by exact Ha;
          generalize dependent (set_do_var a v)
      end.
      intros a2 E1 Ha2. destruct (do_var a2); [|discriminate].
      ok_inv.
      match goal with
      | E : word_header _ _ _ _ _ = Ok _ |- _ =>
          destruct (word_header_ok _ _ _ _ _ _ Hh Ha2 E)
      end.
      ok_use. split; assumption.
    - destruct (negb _); [discriminate|]. ok_inv; split; assumption. }
  exact (assemble_location_ok _ _ _ _ _ _ _ _ _ Hh1 Ha1 E).
Qed.

Lemma assemble_constant_ok bits token o0 h a t h' a' t' :
  pc_ok hd h -> fence_ok hd a ->
  assemble_constant hd bits token o0 h a t = Ok (h', a', t') ->
  pc_ok hd h' /\ fence_ok hd a'.
Proof.
  intros Hh Ha E. unfold assemble_constant in E.
  match type of E with (?m ≫= _) = _ => destruct m as [[h1 a1]|] eqn:E1 end;
    [|discriminate].
  cbn [mbind result_bind rbind] in E.
  assert (pc_ok hd h1 /\ fence_ok hd a1) as [Hh1 Ha1].
  { destruct (_ && _ && _).
    - match type of E1 with
      | context [set_do_const a ?v] =>
          assert (fence_ok hd (set_do_const a v)) as Ha' by exact Ha;
          generalize dependent (set_do_const a v)
      end.
      intros a2 E1 Ha2. destruct (do_const a2); [|discriminate].
      ok_inv.
      match goal with
      | E : word_header _ _ _ _ _ = Ok _ |- _ =>
          destruct (word_header_ok _ _ _ _ _ _ Hh Ha2 E)
      end.
      ok_use. split; assumption.
    - ok_inv; split; assumption. }
  ok_inv; split; assumption.
Qed.

Lemma built_in_loop_ok ws : forall h a t h' a' t',
  pc_ok hd h -> fence_ok hd a ->
  built_in_loop hd ws h a t = Ok (h', a', t') ->
  pc_ok hd h' /\ fence_ok hd a'.
Proof.
  induction ws as [|w ws IH]; intros h a t h' a' t' Hh Ha E;
    cbn [built_in_loop] in E.
  - ok_inv; split; assumption.
  - destruct (negb (compile w)); [exact (IH _ _ _ _ _ _ Hh Ha E)|].
    match type of E with (?m ≫= _) = _ => destruct m as [[h1 a1]|] eqn:E1 end;
      [|discriminate].
    cbn [mbind result_bind rbind] in E.
    assert (pc_ok hd h1 /\ fence_ok hd a1) as [Hh1 Ha1].
    { destruct (negb (bi_hidden w)).
      - exact (word_header_ok _ _ _ _ _ _ Hh Ha E1).
      - ok_inv; split; assumption. }
    clear E1.
    destruct (here hd h1 a1) as [[entry a2]|] eqn:E2; [|discriminate].
    cbn [mbind result_bind rbind] in E.
    destruct (here_ok _ _ _ _ Hh1 Ha1 E2) as [Ha2 _].
    destruct (symbol_table_add t SYMBOL_TYPE_CALL (name w) entry (bi_hidden w))
      as [t1|]; [|discriminate].
    cbn [mbind result_bind rbind] in E.
    destruct (generate_all hd h1 a2 _) as [[h3 a3]|] eqn:E3; [|discriminate].
    cbn [mbind result_bind rbind] in E.
    destruct (generate_all_ok _ _ _ _ _ Hh1 Ha2 E3) as [Hh3 Ha3].
    destruct (generate hd h3 a3 (CODE_EXIT hd)) as [[h4 a4]|] eqn:E4;
      [|discriminate].
    cbn [mbind result_bind rbind] in E.
    destruct (generate_ok _ _ _ _ _ Hh3 Ha3 E4) as [Hh4 Ha4].
    exact (IH _ _ _ _ _ _ Hh4 Ha4 E).
Qed.

Lemma grows_children cs : Forall (grows_child hd) cs.
Proof.
  induction cs as [|[m|] cs IH]; constructor; try assumption.
  - exact (assemble_grows hd m).
  - exact I.
Qed.

(** What the operand of a directive is in a table, it is in every table
    with more symbols. *)
Lemma literal_or_symbol_lookup_extends token t t' v :
  extends t t' ->
  literal_or_symbol_lookup token t = Ok v ->
  literal_or_symbol_lookup token t' = Ok v.
Proof.
  intros Hx. unfold literal_or_symbol_lookup.
  destruct (defined token) as [tk|]; [|discriminate].
  cbn [mbind result_bind rbind].
  destruct (tok_type tk); try discriminate; [exact (fun E => E)|].
  destruct (token_id token) as [id|]; [|discriminate].
  cbn [mbind result_bind rbind].
  destruct (symbol_table_lookup t id) as [s|] eqn:E; [|discriminate].
  rewrite (extends_lookup _ _ _ _ Hx E). exact (fun E => E).
Qed.

Lemma operand_above_le token t cell v :
  operand_above hd final token cell = true ->
  extends t final ->
  literal_or_symbol_lookup token t = Ok v ->
  START_ADDR hd <= cell v.
Proof.
  unfold operand_above. intros H Hx E.
  rewrite (literal_or_symbol_lookup_extends _ _ _ _ Hx E) in H.
  apply Z.leb_le, H.
Qed.

Lemma assemble_children_ok cs : forall h a t h' a' t',
  Forall (keeps_child hd final) cs ->
  pc_ok hd h -> fence_ok hd a ->
  assemble_children hd cs h a t = Ok (h', a', t') ->
  extends t' final ->
  pc_ok hd h' /\ fence_ok hd a'.
Proof.
  induction cs as [|c cs IH]; intros h a t h' a' t' Hk Hh Ha E Hx;
    cbn [assemble_children] in E.
  - ok_inv; split; assumption.
  - inversion Hk as [|? ? Hc Hk']; subst. clear Hk. rename Hk' into Hk.
    destruct c as [m|]; cbn [mbind result_bind rbind] in E.
    + destruct (assemble hd m h a t) as [[[h1 a1] t1]|] eqn:E1; [|discriminate].
      cbn [mbind result_bind rbind] in E.
      destruct (assemble_children_rel hd cs _ _ _ _ _ _ (grows_children cs) E)
        as (_ & _ & Hx1).
      destruct (Hc _ _ _ _ _ _ Hh Ha E1 (extends_trans _ _ _ Hx1 Hx))
        as [Hh1 Ha1].
      exact (IH _ _ _ _ _ _ Hk Hh1 Ha1 E Hx).
    + exact (IH _ _ _ _ _ _ Hk Hh Ha E Hx).
Qed.

(** The tables of the calls of [assemble] that [ok_inv] has laid bare,
    each with the one it leaves. *)
Ltac table_facts :=
  repeat match goal with
  | E : assemble hd ?m _ _ ?t = Ok (_, _, ?t1) |- _ =>
      lazymatch goal with
      | _ : extends t t1 |- _ => fail
      | _ => pose proof (proj2 (proj2 (assemble_grows hd m _ _ _ _ _ _ E)))
      end
  end.

(** The steps of [assemble] that are calls of the functions above. *)
Ltac ok_call :=
  repeat first
    [ progress ok_use
    | match goal with
      | K : keeps hd final ?m, E : assemble hd ?m ?h ?a ?t = Ok (_, _, ?t1) |- _ =>
          let Hh := fresh "Hh" in let Ha := fresh "Ha" in
          let Hx := fresh "Hx" in
          assert (pc_ok hd h) as Hh by assumption;
          assert (fence_ok hd a) as Ha by solve_fence;
          assert (extends t1 final) as Hx by chain_extends;
          destruct (K _ _ _ _ _ _ Hh Ha E Hx) as [? ?]; clear E Hh Ha Hx
      | E : generate_literal hd ?h ?a _ = Ok _ |- _ =>
          let Hh := fresh "Hh" in let Ha := fresh "Ha" in
          assert (pc_ok hd h) as Hh by assumption;
          assert (fence_ok hd a) as Ha by solve_fence;
          destruct (generate_literal_ok _ _ _ _ _ Hh Ha E) as [? ?];
          clear E Hh Ha
      | E : generate_jump hd ?h ?a _ _ _ = Ok _ |- _ =>
          let Hh := fresh "Hh" in let Ha := fresh "Ha" in
          assert (pc_ok hd h) as Hh by assumption;
          assert (fence_ok hd a) as Ha by solve_fence;
          destruct (generate_jump_ok _ _ _ _ _ _ _ Hh Ha E) as [? ?];
          clear E Hh Ha
      | E : generate_loop_decrement hd ?h ?a _ = Ok _ |- _ =>
          let Hh := fresh "Hh" in let Ha := fresh "Ha" in
          assert (pc_ok hd h) as Hh by assumption;
          assert (fence_ok hd a) as Ha by solve_fence;
          destruct (generate_loop_decrement_ok _ _ _ _ _ Hh Ha E) as [? ?];
          clear E Hh Ha
      | E : word_header hd ?h ?a _ _ = Ok _ |- _ =>
          let Hh := fresh "Hh" in let Ha := fresh "Ha" in
          assert (pc_ok hd h) as Hh by assumption;
          assert (fence_ok hd a) as Ha by solve_fence;
          destruct (word_header_ok _ _ _ _ _ _ Hh Ha E) as [? ?];
          clear E Hh Ha
      | E : assemble_constant hd _ _ _ ?h ?a _ = Ok _ |- _ =>
          let Hh := fresh "Hh" in let Ha := fresh "Ha" in
          assert (pc_ok hd h) as Hh by assumption;
          assert (fence_ok hd a) as Ha by solve_fence;
          destruct (assemble_constant_ok _ _ _ _ _ _ _ _ _ Hh Ha E) as [? ?];
          clear E Hh Ha
      | E : assemble_variable hd _ _ _ ?h ?a _ = Ok _ |- _ =>
          let Hh := fresh "Hh" in let Ha := fresh "Ha" in
          assert (pc_ok hd h) as Hh by assumption;
          assert (fence_ok hd a) as Ha by solve_fence;
          destruct (assemble_variable_ok _ _ _ _ _ _ _ _ _ Hh Ha E) as [? ?];
          clear E Hh Ha
      | E : assemble_location hd _ _ _ ?h ?a _ = Ok _ |- _ =>
          let Hh := fresh "Hh" in let Ha := fresh "Ha" in
          assert (pc_ok hd h) as Hh by assumption;
          assert (fence_ok hd a) as Ha by solve_fence;
          destruct (assemble_location_ok _ _ _ _ _ _ _ _ _ Hh Ha E) as [? ?];
          clear E Hh Ha
      | E : built_in_loop hd _ ?h ?a _ = Ok _ |- _ =>
          let Hh := fresh "Hh" in let Ha := fresh "Ha" in
          assert (pc_ok hd h) as Hh by assumption;
          assert (fence_ok hd a) as Ha by solve_fence;
          destruct (built_in_loop_ok _ _ _ _ _ _ _ Hh Ha E) as [? ?];
          clear E Hh Ha
      end ].

(** [.allocate] moves [pc] forward. *)
Lemma allocate_ok h v :
  pc_ok hd h -> pc h <= MAX_PROGRAM hd -> 0 <= v < 65536 ->
  pc_ok hd (set_pc h (u16 (pc h + Z.shiftr v 1))).
Proof.
  intros [Hpc Hl] Hle Hv. pose proof Hsizes as (Hs1 & Hs8 & _).
  split; [|exact Hl]. cbn [set_pc pc].
  assert (0 <= Z.shiftr v 1 < 32768) as Hshift.
  { rewrite Z.shiftr_div_pow2 by lia. change (2 ^ 1) with 2.
    split; [apply Z.div_pos; lia|apply Z.div_lt_upper_bound; lia]. }
  rewrite u16_small by lia. lia.
Qed.

Lemma directives_above_children type bits token value o :
  directives_above hd final (Node type bits token value o) = true ->
  (type = SYM_SET ->
   operand_above hd final token (fun v => Z.shiftr v 1) = true)
  /\ (type = SYM_PC -> operand_above hd final token (fun v => v) = true)
  /\ Forall (fun c => match c with
                      | Some m => directives_above hd final m = true
                      | None => True
                      end) o.
Proof.
  cbn [directives_above]. intros H. apply andb_prop in H as [H Hc].
  split; [intros ->; exact H|]. split; [intros ->; exact H|].
  clear H. induction o as [|c o IH]; constructor.
  - cbn in Hc. apply andb_prop in Hc as [Hc _]. destruct c; [exact Hc|exact I].
  - apply IH. cbn in Hc. apply andb_prop in Hc as [_ Hc]. exact Hc.
Qed.

(** Assembling a tree in which every [.set] and every [.pc] addresses a
    cell at or past the start address keeps [pc] and the fence at or past
    the start address and the cells below it as they are. *)
Lemma assemble_keeps n : directives_above hd final n = true -> keeps hd final n.
Proof.
  induction n as [type bits token value o IH] using node_induction.
  intros Hn. apply directives_above_children in Hn as (Hset & Hpc & Hc).
  assert (Forall (keeps_child hd final) o) as Hk.
  { clear -IH Hc. induction o as [|c o IHo]; constructor.
    - inversion IH; subst. inversion Hc; subst.
      destruct c as [m|]; [cbn; auto|exact I].
    - inversion IH; subst. inversion Hc; subst. apply IHo; assumption. }
  clear IH Hc.
  intros h a t h' a' t' Hh Ha E Hx.
  destruct (decide (type = SYM_STATEMENTS)) as [->|Hst].
  { rewrite assemble_statements_eq in E.
    destruct (pc h >? MAX_PROGRAM hd); [discriminate|].
    exact (assemble_children_ok _ _ _ _ _ _ _ Hk Hh Ha E Hx). }
  cbn [assemble] in E.
  destruct (pc h >? MAX_PROGRAM hd) eqn:Emax; [destruct type; discriminate|].
  rewrite Z.gtb_ltb in Emax. apply Z.ltb_ge in Emax.
  destruct (decide (type = SYM_SET)) as [->|Hnset].
  { specialize (Hset eq_refl). unfold assemble_set in E. ok_inv.
    all: match goal with
         | E : literal_or_symbol_lookup _ _ = Ok _ |- _ =>
             pose proof (operand_above_le _ _ _ _ Hset Hx E) as Hle;
             cbv beta in Hle
         end.
    all: ok_use; split; solve_fence. }
  destruct (decide (type = SYM_PC)) as [->|Hnpc].
  { specialize (Hpc eq_refl). ok_inv.
    match goal with
    | E : literal_or_symbol_lookup _ _ = Ok _ |- _ =>
        pose proof (operand_above_le _ _ _ _ Hpc Hx E) as Hle;
        cbv beta in Hle
    end.
    destruct Hh as [_ Hl]. split; [split; [assumption|exact Hl]|solve_fence]. }
  destruct o as [|o0 [|o1 [|o2 o3]]];
    repeat match goal with
           | H : Forall _ (_ :: _) |- _ => inversion H; subst; clear H
           | H : Forall _ [] |- _ => clear H
           end;
    destruct type; try congruence; try discriminate.
  all: try (ok_inv; cbn [keeps_child] in *; table_facts; ok_call;
            split; solve_fence).
  all: try (ok_inv;
            match goal with
            | E : literal_or_symbol_lookup _ _ = Ok _ |- _ =>
                apply literal_or_symbol_lookup_range in E
            end;
            split; [apply allocate_ok; assumption|solve_fence]).
Qed.

Lemma h2_new_low_cells : low_cells hd (core (h2_new hd (START_ADDR hd))).
Proof.
  pose proof Hsizes as (Hs1 & Hs8 & Hs2 & Hs3).
  split; [apply h2_new_length; lia|].
  intros j Hj. unfold load, h2_new. cbn [core].
  destruct (0 <=? j) eqn:E; [|apply Z.leb_gt in E; lia].
  rewrite lookup_app_l by (rewrite length_replicate; lia).
  apply lookup_replicate_2. lia.
Qed.

End LowCells.

(** [.pc] moves [pc] where it is told to, and what is assembled next is
    written there: [.pc 0 1] assembles and leaves the literal 1 in cell 0. *)
Lemma pc_overwrites_low_cell :
  (exists h, code example_header program_pc_0 None = Ok h
             /\ load (core h) 0 = Some (Z.lor OP_LITERAL 1))
  /\ ~ low_cells_kept example_header.
Proof.
  assert (match code example_header program_pc_0 None with
          | Ok h => load (core h) 0
          | Fail _ => None
          end = Some (Z.lor OP_LITERAL 1)) as H
    by (vm_compute; reflexivity).
  destruct (code example_header program_pc_0 None) as [h|f] eqn:E;
    [|discriminate H].
  split; [exists h; split; [reflexivity|exact H]|].
  intros Hk. destruct (Hk _ _ E) as [_ Hlow].
  rewrite (Hlow 0) in H by (simpl; lia). discriminate H.
Qed.

(** C3, as the code has it.  A program that assembles, and in which every
    [.set] writes a cell at or past the start address and every [.pc]
    moves [pc] at or past it, leaves each cell below the start address as
    [h2_new] filled it, with [OP_BRANCH | START_ADDR].  The operand of a
    directive is a literal or an identifier, whose value is that of its
    symbol in the table [t] that the assembly leaves: symbols are added
    and never changed, so that is its value where the directive stands.
    A [.set] or a [.pc] that addresses a cell below the start address is
    obeyed, as [set_overwrites_low_cell] and [pc_overwrites_low_cell]
    show. *)
Theorem low_cells_kept_above (hd : header) (n : node_t) (h : h2_t)
    (a : assembler_t) (t : symbol_table_t) :
  sizes_ok hd -> CORE_CELLS hd < 65536 ->
  assemble hd n (h2_new hd (START_ADDR hd))
    (set_fence assembler_zero (pc (h2_new hd (START_ADDR hd)))) []
  = Ok (h, a, t) ->
  directives_above hd t n = true ->
  code hd n None = Ok h
  /\ Z.of_nat (length (core h)) = CORE_CELLS hd
  /\ forall j, 0 <= j < START_ADDR hd ->
               load (core h) j = Some (Z.lor OP_BRANCH (START_ADDR hd)).
Proof.
  intros Hs Hc Ea Hn. split.
  { unfold code. cbn [default]. rewrite Ea. reflexivity. }
  assert (pc_ok hd (h2_new hd (START_ADDR hd))) as Hh
    by (split; [apply Z.le_refl|apply h2_new_low_cells, Hs]).
  assert (fence_ok hd (set_fence assembler_zero
                         (pc (h2_new hd (START_ADDR hd))))) as Hf
    by apply Z.le_refl.
  destruct (assemble_keeps hd Hs Hc t n Hn _ _ _ _ _ _ Hh Hf Ea
              (extends_refl t)) as [[_ Hl] _].
  exact Hl.
Qed.

Lemma low_cells_kept_above_witness :
  exists h,
    code example_header program_set_pc_above None = Ok h
    /\ load (core h) 0 = Some (Z.lor OP_BRANCH 8)
    /\ load (core h) 7 = Some (Z.lor OP_BRANCH 8).
Proof.
  assert (match assemble example_header program_set_pc_above
                  (h2_new example_header (START_ADDR example_header))
                  (set_fence assembler_zero
                     (pc (h2_new example_header (START_ADDR example_header))))
                  [] with
          | Ok _ => True
          | Fail _ => False
          end) as Hok by (vm_compute; exact I).
  destruct (assemble example_header program_set_pc_above _ _ [])
    as [[[h a] t]|f] eqn:E; [clear Hok|destruct Hok].
  exists h.
  destruct (low_cells_kept_above example_header program_set_pc_above h a t
              example_header_sizes) as (Hc & _ & Hl).
  - simpl. lia.
  - exact E.
  - reflexivity.
  - split; [exact Hc|]. split; apply Hl; simpl; lia.
Defined.

(** ** The stacks of the simulator *)

(** X15. [dpop] undoes [dpush]: after a push that stays inside the core, the
    pop gives back the value pushed and leaves [tos], [sp], [rp] and [pc] as
    they were before the push, also when [sp] wraps round at 65535; the one
    trace is the old [tos] in the cell above the old stack pointer. *)
Theorem dpush_dpop (h h1 : h2_t) (v : Z) :
  is_cell (sp h) ->
  dpush h v = Some h1 ->
  dpop h1
  = Some (v, {| core := <[Z.to_nat (u16 (sp h + 1)) := tos h]> (core h);
                pc := pc h; tos := tos h; sp := sp h; rp := rp h |}).
Proof.
  intros Hsp Hpush. unfold dpush in Hpush.
  destruct (store (core h) (u16 (sp h + 1)) (tos h)) as [c|] eqn:Es;
    [|discriminate].
  cbn in Hpush. injection Hpush as <-. unfold dpop. cbn [core sp tos pc rp].
  pose proof (store_inv _ _ _ _ Es) as (Hin & ->).
  rewrite load_insert_eq by lia. cbn.
  do 3 f_equal. unfold u16, is_cell in *.
  destruct (Z.eq_dec (sp h) 65535) as [->|Hne]; [reflexivity|].
  rewrite (Z.mod_small (sp h + 1)) by lia.
  replace (sp h + 1 - 1) with (sp h) by lia. apply Z.mod_small. lia.
Qed.

Lemma dpush_dpop_witness :
  dpop {| core := [0; 7]; pc := 0; tos := 9; sp := 1; rp := 0 |}
  = Some (9, {| core := [0; 7]; pc := 0; tos := 7; sp := 0; rp := 0 |}).
Proof.
  apply (dpush_dpop {| core := [0; 0]; pc := 0; tos := 7; sp := 0; rp := 0 |}
           _ 9).
  - unfold is_cell. simpl. lia.
  - reflexivity.
Defined.
(** ** The block file between two runs *)

Lemma cell_bytes_are_bytes cs : Forall is_byte (flat_map cell_bytes cs).
Proof.
  induction cs as [|c cs IH]; [constructor|].
  cbn [flat_map cell_bytes app].
  constructor; [apply land_255_byte|]. constructor; [apply land_255_byte|].
  exact IH.
Qed.

Lemma cells_of_cell_bytes cs :
  Forall is_cell cs -> cells_of_bytes (flat_map cell_bytes cs) = cs.
Proof.
  induction 1 as [|c cs Hc _ IH]; [reflexivity|].
  cbn [flat_map cell_bytes app cells_of_bytes]. rewrite IH. f_equal.
  pose proof (cell_of_bytes c Hc) as E.
  rewrite <- !Z.land_assoc in E. change (Z.land 255 255) with 255 in E.
  pose proof (byte_pair_cell (Z.land c 255) (Z.land (Z.shiftr c 8) 255)
                (land_255_byte _) (land_255_byte _)) as [E' _].
  rewrite <- !Z.land_assoc in E'. change (Z.land 255 255) with 255 in E'.
  congruence.
Qed.

(** X16. The two runs of [main] through the block file.  The assembling run
    saves the [pc] cells below the final program counter, and the simulating
    run loads a whole core from that file.  When the program counter lies
    inside the core the file is too short: [load] returns -1 (which [main]
    does not look at), the cells below the saved [pc] are those of the
    assembled image, and every other cell is as [h2_new] made it, so what
    the assembler wrote at or above its final [pc] is lost. *)
Theorem saved_image_reload (hd : header) (h : h2_t) :
  Forall is_cell (core h) ->
  Z.of_nat (length (core h)) = CORE_CELLS hd ->
  0 <= START_ADDR hd <= CORE_CELLS hd ->
  0 <= pc h < CORE_CELLS hd ->
  exists file,
    save_file h (Some fresh_stream) (pc h) = Ok (0, Some file)
    /\ Z.of_nat (length (written file)) = 2 * pc h
    /\ load_file hd (h2_new hd (START_ADDR hd)) (Some (written file))
       = Ok (-1, set_core (h2_new hd (START_ADDR hd))
                   (take (Z.to_nat (pc h)) (core h)
                    ++ drop (Z.to_nat (pc h))
                         (core (h2_new hd (START_ADDR hd))))).
Proof.
  intros Hcells Hlen Hstart Hpc.
  unfold save_file, binary_memory_save, fresh_stream.
  rewrite binary_memory_save_from_fresh by lia.
  cbn [mbind result_bind rbind app]. change (Z.to_nat 0) with 0%nat.
  rewrite drop_0. eexists. split; [reflexivity|]. cbn [written].
  set (cs := take (Z.to_nat (pc h)) (core h)).
  assert (length cs = Z.to_nat (pc h)) as Hcs
    by (subst cs; rewrite length_take; lia).
  split; [rewrite length_flat_map_cell_bytes; lia|].
  unfold load_file, binary_memory_load.
  pose proof (h2_new_length hd Hstart) as Hnew.
  rewrite binary_memory_load_from_short;
    [|apply cell_bytes_are_bytes
     |rewrite length_flat_map_cell_bytes; lia|lia|lia].
  cbn [mbind result_bind rbind]. change (Z.to_nat 0) with 0%nat.
  rewrite take_0. cbn [app].
  rewrite cells_of_cell_bytes by (subst cs; apply Forall_take, Hcells).
  rewrite length_flat_map_cell_bytes, Hcs.
  replace (0 + 2 * Z.to_nat (pc h) / 2)%nat with (Z.to_nat (pc h))
    by (rewrite Nat.mul_comm, Nat.div_mul by discriminate; reflexivity).
  reflexivity.
Qed.

Lemma saved_image_reload_witness :
  exists file,
    save_file {| core := [0x6081; 0x8001; 0x1234; 0]; pc := 2; tos := 0;
                 sp := 0; rp := 0 |} (Some fresh_stream) 2
    = Ok (0, Some file)
    /\ written file = [0x81; 0x60; 0x01; 0x80]
    /\ load_file {| MAX_PROGRAM := 4; START_ADDR := 1;
                    VARIABLE_STACK_START := 2; RETURN_STACK_START := 3;
                    CORE_CELLS := 4; ALU_OP_LENGTH := 5;
                    R_TO_PC_BIT_INDEX := 4; CODE_FROMR := 0; CODE_LOAD := 0;
                    CODE_T_N1 := 0; CODE_TOR := 0; CODE_RAT := 0;
                    CODE_RDROP := 0; X_MACRO_INSTRUCTIONS := [] |}
         {| core := [1; 0; 0; 0]; pc := 1; tos := 0; sp := 2; rp := 3 |}
         (Some (written file))
       = Ok (-1, {| core := [0x6081; 0x8001; 0; 0]; pc := 1; tos := 0;
                    sp := 2; rp := 3 |}).
Proof.
  set (hd := {| MAX_PROGRAM := 4; START_ADDR := 1;
                VARIABLE_STACK_START := 2; RETURN_STACK_START := 3;
                CORE_CELLS := 4; ALU_OP_LENGTH := 5;
                R_TO_PC_BIT_INDEX := 4; CODE_FROMR := 0; CODE_LOAD := 0;
                CODE_T_N1 := 0; CODE_TOR := 0; CODE_RAT := 0;
                CODE_RDROP := 0; X_MACRO_INSTRUCTIONS := [] |}).
  destruct (saved_image_reload hd
              {| core := [0x6081; 0x8001; 0x1234; 0]; pc := 2; tos := 0;
                 sp := 0; rp := 0 |}) as (file & Hs & _ & Hl).
  - repeat constructor; unfold is_cell; lia.
  - reflexivity.
  - simpl. lia.
  - simpl. lia.
  - exists file. split; [exact Hs|].
    assert (file = {| written := [0x81; 0x60; 0x01; 0x80]; room := None |})
      as -> by (vm_compute in Hs; congruence).
    split; [reflexivity|]. exact Hl.
Defined.

(** ** The tokens that the lexer hands to the parser *)

Lemma numeric_isxdigit c base : numeric c base = true -> isxdigit c = true.
Proof.
  unfold numeric, isxdigit. destruct (base =? 10); [|tauto].
  intros ->. reflexivity.
Qed.

Lemma accumulate_comes_back base ds : forall out,
  forallb (fun c => numeric c base) ds = true ->
  exists v, accumulate base ds out = Ok v.
Proof.
  induction ds as [|c ds IH]; intros out H; cbn [accumulate].
  - eexists. reflexivity.
  - cbn [forallb] in H. apply andb_prop in H as [Hc H].
    rewrite (map_char_to_number_xdigit c (numeric_isxdigit _ _ Hc)).
    cbn [mbind result_bind rbind]. apply IH, H.
Qed.

(** [number] reads the digits only once it has seen that they are digits
    of the base: it does not reach the [fatal] of [map_char_to_number], and
    what it gives has 16 bits. *)
Lemma number_comes_back s :
  exists o, number s = Ok o
            /\ match o with Some n => 0 <= n < 65536 | None => True end.
Proof.
  unfold number. destruct s as [|c0 s0]; [exists None; split; [reflexivity|exact I]|].
  destruct (char_code c0 =? 45).
  - destruct s0 as [|c1 s1]; [exists None; split; [reflexivity|exact I]|].
    destruct (char_code c1 =? 36).
    + destruct s1 as [|c2 s2]; [exists None; split; [reflexivity|exact I]|].
      destruct (forallb _ (c2 :: s2)) eqn:E;
        [|exists None; split; [reflexivity|exact I]].
      destruct (accumulate_comes_back 16 (c2 :: s2) 0 E) as [v ->].
      eexists. split; [reflexivity|]. apply u16_range.
    + destruct (forallb _ (c1 :: s1)) eqn:E;
        [|exists None; split; [reflexivity|exact I]].
      destruct (accumulate_comes_back 10 (c1 :: s1) 0 E) as [v ->].
      eexists. split; [reflexivity|]. apply u16_range.
  - destruct (char_code c0 =? 36).
    + destruct s0 as [|c1 s1]; [exists None; split; [reflexivity|exact I]|].
      destruct (forallb _ (c1 :: s1)) eqn:E;
        [|exists None; split; [reflexivity|exact I]].
      destruct (accumulate_comes_back 16 (c1 :: s1) 0 E) as [v ->].
      eexists. split; [reflexivity|]. apply u16_range.
    + destruct (forallb _ (c0 :: s0)) eqn:E;
        [|exists None; split; [reflexivity|exact I]].
      destruct (accumulate_comes_back 10 (c0 :: s0) 0 E) as [v ->].
      eexists. split; [reflexivity|]. apply u16_range.
Qed.

Lemma keyword_lookup_app ks1 ks2 id :
  keyword_lookup (ks1 ++ ks2) id
  = match keyword_lookup ks1 id with
    | Some sym => Some sym
    | None => keyword_lookup ks2 id
    end.
Proof.
  induction ks1 as [|[k sym] ks1 IH]; [reflexivity|].
  cbn [app keyword_lookup]. destruct (String.eqb k id); [reflexivity|exact IH].
Qed.

Lemma keyword_lookup_instructions (table : list (string * bool * Z)) id :
  forall j sym,
    keyword_lookup (imap (fun k e => (e.1.1, LEX_INSTRUCTION (j + k))) table) id
    = Some sym ->
    exists k, sym = LEX_INSTRUCTION k /\ (k < j + length table)%nat.
Proof.
  induction table as [|e table IH]; intros j sym H; [discriminate|].
  cbn [imap keyword_lookup] in H.
  destruct (String.eqb e.1.1 id).
  - injection H as <-. exists (j + 0)%nat. split; [reflexivity|]. cbn. lia.
  - rewrite (imap_ext _ (fun k e => (e.1.1, LEX_INSTRUCTION (S j + k)))) in H
      by (intros; cbn; do 2 f_equal; lia).
    apply IH in H as (k & -> & Hk). exists k. split; [reflexivity|].
    cbn [length]. lia.
Qed.

(** A keyword is a token without a payload, and an instruction among the
    keywords has its place in the mnemonic table. *)
Lemma keyword_lookup_token hd id sym line :
  keyword_lookup (keywords hd) id = Some sym ->
  token_ok hd {| tok_p := p_none; tok_line := line; tok_type := sym |} = true.
Proof.
  unfold keywords. rewrite keyword_lookup_app.
  destruct (keyword_lookup named_tokens id) as [s|] eqn:E.
  - intros [= <-]. unfold named_tokens in E. cbn [keyword_lookup] in E.
    repeat match type of E with
           | (if ?b then _ else _) = _ => destruct b; [injection E as <-; reflexivity|]
           end.
    discriminate E.
  - intros H.
    apply (keyword_lookup_instructions (X_MACRO_INSTRUCTIONS hd) id 0) in H
      as (k & -> & Hk).
    unfold token_ok. cbn [tok_type tok_p]. apply Nat.ltb_lt. lia.
Qed.

Lemma scan_string_length s : forall i id id' rest,
  scan_string s i id = Ok (id', rest) -> (length rest < length s)%nat.
Proof.
  induction s as [|c s IH]; intros i id id' rest E; cbn [scan_string] in E;
    [discriminate|].
  destruct (char_code c =? 34); [injection E as _ <-; cbn; lia|].
  destruct (MAX_ID_LENGTH - 1 <=? i); [discriminate|].
  apply IH in E. cbn. lia.
Qed.

Lemma scan_graph_length s : forall i id id' rest,
  scan_graph s i id = Ok (id', rest) -> (length rest <= length s)%nat.
Proof.
  induction s as [|c s IH]; intros i id id' rest E; cbn [scan_graph] in E.
  - injection E as _ <-. reflexivity.
  - destruct (isgraph c); [|injection E as _ <-; reflexivity].
    destruct (MAX_ID_LENGTH - 1 <=? i); [discriminate|].
    apply IH in E. cbn. lia.
Qed.

Lemma lexed_token hd l rest line line0 ty pl indef n :
  token_ok hd {| tok_p := pl; tok_line := line0; tok_type := ty |} = true ->
  flag_step (l_in_definition l) ty indef ->
  (S (length rest) <= n)%nat ->
  lexed hd l n
    {| l_input := rest; l_line := line;
       l_token := Some {| tok_p := pl; tok_line := line0; tok_type := ty |};
       l_accepted := l_accepted l; l_in_definition := indef |}.
Proof.
  intros Hok Hflag Hn. split; [eexists; split; [reflexivity|]; split;
                               [exact Hok|exact Hflag]|].
  split; [reflexivity|]. unfold tokens_left. cbn [l_input l_token].
  destruct ty; lia.
Qed.

Lemma classify_lexed hd l line0 id rest line l' :
  classify hd l line0 id rest line = Ok l' ->
  lexed hd l (S (length rest)) l'.
Proof.
  unfold classify. destruct (number_comes_back id) as (o & -> & Ho).
  cbn [mbind result_bind rbind].
  destruct o as [n|].
  - intros [= <-]. apply lexed_token; [|reflexivity|lia].
    unfold token_ok. cbn [tok_type tok_p].
    apply andb_true_intro. split; [apply Z.leb_le|apply Z.ltb_lt]; lia.
  - destruct (keyword_lookup (keywords hd) (String.string_of_list_ascii id))
      as [sym|] eqn:Ek.
    + pose proof (keyword_lookup_token hd _ sym line0 Ek) as Hok.
      destruct sym;
        try (intros [= <-]; apply lexed_token; [exact Hok|reflexivity|lia]);
        destruct (l_in_definition l) eqn:Ef; try discriminate;
        intros [= <-]; (apply lexed_token; [exact Hok| |lia]);
        rewrite Ef; split; reflexivity.
    + destruct (_ && _); intros [= <-];
        (apply lexed_token; [reflexivity|reflexivity|lia]).
Qed.

Lemma classify_passes hd l line0 id rest line :
  passes (classify hd l line0 id rest line) (fun _ => True).
Proof.
  unfold classify. destruct (number_comes_back id) as (o & -> & _).
  cbn [mbind result_bind rbind].
  destruct o; [exact I|].
  destruct (keyword_lookup _ _) as [sym|].
  - destruct sym; try exact I; destruct (l_in_definition l);
      first [exact I|split; discriminate].
  - destruct (_ && _); exact I.
Qed.

Lemma lexed_le hd l n m l' :
  lexed hd l n l' -> (n <= m)%nat -> lexed hd l m l'.
Proof.
  intros (H1 & H2 & H3) Hle. split; [exact H1|]. split; [exact H2|]. lia.
Qed.

(** One turn of the switch of [lexer]; [Hagain] is what the jumps back to
    [again] give. *)
Ltac lexer_turn hd l ch s line E Hagain :=
  destruct (char_code ch =? 10);
    [first [discriminate E|apply Hagain in E; [exact E|lia]]|];
  destruct (_ || _);
    [first [discriminate E|apply Hagain in E; [exact E|lia]]|];
  destruct (char_code ch =? 92);
    [let Es := fresh "Es" in
     destruct (skip_line s) as [?s2|] eqn:Es; [|discriminate];
     apply skip_line_length in Es;
     first [discriminate E|apply Hagain in E; [exact E|lia]]|];
  destruct (char_code ch =? 40);
    [let Es := fresh "Es" in
     destruct s as [|?c1 ?s2]; [discriminate|];
     match type of E with
     | (if isspace ?c then _ else _) = _ => destruct (isspace c)
     end; [|discriminate];
     match type of E with
     | match skip_paren ?s2 ?ln with _ => _ end = _ =>
         destruct (skip_paren s2 ln) as [[?s3 ?line3]|] eqn:Es
     end; [|discriminate];
     apply skip_paren_length in Es;
     first [discriminate E|apply Hagain in E; [exact E|cbn; lia]]|];
  destruct (char_code ch =? 34);
    [let Es := fresh "Es" in
     destruct (scan_string s 0 []) as [[?id ?rest]|?f] eqn:Es; [|discriminate];
     cbn [mbind result_bind rbind] in E; injection E as <-;
     apply scan_string_length in Es;
     apply lexed_token; [reflexivity|reflexivity|cbn [length]; lia]|];
  let Eg := fresh "Eg" in
  let Es := fresh "Es" in
  destruct (isgraph ch) eqn:Eg; [|discriminate];
  cbn [scan_graph] in E; rewrite Eg in E;
  destruct (MAX_ID_LENGTH - 1 <=? 0); [discriminate|];
  destruct (scan_graph s (0 + 1) ([] ++ [ch])) as [[?id ?rest]|?f] eqn:Es;
    [|discriminate];
  cbn [mbind result_bind rbind] in E; apply scan_graph_length in Es;
  apply classify_lexed in E; apply (lexed_le _ _ _ _ _ E); cbn [length]; lia.

Lemma lexer_again_lexed hd turns : forall l line0 s line l',
  lexer_again hd turns l line0 s line = Ok l' ->
  lexed hd l (length s) l'.
Proof.
  induction turns as [|turns IH]; intros l line0 s line l' E;
    (destruct s as [|ch s]; cbn [lexer_again] in E;
     [injection E as <-;
      split; [eexists; split; [reflexivity|]; split; reflexivity|];
      split; [reflexivity|cbn; lia]|]).
  - pose proof I as Hagain. lexer_turn hd l ch s line E Hagain.
  - assert (forall s2 line2 l2,
               (length s2 <= length s)%nat ->
               lexer_again hd turns l line0 s2 line2 = Ok l2 ->
               lexed hd l (length (ch :: s)) l2) as Hagain.
    { intros s2 line2 l2 Hlen E2. apply IH in E2.
      apply (lexed_le _ _ _ _ _ E2). cbn [length]. lia. }
    lexer_turn hd l ch s line E Hagain.
Qed.

Lemma passes_bind {A B} (m : result A) (k : A -> result B) (Q : B -> Prop) :
  passes m (fun x => passes (k x) Q) -> passes (m ≫= k) Q.
Proof. destruct m; cbn; trivial. Qed.

Lemma passes_mono {A} (r : result A) (Q Q' : A -> Prop) :
  passes r Q -> (forall x, r = Ok x -> Q x -> Q' x) -> passes r Q'.
Proof. destruct r; cbn; auto. Qed.

Lemma scan_string_passes s : forall i id,
  passes (scan_string s i id) (fun _ => True).
Proof.
  induction s as [|c s IH]; intros i id; cbn [scan_string];
    [split; discriminate|].
  destruct (char_code c =? 34); [exact I|].
  destruct (MAX_ID_LENGTH - 1 <=? i); [split; discriminate|apply IH].
Qed.

Lemma scan_graph_passes s : forall i id,
  passes (scan_graph s i id) (fun _ => True).
Proof.
  induction s as [|c s IH]; intros i id; cbn [scan_graph]; [exact I|].
  destruct (isgraph c); [|exact I].
  destruct (MAX_ID_LENGTH - 1 <=? i); [split; discriminate|apply IH].
Qed.

(** The lexer does not end in [fatal]. *)
Lemma lexer_again_passes hd turns : forall l line0 s line,
  passes (lexer_again hd turns l line0 s line) (fun _ => True).
Proof.
  induction turns as [|turns IH]; intros l line0 s line;
    (destruct s as [|ch s]; cbn [lexer_again]; [exact I|]);
    (destruct (char_code ch =? 10); [first [split; discriminate|apply IH]|]);
    (destruct (_ || _); [first [split; discriminate|apply IH]|]);
    (destruct (char_code ch =? 92);
     [destruct (skip_line s); first [split; discriminate|apply IH]|]);
    (destruct (char_code ch =? 40);
     [destruct s as [|c1 s2]; [split; discriminate|]; destruct (isspace c1);
      [|split; discriminate];
      destruct (skip_paren s2 line) as [[]|];
      first [split; discriminate|apply IH]|]);
    (destruct (char_code ch =? 34);
     [apply passes_bind; eapply passes_mono; [apply scan_string_passes|];
      intros [id rest] _ _; exact I|]);
    (destruct (isgraph ch); [|split; discriminate]);
    (apply passes_bind; eapply passes_mono; [apply scan_graph_passes|]);
    intros [id rest] _ _; apply classify_passes.
Qed.

Lemma lexer_lexed hd l l' :
  lexer hd l = Ok l' -> lexed hd l (length (l_input l)) l'.
Proof. unfold lexer. intros E. exact (lexer_again_lexed _ _ _ _ _ _ _ E). Qed.

Lemma lexer_passes hd l : passes (lexer hd l) (fun _ => True).
Proof. unfold lexer. exact (lexer_again_passes _ _ _ _ _ _). Qed.

(** ** The parser *)

Lemma ends_bind {A B} (m : parsed A) (k : A -> parsed B) (Q : B -> Prop) :
  ends m (fun x => ends (k x) Q) -> ends (m ≫= k) Q.
Proof. destruct m; cbn; trivial. Qed.

Lemma ends_mono {A} (r : parsed A) (Q Q' : A -> Prop) :
  ends r Q -> (forall x, r = Parsed x -> Q x -> Q' x) -> ends r Q'.
Proof. destruct r; cbn; auto. Qed.

Lemma ends_lift {A} (r : result A) (Q : A -> Prop) :
  passes r Q -> ends (lift r) Q.
Proof. destruct r; cbn; trivial. Qed.

Lemma token_in_weaken hd sym types tk :
  token_in hd [sym] tk = true -> sym ∈ types -> token_in hd types tk = true.
Proof.
  unfold token_in. destruct tk as [tk|]; [|discriminate]. intros H Hin.
  apply andb_prop in H as [Hok Hty]. apply bool_decide_eq_true in Hty.
  apply list_elem_of_singleton in Hty. rewrite Hok, Hty.
  apply bool_decide_eq_true. exact Hin.
Qed.

Lemma tokens_left_set_accepted l tk :
  tokens_left (set_accepted l tk) = tokens_left l.
Proof. reflexivity. Qed.

Lemma lexer_ready_set_accepted hd body l tk :
  lexer_ready hd body l -> lexer_ready hd body (set_accepted l tk).
Proof. intros H. exact H. Qed.

(** Where the parser is after a token: inside the body of a definition
    after the colon, outside after the semicolon, and where it was after
    any other token that can be taken there. *)
Lemma next_context_other body sym :
  sym <> LEX_DEFINE -> sym <> LEX_ENDDEFINE -> next_context body sym = body.
Proof. destruct sym; intros; first [reflexivity|congruence]. Qed.

Lemma flag_step_other before ty after :
  ty <> LEX_DEFINE -> ty <> LEX_ENDDEFINE ->
  flag_step before ty after -> after = before.
Proof. destruct ty; cbn; intros; first [assumption|congruence]. Qed.

Lemma in_body_next body sym before ty after :
  in_body body sym before -> flag_step before ty after ->
  in_body (next_context body sym) ty after.
Proof.
  intros Hin Hstep.
  assert (ty = LEX_DEFINE /\ before = false /\ after = true
          \/ ty = LEX_ENDDEFINE /\ before = true /\ after = false
          \/ ty <> LEX_DEFINE /\ ty <> LEX_ENDDEFINE /\ after = before)
    as Hty.
  { destruct (decide (ty = LEX_DEFINE)) as [->|Hd];
      [left; destruct Hstep; auto|].
    destruct (decide (ty = LEX_ENDDEFINE)) as [->|He];
      [right; left; destruct Hstep; auto|].
    right; right. split; [exact Hd|]. split; [exact He|].
    exact (flag_step_other _ _ _ Hd He Hstep). }
  clear Hstep.
  assert (sym = LEX_DEFINE /\ next_context body sym = true
          \/ sym = LEX_ENDDEFINE /\ next_context body sym = false
          \/ sym <> LEX_DEFINE /\ sym <> LEX_ENDDEFINE
             /\ next_context body sym = body) as Hsym.
  { destruct (decide (sym = LEX_DEFINE)) as [->|Hd]; [left; auto|].
    destruct (decide (sym = LEX_ENDDEFINE)) as [->|He]; [right; left; auto|].
    right; right. split; [exact Hd|]. split; [exact He|].
    exact (next_context_other _ _ Hd He). }
  unfold in_body in *.
  destruct Hsym as [[-> ->]|[[-> ->]|(Hs1 & Hs2 & ->)]];
    destruct Hty as [(-> & -> & ->)|[(-> & -> & ->)|(Ht1 & Ht2 & ->)]];
    destruct body; destruct Hin as [Hne [H1 H2]];
    try (exfalso; apply Hne; reflexivity);
    try (split; [discriminate|split; intros; congruence]);
    try (split; [assumption|split; intros; congruence]);
    try (exfalso; discriminate (H2 eq_refl));
    try (exfalso; discriminate (H1 eq_refl)).
  all: try (destruct before);
    try (exfalso;
         first [apply Hs2, H1; reflexivity|apply Hs1, H1; reflexivity
               |discriminate (H2 eq_refl)|discriminate (H1 eq_refl)]; fail);
    (split; [assumption|split; intros; congruence]).
Qed.

(** [accept] of a token that is not the end of the input: the token moves
    to [accepted] and the lexer has gone on by one token, or nothing has
    changed. *)
Lemma accept_ends hd body l sym :
  lexer_ready hd body l -> sym <> LEX_EOI ->
  ends (accept hd l sym)
    (fun r => if r.1
              then may_take body sym
                   /\ took hd (next_context body sym) sym l r.2
              else r.2 = l).
Proof.
  intros (tk & Etk & Hok & Hbody) Hsym. unfold accept. rewrite Etk.
  cbn [defined lift mbind parsed_bind pbind].
  destruct (bool_decide (sym = tok_type tk)) eqn:Ety; [|reflexivity].
  apply bool_decide_eq_true in Ety.
  destruct (bool_decide (sym = LEX_EOI)) eqn:Ee;
    [apply bool_decide_eq_true in Ee; contradiction|].
  apply ends_bind, ends_lift.
  eapply passes_mono; [exact (lexer_passes _ _)|]. intros l' El _.
  apply lexer_lexed in El as ((tk' & Etk' & Hok' & Hstep) & Hacc & Hleft).
  cbn [ends fst snd]. rewrite <- Ety in Hbody.
  split; [|split; [|split]].
  - unfold may_take, in_body in *. destruct body; tauto.
  - unfold accepted_as. rewrite Hacc. cbn [set_accepted l_accepted].
    unfold token_in. rewrite Hok. apply andb_true_intro. split; [reflexivity|].
    apply bool_decide_eq_true, list_elem_of_singleton. symmetry. exact Ety.
  - exists tk'. split; [exact Etk'|]. split; [exact Hok'|].
    exact (in_body_next _ _ _ _ _ Hbody Hstep).
  - cbn [set_accepted l_input] in Hleft. unfold tokens_left at 2.
    rewrite Etk. destruct tk as [p ln ty]. cbn [tok_type] in Ety. subst ty.
    destruct sym; try lia. contradiction.
Qed.

(** *** The rules of the grammar, one by one *)

(** One call of [accept] in a chain: the case where the token is taken,
    with what is known then as [H], and the case where it is not. *)
Ltac accept_step H :=
  apply ends_bind; eapply ends_mono;
  [eapply accept_ends; [eassumption|discriminate]|];
  let l' := fresh "l" in
  let Hmay := fresh "Hmay" in
  intros [[] l'] _ H; cbn [fst snd] in H;
  [destruct H as [Hmay H]; cbn [next_context] in H|subst l'];
  cbv beta iota.

Lemma expect_ends hd body l sym :
  lexer_ready hd body l -> sym <> LEX_EOI ->
  ends (expect hd l sym) (took hd (next_context body sym) sym l).
Proof.
  intros Hr Hsym. unfold expect. apply ends_bind.
  eapply ends_mono; [apply (accept_ends hd body); assumption|].
  intros [[] l'] _ H; cbn [fst snd] in H; cbv beta iota;
    [exact (proj2 H)|exact I].
Qed.

Ltac expect_step H :=
  apply ends_bind; eapply ends_mono;
  [eapply expect_ends; [eassumption|discriminate]|];
  let l' := fresh "l" in
  intros l' _ H; cbn [next_context] in H; cbv beta iota.

(** A leaf is no definition. *)
Lemma leaf_flat hd body type bits token value :
  shape hd (Node type bits token value []) = true ->
  flat body (Node type bits token value []) = true.
Proof.
  intros Hs. unfold flat. cbn [no_definition definitions_flat forallb].
  destruct type; try (destruct body; reflexivity).
  unfold shape in Hs. cbn [fmap list_fmap] in Hs.
  apply andb_prop in Hs as [_ Hs]. discriminate Hs.
Qed.

Lemma leaf_post hd body l0 l sym (type : parse_e) :
  took hd body sym l0 l ->
  shape hd (Node type 0 (l_accepted l) None []) = true ->
  rule_post hd body l0 [type]
    (Node type 0 (l_accepted l) None [], set_accepted l None).
Proof.
  intros (Ha & Hr & Hl) Hs. unfold rule_post. cbn [fst snd tree_ok forallb].
  rewrite Hs. split; [reflexivity|]. split; [constructor|].
  split; [apply (leaf_flat hd), Hs|].
  split; [exact Hr|]. rewrite tokens_left_set_accepted. lia.
Qed.

Lemma took_trans hd body body' sym sym' l0 l1 l2 :
  took hd body sym l0 l1 -> took hd body' sym' (set_accepted l1 None) l2 ->
  took hd body' sym' l0 l2.
Proof.
  intros (_ & _ & H1) (Ha & Hr & H2). rewrite tokens_left_set_accepted in H2.
  split; [exact Ha|]. split; [exact Hr|]. lia.
Qed.

Lemma took_ready hd body sym l0 l :
  took hd body sym l0 l -> lexer_ready hd body l.
Proof. intros (_ & H & _). exact H. Qed.

Lemma took_accepted hd body sym l0 l :
  took hd body sym l0 l -> accepted_as hd sym l.
Proof. intros (H & _). exact H. Qed.

#[local] Hint Resolve took_ready lexer_ready_set_accepted : core.

Lemma jump_ends hd body l type :
  lexer_ready hd body l -> type ∈ [SYM_CALL; SYM_BRANCH; SYM_0BRANCH] ->
  ends (jump hd l type) (rule_post hd body l [type]).
Proof.
  intros Hr Hty. unfold jump.
  assert (forall sym l1,
             sym ∈ [LEX_LITERAL; LEX_STRING; LEX_IDENTIFIER] ->
             took hd body sym l l1 ->
             rule_post hd body l [type]
               (Node type 0 (l_accepted l1) None [], set_accepted l1 None))
    as Hleaf.
  { intros sym l1 Hsym Ht. apply (leaf_post hd body l l1 sym type Ht).
    pose proof (took_accepted _ _ _ _ _ Ht) as Ha. unfold accepted_as in Ha.
    unfold shape. cbn [fmap list_fmap].
    rewrite (token_in_weaken _ _ [LEX_LITERAL; LEX_STRING; LEX_IDENTIFIER] _ Ha)
      by exact Hsym.
    repeat (apply elem_of_cons in Hty as [->|Hty]; [reflexivity|]).
    inversion Hty. }
  accept_step H.
  { cbn [mbind parsed_bind pbind use node_new replicate ends].
    eapply Hleaf; [|exact H]; repeat constructor. }
  apply ends_bind. accept_step H.
  { cbn [mbind parsed_bind pbind use node_new replicate ends].
    eapply Hleaf; [|exact H]; repeat constructor. }
  eapply ends_mono; [eapply expect_ends; [eassumption|discriminate]|].
  intros l1 _ H. cbn [next_context] in H. cbn [mbind parsed_bind pbind use node_new replicate ends].
  eapply Hleaf; [|exact H]; repeat constructor.
Qed.
Lemma is_instruction_accepted hd k tk :
  token_in hd [LEX_INSTRUCTION k] tk = true -> is_instruction hd tk = true.
Proof.
  unfold token_in, is_instruction. destruct tk as [tk|]; [|discriminate].
  intros H. apply andb_prop in H as [-> Hty].
  apply bool_decide_eq_true, list_elem_of_singleton in Hty. rewrite Hty.
  reflexivity.
Qed.

Lemma defined_by_token_post hd body l0 l sym type :
  took hd body sym l0 l ->
  (sym, type) ∈ [(LEX_LITERAL, SYM_LITERAL); (LEX_LABEL, SYM_LABEL);
                 (LEX_IDENTIFIER, SYM_CALL_DEFINITION);
                 (LEX_BUILT_IN, SYM_BUILT_IN); (LEX_STRING, SYM_STRING)]
  \/ (exists k, sym = LEX_INSTRUCTION k) /\ type = SYM_INSTRUCTION ->
  rule_post hd body l0 [type] (defined_by_token l type).
Proof.
  intros Ht Hty. unfold defined_by_token. cbn [use node_new replicate].
  apply (leaf_post hd body l0 l sym type Ht).
  pose proof (took_accepted _ _ _ _ _ Ht) as Ha. unfold accepted_as in Ha.
  destruct Hty as [Hty|[[k ->] ->]].
  - repeat (apply elem_of_cons in Hty as [[= -> ->]|Hty];
            [unfold shape; cbn [fmap list_fmap]; rewrite Ha; reflexivity|]).
    inversion Hty.
  - unfold shape. cbn [fmap list_fmap].
    rewrite (is_instruction_accepted _ _ _ Ha). reflexivity.
Qed.

Lemma mode_ends hd body l :
  lexer_ready hd body l -> ends (mode_ hd l) (rule_post hd body l [SYM_MODE]).
Proof.
  intros Hr. unfold mode_. expect_step H.
  cbn [use node_new replicate ends]. apply (leaf_post _ _ _ _ _ _ H).
  unfold shape. cbn [fmap list_fmap]. rewrite (took_accepted _ _ _ _ _ H).
  reflexivity.
Qed.

Lemma literal_or_identifier_ends hd body l type :
  lexer_ready hd body l -> type ∈ [SYM_PC; SYM_PWD] ->
  ends (literal_or_identifier hd type l) (rule_post hd body l [type]).
Proof.
  intros Hr Hty. unfold literal_or_identifier.
  assert (forall sym l1,
             sym ∈ [LEX_LITERAL; LEX_IDENTIFIER] ->
             took hd body sym l l1 ->
             rule_post hd body l [type]
               (Node type 0 (l_accepted l1) None [], set_accepted l1 None))
    as Hleaf.
  { intros sym l1 Hsym Ht. apply (leaf_post hd body l l1 sym type Ht).
    pose proof (took_accepted _ _ _ _ _ Ht) as Ha. unfold accepted_as in Ha.
    unfold shape. cbn [fmap list_fmap].
    rewrite (token_in_weaken _ _ [LEX_LITERAL; LEX_IDENTIFIER] _ Ha)
      by exact Hsym.
    repeat (apply elem_of_cons in Hty as [->|Hty]; [reflexivity|]).
    inversion Hty. }
  accept_step H.
  { cbn [mbind parsed_bind pbind use node_new replicate ends].
    eapply Hleaf; [|exact H]; repeat constructor. }
  apply ends_bind.
  eapply ends_mono; [eapply expect_ends; [eassumption|discriminate]|].
  intros l1 _ H. cbn [next_context] in H. cbn [mbind parsed_bind pbind use node_new replicate ends].
  eapply Hleaf; [|exact H]; repeat constructor.
Qed.

Lemma allocate_ends hd body l :
  lexer_ready hd body l -> ends (allocate hd l) (rule_post hd body l [SYM_ALLOCATE]).
Proof.
  intros Hr. unfold allocate.
  assert (forall sym l1,
             sym ∈ [LEX_LITERAL; LEX_IDENTIFIER] ->
             took hd body sym l l1 ->
             rule_post hd body l [SYM_ALLOCATE]
               (Node SYM_ALLOCATE 0 (l_accepted l1) None [],
                set_accepted l1 None))
    as Hleaf.
  { intros sym l1 Hsym Ht. apply (leaf_post hd body l l1 sym _ Ht).
    pose proof (took_accepted _ _ _ _ _ Ht) as Ha. unfold accepted_as in Ha.
    unfold shape. cbn [fmap list_fmap].
    rewrite (token_in_weaken _ _ [LEX_LITERAL; LEX_IDENTIFIER] _ Ha)
      by exact Hsym.
    reflexivity. }
  accept_step H.
  { cbn [mbind parsed_bind pbind use node_new replicate ends].
    eapply Hleaf; [|exact H]; repeat constructor. }
  apply ends_bind.
  eapply ends_mono; [eapply expect_ends; [eassumption|discriminate]|].
  intros l1 _ H. cbn [next_context] in H. cbn [mbind parsed_bind pbind use node_new replicate ends].
  eapply Hleaf; [|exact H]; repeat constructor.
Qed.

Lemma quote_ends hd body l :
  lexer_ready hd body l -> ends (quote hd l) (rule_post hd body l [SYM_QUOTE]).
Proof.
  intros Hr. unfold quote.
  assert (forall sym l1,
             sym ∈ [LEX_IDENTIFIER; LEX_STRING] ->
             took hd body sym l l1 ->
             rule_post hd body l [SYM_QUOTE]
               (Node SYM_QUOTE 0 (l_accepted l1) None [],
                set_accepted l1 None))
    as Hleaf.
  { intros sym l1 Hsym Ht. apply (leaf_post hd body l l1 sym _ Ht).
    pose proof (took_accepted _ _ _ _ _ Ht) as Ha. unfold accepted_as in Ha.
    unfold shape. cbn [fmap list_fmap].
    rewrite (token_in_weaken _ _ [LEX_IDENTIFIER; LEX_STRING] _ Ha)
      by exact Hsym.
    reflexivity. }
  accept_step H.
  { cbn [mbind parsed_bind pbind use node_new replicate ends].
    eapply Hleaf; [|exact H]; repeat constructor. }
  apply ends_bind.
  eapply ends_mono; [eapply expect_ends; [eassumption|discriminate]|].
  intros l1 _ H. cbn [next_context] in H. cbn [mbind parsed_bind pbind use node_new replicate ends].
  eapply Hleaf; [|exact H]; repeat constructor.
Qed.

Lemma accepted_is_Some hd types l :
  token_in hd types (l_accepted l) = true ->
  exists tk, l_accepted l = Some tk.
Proof. destruct (l_accepted l) as [tk|]; [eauto|discriminate]. Qed.

Lemma set_ends hd body l :
  lexer_ready hd body l -> ends (set hd l) (rule_post hd body l [SYM_SET]).
Proof.
  intros Hr. unfold set.
  assert (forall sym l1,
             sym ∈ [LEX_IDENTIFIER; LEX_LITERAL] ->
             took hd body sym l l1 ->
             ends ('(b, l2) ← accept hd (set_accepted l1 None) LEX_IDENTIFIER;
                   l2 ← (if b : bool then Parsed l2
                         else
                           '(b, l2) ← accept hd l2 LEX_STRING;
                           if b : bool then Parsed l2
                           else expect hd l2 LEX_LITERAL);
                   let '(l2, r) :=
                     use l2 (Node SYM_SET 0 (l_accepted l1) None []) in
                   Parsed (r, l2))
               (rule_post hd body l [SYM_SET])) as Hsecond.
  { intros sym l1 Hsym Ht.
    pose proof (took_accepted _ _ _ _ _ Ht) as Ha. unfold accepted_as in Ha.
    pose proof (token_in_weaken _ _ [LEX_IDENTIFIER; LEX_LITERAL] _ Ha Hsym)
      as Ha1.
    destruct (accepted_is_Some _ _ _ Ha) as [tk1 Etk1]. rewrite Etk1 in *.
    assert (lexer_ready hd body (set_accepted l1 None)) as Hr1 by eauto.
    assert (forall sym' l2,
               sym' ∈ [LEX_IDENTIFIER; LEX_STRING; LEX_LITERAL] ->
               took hd body sym' (set_accepted l1 None) l2 ->
               rule_post hd body l [SYM_SET]
                 (Node SYM_SET 0 (Some tk1) (l_accepted l2) [],
                  set_accepted l2 None)) as Hleaf.
    { intros sym' l2 Hsym' Ht2.
      pose proof (took_trans _ _ _ _ _ _ _ _ Ht Ht2) as (Ha2 & Hr2 & Hl2).
      unfold accepted_as in Ha2. unfold rule_post.
      cbn [fst snd tree_ok forallb shape fmap list_fmap].
      rewrite Ha1.
      rewrite (token_in_weaken _ _ [LEX_IDENTIFIER; LEX_STRING; LEX_LITERAL]
                 _ Ha2) by exact Hsym'.
      split; [reflexivity|]. split; [constructor|].
      split; [destruct body; reflexivity|]. split; [exact Hr2|].
      rewrite tokens_left_set_accepted. lia. }
    accept_step H2.
    { cbn [mbind parsed_bind pbind use ends].
      eapply Hleaf; [|exact H2]; repeat constructor. }
    apply ends_bind. accept_step H2.
    { cbn [mbind parsed_bind pbind use ends].
      eapply Hleaf; [|exact H2]; repeat constructor. }
    eapply ends_mono; [eapply expect_ends; [eassumption|discriminate]|].
    intros l2 _ H2. cbn [next_context] in H2. cbn [mbind parsed_bind pbind use ends].
    eapply Hleaf; [|exact H2]; repeat constructor. }
  accept_step H.
  { cbn [mbind parsed_bind pbind use node_new replicate].
    eapply Hsecond; [|exact H]; repeat constructor. }
  apply ends_bind.
  eapply ends_mono; [eapply expect_ends; [eassumption|discriminate]|].
  intros l1 _ H. cbn [next_context] in H. cbn [mbind parsed_bind pbind use node_new replicate].
  eapply Hsecond; [|exact H]; repeat constructor.
Qed.
Lemma accepted_identifier hd l :
  token_in hd [LEX_IDENTIFIER] (l_accepted l) = true ->
  exists tk id, l_accepted l = Some tk /\ tok_p tk = p_id id.
Proof.
  unfold token_in. destruct (l_accepted l) as [tk|]; [|discriminate].
  intros H. apply andb_prop in H as [Hok Hty].
  apply bool_decide_eq_true, list_elem_of_singleton in Hty.
  unfold token_ok in Hok. rewrite Hty in Hok.
  destruct (tok_p tk) as [|id|] eqn:E; try discriminate. eauto.
Qed.

Lemma char_compile_ends hd body l :
  lexer_ready hd body l -> ends (char_compile hd l) (rule_post hd body l [SYM_CHAR]).
Proof.
  intros Hr. unfold char_compile. expect_step H.
  cbn [use node_new replicate node_token].
  pose proof (took_accepted _ _ _ _ _ H) as Ha. unfold accepted_as in Ha.
  destruct (accepted_identifier _ _ Ha) as (tk & id & Etk & Eid).
  unfold token_id. rewrite Etk. destruct tk as [p ln ty].
  cbn [tok_p] in Eid. subst p. cbn [lift mbind parsed_bind pbind].
  destruct (1 <? String.length id)%nat eqn:E; [exact I|].
  cbn [ends]. rewrite <- Etk. apply (leaf_post _ _ _ _ _ _ H).
  unfold shape. cbn [fmap list_fmap]. rewrite Ha, Etk.
  cbn [single_character]. apply Nat.ltb_ge in E.
  apply Nat.leb_le in E. rewrite E. reflexivity.
Qed.

Lemma variable_or_constant_ends hd body l variable :
  lexer_ready hd body l ->
  ends (variable_or_constant hd l variable)
    (rule_post hd body l [if variable then SYM_VARIABLE else SYM_CONSTANT]).
Proof.
  intros Hr. unfold variable_or_constant. expect_step H.
  cbn [use node_new replicate].
  pose proof (took_accepted _ _ _ _ _ H) as Ha. unfold accepted_as in Ha.
  set (type := if variable then SYM_VARIABLE else SYM_CONSTANT).
  assert (lexer_ready hd body (set_accepted l0 None)) as Hr1 by eauto.
  (* the initial value, then the modifier *)
  assert (forall sym ctype l2,
             (sym, ctype) ∈ [(LEX_LITERAL, SYM_LITERAL);
                             (LEX_STRING, SYM_STRING)] ->
             took hd body sym (set_accepted l0 None) l2 ->
             ends ('(b, l3) ← accept hd (set_accepted l2 None) LEX_HIDDEN;
                   if b : bool then
                     if has (node_bits
                               (Node type 0 (l_accepted l0) None
                                  [Some (Node ctype 0 (l_accepted l2) None [])]))
                          DEFINE_HIDDEN
                     then Rejected hidden_bit_already_set
                     else Parsed
                            (or_bits
                               (Node type 0 (l_accepted l0) None
                                  [Some (Node ctype 0 (l_accepted l2) None [])])
                               DEFINE_HIDDEN, l3)
                   else Parsed
                          (Node type 0 (l_accepted l0) None
                             [Some (Node ctype 0 (l_accepted l2) None [])], l3))
               (rule_post hd body l [type])) as Hvalue.
  { intros sym ctype l2 Hsym Ht2.
    pose proof (took_trans _ _ _ _ _ _ _ _ H Ht2) as (Ha2 & Hr2 & Hl2).
    unfold accepted_as in Ha2.
    assert (lexer_ready hd body (set_accepted l2 None)) as Hr3 by eauto.
    assert (forall bits,
               bits ∈ [0; DEFINE_HIDDEN] ->
               tree_ok hd
                 (Node type bits (l_accepted l0) None
                    [Some (Node ctype 0 (l_accepted l2) None [])]) = true
               /\ flat body
                    (Node type bits (l_accepted l0) None
                       [Some (Node ctype 0 (l_accepted l2) None [])]) = true)
      as Htree.
    { intros bits Hbits.
      cbn [tree_ok forallb child_ok]. unfold shape.
      cbn [fmap list_fmap option_map node_type].
      apply (bool_decide_eq_true_2 _) in Hbits.
      repeat (apply elem_of_cons in Hsym as [[= -> ->]|Hsym];
              [rewrite Ha2; subst type; destruct variable;
               rewrite Ha, Hbits; (split; [reflexivity|]);
               destruct body; reflexivity|]).
      inversion Hsym. }
    accept_step H3.
    - cbn [node_bits or_bits]. change (has 0 DEFINE_HIDDEN) with false.
      cbv iota. cbn [ends]. destruct H3 as (_ & Hr4 & Hl4).
      rewrite tokens_left_set_accepted in Hl4.
      split; [apply Htree; repeat constructor|].
      split; [cbn; constructor|].
      split; [apply Htree; repeat constructor|].
      split; [exact Hr4|]. cbn [snd]. lia.
    - cbn [ends]. split; [apply Htree; repeat constructor|].
      split; [cbn; constructor|].
      split; [apply Htree; repeat constructor|].
      split; [exact Hr3|]. cbn [snd].
      rewrite tokens_left_set_accepted. lia. }
  accept_step H2.
  - cbn [defined_by_token use node_new replicate set_child length Nat.ltb
         Nat.leb mbind parsed_bind pbind]. cbv iota.
    cbn [list_insert insert mbind parsed_bind pbind].
    eapply Hvalue; [|exact H2]; repeat constructor.
  - apply ends_bind. expect_step H2.
    cbn [defined_by_token use node_new replicate set_child length Nat.ltb
         Nat.leb mbind parsed_bind pbind]. cbv iota.
    cbn [list_insert insert mbind parsed_bind pbind ends].
    eapply Hvalue; [|exact H2]; repeat constructor.
Qed.
Lemma rule_post_inv hd body l type r :
  rule_post hd body l [type] r ->
  tree_ok hd r.1 = true /\ node_type r.1 = type /\ flat body r.1 = true
  /\ lexer_ready hd body r.2 /\ (tokens_left r.2 <= tokens_left l)%nat.
Proof.
  intros (H1 & H2 & H3 & H4 & H5). apply list_elem_of_singleton in H2. auto.
Qed.

Section RuleLemmas.

Context (hd : header) (statements : lexer_t -> parsed (node_t * lexer_t)).
Context (m : nat) (body : bool).
Context (Hst : forall l,
            lexer_ready hd body l -> (tokens_left l < m)%nat ->
            ends (statements l) (rule_post hd body l [SYM_STATEMENTS])).

(** One call of [statements] inside a rule. *)
Ltac statements_step c Htree Hty Hr Hl :=
  apply ends_bind; eapply ends_mono; [apply Hst; [eauto|lia]|];
  let l' := fresh "l" in
  let H := fresh "H" in
  let Hflat := fresh "Hflat" in
  intros [c l'] _ H;
  apply rule_post_inv in H as (Htree & Hty & Hflat & Hr & Hl);
  cbn [fst snd] in Htree, Hty, Hflat, Hr, Hl; cbv beta iota.

Ltac took_inv H Hr Hl :=
  let Ha := fresh "Ha" in
  destruct H as (Ha & Hr & Hl); clear Ha.

Ltac tree_done :=
  unfold rule_post;
  cbn [fst snd tree_ok forallb child_ok shape fmap list_fmap option_map
       node_type];
  repeat match goal with
         | H : node_type _ = _ |- _ => rewrite H
         | H : tree_ok _ _ = true |- _ => rewrite H
         end;
  split; [reflexivity|]; split; [repeat constructor|];
  split; [unfold flat in *; destruct body;
          cbn [no_definition definitions_flat forallb child_ok];
          repeat match goal with
                 | H : no_definition _ = true |- _ => rewrite H
                 | H : definitions_flat _ = true |- _ => rewrite H
                 end; reflexivity|];
  split; [assumption|lia].

Lemma for_next_ends l :
  lexer_ready hd body l -> (tokens_left l < m)%nat ->
  ends (for_next hd statements l)
    (rule_post hd body l [SYM_FOR_NEXT; SYM_FOR_AFT_THEN_NEXT]).
Proof.
  intros Hr Hl. unfold for_next.
  statements_step c0 Ht0 Hty0 Hr0 Hl0.
  cbn [node_new replicate set_child length Nat.ltb Nat.leb list_insert insert
       mbind parsed_bind pbind]. cbv iota.
  cbn [list_insert insert mbind parsed_bind pbind].
  accept_step H1.
  - took_inv H1 Hr1 Hl1.
    cbn [set_type node_grow app]. apply ends_bind.
    statements_step c1 Ht1 Hty1 Hr2 Hl2.
    cbn [set_child length Nat.ltb Nat.leb mbind parsed_bind pbind]. cbv iota.
    cbn [list_insert insert mbind parsed_bind pbind node_grow app].
    expect_step H3. took_inv H3 Hr3 Hl3.
    statements_step c2 Ht2 Hty2 Hr4 Hl4.
    cbn [set_child length Nat.ltb Nat.leb mbind parsed_bind pbind]. cbv iota.
    cbn [list_insert insert mbind parsed_bind pbind ends].
    expect_step H5. took_inv H5 Hr5 Hl5. cbn [ends]. tree_done.
  - cbn [mbind parsed_bind pbind]. expect_step H1. took_inv H1 Hr1 Hl1.
    cbn [ends]. tree_done.
Qed.
Lemma begin_ends l :
  lexer_ready hd body l -> (tokens_left l < m)%nat ->
  ends (begin hd statements l)
    (rule_post hd body l [SYM_BEGIN_UNTIL; SYM_BEGIN_AGAIN; SYM_BEGIN_WHILE_REPEAT]).
Proof.
  intros Hr Hl. unfold begin.
  statements_step c0 Ht0 Hty0 Hr0 Hl0.
  cbn [node_new replicate set_child length Nat.ltb Nat.leb list_insert insert
       mbind parsed_bind pbind]. cbv iota.
  cbn [list_insert insert mbind parsed_bind pbind].
  accept_step H1.
  { took_inv H1 Hr1 Hl1. cbn [set_type ends]. tree_done. }
  accept_step H1.
  - took_inv H1 Hr1 Hl1. cbn [set_type node_grow app].
    statements_step c1 Ht1 Hty1 Hr2 Hl2.
    cbn [set_child length Nat.ltb Nat.leb mbind parsed_bind pbind]. cbv iota.
    cbn [list_insert insert mbind parsed_bind pbind].
    expect_step H3. took_inv H3 Hr3 Hl3. cbn [ends]. tree_done.
  - expect_step H1. took_inv H1 Hr1 Hl1. cbn [ends]. tree_done.
Qed.

Lemma if1_ends l :
  lexer_ready hd body l -> (tokens_left l < m)%nat ->
  ends (if1 hd statements l) (rule_post hd body l [SYM_IF1]).
Proof.
  intros Hr Hl. unfold if1.
  statements_step c0 Ht0 Hty0 Hr0 Hl0.
  cbn [node_new replicate set_child length Nat.ltb Nat.leb list_insert insert
       mbind parsed_bind pbind]. cbv iota.
  cbn [list_insert insert mbind parsed_bind pbind].
  accept_step H1.
  - took_inv H1 Hr1 Hl1. apply ends_bind.
    statements_step c1 Ht1 Hty1 Hr2 Hl2.
    cbn [set_child length Nat.ltb Nat.leb mbind parsed_bind pbind]. cbv iota.
    cbn [list_insert insert mbind parsed_bind pbind ends].
    expect_step H3. took_inv H3 Hr3 Hl3. cbn [ends]. tree_done.
  - cbn [mbind parsed_bind pbind]. expect_step H1. took_inv H1 Hr1 Hl1.
    cbn [ends]. tree_done.
Qed.

End RuleLemmas.

Lemma or_bits_below bits b :
  0 <= bits < 8 -> b ∈ [DEFINE_IMMEDIATE; DEFINE_HIDDEN; DEFINE_INLINE] ->
  0 <= Z.lor bits b < 8.
Proof.
  intros Hb Hin. change 8 with (2 ^ 3). apply lor_below; [lia|exact Hb|].
  repeat (apply elem_of_cons in Hin as [->|Hin]; [vm_compute; split; congruence|]).
  inversion Hin.
Qed.

(** The modifiers after a definition: each one takes a token.  The body
    [c] was parsed inside the definition, the modifiers stand outside. *)
Lemma define_again_ends hd turns : forall l0 l bits token c,
  lexer_ready hd false l -> (tokens_left l < turns)%nat ->
  (tokens_left l <= tokens_left l0)%nat ->
  token_in hd [LEX_IDENTIFIER; LEX_STRING] token = true ->
  0 <= bits < 8 ->
  tree_ok hd c = true -> node_type c = SYM_STATEMENTS ->
  no_definition c = true ->
  ends (define_again hd turns l (Node SYM_DEFINITION bits token None [Some c]))
    (rule_post hd false l0 [SYM_DEFINITION]).
Proof.
  induction turns as [|turns IH]; intros l0 l bits token c Hr Hturns Hl Htok
    Hbits Htree Hty Hflat; [lia|].
  cbn [define_again].
  assert (forall b l1 sym,
             b ∈ [DEFINE_IMMEDIATE; DEFINE_HIDDEN; DEFINE_INLINE] ->
             took hd false sym l l1 ->
             ends (define_again hd turns l1
                     (or_bits (Node SYM_DEFINITION bits token None [Some c]) b))
               (rule_post hd false l0 [SYM_DEFINITION])) as Hagain.
  { intros b l1 sym Hb (_ & Hr1 & Hl1). cbn [or_bits].
    apply IH; try assumption; [lia|lia|apply or_bits_below; assumption]. }
  accept_step H1.
  { cbn [node_bits]. destruct (has bits DEFINE_IMMEDIATE); [exact I|].
    eapply Hagain; [|exact H1]; repeat constructor. }
  accept_step H1.
  { cbn [node_bits]. destruct (has bits DEFINE_HIDDEN); [exact I|].
    eapply Hagain; [|exact H1]; repeat constructor. }
  accept_step H1.
  { cbn [node_bits]. destruct (has bits DEFINE_INLINE); [exact I|].
    eapply Hagain; [|exact H1]; repeat constructor. }
  cbn [ends]. unfold rule_post.
  cbn [fst snd tree_ok forallb child_ok shape fmap list_fmap option_map
       node_type].
  rewrite Htok, Hty, Htree.
  destruct (0 <=? bits) eqn:E0; [|apply Z.leb_gt in E0; lia].
  destruct (bits <? 8) eqn:E8; [|apply Z.ltb_ge in E8; lia].
  split; [reflexivity|]. split; [constructor|].
  split; [unfold flat; cbn [definitions_flat forallb child_ok];
          rewrite Hflat; reflexivity|].
  split; [exact Hr|exact Hl].
Qed.

(** A definition: the name and the body stand inside it, and what follows
    the semicolon outside. *)
Lemma define_ends hd (statements : lexer_t -> parsed (node_t * lexer_t)) m
    turns l :
  (forall l,
      lexer_ready hd true l -> (tokens_left l < m)%nat ->
      ends (statements l) (rule_post hd true l [SYM_STATEMENTS])) ->
  lexer_ready hd true l -> (tokens_left l < m)%nat ->
  (tokens_left l < turns)%nat ->
  ends (define hd statements turns l) (rule_post hd false l [SYM_DEFINITION]).
Proof.
  intros Hst Hr Hl Hturns. unfold define.
  assert (forall sym l1,
             sym ∈ [LEX_IDENTIFIER; LEX_STRING] ->
             took hd true sym l l1 ->
             ends ('(c, l2) ← statements (set_accepted l1 None);
                   r ← set_child
                         (Node SYM_DEFINITION 0 (l_accepted l1) None [None])
                         0 c;
                   l2 ← expect hd l2 LEX_ENDDEFINE;
                   define_again hd turns l2 r)
               (rule_post hd false l [SYM_DEFINITION])) as Hbody.
  { intros sym l1 Hsym (Ha1 & Hr1 & Hl1). unfold accepted_as in Ha1.
    pose proof (token_in_weaken _ _ [LEX_IDENTIFIER; LEX_STRING] _ Ha1 Hsym)
      as Htok.
    assert (lexer_ready hd true (set_accepted l1 None)) as Hr1' by eauto.
    apply ends_bind. eapply ends_mono;
      [apply Hst; [exact Hr1'|rewrite tokens_left_set_accepted; lia]|].
    intros [c l2] _ H.
    apply rule_post_inv in H as (Htree & Hty & Hflat & Hr2 & Hl2).
    cbn [fst snd] in Htree, Hty, Hflat, Hr2, Hl2. cbv beta iota.
    rewrite tokens_left_set_accepted in Hl2.
    cbn [set_child length Nat.ltb Nat.leb mbind parsed_bind pbind]. cbv iota.
    cbn [list_insert insert mbind parsed_bind pbind].
    expect_step H3. destruct H3 as (_ & Hr3 & Hl3).
    apply define_again_ends; try assumption; lia. }
  accept_step H1.
  { cbn [mbind parsed_bind pbind use node_new replicate].
    eapply Hbody; [|exact H1]; repeat constructor. }
  apply ends_bind.
  eapply ends_mono; [eapply expect_ends; [eassumption|discriminate]|].
  intros l1 _ H1. cbn [next_context] in H1.
  cbn [mbind parsed_bind pbind use node_new replicate].
  eapply Hbody; [|exact H1]; repeat constructor.
Qed.

(** *** The loop of [statements] *)

Lemma grow_set_child done c :
  set_child
    (node_grow (Node SYM_STATEMENTS 0 None None ((Some <$> done) ++ [None; None])))
    (length done) c
  = Parsed (Node SYM_STATEMENTS 0 None None
              ((Some <$> (done ++ [c])) ++ [None; None])).
Proof.
  cbn [node_grow set_child].
  assert (length done < length (((Some <$> done) ++ [None; None]) ++ [None]))%nat
    as Hlt by (rewrite !length_app, length_fmap; cbn; lia).
  apply Nat.ltb_lt in Hlt. rewrite Hlt. do 2 f_equal.
  rewrite <- app_assoc. rewrite insert_app_r_alt by (rewrite length_fmap; lia).
  rewrite length_fmap, Nat.sub_diag, fmap_app, <- app_assoc. reflexivity.
Qed.

Lemma statements_tree_ok hd done :
  Forall (fun c => tree_ok hd c = true /\ is_statement (node_type c) = true)
    done ->
  tree_ok hd
    (node_grow (Node SYM_STATEMENTS 0 None None ((Some <$> done) ++ [None; None])))
  = true.
Proof.
  intros Hdone. cbn [node_grow tree_ok shape]. rewrite <- app_assoc.
  cbn [app bool_decide decide_rel]. apply andb_true_intro. split.
  - apply andb_true_intro. split; [reflexivity|].
    induction Hdone as [|c done [_ Hc] _ IH]; [reflexivity|].
    cbn [fmap list_fmap app option_map statement_kinds]. rewrite Hc. exact IH.
  - induction Hdone as [|c done [Hc _] _ IH]; [reflexivity|].
    cbn [fmap list_fmap app forallb child_ok]. rewrite Hc. exact IH.
Qed.

Lemma statements_flat body done :
  Forall (fun c => flat body c = true) done ->
  flat body
    (node_grow (Node SYM_STATEMENTS 0 None None ((Some <$> done) ++ [None; None])))
  = true.
Proof.
  intros Hdone. unfold flat in *.
  destruct body; cbn [node_grow no_definition definitions_flat];
    rewrite <- app_assoc; cbn [app bool_decide decide_rel negb andb];
    (induction Hdone as [|c done Hc _ IH]; [reflexivity|]);
    cbn [fmap list_fmap app forallb child_ok]; rewrite Hc; exact IH.
Qed.

Lemma set_type_location hd body c :
  tree_ok hd c = true -> node_type c = SYM_VARIABLE -> flat body c = true ->
  tree_ok hd (set_type c SYM_LOCATION) = true
  /\ node_type (set_type c SYM_LOCATION) = SYM_LOCATION
  /\ flat body (set_type c SYM_LOCATION) = true.
Proof.
  destruct c as [ty b tk v o]. cbn [node_type set_type]. intros H -> Hf.
  split; [exact H|]. split; [reflexivity|]. destruct body; exact Hf.
Qed.

Lemma accept_range_from_ends hd body ks : forall l,
  lexer_ready hd body l ->
  ends (accept_range_from hd l ks)
    (fun r => if r.1 then exists k, took hd body (LEX_INSTRUCTION k) l r.2
              else r.2 = l).
Proof.
  induction ks as [|k ks IH]; intros l Hr; cbn [accept_range_from];
    [reflexivity|].
  accept_step H; [cbn [ends fst snd]; eauto|]. apply IH, Hr.
Qed.

Lemma accept_range_ends hd body l high :
  lexer_ready hd body l ->
  ends (accept_range hd l 0 high)
    (fun r => if r.1 then exists k, took hd body (LEX_INSTRUCTION k) l r.2
              else r.2 = l).
Proof.
  intros Hr. unfold accept_range. cbn [Nat.leb assert lift mbind parsed_bind pbind].
  apply accept_range_from_ends, Hr.
Qed.

Lemma defined_by_token_statement hd body l0 l sym type :
  took hd body sym l0 l ->
  (sym, type) ∈ [(LEX_LITERAL, SYM_LITERAL); (LEX_LABEL, SYM_LABEL);
                 (LEX_IDENTIFIER, SYM_CALL_DEFINITION);
                 (LEX_BUILT_IN, SYM_BUILT_IN); (LEX_STRING, SYM_STRING)]
  \/ (exists k, sym = LEX_INSTRUCTION k) /\ type = SYM_INSTRUCTION ->
  rule_post hd body l [type] (defined_by_token l type).
Proof.
  intros Ht Hty.
  destruct (defined_by_token_post hd body l0 l sym type Ht Hty)
    as (H1 & H2 & H3 & H4 & _).
  split; [exact H1|]. split; [exact H2|]. split; [exact H3|].
  split; [exact H4|]. reflexivity.
Qed.

Ltac leaf_kind := left; repeat constructor.

Ltac statement_types :=
  let ty := fresh "ty" in
  let Hin := fresh "Hin" in
  intros ty Hin;
  repeat (apply elem_of_cons in Hin as [->|Hin]; [reflexivity|]);
  inversion Hin.

(** The loop of [statements] comes back with a [SYM_STATEMENTS] node of the
    grammar when the turns counted are more than the tokens to go; inside
    the body of a definition it takes no colon, so that the node holds no
    definition. *)
Lemma statements_again_ends hd turns : forall body l0 l done,
  lexer_ready hd body l -> (tokens_left l < turns)%nat ->
  (tokens_left l <= tokens_left l0)%nat ->
  Forall (fun c => tree_ok hd c = true /\ is_statement (node_type c) = true
                   /\ flat body c = true) done ->
  ends (statements_again hd turns l
          (Node SYM_STATEMENTS 0 None None ((Some <$> done) ++ [None; None]))
          (length done))
    (rule_post hd body l0 [SYM_STATEMENTS]).
Proof.
  induction turns as [|turns IH]; intros body l0 l done Hr Hturns Hl Hdone;
    [lia|].
  cbn [statements_again]. cbv zeta.
  set (R := node_grow (Node SYM_STATEMENTS 0 None None
                         ((Some <$> done) ++ [None; None]))).
  assert (forall (pc : parsed (node_t * lexer_t)) l1 types,
             (forall ty, ty ∈ types -> is_statement ty = true) ->
             (tokens_left l1 < tokens_left l)%nat ->
             ends pc (rule_post hd body l1 types) ->
             ends (pc ≫= fun '(c, l2) =>
                     set_child R (length done) c ≫= fun r =>
                       statements_again hd turns l2 r (S (length done)))
               (rule_post hd body l0 [SYM_STATEMENTS])) as Hnext.
  { intros pc l1 types Htypes Hl1 Hpc. apply ends_bind.
    eapply ends_mono; [exact Hpc|].
    intros [c l2] _ (Htree & Hty & Hflat & Hr2 & Hl2). cbn [fst snd] in *.
    cbv beta iota. subst R. rewrite grow_set_child.
    cbn [mbind parsed_bind pbind].
    replace (S (length done)) with (length (done ++ [c]))
      by (rewrite length_app; cbn; lia).
    apply IH; [exact Hr2|lia|lia|].
    apply Forall_app. split; [exact Hdone|]. constructor; [|constructor].
    split; [exact Htree|]. split; [apply Htypes, Hty|exact Hflat]. }
  assert (forall body' l',
             lexer_ready hd body' l' -> (tokens_left l' < turns)%nat ->
             ends (statements_again hd turns l' (node_new SYM_STATEMENTS 2) 0)
               (rule_post hd body' l' [SYM_STATEMENTS])) as Hst.
  { intros body' l' Hr' Hl'.
    apply (IH body' l' l' []); [exact Hr'|lia|lia|constructor]. }
  assert (forall sym l1, took hd body sym l l1 ->
                         lexer_ready hd body l1
                         /\ (tokens_left l1 < tokens_left l)%nat
                         /\ (tokens_left l1 < turns)%nat) as Htook.
  { intros sym l1 (_ & H1 & H2). split; [exact H1|]. lia. }
  accept_step H; [destruct (Htook _ _ H) as (Hr1 & Hl1 & Ht1)|].
  { eapply Hnext; [|exact Hl1|apply jump_ends; [exact Hr1|repeat constructor]].
    statement_types. }
  accept_step H; [destruct (Htook _ _ H) as (Hr1 & Hl1 & Ht1)|].
  { eapply Hnext; [|exact Hl1|apply jump_ends; [exact Hr1|repeat constructor]].
    statement_types. }
  accept_step H; [destruct (Htook _ _ H) as (Hr1 & Hl1 & Ht1)|].
  { eapply Hnext; [|exact Hl1|apply jump_ends; [exact Hr1|repeat constructor]].
    statement_types. }
  accept_step H; [destruct (Htook _ _ H) as (Hr1 & Hl1 & Ht1)|].
  { eapply (Hnext _ l1 [SYM_LITERAL]); [statement_types|exact Hl1|].
    apply (defined_by_token_statement _ _ _ _ _ _ H). leaf_kind. }
  accept_step H; [destruct (Htook _ _ H) as (Hr1 & Hl1 & Ht1)|].
  { eapply (Hnext _ l1 [SYM_LABEL]); [statement_types|exact Hl1|].
    apply (defined_by_token_statement _ _ _ _ _ _ H). leaf_kind. }
  accept_step H; [destruct (Htook _ _ H) as (Hr1 & Hl1 & Ht1)|].
  { eapply (Hnext _ l1 [SYM_CONSTANT]); [statement_types|exact Hl1|].
    apply (variable_or_constant_ends hd body l1 false Hr1). }
  accept_step H; [destruct (Htook _ _ H) as (Hr1 & Hl1 & Ht1)|].
  { eapply (Hnext _ l1 [SYM_VARIABLE]); [statement_types|exact Hl1|].
    apply (variable_or_constant_ends hd body l1 true Hr1). }
  accept_step H; [destruct (Htook _ _ H) as (Hr1 & Hl1 & Ht1)|].
  { eapply (Hnext _ l1 [SYM_LOCATION]); [statement_types|exact Hl1|].
    apply ends_bind.
    eapply ends_mono; [apply (variable_or_constant_ends hd body l1 true Hr1)|].
    intros [c l2] _ Hc.
    apply rule_post_inv in Hc as (Htree & Hty & Hflat & Hr2 & Hl2).
    cbn [fst snd] in Htree, Hty, Hflat, Hr2, Hl2. cbv beta iota. cbn [ends].
    destruct (set_type_location hd body c Htree Hty Hflat)
      as (Htree' & Hty' & Hflat').
    split; [exact Htree'|]. split; [cbn [fst]; rewrite Hty'; constructor|].
    split; [exact Hflat'|]. split; [exact Hr2|exact Hl2]. }
  accept_step H; [destruct (Htook _ _ H) as (Hr1 & Hl1 & Ht1)|].
  { eapply (Hnext _ l1 [SYM_IF1]); [statement_types|exact Hl1|].
    apply (if1_ends hd _ turns body (Hst body) l1 Hr1 Ht1). }
  apply ends_bind; eapply ends_mono;
    [eapply accept_ends; [eassumption|discriminate]|].
  intros [[] l1] _ H; cbn [fst snd] in H; [|subst l1]; cbv beta iota.
  { destruct H as [Hmay H]. cbn [next_context] in H.
    destruct body; [exfalso; apply Hmay; reflexivity|].
    destruct H as (Ha1 & Hr1 & Hl1).
    eapply (Hnext _ l1 [SYM_DEFINITION]); [statement_types|exact Hl1|].
    apply (define_ends hd _ turns turns l1 (Hst true) Hr1); lia. }
  accept_step H; [destruct (Htook _ _ H) as (Hr1 & Hl1 & Ht1)|].
  { eapply (Hnext _ l1 [SYM_CHAR]); [statement_types|exact Hl1|].
    apply (char_compile_ends hd body l1 Hr1). }
  accept_step H; [destruct (Htook _ _ H) as (Hr1 & Hl1 & Ht1)|].
  { eapply (Hnext _ l1 [SYM_BEGIN_UNTIL; SYM_BEGIN_AGAIN; SYM_BEGIN_WHILE_REPEAT]); [statement_types|exact Hl1|].
    apply (begin_ends hd _ turns body (Hst body) l1 Hr1 Ht1). }
  accept_step H; [destruct (Htook _ _ H) as (Hr1 & Hl1 & Ht1)|].
  { eapply (Hnext _ l1 [SYM_FOR_NEXT; SYM_FOR_AFT_THEN_NEXT]); [statement_types|exact Hl1|].
    apply (for_next_ends hd _ turns body (Hst body) l1 Hr1 Ht1). }
  accept_step H; [destruct (Htook _ _ H) as (Hr1 & Hl1 & Ht1)|].
  { eapply (Hnext _ l1 [SYM_QUOTE]); [statement_types|exact Hl1|].
    apply (quote_ends hd body l1 Hr1). }
  accept_step H; [destruct (Htook _ _ H) as (Hr1 & Hl1 & Ht1)|].
  { eapply (Hnext _ l1 [SYM_CALL_DEFINITION]); [statement_types|exact Hl1|].
    apply (defined_by_token_statement _ _ _ _ _ _ H). leaf_kind. }
  accept_step H; [destruct (Htook _ _ H) as (Hr1 & Hl1 & Ht1)|].
  { eapply (Hnext _ l1 [SYM_PWD]); [statement_types|exact Hl1|].
    apply (literal_or_identifier_ends hd body l1 SYM_PWD Hr1). repeat constructor. }
  accept_step H; [destruct (Htook _ _ H) as (Hr1 & Hl1 & Ht1)|].
  { eapply (Hnext _ l1 [SYM_SET]); [statement_types|exact Hl1|].
    apply (set_ends hd body l1 Hr1). }
  accept_step H; [destruct (Htook _ _ H) as (Hr1 & Hl1 & Ht1)|].
  { eapply (Hnext _ l1 [SYM_PC]); [statement_types|exact Hl1|].
    apply (literal_or_identifier_ends hd body l1 SYM_PC Hr1). repeat constructor. }
  accept_step H; [destruct (Htook _ _ H) as (Hr1 & Hl1 & Ht1)|].
  { eapply (Hnext _ l1 [SYM_MODE]); [statement_types|exact Hl1|].
    apply (mode_ends hd body l1 Hr1). }
  accept_step H; [destruct (Htook _ _ H) as (Hr1 & Hl1 & Ht1)|].
  { eapply (Hnext _ l1 [SYM_ALLOCATE]); [statement_types|exact Hl1|].
    apply (allocate_ends hd body l1 Hr1). }
  accept_step H; [destruct (Htook _ _ H) as (Hr1 & Hl1 & Ht1)|].
  { eapply (Hnext _ l1 [SYM_BUILT_IN]); [statement_types|exact Hl1|].
    apply (defined_by_token_statement _ _ _ _ _ _ H). leaf_kind. }
  apply ends_bind. eapply ends_mono; [apply (accept_range_ends hd body), Hr|].
  intros [[] l1] _ H; cbn [fst snd] in H; [|subst l1]; cbv beta iota.
  { destruct H as [k H]. destruct (Htook _ _ H) as (Hr1 & Hl1 & Ht1).
    eapply (Hnext _ l1 [SYM_INSTRUCTION]); [statement_types|exact Hl1|].
    apply (defined_by_token_statement _ _ _ _ _ _ H). right. eauto. }
  cbn [ends]. split; [apply statements_tree_ok|].
  { eapply Forall_impl; [|exact Hdone]. intros c (H1 & H2 & _). auto. }
  split; [constructor|]. split; [apply statements_flat|].
  { eapply Forall_impl; [|exact Hdone]. intros c (_ & _ & H3). exact H3. }
  split; [exact Hr|exact Hl].
Qed.

(** *** The whole input *)

Lemma lexer_ends hd l :
  ends (lift (lexer hd l)) (lexed hd l (length (l_input l))).
Proof.
  apply ends_lift. eapply passes_mono; [exact (lexer_passes _ _)|].
  intros l' El _. apply lexer_lexed, El.
Qed.

(** The first token is lexed with the flag clear: the parser starts
    outside a definition. *)
Lemma lexed_outside hd l n l' :
  l_in_definition l = false -> lexed hd l n l' -> lexer_ready hd false l'.
Proof.
  intros Hflag ((tk & Etk & Hok & Hstep) & _). exists tk.
  split; [exact Etk|]. split; [exact Hok|].
  rewrite Hflag in Hstep.
  apply (in_body_next false LEX_EOI false); [|exact Hstep].
  split; [discriminate|split; discriminate].
Qed.

(** A tree of the grammar with a [SYM_PROGRAM] node at its root, and no
    definition inside a definition. *)
Lemma program_ends hd turns l :
  l_in_definition l = false ->
  (length (l_input l) < turns)%nat ->
  ends (program hd turns l)
    (fun r => tree_ok hd r.1 = true /\ node_type r.1 = SYM_PROGRAM
              /\ definitions_flat r.1 = true).
Proof.
  intros Hflag Hturns. unfold program. apply ends_bind.
  eapply ends_mono; [apply lexer_ends|].
  intros l1 _ Hlexed. pose proof (lexed_outside _ _ _ _ Hflag Hlexed) as Hr1.
  destruct Hlexed as (_ & _ & Hl1). cbv beta.
  apply ends_bind. unfold statements.
  eapply ends_mono;
    [apply (statements_again_ends hd turns false l1 l1 []);
     [exact Hr1|lia|lia|constructor]|].
  intros [c l2] _ H.
  apply rule_post_inv in H as (Htree & Hty & Hflat & Hr2 & _).
  cbn [fst snd] in Htree, Hty, Hflat, Hr2. cbv beta iota.
  cbn [node_new replicate set_child length Nat.ltb Nat.leb mbind parsed_bind
       pbind]. cbv iota. cbn [list_insert insert mbind parsed_bind pbind].
  apply ends_bind. unfold expect, accept. destruct Hr2 as (tk & -> & _).
  cbn [defined lift mbind parsed_bind pbind].
  destruct (bool_decide (LEX_EOI = tok_type tk)); [|exact I].
  rewrite (bool_decide_eq_true_2 (LEX_EOI = LEX_EOI) eq_refl).
  cbn [mbind parsed_bind pbind ends fst]. split; [|split; [reflexivity|]].
  - cbn [tree_ok forallb child_ok]. rewrite Htree. unfold shape.
    cbn [fmap list_fmap option_map]. rewrite Hty. reflexivity.
  - unfold flat in Hflat. cbn [definitions_flat forallb child_ok].
    rewrite Hflat. reflexivity.
Qed.

Lemma parse_ends hd input :
  ends (parse hd input)
    (fun n => tree_ok hd n = true /\ node_type n = SYM_PROGRAM
              /\ definitions_flat n = true).
Proof.
  unfold parse. apply ends_bind.
  eapply ends_mono;
    [apply program_ends; [reflexivity|cbn [lexer_new l_input]; lia]|].
  intros [n l] _ H. exact H.
Qed.

(** ** The assembler on the trees of the grammar *)

Lemma passes_assoc {A B C} (m : result A) (k1 : A -> result B)
    (k2 : B -> result C) (Q : C -> Prop) :
  passes (m ≫= fun x => k1 x ≫= k2) Q -> passes ((m ≫= k1) ≫= k2) Q.
Proof. destruct m; cbn; trivial. Qed.

(** What is known of the flags, put together. *)
Ltac flags :=
  unfold same_flag, same_flag_table in *;
  cbn [fst snd in_definition update_fence set_fence set_pwd set_mode
       set_built_in_words_defined set_do_r_minus_one set_do_var set_do_const
       set_in_definition] in *;
  first [exact I|reflexivity|assumption|congruence].

(** The steps that are no calls: values, errors, tests. *)
Ltac pass_pure :=
  match goal with
  | |- passes (Ok _) _ => cbn [passes]; flags
  | |- passes (Fail (Thrown _)) _ => split; discriminate
  | |- passes (Fail Assertion) _ => split; discriminate
  | |- passes (Fail UndefinedBehaviour) _ => split; discriminate
  | |- passes (assert ?b) _ => destruct b; cbn [assert]
  | |- passes (defined ?o) _ => destruct o; cbn [defined]
  | |- passes (let '(_, _) := ?x in _) _ => destruct x
  | |- passes (if ?b then _ else _) _ => destruct b
  | |- passes (match ?x with _ => _ end) _ => destruct x
  end.

(** The steps of a function of the assembler, one after the other; [call]
    knows the functions that are called. *)
Ltac pass_with call :=
  repeat first
    [ pass_pure
    | match goal with
      | |- passes (mbind _ (mbind _ _)) _ => apply passes_assoc
      | |- passes (mbind _ (Ok _)) _ => cbn [mbind result_bind rbind]
      end
    | match goal with
      | |- passes (mbind _ _) _ =>
          apply passes_bind; eapply passes_mono; [solve [call]|]
      end;
      let x := fresh "x" in
      let H := fresh "Hflag" in
      intros x _ H; cbv beta;
      repeat match goal with
             | y : (_ * _)%type |- _ => destruct y
             end;
      cbn [fst snd] in *
    | eapply passes_mono; [solve [call]|];
      let x := fresh "x" in
      let H := fresh "Hflag" in
      intros x _ H;
      repeat match goal with
             | y : (_ * _)%type |- _ => destruct y
             end;
      flags ].

Section Passes.

Context (hd : header).

Lemma token_id_passes tok : passes (token_id tok) (fun _ => True).
Proof. unfold token_id. repeat pass_pure. Qed.

Lemma token_number_passes tok : passes (token_number tok) (fun _ => True).
Proof. unfold token_number. repeat pass_pure. Qed.

Lemma symbol_table_add_passes t ty id v hid :
  passes (symbol_table_add t ty id v hid) (fun _ => True).
Proof. unfold symbol_table_add. repeat pass_pure. Qed.

Lemma emit_passes h i : passes (emit h i) (fun _ => True).
Proof.
  unfold emit. destruct (store _ _ _); cbn; [exact I|split; discriminate].
Qed.

Lemma here_passes h a : passes (here hd h a) (same_flag a).
Proof. unfold here. destruct (_ <? _); cbn; [flags|split; discriminate]. Qed.

Lemma hole_passes h a : passes (hole hd h a) (same_flag a).
Proof.
  unfold hole, here. destruct (_ <? _); cbn; [flags|split; discriminate].
Qed.

Lemma fix_passes h hl p : passes (fix_ hd h hl p) (fun _ => True).
Proof.
  unfold fix_. destruct (_ <? _); cbn; [|split; discriminate].
  destruct (store _ _ _); cbn; [exact I|split; discriminate].
Qed.

Lemma generate_passes h a i : passes (generate hd h a i) (same_flag a).
Proof.
  unfold generate.
  set (a1 := if IS_CALL i || IS_LITERAL i || IS_0BRANCH i || IS_BRANCH i
             then update_fence a (pc h) else a).
  assert (in_definition a1 = in_definition a) as Ha1
    by (subst a1; destruct (_ || _); reflexivity).
  clearbody a1. unfold emit.
  destruct (has _ _ && negb _); [destruct (load _ _); cbn|];
    repeat match goal with
           | |- passes (if ?b then _ else _) _ => destruct b
           | |- context [store ?c ?i ?v] =>
               destruct (store c i v);
               cbn [defined mbind result_bind rbind passes]
           end;
    first [flags|split; discriminate].
Qed.

Ltac call_leaf :=
  first
    [ apply here_passes | apply hole_passes | apply fix_passes
    | apply generate_passes | apply token_id_passes
    | apply token_number_passes | apply symbol_table_add_passes
    | apply emit_passes ].

Lemma generate_literal_passes h a n :
  passes (generate_literal hd h a n) (same_flag a).
Proof. unfold generate_literal. pass_with call_leaf. Qed.

Lemma generate_all_passes ws : forall h a,
  passes (generate_all hd h a ws) (same_flag a).
Proof.
  induction ws as [|w ws IH]; intros h a; cbn [generate_all]; [flags|].
  apply passes_bind. eapply passes_mono; [apply generate_passes|].
  intros [h1 a1] _ H1. cbv beta iota.
  eapply passes_mono; [apply IH|]. intros [h2 a2] _ H2. flags.
Qed.

Lemma fill_holes_passes vs : forall h a,
  passes (fill_holes hd h a vs) (same_flag a).
Proof.
  induction vs as [|v vs IH]; intros h a; cbn [fill_holes]; [flags|].
  apply passes_bind. eapply passes_mono; [apply hole_passes|].
  intros [[hl h1] a1] _ H1. cbv beta iota.
  destruct (store _ _ _); cbn; [|split; discriminate].
  eapply passes_mono; [apply IH|]. intros [h2 a2] _ H2. flags.
Qed.

Lemma pack_string_passes h a s : passes (pack_string hd h a s) (same_flag a).
Proof.
  unfold pack_string. destruct (_ >? 255); [split; discriminate|].
  pass_with ltac:(first [apply fill_holes_passes|call_leaf]).
Qed.

Lemma generate_loop_decrement_passes h a t :
  passes (generate_loop_decrement hd h a t) (same_flag a).
Proof.
  unfold generate_loop_decrement.
  match goal with
  | |- context [set_do_r_minus_one a ?v] =>
      assert (in_definition (set_do_r_minus_one a v) = in_definition a)
        as Ha by reflexivity;
      generalize dependent (set_do_r_minus_one a v)
  end.
  intros a1 Ha1.
  destruct (do_r_minus_one a1) as [s|];
    [destruct (has (mode a1) MODE_OPTIMIZATION_ON)|];
    (eapply passes_mono;
     [first [apply generate_passes|apply generate_all_passes]|]);
    intros [h2 a2] _ H2; flags.
Qed.

Lemma word_header_passes h a f id :
  passes (word_header hd h a f id) (same_flag a).
Proof.
  unfold word_header.
  pass_with ltac:(first [apply pack_string_passes|call_leaf]).
Qed.

Ltac call_helper :=
  first
    [ call_leaf | apply generate_literal_passes | apply generate_all_passes
    | apply fill_holes_passes | apply pack_string_passes
    | apply generate_loop_decrement_passes | apply word_header_passes ].

Lemma assemble_location_passes ty token o0 h a t :
  passes (assemble_location hd ty token o0 h a t) (same_flag_table a).
Proof.
  unfold assemble_location.
  apply passes_bind. eapply passes_mono; [apply here_passes|].
  intros [v a1] _ H1. cbv beta iota.
  destruct (node_token o0) as [init|]; cbn [defined];
    [|split; discriminate].
  cbn [mbind result_bind rbind].
  destruct (tok_type init); try (split; discriminate);
    pass_with call_helper.
Qed.

Lemma assemble_variable_passes bits token o0 h a t :
  passes (assemble_variable hd bits token o0 h a t) (same_flag_table a).
Proof.
  unfold assemble_variable. apply passes_bind.
  eapply (passes_mono _ (same_flag a)).
  - destruct (_ && _ && _).
    + match goal with
      | |- context [set_do_var a ?v] =>
          assert (in_definition (set_do_var a v) = in_definition a)
            as Ha by reflexivity;
          generalize dependent (set_do_var a v)
      end.
      intros a1 Ha1. destruct (do_var a1); [|split; discriminate].
      pass_with call_helper.
    + destruct (negb _); [split; discriminate|flags].
  - intros [h1 a1] _ H1. cbv beta iota.
    eapply passes_mono; [apply assemble_location_passes|].
    intros [[h2 a2] t2] _ H2. flags.
Qed.

Lemma assemble_constant_passes bits token o0 h a t :
  passes (assemble_constant hd bits token o0 h a t) (same_flag_table a).
Proof.
  unfold assemble_constant. apply passes_bind.
  eapply (passes_mono _ (same_flag a)).
  - destruct (_ && _ && _); [|flags].
    match goal with
    | |- context [set_do_const a ?v] =>
        assert (in_definition (set_do_const a v) = in_definition a)
          as Ha by reflexivity;
        generalize dependent (set_do_const a v)
    end.
    intros a1 Ha1. destruct (do_const a1); [|split; discriminate].
    pass_with call_helper.
  - intros [h1 a1] _ H1. cbv beta iota. pass_with call_helper.
Qed.

Lemma literal_or_symbol_lookup_passes token t :
  passes (literal_or_symbol_lookup token t) (fun _ => True).
Proof.
  unfold literal_or_symbol_lookup.
  destruct token as [tk|]; cbn [defined mbind result_bind rbind];
    [|split; discriminate].
  destruct (tok_type tk); try (split; discriminate).
  - pass_with call_helper.
  - apply passes_bind. eapply passes_mono; [apply token_id_passes|].
    intros id _ _. destruct (symbol_table_lookup t id);
      [exact I|split; discriminate].
Qed.

Lemma assemble_set_passes token value h a t :
  passes (assemble_set hd token value h a t) (fun _ => True).
Proof.
  unfold assemble_set.
  apply passes_bind.
  eapply passes_mono; [apply literal_or_symbol_lookup_passes|].
  intros location _ _.
  destruct value as [vt|]; cbn [defined mbind result_bind rbind];
    [|split; discriminate].
  apply passes_bind. eapply (passes_mono _ (fun _ => True));
    [|intros; apply fix_passes].
  assert (passes
            (id ← token_id (Some vt);
             match symbol_table_lookup t id with
             | Some l =>
                 Ok (if bool_decide (sym_type l = SYMBOL_TYPE_CALL)
                     then u16 (Z.shiftl (sym_value l) 1) else sym_value l)
             | None => symbol_special h a id
             end) (fun _ => True)) as Hid.
  { apply passes_bind. eapply passes_mono; [apply token_id_passes|].
    intros id _ _. destruct (symbol_table_lookup t id); [exact I|].
    unfold symbol_special. repeat pass_pure. }
  destruct (tok_type vt); first [apply token_number_passes|exact Hid].
Qed.

Lemma built_in_loop_passes ws : forall h a t,
  passes (built_in_loop hd ws h a t) (same_flag_table a).
Proof.
  induction ws as [|w ws IH]; intros h a t; cbn [built_in_loop]; [flags|].
  destruct (negb (compile w)); [apply IH|].
  apply passes_bind. eapply (passes_mono _ (same_flag a)).
  { destruct (negb _); [apply word_header_passes|flags]. }
  intros [h1 a1] _ H1. cbv beta iota.
  apply passes_bind. eapply passes_mono; [apply here_passes|].
  intros [entry a2] _ H2. cbv beta iota.
  apply passes_bind. eapply passes_mono; [apply symbol_table_add_passes|].
  intros t1 _ _.
  apply passes_bind. eapply passes_mono; [apply generate_all_passes|].
  intros [h2 a3] _ H3. cbv beta iota.
  apply passes_bind. eapply passes_mono; [apply generate_passes|].
  intros [h3 a4] _ H4. cbv beta iota.
  eapply passes_mono; [apply IH|]. intros [[h5 a5] t5] _ H5. flags.
Qed.

(** A jump on a token that [jump] accepted. *)
Lemma generate_jump_passes h a t tok type :
  token_in hd [LEX_LITERAL; LEX_STRING; LEX_IDENTIFIER] tok = true ->
  type ∈ [SYM_BRANCH; SYM_0BRANCH; SYM_CALL] ->
  passes (generate_jump hd h a t tok type) (same_flag a).
Proof.
  intros Htok Hty. unfold generate_jump, token_in in *.
  destruct tok as [tk|]; [|discriminate].
  cbn [defined mbind result_bind rbind].
  apply andb_prop in Htok as [_ Htk]. apply bool_decide_eq_true in Htk.
  apply passes_bind. eapply (passes_mono _ (fun _ => True)).
  - repeat (apply elem_of_cons in Htk as [->|Htk];
            [first [apply token_number_passes
                   |apply passes_bind; eapply passes_mono;
                    [apply token_id_passes|];
                    intros id _ _; destruct (symbol_table_lookup t id);
                    [destruct (_ && _)|]; first [exact I|split; discriminate]]|]).
    inversion Htk.
  - intros addr _ _.
    destruct (addr >? MAX_PROGRAM hd); [split; discriminate|].
    repeat (apply elem_of_cons in Hty as [->|Hty];
            [cbn [mbind result_bind rbind]; apply generate_passes|]).
    inversion Hty.
Qed.

(** An instruction token has its word in the mnemonic table. *)
Lemma lexer_to_alu_op_passes tk :
  is_instruction hd (Some tk) = true ->
  passes (lexer_to_alu_op hd (tok_type tk)) (fun _ => True).
Proof.
  unfold is_instruction, token_ok, lexer_to_alu_op. intros H.
  apply andb_prop in H as [Hok Hty].
  destruct (tok_type tk) as [| | | | | | | | | | | | | | | | | | | | | | | | | | | | | | | | | |k| |];
    try discriminate.
  destruct (tok_p tk); try discriminate. apply Nat.ltb_lt in Hok.
  destruct (lookup_lt_is_Some_2 _ _ Hok) as [[[nm c] w] ->]. exact I.
Qed.

End Passes.

Ltac call_helper :=
  first
    [ apply here_passes | apply hole_passes | apply fix_passes
    | apply generate_passes | apply token_id_passes
    | apply token_number_passes | apply symbol_table_add_passes
    | apply emit_passes | apply generate_literal_passes
    | apply generate_all_passes | apply fill_holes_passes
    | apply pack_string_passes | apply generate_loop_decrement_passes
    | apply word_header_passes ].

Lemma statement_kinds_children o :
  statement_kinds (option_map node_type <$> o) = true ->
  Forall (fun c => match c with
                   | Some m => is_statement (node_type m) = true
                   | None => True
                   end) o.
Proof.
  induction o as [|c o IH]; intros H; [constructor|].
  cbn [fmap list_fmap statement_kinds] in H. destruct c as [m|].
  - cbn [option_map] in H. apply andb_prop in H as [Hm H].
    constructor; [exact Hm|apply IH, H].
  - clear IH. destruct o as [|[m|] [|[m'|] [|? ?]]]; try discriminate H.
    repeat constructor.
Qed.

Lemma is_statement_not_string type :
  is_statement type = true -> type <> SYM_STRING.
Proof. intros H ->. discriminate H. Qed.

(** The children of a node whose children are [SYM_STATEMENTS] nodes: one
    list of types among a few. *)
Ltac kinds_inv H o :=
  apply bool_decide_eq_true in H;
  repeat (apply elem_of_cons in H as [H|H];
          [destruct o as [|[?m|] [|[?m|] [|[?m|] [|? ?]]]]; try discriminate H;
           cbn [fmap list_fmap option_map] in H;
           injection H as H|]);
  try (inversion H; fail).

Lemma flat_children body type bits token value o :
  type <> SYM_DEFINITION ->
  flat body (Node type bits token value o) = true ->
  Forall (fun c => match c with
                   | Some m => flat body m = true
                   | None => True
                   end) o.
Proof.
  intros Hty H. unfold flat in *.
  assert (forallb (child_ok (if body then no_definition else definitions_flat))
            o = true) as Hall.
  { destruct body; cbn [no_definition definitions_flat] in H.
    - apply andb_prop in H as [_ H]. exact H.
    - rewrite bool_decide_eq_false_2 in H by exact Hty. exact H. }
  clear H. induction o as [|c o IH]; constructor.
  - cbn [forallb] in Hall. apply andb_prop in Hall as [Hc _].
    destruct c as [m|]; [|exact I]. destruct body; exact Hc.
  - apply IH. cbn [forallb] in Hall. apply andb_prop in Hall as [_ H].
    exact H.
Qed.

Section AssemblePasses.

Context (hd : header).

Lemma assemble_children_passes o :
  Forall (child_passes hd) o ->
  forall h a t,
    Forall (fun c => match c with
                     | Some m => flat (in_definition a) m = true
                     | None => True
                     end) o ->
    passes (assemble_children hd o h a t) (same_flag_table a).
Proof.
  induction 1 as [|c o Hc _ IH]; intros h a t Hflat; cbn [assemble_children];
    [flags|].
  inversion Hflat as [|? ? Hfc Hfo]; subst.
  apply passes_bind. eapply (passes_mono _ (same_flag_table a)).
  - destruct c as [m|]; [apply Hc, Hfc|flags].
  - intros [[h1 a1] t1] _ H1. cbv beta iota.
    eapply passes_mono.
    + apply IH. unfold same_flag_table in H1. cbn [fst snd] in H1.
      rewrite H1. exact Hfo.
    + intros [[h2 a2] t2] _ H2. flags.
Qed.

Ltac call_child :=
  match goal with
  | IH : forall h a t, flat (in_definition a) ?m = true -> _
    |- passes (assemble _ ?m _ _ _) _ =>
      apply IH; unfold same_flag, same_flag_table in *;
      cbn [fst snd in_definition update_fence set_fence set_pwd set_mode
           set_built_in_words_defined set_do_r_minus_one set_do_var
           set_do_const set_in_definition] in *;
      congruence
  end.

Ltac call_any :=
  first
    [ call_helper | call_child
    | apply assemble_set_passes | apply assemble_variable_passes
    | apply assemble_constant_passes | apply assemble_location_passes
    | apply built_in_loop_passes | apply literal_or_symbol_lookup_passes ].

(** The assembler on a tree of the grammar: it reaches none of its calls
    of [fatal], it finds no definition inside a definition, and it comes
    back inside a definition or outside one as it was called. *)
Lemma assemble_passes n :
  tree_ok hd n = true -> node_type n <> SYM_STRING ->
  forall h a t,
    flat (in_definition a) n = true ->
    passes (assemble hd n h a t) (same_flag_table a).
Proof.
  induction n as [type bits token value o IH] using node_induction.
  intros Htree Hty. cbn [tree_ok] in Htree.
  apply andb_prop in Htree as [Hshape Hkids]. cbn [node_type] in Hty.
  destruct (decide (type = SYM_STATEMENTS)) as [->|Hst].
  { intros h a t Hflat. rewrite assemble_statements_eq.
    destruct (pc h >? MAX_PROGRAM hd); [split; discriminate|].
    apply assemble_children_passes;
      [|exact (flat_children _ SYM_STATEMENTS _ _ _ _ ltac:(discriminate) Hflat)].
    unfold shape in Hshape. apply andb_prop in Hshape as [_ Hk].
    apply statement_kinds_children in Hk. clear -IH Hk Hkids.
    induction o as [|c o IHo]; constructor.
    - inversion IH as [|? ? IHc _]; inversion Hk as [|? ? Hc _]; subst.
      cbn [forallb] in Hkids. apply andb_prop in Hkids as [Hkc _].
      destruct c as [m|]; [|exact I].
      exact (IHc Hkc (is_statement_not_string _ Hc)).
    - inversion IH; inversion Hk; subst. cbn [forallb] in Hkids.
      apply andb_prop in Hkids as [_ Hko]. apply IHo; assumption. }
  (* the children that are there are [SYM_STATEMENTS] nodes or leaves *)
  assert (forall m, Some m ∈ o -> node_type m = SYM_STATEMENTS ->
                    child_passes hd (Some m)) as Hsub.
  { intros m Hin Hm. clear -IH Hkids Hin Hm.
    induction o as [|c o IHo]; [inversion Hin|].
    inversion IH as [|? ? IHc IHo']; subst. cbn [forallb] in Hkids.
    apply andb_prop in Hkids as [Hkc Hko].
    apply elem_of_cons in Hin as [<-|Hin].
    - exact (IHc Hkc ltac:(rewrite Hm; discriminate)).
    - apply IHo; assumption. }
  clear IH Hkids.
  intros h a t Hflat. cbn [assemble].
  destruct (pc h >? MAX_PROGRAM hd); [destruct type; split; discriminate|].
  destruct (decide (type = SYM_DEFINITION)) as [->|Hdef].
  { (* a definition: the assembler is outside one, and the body holds
       none *)
    unfold shape in Hshape.
    repeat match goal with
           | H : (_ && _) = true |- _ =>
               let H' := fresh "Hs" in apply andb_prop in H as [H H']
           end.
    match goal with
    | H : bool_decide (_ <$> _ = _) = true |- _ =>
        apply bool_decide_eq_true in H;
        destruct o as [|[m|] [|? ?]]; try discriminate H; injection H as H;
        pose proof (Hsub m ltac:(repeat constructor) H) as IHm
    end.
    cbn [child_passes] in IHm.
    destruct (in_definition a) eqn:Ea; [discriminate Hflat|].
    unfold flat in Hflat. cbn [definitions_flat forallb child_ok] in Hflat.
    apply andb_prop in Hflat as [Hm _].
    destruct (_ && _); [split; discriminate|].
    apply passes_bind. eapply passes_mono; [apply token_id_passes|].
    intros id _ _. apply passes_bind.
    eapply (passes_mono _ (same_flag a)).
    { destruct (_ && _); [|flags]. pass_with ltac:(call_helper). }
    intros [[bits1 h1] a1] _ H1. cbv beta iota.
    apply passes_bind. eapply passes_mono; [apply here_passes|].
    intros [entry a2] _ H2. cbv beta iota.
    apply passes_bind. eapply passes_mono; [apply symbol_table_add_passes|].
    intros t1 _ _.
    assert (in_definition a2 = false) as -> by flags.
    apply passes_bind. eapply passes_mono; [apply IHm; exact Hm|].
    intros [[h3 a3] t3] _ H3. cbv beta iota.
    apply passes_bind. eapply passes_mono; [apply generate_passes|].
    intros [h4 a4] _ H4. cbv beta iota. cbn [passes].
    unfold same_flag_table. cbn [fst snd set_in_definition in_definition].
    symmetry. exact Ea. }
  pose proof (flat_children _ _ _ _ _ _ Hdef Hflat) as Hfo. clear Hflat.
  unfold shape in Hshape.
  destruct type; try congruence;
    repeat match goal with
           | H : (_ && _) = true |- _ =>
               let H' := fresh "Hs" in apply andb_prop in H as [H H']
           end.
  all: try match goal with
           | H : bool_decide (_ ∈ _) = true |- _ => kinds_inv H o
           end.
  all: repeat match goal with
              | H : node_type ?m = SYM_STATEMENTS |- _ =>
                  let IHm := fresh "IH" in
                  pose proof (Hsub m ltac:(repeat constructor) H) as IHm;
                  cbn [child_passes] in IHm; clear H
              end.
  all: repeat match goal with
              | H : Forall _ (_ :: _) |- _ =>
                  let H1 := fresh "Hf" in
                  let H2 := fresh "Hf" in
                  inversion H as [|? ? H1 H2]; subst; clear H
              | H : Forall _ [] |- _ => clear H
              end.
  all: try (pass_with call_any; fail).
  all: try match goal with
           | H : token_in _ _ _ = true
             |- passes (generate_jump _ _ _ _ _ _ ≫= _) _ =>
               apply passes_bind; eapply passes_mono;
               [apply generate_jump_passes; [exact H|repeat constructor]|];
               intros [? ?] _ ?; flags
           end.
  destruct token as [tk|]; [|discriminate].
  cbn [defined mbind result_bind rbind].
  apply passes_bind. eapply passes_mono;
    [apply lexer_to_alu_op_passes; assumption|].
  intros w _ _. pass_with call_any.
Qed.

End AssemblePasses.
(** ** From the source text to the image *)

(** X17. The lexer and the parser come to an end on every input.  Each
    jump back to [again] in [statements] and in [define], and each nested
    call of [statements], follows a token that was accepted, so the turns
    that the model counts over all of them, nested calls included, are
    never used up once they are more than the characters of the input: the
    outcome is a tree, a syntax error or a failure of the lexer.  In the
    lexer each jump back to [again] follows a character read, so with as
    many turns as there are characters left its outcome is that of any
    greater number of turns. *)
Theorem parse_terminates (hd : header) (input : list ascii) (turns : nat) :
  (length input < turns)%nat ->
  program hd turns (lexer_new input) <> Turns_used_up
  /\ forall l m, (length (l_input l) <= m)%nat ->
       lexer_again hd m l (l_line l) (l_input l) (l_line l) = lexer hd l.
Proof.
  intros Hturns. split.
  - intros E.
    pose proof (program_ends hd turns (lexer_new input) eq_refl Hturns) as H.
    rewrite E in H. exact H.
  - intros l m Hm. unfold lexer. apply lexer_again_fuel; [exact Hm|lia].
Qed.

Lemma parse_terminates_witness :
  program example_header 4
    (lexer_new (String.list_ascii_of_string "1 x"))
  <> Turns_used_up
  /\ forall l m, (length (l_input l) <= m)%nat ->
       lexer_again example_header m l (l_line l) (l_input l) (l_line l)
       = lexer example_header l.
Proof.
  apply (parse_terminates example_header
           (String.list_ascii_of_string "1 x") 4).
  simpl. lia.
Defined.

(** X18. Every tree that [parse] returns is a tree of the grammar
    [tree_ok] with a [SYM_PROGRAM] node at its root: each node has the
    number of children of its type, the children that the assembler reads
    are there and are [SYM_STATEMENTS] nodes, a [SYM_STATEMENTS] node holds
    its statements followed by three null pointers, and each token is of a
    type that its rule accepts and holds what that type of token holds. *)
Theorem parse_tree_of_grammar (hd : header) (input : list ascii) (n : node_t) :
  parse hd input = Parsed n ->
  tree_ok hd n = true /\ node_type n = SYM_PROGRAM.
Proof.
  intros E. pose proof (parse_ends hd input) as H. rewrite E in H.
  destruct H as (H1 & H2 & _). split; assumption.
Qed.

Lemma parse_tree_of_grammar_witness :
  exists n,
    parse example_header (String.list_ascii_of_string "if 1 then") = Parsed n
    /\ tree_ok example_header n = true /\ node_type n = SYM_PROGRAM.
Proof.
  eexists. split; [vm_compute; reflexivity|].
  apply (parse_tree_of_grammar example_header
           (String.list_ascii_of_string "if 1 then")).
  vm_compute. reflexivity.
Defined.

(** X19. Whatever the source text and the symbols given,
    [h2_assemble_core] does not end in one of the calls of [fatal] of the
    lexer and the assembler (a character that is no digit in [number], a
    node of unknown type, a jump on a token without a target, an
    instruction token without a word): no text makes the parser build a
    tree that takes the assembler there.  The calls of [fatal] on a
    failed allocation are not among them: the model has no bound on
    memory. *)
Theorem h2_assemble_core_not_fatal (hd : header) (input : list ascii)
    (symbols : option symbol_table_t) :
  h2_assemble_core hd input symbols <> Failed Fatal.
Proof.
  unfold h2_assemble_core. pose proof (parse_ends hd input) as H.
  destruct (parse hd input) as [n|f|m|]; cbn [mbind parsed_bind pbind];
    cbn [ends] in H; try discriminate;
    [|intros [= ->]; destruct H as [H _]; apply H; reflexivity].
  destruct H as (Htree & Hty & Hflat). unfold code.
  pose proof (assemble_passes hd n Htree ltac:(rewrite Hty; discriminate)
                (h2_new hd (START_ADDR hd))
                (set_fence assembler_zero (pc (h2_new hd (START_ADDR hd))))
                (default [] symbols) Hflat) as Hn.
  destruct (assemble hd n _ _ _) as [[[h a] t]|f] eqn:E;
    cbn [mbind result_bind rbind lift]; [discriminate|].
  intros [= ->]. destruct Hn as [Hn _]. apply Hn. reflexivity.
Qed.

(** X20. Definitions do not nest in a tree that [parse] returns: below a
    [SYM_DEFINITION] node there is no [SYM_DEFINITION] node.  The lexer
    keeps the parser from it: it is one token ahead, and inside the body
    of a definition it refuses the colon before the parser sees it. *)
Theorem parse_definitions_flat (hd : header) (input : list ascii)
    (n : node_t) :
  parse hd input = Parsed n -> definitions_flat n = true.
Proof.
  intros E. pose proof (parse_ends hd input) as H. rewrite E in H.
  destruct H as (_ & _ & H). exact H.
Qed.

Lemma parse_definitions_flat_witness :
  exists n,
    parse example_header (String.list_ascii_of_string ": a 1 ; : b a ;")
    = Parsed n
    /\ definitions_flat n = true.
Proof.
  eexists. split; [vm_compute; reflexivity|].
  apply (parse_definitions_flat example_header
           (String.list_ascii_of_string ": a 1 ; : b a ;")).
  vm_compute. reflexivity.
Defined.

(** X21. The error [nested word definition] of the assembler is never
    the outcome of [h2_assemble_core]: the assembler starts outside a
    definition, every tree it is given comes from [parse], and in such a
    tree no definition stands inside a definition. *)
Theorem h2_assemble_core_not_nested (hd : header) (input : list ascii)
    (symbols : option symbol_table_t) :
  h2_assemble_core hd input symbols
  <> Failed (Thrown nested_word_definition).
Proof.
  unfold h2_assemble_core. pose proof (parse_ends hd input) as H.
  destruct (parse hd input) as [n|f|m|] eqn:Ep;
    cbn [mbind parsed_bind pbind]; cbn [ends] in H; try discriminate.
  - destruct H as (Htree & Hty & Hflat). unfold code.
    pose proof (assemble_passes hd n Htree ltac:(rewrite Hty; discriminate)
                  (h2_new hd (START_ADDR hd))
                  (set_fence assembler_zero (pc (h2_new hd (START_ADDR hd))))
                  (default [] symbols) Hflat) as Hn.
    destruct (assemble hd n _ _ _) as [[[h a] t]|f] eqn:E;
      cbn [mbind result_bind rbind lift]; [discriminate|].
    intros [= ->]. destruct Hn as [_ Hn]. apply Hn. reflexivity.
  - intros [= ->]. destruct H as [_ H]. apply H. reflexivity.
Qed.

(** ** Reserved words *)

(** X22. Each of the thirty reserved words of the table [keywords] before
    the instruction mnemonics, standing as a bare word, lexes to the token
    of its own type with no payload.  The colon and the semicolon are
    checked against the flag [in_definition] by the lexer itself: a colon
    inside a definition and a semicolon outside one are syntax errors,
    otherwise the colon sets the flag and the semicolon clears it; no
    other reserved word touches the flag. *)
Theorem lexer_reserved_word (hd : header) (l : lexer_t) (kw : string)
    (sym : token_e) (rest : list ascii) :
  (kw, sym) ∈ named_tokens ->
  ends_word rest ->
  l_input l = String.list_ascii_of_string kw ++ rest ->
  lexer hd l
  = let token_with flag :=
      Ok {| l_input := rest; l_line := l_line l;
            l_token := Some {| tok_p := p_none; tok_line := l_line l;
                               tok_type := sym |};
            l_accepted := l_accepted l; l_in_definition := flag |} in
    match sym with
    | LEX_DEFINE =>
        if l_in_definition l
        then Fail (Thrown nested_definitions_are_not_allowed)
        else token_with true
    | LEX_ENDDEFINE =>
        if l_in_definition l
        then token_with false
        else Fail (Thrown use_of_semicolon_not_terminating_word_definition)
    | _ => token_with (l_in_definition l)
    end.
Proof.
  intros Hkw Hend Hin. unfold named_tokens in Hkw.
  repeat (apply elem_of_cons in Hkw as [[= -> ->]|Hkw];
          [cbn [String.list_ascii_of_string] in Hin;
           match type of Hin with
           | _ = (?c :: ?w) ++ _ =>
               rewrite (lexer_word hd l c w rest eq_refl eq_refl
                          ltac:(cbn [length]; lia) Hend Hin)
           end;
           unfold classify;
           match goal with
           | |- context [number ?w] =>
               change (number w) with (@Ok (option Z) None)
           end;
           cbn [mbind result_bind rbind String.string_of_list_ascii];
           unfold keywords; rewrite keyword_lookup_app;
           match goal with
           | |- context [keyword_lookup named_tokens ?k] =>
               let r := eval vm_compute in (keyword_lookup named_tokens k) in
               change (keyword_lookup named_tokens k) with r
           end;
           reflexivity|]).
  inversion Hkw.
Qed.

Lemma lexer_reserved_word_witness :
  lexer example_header
    {| l_input := String.list_ascii_of_string "; x";
       l_line := 3; l_token := None; l_accepted := None;
       l_in_definition := false |}
  = Fail (Thrown use_of_semicolon_not_terminating_word_definition).
Proof.
  apply (lexer_reserved_word example_header
           {| l_input := String.list_ascii_of_string "; x";
              l_line := 3; l_token := None; l_accepted := None;
              l_in_definition := false |}
           ";" LEX_ENDDEFINE (String.list_ascii_of_string " x")).
  - unfold named_tokens. repeat constructor.
  - reflexivity.
  - reflexivity.
Defined.
(** ** A source text of one number *)

Lemma accept_other hd l tk sym :
  l_token l = Some tk -> sym <> tok_type tk ->
  accept hd l sym = Parsed (false, l).
Proof.
  intros Etk Hne. unfold accept. rewrite Etk.
  cbn [defined lift mbind parsed_bind pbind].
  rewrite bool_decide_eq_false_2 by exact Hne. reflexivity.
Qed.

Lemma accept_same hd l tk sym l' :
  l_token l = Some tk -> sym = tok_type tk -> sym <> LEX_EOI ->
  lexer hd (set_accepted l (Some tk)) = Ok l' ->
  accept hd l sym = Parsed (true, l').
Proof.
  intros Etk Hty Hne El. unfold accept. rewrite Etk.
  cbn [defined lift mbind parsed_bind pbind].
  rewrite bool_decide_eq_true_2 by exact Hty.
  rewrite bool_decide_eq_false_2 by exact Hne.
  rewrite El. reflexivity.
Qed.

Lemma accept_range_from_other hd l tk ks :
  l_token l = Some tk ->
  (forall k, tok_type tk <> LEX_INSTRUCTION k) ->
  accept_range_from hd l ks = Parsed (false, l).
Proof.
  intros Etk Hne. induction ks as [|k ks IH]; [reflexivity|].
  cbn [accept_range_from].
  rewrite (accept_other hd l tk) by (try exact Etk; intros E; eapply Hne; eauto).
  cbn [mbind parsed_bind pbind]. exact IH.
Qed.

(** At the end of the input [statements] takes its last turn. *)
Lemma statements_again_end hd turns l tk r i :
  l_token l = Some tk -> tok_type tk = LEX_EOI ->
  statements_again hd (S turns) l r i = Parsed (node_grow r, l).
Proof.
  intros Etk Hty. cbn [statements_again]. cbv zeta.
  repeat (rewrite (accept_other hd l tk) by (try exact Etk; rewrite Hty; discriminate);
          cbn [mbind parsed_bind pbind]).
  unfold accept_range. cbn [Nat.leb assert lift mbind parsed_bind pbind].
  rewrite (accept_range_from_other hd l tk)
    by (try exact Etk; intros k; rewrite Hty; discriminate).
  reflexivity.
Qed.

(** A turn of [statements] on a number. *)
Lemma statements_again_literal hd turns l tk l' r i :
  l_token l = Some tk -> tok_type tk = LEX_LITERAL ->
  lexer hd (set_accepted l (Some tk)) = Ok l' ->
  statements_again hd (S turns) l r i
  = (r' ← set_child (node_grow r) i
            (Node SYM_LITERAL 0 (l_accepted l') None []);
     statements_again hd turns (set_accepted l' None) r' (S i)).
Proof.
  intros Etk Hty El. cbn [statements_again]. cbv zeta.
  repeat (rewrite (accept_other hd l tk) by (try exact Etk; rewrite Hty; discriminate);
          cbn [mbind parsed_bind pbind]).
  rewrite (accept_same hd l tk LEX_LITERAL l' Etk (eq_sym Hty)
             ltac:(discriminate) El).
  reflexivity.
Qed.

Lemma digit_starts_word c : isdigit c = true -> starts_word c = true.
Proof.
  intros H. unfold starts_word. rewrite (isdigit_isgraph c H).
  unfold isdigit in H. apply andb_prop in H as [H1 H2].
  apply Z.leb_le in H1, H2.
  replace (char_code c =? 92) with false by (symmetry; apply Z.eqb_neq; lia).
  replace (char_code c =? 40) with false by (symmetry; apply Z.eqb_neq; lia).
  replace (char_code c =? 34) with false by (symmetry; apply Z.eqb_neq; lia).
  reflexivity.
Qed.

(** The tree of a text that is one decimal number. *)
Lemma parse_decimal hd ds :
  ds <> [] -> forallb isdigit ds = true ->
  Z.of_nat (length ds) <= 255 ->
  parse hd ds
  = Parsed
      (Node SYM_PROGRAM 0 None None
         [Some (Node SYM_STATEMENTS 0 None None
                  [Some (Node SYM_LITERAL 0
                           (Some {| tok_p := p_number (decimal ds mod 65536);
                                    tok_line := 0;
                                    tok_type := LEX_LITERAL |})
                           None []);
                   None; None; None])]).
Proof.
  intros Hne Hd Hlen. destruct ds as [|c ds]; [contradiction|].
  pose proof Hd as Hd'. cbn [forallb] in Hd'. apply andb_prop in Hd' as [Hc Hds].
  destruct (number_decimal (c :: ds) Hne Hd) as [Hnum _].
  set (tk := {| tok_p := p_number (decimal (c :: ds) mod 65536); tok_line := 0;
                tok_type := LEX_LITERAL |}).
  assert (forall l, l_input l = c :: ds -> l_line l = 0 ->
                    lexer hd l
                    = Ok {| l_input := []; l_line := 0; l_token := Some tk;
                            l_accepted := l_accepted l;
                            l_in_definition := l_in_definition l |}) as Hlex.
  { intros l Hin Hline.
    rewrite (lexer_word hd l c ds [] (digit_starts_word c Hc)
               (forallb_isdigit_isgraph ds Hds) Hlen I)
      by (rewrite app_nil_r; exact Hin).
    unfold classify. rewrite Hnum, Hline. reflexivity. }
  unfold parse, program.
  rewrite (Hlex (lexer_new (c :: ds)) eq_refl eq_refl).
  cbn [lift mbind parsed_bind pbind lexer_new l_accepted l_in_definition].
  unfold statements. cbn [length].
  erewrite statements_again_literal; [|reflexivity|reflexivity|reflexivity].
  cbn [node_new replicate node_grow app set_child length Nat.ltb Nat.leb].
  cbv iota. cbn [list_insert insert mbind parsed_bind pbind].
  erewrite statements_again_end; [|reflexivity|reflexivity].
  cbn [node_grow app mbind parsed_bind pbind set_child length Nat.ltb Nat.leb].
  reflexivity.
Qed.

(** X23. From the text to the image.  A source text that is one decimal
    number below 32768, of at most 255 digits, goes through the lexer,
    the parser and the assembler, and [h2_assemble_core] returns the image
    of [h2_new] with one more cell written: the literal instruction of
    the number at the start address, with [pc] behind it. *)
Theorem h2_assemble_core_decimal (hd : header) (ds : list ascii)
    (symbols : option symbol_table_t) :
  sizes_ok hd ->
  ds <> [] -> forallb isdigit ds = true ->
  Z.of_nat (length ds) <= 255 ->
  decimal ds < 32768 ->
  h2_assemble_core hd ds symbols
  = Parsed {| core := <[Z.to_nat (START_ADDR hd)
                        := Z.lor OP_LITERAL (decimal ds)]>
                        (core (h2_new hd (START_ADDR hd)));
              pc := START_ADDR hd + 1;
              tos := 0;
              sp := VARIABLE_STACK_START hd;
              rp := RETURN_STACK_START hd |}.
Proof.
  intros Hsizes Hne Hd Hlen Hsmall. unfold h2_assemble_core.
  rewrite (parse_decimal hd ds Hne Hd Hlen).
  cbn [mbind parsed_bind pbind]. unfold code.
  pose proof Hsizes as (Hs1 & Hs2 & Hs3 & Hs4).
  set (h0 := h2_new hd (START_ADDR hd)).
  assert (pc h0 = START_ADDR hd) as Hpc by reflexivity.
  assert (in_core h0 (pc h0)) as Hin
    by (unfold in_core; subst h0; rewrite h2_new_length; lia).
  assert (0 <= decimal ds) as Hnn.
  { unfold decimal. clear -Hd.
    assert (forall acc, 0 <= acc ->
              0 <= fold_left (fun acc c => acc * 10 + digit_value c) ds acc)
      as H; [|apply H; lia].
    induction ds as [|c ds IH]; intros acc Hacc; [exact Hacc|].
    cbn [forallb] in Hd. apply andb_prop in Hd as [Hc Hds].
    cbn [fold_left]. apply IH; [exact Hds|].
    unfold isdigit in Hc. apply andb_prop in Hc as [H1 _].
    apply Z.leb_le in H1. unfold digit_value. lia. }
  rewrite Z.mod_small by lia.
  cbn [assemble]. rewrite (gtb_false (pc h0)) by lia.
  cbn [token_number tok_p mbind result_bind rbind].
  unfold generate_literal.
  assert (has (decimal ds) OP_LITERAL = false) as ->.
  { unfold has, OP_LITERAL. apply negb_false_iff, Z.eqb_eq.
    apply Z.bits_inj'. intros k Hk. rewrite Z.land_spec, Z.bits_0.
    change 32768 with (2 ^ 15).
    destruct (Z.eq_dec k 15) as [->|Hk15].
    - rewrite (Z.bits_above_log2 (decimal ds) 15); [reflexivity|lia|].
      destruct (Z.eq_dec (decimal ds) 0) as [->|Hz]; [cbn; lia|].
      apply Z.log2_lt_pow2; lia.
    - rewrite Z.pow2_bits_false by lia. apply andb_false_r. }
  rewrite generate_appends_at_fence by (try exact Hin; cbn; lia).
  cbn [mbind result_bind rbind lift]. rewrite Hpc, u16_small by lia.
  reflexivity.
Qed.

Lemma h2_assemble_core_decimal_witness :
  h2_assemble_core example_header (String.list_ascii_of_string "42") None
  = Parsed {| core := <[8%nat := 0x802A]> (core (h2_new example_header 8));
              pc := 9; tos := 0; sp := 8704; rp := 16384 |}.
Proof.
  apply (h2_assemble_core_decimal example_header
           (String.list_ascii_of_string "42") None).
  - unfold sizes_ok. simpl. lia.
  - discriminate.
  - reflexivity.
  - simpl. lia.
  - vm_compute. reflexivity.
Defined.
